(** * Algorithm visualizer: the step-recording engine and its sorting routines

    A shallow embedding of the TypeScript sources

    - [InstrumentedArray] (the instrumented container handed to user code),
    - [SimpleSorts], [EfficientSorts], [ImprovedSorts], [SpecializedSorts]
      and [NoveltySorts] (the built-in algorithms),

    followed by the properties of the recorded traces.

    Conventions of the embedding.

    - A JavaScript [number] is a [Z]: values, indices and loop counters are
      integers throughout the sources; fractional numbers and [NaN] are not
      modelled.
    - An [ArrayElement] is a mutable object.  Objects live in a store (a list
      indexed by address) and arrays hold addresses, so that two arrays built
      by spreading ([[...array]]) alias the same objects and an in-place write
      ([array[i].state = 'sorted'], [array[i].value = v]) is seen through all
      of them.
    - A step's [array] holds one [Slot] per position.  [Ref a] is a reference
      to the object at address [a] of the store.  [Own el] is a reference to
      an object that the step literal itself created with
      [{ ...el, state: s }]: no other reference to that object exists, so the
      record is kept in place.
    - A thrown exception is a [Throw] result; the [Error] messages are the
      strings of the source. *)

From Stdlib Require Import ZArith Lia.
From stdpp Require Import base tactics option list numbers strings pretty sorting.

Local Open Scope Z_scope.

(** ** Data model ([types]) *)

Inductive ElementState := st_default | st_comparing | st_swapping | st_sorted.

Global Instance ElementState_eq_dec : EqDecision ElementState.
Proof. solve_decision. Defined.

Record ArrayElement := {
  value : Z;
  id : string;
  state : ElementState
}.

Global Instance ArrayElement_eq_dec : EqDecision ArrayElement.
Proof. solve_decision. Defined.

(** [{ ...el, state: s }] and the in-place writes [el.state = s],
    [el.value = v]. *)
Definition with_state (s : ElementState) (el : ArrayElement) : ArrayElement :=
  {| value := value el; id := id el; state := s |}.

Definition with_value (v : Z) (el : ArrayElement) : ArrayElement :=
  {| value := v; id := id el; state := state el |}.

(** Addresses of the store. *)
Abbreviation loc := nat (only parsing).

Inductive Slot :=
| Ref (a : loc)
| Own (el : ArrayElement).

Global Instance Slot_eq_dec : EqDecision Slot.
Proof. solve_decision. Defined.

Record SortingStep := {
  array : list Slot;
  compareIndices : option (list Z);
  swapIndices : option (list Z);
  sortedIndices : option (list Z);
  description : string
}.

(** A step literal [{ array, description }]. *)
Definition plain_step (a : list Slot) (d : string) : SortingStep :=
  {| array := a; compareIndices := None; swapIndices := None;
     sortedIndices := None; description := d |}.

(** ** Exceptions *)

Inductive Exn :=
| Error (message : string)   (* throw new Error(message) *)
| TypeError                  (* a property of undefined is read or written *)
| RangeError                 (* new Array(n) with an invalid length *)
| Unmodelled                 (* a write outside an array, which would grow it *)
| OutOfFuel.                 (* the model's loop bound was too small *)

Inductive result (A : Type) :=
| Ok (a : A)
| Throw (e : Exn).
Arguments Ok {A} a.
Arguments Throw {A} e.

Global Instance result_ret : MRet result := @Ok.
Global Instance result_bind : MBind result := λ A B f m,
  match m with Ok a => f a | Throw e => Throw e end.
Global Instance result_fmap : FMap result := λ A B f m,
  match m with Ok a => Ok (f a) | Throw e => Throw e end.

Definition is_Ok {A} (m : result A) : Prop := ∃ a, m = Ok a.

(** ** The object store *)

(** [array[k]] for a number [k]: [undefined] outside the array. *)
Definition at_index {A} (l : list A) (k : Z) : option A :=
  if decide (0 ≤ k) then l !! Z.to_nat k else None.

(** [[a[i], a[j]] = [a[j], a[i]]] for positions inside the array. *)
Definition swap_at {A} (i j : Z) (arr : list A) : list A :=
  match at_index arr i, at_index arr j with
  | Some ai, Some aj => <[Z.to_nat j := ai]> (<[Z.to_nat i := aj]> arr)
  | _, _ => arr
  end.

(** Reading a property of [array[k]]: a [TypeError] on [undefined]. *)
Definition deref (h : list ArrayElement) (a : loc) : result ArrayElement :=
  match h !! a with Some el => Ok el | None => Throw TypeError end.

Definition elem_at (h : list ArrayElement) (arr : list loc) (k : Z)
  : result ArrayElement :=
  match at_index arr k with Some a => deref h a | None => Throw TypeError end.

(** [array.map((el, idx) => ({ ...el, state: f(idx) }))], from position
    [idx] on. *)
Fixpoint map_state (h : list ArrayElement) (f : Z → ElementState) (idx : Z)
    (arr : list loc) : result (list Slot) :=
  match arr with
  | [] => Ok []
  | a :: arr' =>
      el ← deref h a;
      rest ← map_state h f (idx + 1) arr';
      Ok (Own (with_state (f idx) el) :: rest)
  end.

(** [[...array]] as a step's array: the same objects. *)
Definition spread (arr : list loc) : list Slot := Ref <$> arr.

(** What a reader of a step finds in it, given the store. *)
Definition slot_view (h : list ArrayElement) (s : Slot) : option ArrayElement :=
  match s with Ref a => h !! a | Own el => Some el end.

Definition view (h : list ArrayElement) (s : SortingStep)
  : list (option ArrayElement) :=
  slot_view h <$> array s.

Definition view_values (h : list ArrayElement) (s : SortingStep) : list (option Z) :=
  fmap (M:=option) value <$> view h s.

Definition view_ids (h : list ArrayElement) (s : SortingStep) : list (option string) :=
  fmap (M:=option) id <$> view h s.

Definition view_states (h : list ArrayElement) (s : SortingStep)
  : list (option ElementState) :=
  fmap (M:=option) state <$> view h s.

(** [a || b] on strings: the empty string is falsy. *)
Definition or_else (a b : string) : string :=
  match a with EmptyString => b | _ => a end.

(** ** InstrumentedArray *)

Record InstrumentedArray := {
  ia_store : list ArrayElement;         (* the element objects *)
  ia_array : list loc;                  (* this.array *)
  ia_steps : list SortingStep;          (* this.steps *)
  ia_stepDescription : string           (* this.stepDescription *)
}.

Module IA.

Definition new (initialArray : list ArrayElement) : InstrumentedArray :=
  let arr := seq 0 (length initialArray) in
  {| ia_store := with_state st_default <$> initialArray;
     ia_array := arr;
     ia_steps := [plain_step (spread arr) "Starting custom algorithm"];
     ia_stepDescription := "" |}.

Definition setStepDescription (d : string) (this : InstrumentedArray)
  : InstrumentedArray :=
  {| ia_store := ia_store this; ia_array := ia_array this;
     ia_steps := ia_steps this; ia_stepDescription := d |}.

Definition length (this : InstrumentedArray) : Z :=
  Z.of_nat (List.length (ia_array this)).

Definition out_of_bounds (index : Z) : Exn :=
  Error ("Index " +:+ pretty index +:+ " out of bounds").

Definition invalid_indices (i j : Z) : Exn :=
  Error ("Invalid indices: " +:+ pretty i +:+ ", " +:+ pretty j).

Definition invalid_range (start end_ : Z) : Exn :=
  Error ("Invalid range: " +:+ pretty start +:+ " to " +:+ pretty end_).

Definition get (index : Z) (this : InstrumentedArray) : result Z :=
  if (index <? 0) || (index >=? length this) then Throw (out_of_bounds index)
  else value <$> elem_at (ia_store this) (ia_array this) index.

Definition push (s : SortingStep) (this : InstrumentedArray) : InstrumentedArray :=
  {| ia_store := ia_store this; ia_array := ia_array this;
     ia_steps := ia_steps this ++ [s];
     ia_stepDescription := ia_stepDescription this |}.

Definition clear (this : InstrumentedArray) : InstrumentedArray :=
  setStepDescription "" this.

(** [addStep(description?)]: [None] is a call without argument. *)
Definition addStep (d : option string) (this : InstrumentedArray)
  : InstrumentedArray :=
  clear (push (plain_step (spread (ia_array this))
                 (or_else (default "" d)
                    (or_else (ia_stepDescription this) "Algorithm step")))
           this).

(** A write to an element object, and a write to [this.array]. *)
Definition with_store (h : list ArrayElement) (this : InstrumentedArray)
  : InstrumentedArray :=
  {| ia_store := h; ia_array := ia_array this; ia_steps := ia_steps this;
     ia_stepDescription := ia_stepDescription this |}.

Definition with_array (arr : list loc) (this : InstrumentedArray)
  : InstrumentedArray :=
  {| ia_store := ia_store this; ia_array := arr; ia_steps := ia_steps this;
     ia_stepDescription := ia_stepDescription this |}.

(** [this.array[index].f = x]: the object is updated where it is. *)
Definition update (index : Z) (f : ArrayElement → ArrayElement)
    (this : InstrumentedArray) : result InstrumentedArray :=
  match at_index (ia_array this) index with
  | Some a =>
      el ← deref (ia_store this) a;
      Ok (with_store (<[a := f el]> (ia_store this)) this)
  | None => Throw TypeError
  end.

Definition set (index value : Z) (this : InstrumentedArray)
  : result InstrumentedArray :=
  if (index <? 0) || (index >=? length this) then Throw (out_of_bounds index)
  else
    this ← update index (with_value value) this;
    Ok (addStep (Some ("Set element at index " +:+ pretty index +:+ " to "
                         +:+ pretty value)) this).

Definition mark (i j : Z) (s : ElementState) (idx : Z) : ElementState :=
  if (idx =? i) || (idx =? j) then s else st_default.

Definition compare (i j : Z) (this : InstrumentedArray)
  : result (Z * InstrumentedArray) :=
  if (i <? 0) || (i >=? length this) || (j <? 0) || (j >=? length this)
  then Throw (invalid_indices i j)
  else
    compareArray ← map_state (ia_store this) (mark i j st_comparing) 0 (ia_array this);
    ei ← elem_at (ia_store this) (ia_array this) i;
    ej ← elem_at (ia_store this) (ia_array this) j;
    let this := push
      {| array := compareArray; compareIndices := Some [i; j];
         swapIndices := None; sortedIndices := None;
         description := or_else (ia_stepDescription this)
           ("Comparing elements at positions " +:+ pretty i +:+ " and "
              +:+ pretty j +:+ ": " +:+ pretty (value ei) +:+ " vs "
              +:+ pretty (value ej)) |} this in
    Ok (value ei - value ej, clear this).

Definition swap (i j : Z) (this : InstrumentedArray) : result InstrumentedArray :=
  if (i <? 0) || (i >=? length this) || (j <? 0) || (j >=? length this)
  then Throw (invalid_indices i j)
  else if i =? j then Ok this
  else
    swapArray ← map_state (ia_store this) (mark i j st_swapping) 0 (ia_array this);
    ei ← elem_at (ia_store this) (ia_array this) i;
    ej ← elem_at (ia_store this) (ia_array this) j;
    let this := push
      {| array := swapArray; compareIndices := None;
         swapIndices := Some [i; j]; sortedIndices := None;
         description := or_else (ia_stepDescription this)
           ("Swapping elements at positions " +:+ pretty i +:+ " and "
              +:+ pretty j +:+ ": " +:+ pretty (value ei) +:+ " ↔ "
              +:+ pretty (value ej)) |} this in
    let this := with_array (swap_at i j (ia_array this)) this in
    ei' ← elem_at (ia_store this) (ia_array this) i;
    ej' ← elem_at (ia_store this) (ia_array this) j;
    Ok (addStep (Some ("Swapped! Position " +:+ pretty i +:+ " now has "
                         +:+ pretty (value ei') +:+ ", position " +:+ pretty j
                         +:+ " now has " +:+ pretty (value ej'))) this).

Definition markSorted (index : Z) (this : InstrumentedArray)
  : result InstrumentedArray :=
  if (index <? 0) || (index >=? length this) then Throw (out_of_bounds index)
  else
    this ← update index (with_state st_sorted) this;
    el ← elem_at (ia_store this) (ia_array this) index;
    let this := push
      {| array := spread (ia_array this); compareIndices := None;
         swapIndices := None; sortedIndices := Some [index];
         description := or_else (ia_stepDescription this)
           ("Element at position " +:+ pretty index +:+ " (" +:+ pretty (value el)
              +:+ ") is now in its final sorted position") |} this in
    Ok (clear this).

(** The loop [for (let i = start; i <= end; i++)] of [markRangeSorted], with
    [n] iterations left. *)
Fixpoint markRange_loop (n : nat) (i : Z) (sortedIndices : list Z)
    (this : InstrumentedArray) : result (list Z * InstrumentedArray) :=
  match n with
  | O => Ok (sortedIndices, this)
  | S n' =>
      this ← update i (with_state st_sorted) this;
      markRange_loop n' (i + 1) (sortedIndices ++ [i]) this
  end.

Definition markRangeSorted (start end_ : Z) (this : InstrumentedArray)
  : result InstrumentedArray :=
  if (start <? 0) || (end_ >=? length this) || (start >? end_)
  then Throw (invalid_range start end_)
  else
    '(sortedIndices, this) ← markRange_loop (Z.to_nat (end_ - start + 1)) start [] this;
    let this := push
      {| array := spread (ia_array this); compareIndices := None;
         swapIndices := None; sortedIndices := Some sortedIndices;
         description := or_else (ia_stepDescription this)
           ("Elements from position " +:+ pretty start +:+ " to "
              +:+ pretty end_ +:+ " are now sorted") |} this in
    Ok (clear this).

Definition getSteps (this : InstrumentedArray) : result (list SortingStep) :=
  finalArray ← map_state (ia_store this) (λ _, st_sorted) 0 (ia_array this);
  Ok (ia_steps this
        ++ [plain_step finalArray "Algorithm completed! All elements are sorted."]).

(** [this.array.map(el => el.value)]. *)
Fixpoint values_of (h : list ArrayElement) (arr : list loc) : result (list Z) :=
  match arr with
  | [] => Ok []
  | a :: arr' =>
      el ← deref h a;
      rest ← values_of h arr';
      Ok (value el :: rest)
  end.

Definition getValues (this : InstrumentedArray) : result (list Z) :=
  values_of (ia_store this) (ia_array this).

Definition toArray (this : InstrumentedArray) : result (list Z) := getValues this.

End IA.

(** ** Runs of caller code against an InstrumentedArray

    Caller code is a sequence of method calls.  A call that throws leaves the
    object as it was (every method checks its indices before it writes), and
    the caller may catch the exception and go on. *)

Inductive Op :=
| OpSetStepDescription (d : string)
| OpGet (index : Z)
| OpSet (index value : Z)
| OpLength
| OpCompare (i j : Z)
| OpSwap (i j : Z)
| OpMarkSorted (index : Z)
| OpMarkRangeSorted (start end_ : Z)
| OpAddStep (d : option string)
| OpGetSteps
| OpGetValues.

Definition exec (op : Op) (this : InstrumentedArray) : result InstrumentedArray :=
  match op with
  | OpSetStepDescription d => Ok (IA.setStepDescription d this)
  | OpGet index => _ ← IA.get index this; Ok this
  | OpSet index v => IA.set index v this
  | OpLength => Ok this
  | OpCompare i j => snd <$> IA.compare i j this
  | OpSwap i j => IA.swap i j this
  | OpMarkSorted index => IA.markSorted index this
  | OpMarkRangeSorted start end_ => IA.markRangeSorted start end_ this
  | OpAddStep d => Ok (IA.addStep d this)
  | OpGetSteps => _ ← IA.getSteps this; Ok this
  | OpGetValues => _ ← IA.getValues this; Ok this
  end.

Fixpoint run (ops : list Op) (this : InstrumentedArray) : InstrumentedArray :=
  match ops with
  | [] => this
  | op :: ops' =>
      match exec op this with
      | Ok this' => run ops' this'
      | Throw _ => run ops' this
      end
  end.

(** Every position of the live array holds the address of an object. *)
Definition valid_refs (h : list ArrayElement) (arr : list loc) : Prop :=
  Forall (λ a : loc, (a < length h)%nat) arr.

Definition wf (this : InstrumentedArray) : Prop :=
  valid_refs (ia_store this) (ia_array this).

Definition is_set (op : Op) : bool :=
  match op with OpSet _ _ => true | _ => false end.

Definition is_swap (op : Op) : bool :=
  match op with OpSwap _ _ => true | _ => false end.

(** The calls whose first recorded step takes the pending description:
    all but [set] and [addStep] with a description of its own. *)
Definition takes_pending (op : Op) : bool :=
  match op with
  | OpCompare _ _ | OpMarkSorted _ | OpMarkRangeSorted _ _ => true
  | OpSwap i j => negb (i =? j)
  | OpAddStep None | OpAddStep (Some EmptyString) => true
  | _ => false
  end.

Definition all_sorted (a : list Slot) : Prop :=
  Forall (λ s, ∃ el, s = Own el ∧ state el = st_sorted) a.

(** The step that [compare] records. *)
Definition compare_step (i j : Z) (sl : list Slot) (vi vj : Z) (pending : string)
  : SortingStep :=
  {| array := sl; compareIndices := Some [i; j]; swapIndices := None;
     sortedIndices := None;
     description := or_else pending
       ("Comparing elements at positions " +:+ pretty i +:+ " and "
          +:+ pretty j +:+ ": " +:+ pretty vi +:+ " vs " +:+ pretty vj) |}.

(** The two steps that [swap] records. *)
Definition swap_step (i j : Z) (sl : list Slot) (vi vj : Z) (pending : string)
  : SortingStep :=
  {| array := sl; compareIndices := None; swapIndices := Some [i; j];
     sortedIndices := None;
     description := or_else pending
       ("Swapping elements at positions " +:+ pretty i +:+ " and "
          +:+ pretty j +:+ ": " +:+ pretty vi +:+ " ↔ " +:+ pretty vj) |}.

Definition swapped_description (i j vi vj : Z) : string :=
  "Swapped! Position " +:+ pretty i +:+ " now has " +:+ pretty vi
    +:+ ", position " +:+ pretty j +:+ " now has " +:+ pretty vj.

(** The step that [markSorted] and [markRangeSorted] record. *)
Definition sorted_step (arr : list loc) (indices : list Z) (pending d : string)
  : SortingStep :=
  {| array := spread arr; compareIndices := None; swapIndices := None;
     sortedIndices := Some indices; description := or_else pending d |}.

Definition markSorted_description (index v : Z) : string :=
  "Element at position " +:+ pretty index +:+ " (" +:+ pretty v
    +:+ ") is now in its final sorted position".

Definition set_description (index v : Z) : string :=
  "Set element at index " +:+ pretty index +:+ " to " +:+ pretty v.

(** ** The built-in algorithms: shared machinery

    Every built-in algorithm is a function of the input array with two
    local variables, [array] (a spread copy of the input) and [steps], that
    its loops and inner functions update.  [Run] holds them, together with
    the store of element objects; an algorithm is a state transformer that
    may throw. *)

Record Run := {
  r_store : list ArrayElement;    (* the element objects *)
  r_array : list loc;             (* const array = [...arr] *)
  r_steps : list SortingStep      (* const steps = [] *)
}.

Definition set_store (h : list ArrayElement) (st : Run) : Run :=
  {| r_store := h; r_array := r_array st; r_steps := r_steps st |}.

Definition set_array (arr : list loc) (st : Run) : Run :=
  {| r_store := r_store st; r_array := arr; r_steps := r_steps st |}.

Definition set_steps (l : list SortingStep) (st : Run) : Run :=
  {| r_store := r_store st; r_array := r_array st; r_steps := l |}.

Definition M (A : Type) : Type := Run → result (A * Run).

Global Instance M_ret : MRet M := λ A a st, Ok (a, st).
Global Instance M_bind : MBind M := λ A B f m st,
  match m st with Ok (a, st') => f a st' | Throw e => Throw e end.

Definition throw {A} (e : Exn) : M A := λ _, Throw e.

Definition lift {A} (f : Run → result A) : M A := λ st,
  match f st with Ok a => Ok (a, st) | Throw e => Throw e end.

(** The input objects are the initial store; [array] refers to them in
    order. *)
Definition init (arr : list ArrayElement) : Run :=
  {| r_store := arr; r_array := seq 0 (length arr); r_steps := [] |}.

(** [array[k].value] *)
Definition value_at (k : Z) : M Z :=
  lift (λ st, value <$> elem_at (r_store st) (r_array st) k).

(** [array[k]], kept in a variable: the reference.  (An [undefined] here is
    an error as soon as a property of it is read, which the sources do next.) *)
Definition ref_at (k : Z) : M loc :=
  lift (λ st, match at_index (r_array st) k with
              | Some a => Ok a | None => Throw TypeError end).

(** [x.value] for a reference [x] held in a variable. *)
Definition value_of (a : loc) : M Z :=
  lift (λ st, value <$> deref (r_store st) a).

(** [array[k] = x] *)
Definition write (k : Z) (a : loc) : M unit := λ st,
  match at_index (r_array st) k with
  | Some _ =>
      Ok (tt, set_array (<[Z.to_nat k := a]> (r_array st)) st)
  | None => Throw Unmodelled
  end.

(** [[array[i], array[j]] = [array[j], array[i]]] *)
Definition swap (i j : Z) : M unit := λ st,
  match at_index (r_array st) i, at_index (r_array st) j with
  | Some _, Some _ =>
      Ok (tt, set_array (swap_at i j (r_array st)) st)
  | _, _ => Throw Unmodelled
  end.

(** [array[k].state = s] *)
Definition set_state (k : Z) (s : ElementState) : M unit := λ st,
  match at_index (r_array st) k with
  | Some a =>
      match r_store st !! a with
      | Some el =>
          Ok (tt, set_store (<[a := with_state s el]> (r_store st)) st)
      | None => Throw TypeError
      end
  | None => Throw TypeError
  end.

(** [{ ...x }] kept as a live object: a new address. *)
Definition alloc (el : ArrayElement) : M loc := λ st,
  Ok (length (r_store st), set_store (r_store st ++ [el]) st).

(** The [array] of a step literal: [[...array]], or
    [array.map((el, idx) => ({ ...el, state: f(idx) }))]. *)
Inductive Shot :=
| Live
| Marked (f : Z → ElementState).

Definition shoot (shot : Shot) : M (list Slot) :=
  lift (λ st, match shot with
              | Live => Ok (spread (r_array st))
              | Marked f => map_state (r_store st) f 0 (r_array st)
              end).

Definition push_step (s : SortingStep) : M unit := λ st,
  Ok (tt, set_steps (r_steps st ++ [s]) st).

(** [steps.push({ array: ..., compareIndices, swapIndices, sortedIndices,
    description })] *)
Definition record (shot : Shot) (ci si so : option (list Z)) (d : string)
  : M unit :=
  a ← shoot shot;
  push_step {| array := a; compareIndices := ci; swapIndices := si;
               sortedIndices := so; description := d |}.

(** [steps.push({ array: ..., description })] *)
Definition say (shot : Shot) (d : string) : M unit :=
  record shot None None None d.

(** The usual markings. *)
Definition only (i : Z) (s : ElementState) : Z → ElementState :=
  λ idx, if idx =? i then s else st_default.

Definition both (i j : Z) (s : ElementState) : Z → ElementState :=
  λ idx, if (idx =? i) || (idx =? j) then s else st_default.

Definition all (s : ElementState) : Z → ElementState := λ _, s.

(** [for (let i = lo; i < hi; i++) body], with the variables [s] that the
    body updates; [n] iterations are left. *)
Fixpoint for_loop {T} (n : nat) (i : Z) (body : Z → T → M T) (s : T) : M T :=
  match n with
  | O => mret s
  | S n' => s' ← body i s; for_loop n' (i + 1) body s'
  end.

Definition for_ {T} (lo hi : Z) (body : Z → T → M T) (s : T) : M T :=
  for_loop (Z.to_nat (hi - lo)) lo body s.

(** [for (let i = hi; i > lo; i--) body] *)
Fixpoint for_down_loop {T} (n : nat) (i : Z) (body : Z → T → M T) (s : T) : M T :=
  match n with
  | O => mret s
  | S n' => s' ← body i s; for_down_loop n' (i - 1) body s'
  end.

Definition for_down {T} (hi lo : Z) (body : Z → T → M T) (s : T) : M T :=
  for_down_loop (Z.to_nat (hi - lo)) hi body s.

(** [while (cond) body], for at most [fuel] iterations. *)
Fixpoint while_ {T} (fuel : nat) (cond : T → M bool) (body : T → M T) (s : T)
  : M T :=
  b ← cond s;
  if b : bool then
    match fuel with
    | O => throw OutOfFuel
    | S fuel' => s' ← body s; while_ fuel' cond body s'
    end
  else mret s.

(** The trace an algorithm returns, with the store its steps refer to. *)
Record Trace := {
  t_store : list ArrayElement;
  t_steps : list SortingStep
}.

Definition run_algorithm (body : M unit) (arr : list ArrayElement) : result Trace :=
  match body (init arr) with
  | Ok (_, st) => Ok {| t_store := r_store st; t_steps := r_steps st |}
  | Throw e => Throw e
  end.

(** What the last step of a trace shows. *)
Definition final_values (t : Trace) : option (list (option Z)) :=
  view_values (t_store t) <$> last (t_steps t).

(** ** SimpleSorts *)

Module SimpleSorts.

Definition bubbleSort_run (n : Z) : M unit :=
  _ ← say Live "Starting Bubble Sort - Compare adjacent elements and swap if needed";
  _ ← for_ 0 (n - 1) (λ i _,
    _ ← for_ 0 (n - i - 1) (λ j _,
      vj ← value_at j;
      vj1 ← value_at (j + 1);
      _ ← record (Marked (both j (j + 1) st_comparing)) (Some [j; j + 1]) None None
            ("Comparing elements at positions " +:+ pretty j +:+ " and "
               +:+ pretty (j + 1) +:+ ": " +:+ pretty vj +:+ " vs " +:+ pretty vj1);
      if vj >? vj1 then
        _ ← record (Marked (both j (j + 1) st_swapping)) None (Some [j; j + 1]) None
              ("Swapping " +:+ pretty vj +:+ " and " +:+ pretty vj1);
        _ ← swap j (j + 1);
        vj' ← value_at j;
        vj1' ← value_at (j + 1);
        say Live ("After swap: " +:+ pretty vj' +:+ " and " +:+ pretty vj1')
      else mret tt) tt;
    (* Mark the last element as sorted *)
    _ ← set_state (n - 1 - i) st_sorted;
    v ← value_at (n - 1 - i);
    record Live None None (Some [n - 1 - i])
      ("Element at position " +:+ pretty (n - 1 - i) +:+ " (" +:+ pretty v
         +:+ ") is now in its final sorted position")) tt;
  (* Mark first element as sorted too *)
  _ ← set_state 0 st_sorted;
  say Live "Bubble Sort complete! All elements are sorted.".

Definition bubbleSort (arr : list ArrayElement) : result Trace :=
  run_algorithm (bubbleSort_run (Z.of_nat (length arr))) arr.

Definition selectionSort_run (n : Z) : M unit :=
  _ ← say Live "Starting Selection Sort - Find minimum element and place it at the beginning";
  _ ← for_ 0 (n - 1) (λ i _,
    _ ← say (Marked (only i st_comparing))
          ("Finding minimum element from position " +:+ pretty i +:+ " to "
             +:+ pretty (n - 1));
    minIdx ← for_ (i + 1) n (λ j minIdx,
      vj ← value_at j;
      vmin ← value_at minIdx;
      _ ← say (Marked (both j minIdx st_comparing))
            ("Comparing " +:+ pretty vj +:+ " with current minimum " +:+ pretty vmin);
      if vj <? vmin then
        _ ← say (Marked (only j st_comparing))
              ("New minimum found: " +:+ pretty vj +:+ " at position " +:+ pretty j);
        mret j
      else mret minIdx) i;
    _ ← (if negb (minIdx =? i) then
           vi ← value_at i;
           vmin ← value_at minIdx;
           _ ← say (Marked (both i minIdx st_swapping))
                 ("Swapping " +:+ pretty vi +:+ " with minimum " +:+ pretty vmin);
           swap i minIdx
         else mret tt);
    _ ← set_state i st_sorted;
    vi ← value_at i;
    say Live ("Position " +:+ pretty i +:+ " is now sorted with value " +:+ pretty vi)) tt;
  _ ← set_state (n - 1) st_sorted;
  say Live "Selection Sort complete! All elements are sorted.".

Definition selectionSort (arr : list ArrayElement) : result Trace :=
  run_algorithm (selectionSort_run (Z.of_nat (length arr))) arr.

(** The inner loop of insertion: [while (j >= 0 && array[j].value >
    key.value)], which runs at most [j + 1] times. *)
Definition insertion_shift (key : loc) (j : Z) : M Z :=
  while_ (Z.to_nat (j + 1))
    (λ j, if j >=? 0 then
            vj ← value_at j; vkey ← value_of key; mret (vj >? vkey)
          else mret false)
    (λ j,
       vj ← value_at j;
       _ ← say (Marked (both j (j + 1) st_swapping))
             ("Moving " +:+ pretty vj +:+ " one position right");
       aj ← ref_at j;
       _ ← write (j + 1) aj;
       vkey ← value_of key;
       _ ← say Live ("Shifted elements to make room for " +:+ pretty vkey);
       mret (j - 1))
    j.

Definition insertionSort_run (n : Z) : M unit :=
  _ ← say Live "Starting Insertion Sort - Insert each element into its correct position";
  _ ← for_ 1 n (λ i _,
    key ← ref_at i;
    vkey ← value_of key;
    _ ← say (Marked (only i st_comparing))
          ("Inserting " +:+ pretty vkey +:+ " into sorted portion");
    j ← insertion_shift key (i - 1);
    _ ← write (j + 1) key;
    say Live ("Inserted " +:+ pretty vkey +:+ " at position " +:+ pretty (j + 1))) tt;
  say (Marked (all st_sorted)) "Insertion Sort complete! All elements are sorted.".

Definition insertionSort (arr : list ArrayElement) : result Trace :=
  run_algorithm (insertionSort_run (Z.of_nat (length arr))) arr.

End SimpleSorts.

(** ** EfficientSorts *)

(** [array.slice(from, to)] for [0 <= from <= to]. *)
Definition slice (from to : Z) : M (list loc) :=
  lift (λ st, Ok (take (Z.to_nat (to - from)) (drop (Z.to_nat from) (r_array st)))).

(** [l[k].value] for a local array [l] of references. *)
Definition value_in (l : list loc) (k : Z) : M Z :=
  match at_index l k with
  | Some a => value_of a
  | None => throw TypeError
  end.

(** [array[k] = l[i]] for a local array [l]: a hole is [undefined]. *)
Definition write_from (k : Z) (l : list loc) (i : Z) : M unit :=
  match at_index l i with
  | Some a => write k a
  | None => throw Unmodelled
  end.

Module EfficientSorts.

(** [partition(low, high)] of quickSort. *)
Definition partition (low high : Z) : M Z :=
  pivot ← ref_at high;
  vpivot ← value_of pivot;
  _ ← say (Marked (only high st_comparing))
        ("Partitioning: Using " +:+ pretty vpivot +:+ " at position "
           +:+ pretty high +:+ " as pivot");
  i ← for_ low high (λ j i,
    vj ← value_at j;
    _ ← record (Marked (both j high st_comparing)) (Some [j; high]) None None
          ("Comparing " +:+ pretty vj +:+ " with pivot " +:+ pretty vpivot);
    if vj <? vpivot then
      let i := i + 1 in
      _ ← (if negb (i =? j) then
             vi ← value_at i;
             _ ← record (Marked (both i j st_swapping)) None (Some [i; j]) None
                   ("Swapping " +:+ pretty vi +:+ " and " +:+ pretty vj);
             swap i j
           else mret tt);
      mret i
    else mret i) (low - 1);
  _ ← swap (i + 1) high;
  _ ← say Live ("Pivot " +:+ pretty vpivot
                  +:+ " is now in its correct position at index " +:+ pretty (i + 1));
  mret (i + 1).

(** [quickSortRecursive(low, high)]; [fuel] bounds the depth of the calls. *)
Fixpoint quickSortRecursive (fuel : nat) (low high : Z) : M unit :=
  if low <? high then
    match fuel with
    | O => throw OutOfFuel
    | S fuel' =>
        pi ← partition low high;
        _ ← quickSortRecursive fuel' low (pi - 1);
        quickSortRecursive fuel' (pi + 1) high
    end
  else mret tt.

(** Each call works on fewer elements than its caller: the depth is at most
    the length. *)
Definition quickSort_run (n : nat) : M unit :=
  _ ← say Live "Starting Quick Sort - Divide and conquer approach";
  _ ← quickSortRecursive n 0 (Z.of_nat n - 1);
  say (Marked (all st_sorted)) "Quick Sort complete! All elements are sorted.".

Definition quickSort (arr : list ArrayElement) : result Trace :=
  run_algorithm (quickSort_run (length arr)) arr.

(** The three loops of [merge], on the variables [i], [j], [k]; together
    they run once for each element of [leftArr] and [rightArr]. *)
Definition merge_loops (announce : bool) (leftArr rightArr : list loc) (k : Z)
  : M unit :=
  let nl := Z.of_nat (length leftArr) in
  let nr := Z.of_nat (length rightArr) in
  '(i, j, k) ← while_ (length leftArr + length rightArr)
    (λ '(i, j, k), mret ((i <? nl) && (j <? nr)))
    (λ '(i, j, k),
       vl ← value_in leftArr i;
       vr ← value_in rightArr j;
       _ ← (if announce : bool then
              say (Marked (only k st_comparing))
                ("Comparing " +:+ pretty vl +:+ " and " +:+ pretty vr)
            else mret tt);
       if vl <=? vr then
         _ ← write_from k leftArr i; mret (i + 1, j, k + 1)
       else
         _ ← write_from k rightArr j; mret (i, j + 1, k + 1))
    (0, 0, k);
  '(i, k) ← while_ (length leftArr)
    (λ '(i, k), mret (i <? nl))
    (λ '(i, k), _ ← write_from k leftArr i; mret (i + 1, k + 1))
    (i, k);
  _ ← while_ (length rightArr)
    (λ '(j, k), mret (j <? nr))
    (λ '(j, k), _ ← write_from k rightArr j; mret (j + 1, k + 1))
    (j, k);
  mret tt.

(** [merge(left, mid, right)] of mergeSort. *)
Definition merge (left_ mid right_ : Z) : M unit :=
  leftArr ← slice left_ (mid + 1);
  rightArr ← slice (mid + 1) (right_ + 1);
  _ ← say Live ("Merging subarrays: [" +:+ pretty left_ +:+ ".." +:+ pretty mid
                  +:+ "] and [" +:+ pretty (mid + 1) +:+ ".." +:+ pretty right_ +:+ "]");
  _ ← merge_loops true leftArr rightArr left_;
  say Live ("Merged subarrays from position " +:+ pretty left_ +:+ " to "
              +:+ pretty right_).

Fixpoint mergeSortRecursive (fuel : nat) (left_ right_ : Z) : M unit :=
  if left_ <? right_ then
    match fuel with
    | O => throw OutOfFuel
    | S fuel' =>
        let mid := (left_ + right_) / 2 in
        _ ← mergeSortRecursive fuel' left_ mid;
        _ ← mergeSortRecursive fuel' (mid + 1) right_;
        merge left_ mid right_
    end
  else mret tt.

Definition mergeSort_run (n : nat) : M unit :=
  _ ← say Live "Starting Merge Sort - Divide and conquer with merging";
  _ ← mergeSortRecursive n 0 (Z.of_nat n - 1);
  say (Marked (all st_sorted)) "Merge Sort complete! All elements are sorted.".

Definition mergeSort (arr : list ArrayElement) : result Trace :=
  run_algorithm (mergeSort_run (length arr)) arr.

(** [heapify(n, i)] of heapSort; [fuel] bounds the depth of the calls. *)
Fixpoint heapify (fuel : nat) (n i : Z) : M unit :=
  let left_ := 2 * i + 1 in
  let right_ := 2 * i + 2 in
  largest ← (if left_ <? n then
               vl ← value_at left_; vi ← value_at i;
               mret (if vl >? vi then left_ else i)
             else mret i);
  largest ← (if right_ <? n then
               vr ← value_at right_; vlargest ← value_at largest;
               mret (if vr >? vlargest then right_ else largest)
             else mret largest);
  if negb (largest =? i) then
    vi ← value_at i;
    vlargest ← value_at largest;
    _ ← say (Marked (both i largest st_swapping))
          ("Heapifying: Swapping " +:+ pretty vi +:+ " with " +:+ pretty vlargest);
    _ ← swap i largest;
    match fuel with
    | O => throw OutOfFuel
    | S fuel' => heapify fuel' n largest
    end
  else mret tt.

Definition heapSort_run (n : nat) : M unit :=
  let fuel := n in
  let n := Z.of_nat n in
  _ ← say Live "Starting Heap Sort - Build max heap then extract elements";
  _ ← for_down (n / 2 - 1) (-1) (λ i _, heapify fuel n i) tt;
  _ ← say Live "Max heap built successfully";
  _ ← for_down (n - 1) 0 (λ i _,
    v0 ← value_at 0;
    _ ← say (Marked (both 0 i st_swapping))
          ("Moving max element " +:+ pretty v0 +:+ " to position " +:+ pretty i);
    _ ← swap 0 i;
    _ ← set_state i st_sorted;
    vi ← value_at i;
    _ ← say Live ("Element " +:+ pretty vi +:+ " is now in its final position");
    heapify fuel i 0) tt;
  _ ← set_state 0 st_sorted;
  say Live "Heap Sort complete! All elements are sorted.".

Definition heapSort (arr : list ArrayElement) : result Trace :=
  run_algorithm (heapSort_run (length arr)) arr.

(** [insertionSort(left, right)] of timSort. *)
Definition tim_insertionSort (left_ right_ : Z) : M unit :=
  for_ (left_ + 1) (right_ + 1) (λ i _,
    keyItem ← ref_at i;
    j ← while_ (Z.to_nat (i - left_))
          (λ j, if j >=? left_ then
                  vj ← value_at j; vkey ← value_of keyItem; mret (vj >? vkey)
                else mret false)
          (λ j,
             vj ← value_at j;
             _ ← say (Marked (both j (j + 1) st_swapping))
                   ("Moving " +:+ pretty vj +:+ " one position right");
             aj ← ref_at j;
             _ ← write (j + 1) aj;
             mret (j - 1))
          (i - 1);
    write (j + 1) keyItem) tt.

(** [merge(left, mid, right)] of timSort. *)
Definition tim_merge (left_ mid right_ : Z) : M unit :=
  leftPart ← slice left_ (mid + 1);
  rightPart ← slice (mid + 1) (right_ + 1);
  _ ← merge_loops false leftPart rightPart left_;
  say Live ("Merged runs from " +:+ pretty left_ +:+ " to " +:+ pretty right_).

Definition MIN_MERGE : Z := 32.

(** [for (let i = lo; i < hi; i += step) body], for a positive [step]. *)
Definition for_by (step lo hi : Z) (body : Z → M unit) : M unit :=
  for_ 0 ((hi - lo + step - 1) / step) (λ k _, body (lo + k * step)) tt.

Definition timSort_run (n : Z) : M unit :=
  _ ← say Live "Starting Tim Sort - Hybrid stable sort combining merge sort and insertion sort";
  _ ← for_by MIN_MERGE 0 n (λ i,
        tim_insertionSort i (Z.min (i + MIN_MERGE - 1) (n - 1)));
  _ ← while_ (Z.to_nat n)
        (λ size, mret (size <? n))
        (λ size,
           _ ← for_by (size * 2) 0 n (λ start,
                 let mid := start + size - 1 in
                 let end_ := Z.min (start + size * 2 - 1) (n - 1) in
                 if mid <? end_ then tim_merge start mid end_ else mret tt);
           mret (size * 2))
        MIN_MERGE;
  say (Marked (all st_sorted))
    "Tim Sort complete! Hybrid approach achieved optimal performance.".

Definition timSort (arr : list ArrayElement) : result Trace :=
  run_algorithm (timSort_run (Z.of_nat (length arr))) arr.

End EfficientSorts.

(** ** SpecializedSorts *)

(** [Math.max(...l)] and [Math.min(...l)]; [None] is [-Infinity], respectively
    [Infinity], the results on an empty list. *)
Definition js_max (l : list Z) : option Z :=
  match l with [] => None | x :: l' => Some (foldl Z.max x l') end.

Definition js_min (l : list Z) : option Z :=
  match l with [] => None | x :: l' => Some (foldl Z.min x l') end.

(** [array.map(el => el.value)] *)
Definition values : M (list Z) :=
  lift (λ st, IA.values_of (r_store st) (r_array st)).

(** [new Array(n).fill(0)]: a [RangeError] unless [n] is an array length. *)
Definition new_counts (n : Z) : M (list Z) :=
  if (n <? 0) || (n >? 2 ^ 32 - 1) then throw RangeError
  else mret (replicate (Z.to_nat n) 0).

(** [count[k]++] and [count[k]--], for [k] inside the array. *)
Definition bump (d : Z) (count : list Z) (k : Z) : M (list Z) :=
  match at_index count k with
  | Some c => mret (<[Z.to_nat k := c + d]> count)
  | None => throw Unmodelled
  end.

(** [for (let i = 1; i < count.length; i++) count[i] += count[i - 1]] *)
Fixpoint running_sums (acc : Z) (count : list Z) : list Z :=
  match count with
  | [] => []
  | c :: count' => (acc + c) :: running_sums (acc + c) count'
  end.

(** The loop that fills [output], from the last element to the first:
    [output[count[key] - 1] = { ...array[i] }; count[key]--]. *)
Definition build_output (n : Z) (key : Z → M Z) (count : list Z)
  : M (list (option loc)) :=
  '(output, _) ← for_down (n - 1) (-1) (λ i '(output, count),
    k ← key i;
    a ← ref_at i;
    el ← lift (λ st, deref (r_store st) a);
    a' ← alloc el;
    match at_index count k with
    | Some c =>
        match at_index output (c - 1) with
        | Some _ =>
            count ← bump (-1) count k;
            mret (<[Z.to_nat (c - 1) := Some a']> output, count)
        | None => throw Unmodelled
        end
    | None => throw Unmodelled
    end) (replicate (Z.to_nat n) None, count);
  mret output.

(** [array[i] = output[i]]; a hole of [output] is [undefined]. *)
Definition copy_back (output : list (option loc)) (i : Z) : M unit :=
  match at_index output i with
  | Some (Some a) => write i a
  | _ => throw TypeError
  end.

Module SpecializedSorts.

Definition countingSort_run (n : Z) : M unit :=
  _ ← say Live "Starting Counting Sort - Non-comparison sort using frequency counting";
  vs ← values;
  match js_max vs, js_min vs with
  | Some maxVal, Some minVal =>
      let range := maxVal - minVal + 1 in
      _ ← say Live ("Range determined: " +:+ pretty minVal +:+ " to "
                      +:+ pretty maxVal +:+ " (" +:+ pretty range +:+ " values)");
      count ← new_counts range;
      count ← for_ 0 n (λ i count,
        v ← value_at i;
        count ← bump 1 count (v - minVal);
        _ ← say (Marked (only i st_comparing))
              ("Counting occurrences of " +:+ pretty v);
        mret count) count;
      let count := running_sums 0 count in
      output ← build_output n (λ i, v ← value_at i; mret (v - minVal)) count;
      _ ← for_ 0 n (λ i _,
        _ ← copy_back output i;
        v ← value_at i;
        say Live ("Placing " +:+ pretty v +:+ " in its final position")) tt;
      say (Marked (all st_sorted))
        "Counting Sort complete! Non-comparison sorting achieved linear time."
  | _, _ =>
      (* no element: maxVal is -Infinity, minVal is Infinity, and so is the
         length asked of new Array *)
      _ ← say Live "Range determined: Infinity to -Infinity (-Infinity values)";
      throw RangeError
  end.

Definition countingSort (arr : list ArrayElement) : result Trace :=
  run_algorithm (countingSort_run (Z.of_nat (length arr))) arr.

(** [Math.floor(value / exp) % 10]: the remainder has the sign of the
    dividend. *)
Definition digit (exp v : Z) : Z := Z.rem (v / exp) 10.

(** [countingSortByDigit(exp)]; [pos] is [Math.log10(exp)]. *)
Definition countingSortByDigit (n exp pos : Z) : M unit :=
  _ ← say Live ("Sorting by digit at position " +:+ pretty pos +:+ " (divider: "
                  +:+ pretty exp +:+ ")");
  count ← for_ 0 n (λ i count,
    v ← value_at i;
    bump 1 count (digit exp v)) (replicate 10 0);
  let count := running_sums 0 count in
  output ← build_output n (λ i, v ← value_at i; mret (digit exp v)) count;
  _ ← for_ 0 n (λ i _, copy_back output i) tt;
  say Live ("Sorted by digit at position " +:+ pretty pos).

(** The passes [for (let exp = 1; Math.floor(maxVal / exp) > 0; exp *= 10)]:
    one for each decimal digit of [maxVal], fewer than its binary digits. *)
Definition radixSort_run (n : Z) : M unit :=
  _ ← say Live "Starting Radix Sort - Sort by individual digits from least to most significant";
  vs ← values;
  _ ← match js_max vs with
      | Some maxVal =>
          _ ← while_ (Z.to_nat (Z.log2 maxVal + 1))
                (λ '(exp, pos), mret (maxVal / exp >? 0))
                (λ '(exp, pos),
                   _ ← countingSortByDigit n exp pos;
                   mret (exp * 10, pos + 1))
                (1, 0);
          mret tt
      | None => mret tt   (* -Infinity: no pass *)
      end;
  say (Marked (all st_sorted))
    "Radix Sort complete! Sorted all digits from least to most significant.".

Definition radixSort (arr : list ArrayElement) : result Trace :=
  run_algorithm (radixSort_run (Z.of_nat (length arr))) arr.

(** [(num / den).toFixed(2)] for a positive quotient. *)
Definition toFixed2 (num den : Z) : string :=
  let q := (200 * num + den) / (2 * den) in
  let cents := q mod 100 in
  pretty (q / 100) +:+ "." +:+ (if cents <? 10 then "0" else "") +:+ pretty cents.

(** The insertion sort of one bucket, a local array of references:
    [while (k >= 0 && bucket[k].value > key.value)] and the loop around it. *)
Fixpoint bucket_shift (val : loc → Z) (fuel : nat) (key : loc) (k : Z)
    (bucket : list loc) : Z * list loc :=
  match fuel with
  | O => (k, bucket)
  | S fuel' =>
      match at_index bucket k with
      | Some b =>
          if val b >? val key
          then bucket_shift val fuel' key (k - 1) (<[Z.to_nat (k + 1) := b]> bucket)
          else (k, bucket)
      | None => (k, bucket)
      end
  end.

Fixpoint bucket_sort_from (val : loc → Z) (n : nat) (j : Z) (bucket : list loc)
  : list loc :=
  match n with
  | O => bucket
  | S n' =>
      match at_index bucket j with
      | Some key =>
          let '(k, bucket) := bucket_shift val (Z.to_nat j) key (j - 1) bucket in
          bucket_sort_from val n' (j + 1) (<[Z.to_nat (k + 1) := key]> bucket)
      | None => bucket
      end
  end.

Definition sort_bucket (val : loc → Z) (bucket : list loc) : list loc :=
  bucket_sort_from val (length bucket - 1) 1 bucket.

Definition bucketSort_run (n : Z) : M unit :=
  if n <=? 1 then
    say (Marked (all st_sorted))
      "Bucket Sort complete! Array already sorted (1 or fewer elements)."
  else
    _ ← say Live "Starting Bucket Sort - Distribute elements into buckets then sort each bucket";
    vs ← values;
    match js_max vs, js_min vs with
    | Some maxVal, Some minVal =>
        let bucketCount := Z.sqrt n in
        let range := maxVal - minVal + 1 in
        (* bucketSize is range / bucketCount *)
        _ ← say Live ("Creating " +:+ pretty bucketCount +:+ " buckets with size "
                        +:+ toFixed2 range bucketCount);
        buckets ← for_ 0 n (λ i (buckets : list (list loc)),
          v ← value_at i;
          let bucketIndex :=
            Z.min ((v - minVal) * bucketCount / range) (bucketCount - 1) in
          a ← ref_at i;
          el ← lift (λ st, deref (r_store st) a);
          a' ← alloc el;
          match at_index buckets bucketIndex with
          | Some bucket =>
              _ ← say (Marked (only i st_comparing))
                    ("Placing " +:+ pretty v +:+ " into bucket " +:+ pretty bucketIndex);
              mret (<[Z.to_nat bucketIndex := bucket ++ [a']]> buckets)
          | None => throw TypeError
          end) (replicate (Z.to_nat bucketCount) []);
        _ ← for_ 0 bucketCount (λ i index,
          match at_index buckets i with
          | Some ((_ :: _) as bucket) =>
              bucket ← lift (λ st,
                Ok (sort_bucket (λ a, default 0 (value <$> r_store st !! a)) bucket));
              index ← for_ 0 (Z.of_nat (length bucket)) (λ j index,
                match at_index bucket j with
                | Some a => _ ← write index a; mret (index + 1)
                | None => throw TypeError
                end) index;
              _ ← say Live ("Sorted and placed bucket " +:+ pretty i
                              +:+ " back into array");
              mret index
          | _ => mret index
          end) 0;
        say (Marked (all st_sorted))
          "Bucket Sort complete! All buckets sorted and concatenated."
    | _, _ => throw TypeError
    end.

Definition bucketSort (arr : list ArrayElement) : result Trace :=
  run_algorithm (bucketSort_run (Z.of_nat (length arr))) arr.

End SpecializedSorts.

(** ** ImprovedSorts *)

Module ImprovedSorts.

(** One pass of shellSort with a given [gap]. *)
Definition shell_pass (n gap : Z) : M unit :=
  _ ← say Live ("Using gap size: " +:+ pretty gap);
  for_ gap n (λ i _,
    temp ← ref_at i;
    vtemp ← value_of temp;
    _ ← say (Marked (only i st_comparing))
          ("Comparing elements " +:+ pretty gap +:+ " positions apart");
    j ← while_ (Z.to_nat i)
          (λ j, if j >=? gap then
                  v ← value_at (j - gap); mret (v >? vtemp)
                else mret false)
          (λ j,
             v ← value_at (j - gap);
             _ ← say (Marked (both j (j - gap) st_swapping))
                   ("Moving " +:+ pretty v +:+ " forward by gap " +:+ pretty gap);
             a ← ref_at (j - gap);
             _ ← write j a;
             mret (j - gap))
          i;
    write j temp) tt.

(** [for (let gap = Math.floor(n / 2); gap > 0; gap = Math.floor(gap / 2))]:
    the gap halves, so there are at most [n] passes. *)
Definition shellSort_run (n : Z) : M unit :=
  _ ← say Live "Starting Shell Sort - Insertion sort with gap sequence";
  _ ← while_ (Z.to_nat n)
        (λ gap, mret (gap >? 0))
        (λ gap, _ ← shell_pass n gap; mret (gap / 2))
        (n / 2);
  say (Marked (all st_sorted)) "Shell Sort complete! All elements are sorted.".

Definition shellSort (arr : list ArrayElement) : result Trace :=
  run_algorithm (shellSort_run (Z.of_nat (length arr))) arr.

(** [Math.floor(gap / 1.3)], which is the integer part of [10 * gap / 13]
    (the rounding of the floating-point quotient never crosses an integer). *)
Definition shrink (gap : Z) : Z := gap * 10 / 13.

Definition combSort_run (fuel : nat) (n : Z) : M unit :=
  _ ← say Live "Starting Comb Sort - Bubble sort with shrinking gap";
  _ ← while_ fuel
        (λ '(gap, swapped), mret (negb (gap =? 1) || swapped))
        (λ '(gap, swapped),
           let gap := shrink gap in
           let gap := if gap <? 1 then 1 else gap in
           _ ← say Live ("Using gap size: " +:+ pretty gap);
           swapped ← for_ 0 (n - gap) (λ i (swapped : bool),
             vi ← value_at i;
             vg ← value_at (i + gap);
             _ ← say (Marked (both i (i + gap) st_comparing))
                   ("Comparing elements " +:+ pretty gap +:+ " positions apart: "
                      +:+ pretty vi +:+ " vs " +:+ pretty vg);
             if vi >? vg then
               _ ← say (Marked (both i (i + gap) st_swapping))
                     ("Swapping " +:+ pretty vi +:+ " and " +:+ pretty vg);
               _ ← swap i (i + gap);
               mret true
             else mret swapped) false;
           mret (gap, swapped))
        (n, true);
  say (Marked (all st_sorted)) "Comb Sort complete! All elements are sorted.".

(** A pass shrinks the gap or, with gap 1, swaps and so undoes an inversion
    or is the last: at most [n + n * n + 1] passes. *)
Definition combSort (arr : list ArrayElement) : result Trace :=
  let n := length arr in
  run_algorithm (combSort_run (n + n * n + 1) (Z.of_nat n)) arr.

(** The forward and the backward pass of cocktailSort. *)
Definition cocktail_forward (left_ right_ : Z) : M bool :=
  for_ left_ right_ (λ i (swapped : bool),
    vi ← value_at i;
    vi1 ← value_at (i + 1);
    _ ← say (Marked (both i (i + 1) st_comparing))
          ("Forward pass: Comparing " +:+ pretty vi +:+ " and " +:+ pretty vi1);
    if vi >? vi1 then
      _ ← say (Marked (both i (i + 1) st_swapping))
            ("Swapping " +:+ pretty vi +:+ " and " +:+ pretty vi1);
      _ ← swap i (i + 1);
      mret true
    else mret swapped) false.

Definition cocktail_backward (left_ right_ : Z) : M bool :=
  for_down right_ left_ (λ i (swapped : bool),
    vi ← value_at i;
    vi1 ← value_at (i - 1);
    _ ← say (Marked (both i (i - 1) st_comparing))
          ("Backward pass: Comparing " +:+ pretty vi +:+ " and " +:+ pretty vi1);
    if vi <? vi1 then
      _ ← say (Marked (both i (i - 1) st_swapping))
            ("Swapping " +:+ pretty vi +:+ " and " +:+ pretty vi1);
      _ ← swap i (i - 1);
      mret true
    else mret swapped) false.

(** The loop [while (swapped)], on the variables [left], [right] and
    [swapped]; it is left through [break] as well. *)
Definition cocktailSort_run (fuel : nat) (n : Z) : M unit :=
  _ ← say Live "Starting Cocktail Sort - Bidirectional bubble sort";
  _ ← while_ fuel
        (λ '(left_, right_, swapped), mret swapped)
        (λ '(left_, right_, _),
           swapped ← cocktail_forward left_ right_;
           _ ← set_state right_ st_sorted;
           let right_ := right_ - 1 in
           if negb swapped then mret (left_, right_, false)
           else
             swapped ← cocktail_backward left_ right_;
             _ ← set_state left_ st_sorted;
             mret (left_ + 1, right_, swapped))
        (0, n - 1, true);
  say (Marked (all st_sorted)) "Cocktail Sort complete! All elements are sorted.".

(** Every round but the last swaps in its forward pass: at most [n * n + 1]
    rounds. *)
Definition cocktailSort (arr : list ArrayElement) : result Trace :=
  let n := length arr in
  run_algorithm (cocktailSort_run (n * n + 1) (Z.of_nat n)) arr.

End ImprovedSorts.

(** ** NoveltySorts *)

(** [[...l].sort((a, b) => a.value - b.value)] on references: a stable sort
    by value (ECMAScript 2019), here by insertion. *)
Fixpoint insert_by_value (val : loc → Z) (a : loc) (l : list loc) : list loc :=
  match l with
  | [] => [a]
  | b :: l' =>
      if val a <=? val b then a :: b :: l' else b :: insert_by_value val a l'
  end.

Definition sort_by_value (val : loc → Z) (l : list loc) : list loc :=
  foldr (insert_by_value val) [] l.

(** The references of [array], sorted by the values they hold. *)
Definition sorted_refs : M (list loc) :=
  lift (λ st,
    _ ← IA.values_of (r_store st) (r_array st);
    Ok (sort_by_value (λ a, default 0 (value <$> r_store st !! a)) (r_array st))).

(** The local function [isSorted()] of bogoSort, miracleSort and
    quantumBogoSort. *)
Fixpoint ascending (l : list Z) : bool :=
  match l with
  | x :: (y :: _) as l' => if y <? x then false else ascending l'
  | _ => true
  end.

Definition isSorted : M bool :=
  lift (λ st, ascending <$> IA.values_of (r_store st) (r_array st)).

Module NoveltySorts.

Definition gnomeSort_run (fuel : nat) (n : Z) : M unit :=
  _ ← say Live "Starting Gnome Sort - Like insertion sort but moves element to beginning by swapping";
  _ ← while_ fuel (λ index, mret (index <? n))
        (λ index,
           if index =? 0 then mret (index + 1)
           else
             v ← value_at index;
             v' ← value_at (index - 1);
             if v >=? v' then mret (index + 1)
             else
               _ ← say (Marked (both index (index - 1) st_swapping))
                     ("Swapping " +:+ pretty v +:+ " and " +:+ pretty v');
               _ ← swap index (index - 1);
               _ ← say Live ("Moved element backward, now checking position "
                               +:+ pretty (index - 1));
               mret (index - 1))
        0;
  say (Marked (all st_sorted)) "Gnome Sort complete! All elements are sorted.".

(** Every iteration of the loop moves forward or undoes one inversion: with
    [n] elements, at most [n + n * n] iterations. *)
Definition gnomeSort (arr : list ArrayElement) : result Trace :=
  let n := length arr in
  run_algorithm (gnomeSort_run (n + n * n) (Z.of_nat n)) arr.

(** [flip(k)] of pancakeSort. *)
Definition flip (k : Z) : M unit :=
  _ ← say (Marked (λ idx, if idx <=? k then st_swapping else st_default))
        ("Flipping first " +:+ pretty (k + 1) +:+ " elements");
  _ ← while_ (Z.to_nat k)
        (λ '(left_, k), mret (left_ <? k))
        (λ '(left_, k), _ ← swap left_ k; mret (left_ + 1, k - 1))
        (0, k);
  say Live "Flip completed".

(** [findMax(n)] of pancakeSort. *)
Definition findMax (n : Z) : M Z :=
  for_ 0 n (λ i maxIdx,
    vi ← value_at i;
    vmax ← value_at maxIdx;
    mret (if vi >? vmax then i else maxIdx)) 0.

Definition pancakeSort_run (n : Z) : M unit :=
  _ ← say Live "Starting Pancake Sort - Sort by flipping prefixes";
  _ ← for_down n 1 (λ currSize _,
    maxIdx ← findMax currSize;
    vmax ← value_at maxIdx;
    _ ← say (Marked (only maxIdx st_comparing))
          ("Found maximum " +:+ pretty vmax +:+ " at position " +:+ pretty maxIdx);
    _ ← (if negb (maxIdx =? currSize - 1) then
           _ ← (if negb (maxIdx =? 0) then flip maxIdx else mret tt);
           flip (currSize - 1)
         else mret tt);
    set_state (currSize - 1) st_sorted) tt;
  _ ← set_state 0 st_sorted;
  say Live "Pancake Sort complete! All elements are sorted.".

Definition pancakeSort (arr : list ArrayElement) : result Trace :=
  run_algorithm (pancakeSort_run (Z.of_nat (length arr))) arr.

(** [shuffle()] of bogoSort.  [random k m] is the value of
    [Math.floor(Math.random() * m)] at the [k]-th call of [Math.random()];
    [calls] counts the calls made so far. *)
Definition shuffle (random : nat → Z → Z) (n : Z) (calls : nat) : M nat :=
  _ ← say Live "Randomly shuffling array...";
  calls ← for_down (n - 1) 0 (λ i calls,
    let j := random calls (i + 1) in
    _ ← swap i j;
    mret (S calls)) calls;
  _ ← say Live "Shuffle complete, checking if sorted...";
  mret calls.

(** The variables of the main loop: [attempts], the calls of
    [Math.random()], and whether the loop was left by [break]. *)
Definition bogoSort_run (random : nat → Z → Z) (n : Z) : M unit :=
  _ ← say Live "Starting Bogo Sort - Randomly shuffle until sorted (THIS IS INEFFICIENT!)";
  '(attempts, _, _) ← while_ 50
    (λ '(attempts, calls, broke),
       if broke : bool then mret false
       else b ← isSorted; mret (negb b && (attempts <? 50)))
    (λ '(attempts, calls, broke),
       calls ← shuffle random n calls;
       let attempts := attempts + 1 in
       if attempts >=? 50 then
         _ ← say Live "Bogo Sort stopped after 50 attempts to prevent infinite loop!";
         mret (attempts, calls, true)
       else mret (attempts, calls, false))
    (0, O, false);
  b ← isSorted;
  if b : bool then
    say (Marked (all st_sorted))
      ("Bogo Sort complete after " +:+ pretty attempts +:+ " attempts! Pure luck!")
  else mret tt.

Definition bogoSort (random : nat → Z → Z) (arr : list ArrayElement)
  : result Trace :=
  run_algorithm (bogoSort_run random (Z.of_nat (length arr))) arr.

Definition miracleSort_run : M unit :=
  _ ← say Live "Starting Miracle Sort - Check if array is sorted, if not, wait for a miracle!";
  b ← isSorted;
  if b : bool then
    say (Marked (all st_sorted)) "Miracle! The array was already sorted!"
  else
    _ ← say Live "Array is not sorted. Waiting for a miracle...";
    _ ← say Live "🙏 Still waiting for a miracle...";
    say Live "⏰ Miracle did not occur. Array remains unsorted. Try again later!".

Definition miracleSort (arr : list ArrayElement) : result Trace :=
  run_algorithm miracleSort_run arr.

(** [for (let i = 0; i < array.length; i++) array[i] = { ...sorted[i],
    state: 'sorted' }], of sleepSort and quantumBogoSort. *)
Definition replace_sorted (sorted : list loc) : M unit :=
  for_ 0 (Z.of_nat (length sorted)) (λ i _,
    match at_index sorted i with
    | Some a =>
        el ← lift (λ st, deref (r_store st) a);
        a' ← alloc (with_state st_sorted el);
        write i a'
    | None => throw TypeError
    end) tt.

(** The padding of sleepSort's [displayArray]. *)
Definition empty_slot (k : nat) : Slot :=
  Own {| value := 0; id := "empty-" +:+ pretty (Z.of_nat k); state := st_default |}.

Definition sleepSort_run (n : nat) : M unit :=
  _ ← say Live "Starting Sleep Sort - Each element sleeps for time proportional to its value!";
  sortedElements ← sorted_refs;
  result ← for_ 0 (Z.of_nat (length sortedElements)) (λ i result,
    match at_index sortedElements i with
    | Some a =>
        let result := result ++ [a] in
        let displayArray :=
          spread result
            ++ (empty_slot <$> seq (length result) (n - length result)) in
        v ← value_of a;
        _ ← push_step (plain_step displayArray
               (pretty v +:+ " woke up after sleeping for " +:+ pretty v +:+ "ms!"));
        mret result
    | None => throw TypeError
    end) [];
  _ ← replace_sorted result;
  say Live "Sleep Sort complete! All elements have awakened in perfect order!".

Definition sleepSort (arr : list ArrayElement) : result Trace :=
  run_algorithm (sleepSort_run (length arr)) arr.

Definition quantumBogoSort_run : M unit :=
  _ ← say Live "Starting Quantum Bogo Sort - Using quantum superposition to check all permutations!";
  b ← isSorted;
  if b : bool then
    say (Marked (all st_sorted))
      "Quantum measurement successful! Array collapsed into sorted state!"
  else
    _ ← say Live "🌌 Creating quantum superposition of all possible permutations...";
    _ ← say Live "⚛️  Measuring quantum state...";
    sortedArray ← sorted_refs;
    _ ← replace_sorted sortedArray;
    say Live "✨ Quantum Bogo Sort complete! Wave function collapsed into the sorted state!".

Definition quantumBogoSort (arr : list ArrayElement) : result Trace :=
  run_algorithm quantumBogoSort_run arr.

End NoveltySorts.
(** ** The example of createInstrumentedTemplate

    The template is the source text of a function [customSort]: a bubble
    sort written with the methods of the instrumented array. *)

Module Template.

(** [for (let j = 0; j < n - i - 1; j++)
       if (instrumentedArray.compare(j, j + 1) > 0) instrumentedArray.swap(j, j + 1)],
    with [m] iterations left. *)
Fixpoint inner_loop (m : nat) (j : Z) (this : InstrumentedArray)
  : result InstrumentedArray :=
  match m with
  | O => Ok this
  | S m' =>
      '(c, this) ← IA.compare j (j + 1) this;
      this ← (if c >? 0 then IA.swap j (j + 1) this else Ok this);
      inner_loop m' (j + 1) this
  end.

(** [for (let i = 0; i < n - 1; i++) { ...; instrumentedArray.markSorted(n - 1 - i) }],
    with [m] iterations left. *)
Fixpoint outer_loop (m : nat) (n i : Z) (this : InstrumentedArray)
  : result InstrumentedArray :=
  match m with
  | O => Ok this
  | S m' =>
      this ← inner_loop (Z.to_nat (n - i - 1)) 0 this;
      this ← IA.markSorted (n - 1 - i) this;
      outer_loop m' n (i + 1) this
  end.

Definition customSort (instrumentedArray : InstrumentedArray)
  : result InstrumentedArray :=
  let n := IA.length instrumentedArray in
  this ← outer_loop (Z.to_nat (n - 1)) n 0 instrumentedArray;
  this ← IA.markSorted 0 this;
  Ok this.

End Template.

(** ** Vocabulary of the statements *)

(** The store [h'] holds the objects of [h] with the same values and ids;
    a state is either the one of [h] or [sorted]. *)
Definition same_but_state (h h' : list ArrayElement) : Prop :=
  length h' = length h ∧
  ∀ a el, h !! a = Some el →
    ∃ s, h' !! a = Some (with_state s el) ∧ (s = state el ∨ s = st_sorted).

(** The same, where values may differ too: what [set] allows. *)
Definition store_evolves (h h' : list ArrayElement) : Prop :=
  length h' = length h ∧
  ∀ a el, h !! a = Some el →
    ∃ el', h' !! a = Some el' ∧ id el' = id el ∧
      (state el' = state el ∨ state el' = st_sorted).

(** The values of the live array of a run, in order. *)
Definition vals (st : Run) : list Z :=
  (λ a, default 0 (value <$> r_store st !! a)) <$> r_array st.

Definition wfr (st : Run) : Prop := valid_refs (r_store st) (r_array st).

(** Total correctness: [m] returns from [st], and the result and the state
    it leaves satisfy [Q]. *)
Definition wp {A} (m : M A) (Q : A → Run → Prop) (st : Run) : Prop :=
  match m st with Ok (a, st') => Q a st' | Throw _ => False end.

(** The ascending sort of a list of numbers. *)
Definition sort_asc (l : list Z) : list Z := merge_sort Z.le l.

(** [l] is ascending between the positions [lo] and [hi - 1]. *)
Definition sorted_between (l : list Z) (lo hi : Z) : Prop :=
  ∀ a b x y, lo ≤ a → a ≤ b → b < hi →
    at_index l a = Some x → at_index l b = Some y → x ≤ y.

(** Nothing before position [k] exceeds anything from [k] on. *)
Definition split_at (l : list Z) (k : Z) : Prop :=
  ∀ a b x y, a < k → k ≤ b →
    at_index l a = Some x → at_index l b = Some y → x ≤ y.

(** An algorithm sorts [arr]: it returns a trace whose last step shows the
    values of [arr] in ascending order. *)
Definition sorts (alg : list ArrayElement → result Trace)
    (arr : list ArrayElement) : Prop :=
  ∃ t, alg arr = Ok t ∧
    final_values t = Some (Some <$> sort_asc (value <$> arr)).

(** The ids of the live array of a run, in order. *)
Definition ids (st : Run) : list string :=
  (λ a, default "" (id <$> r_store st !! a)) <$> r_array st.

(** The step [s] shows the live array of [st]: its values and ids, in
    order. *)
Definition shows (st : Run) (s : SortingStep) : Prop :=
  view_values (r_store st) s = Some <$> vals st ∧
  view_ids (r_store st) s = Some <$> ids st.

(** The run is over the values [l0]: the live array refers to element
    objects and its values are a permutation of [l0]. *)
Definition arr_inv (l0 : list Z) (st : Run) : Prop :=
  wfr st ∧ vals st ≡ₚ l0.

(** The steps of bogoSort: a shuffle starts, the algorithm gives up, the
    algorithm says it has sorted. *)
Definition starts_shuffle (s : SortingStep) : Prop :=
  description s = "Randomly shuffling array...".

Definition gave_up (s : SortingStep) : Prop :=
  description s = "Bogo Sort stopped after 50 attempts to prevent infinite loop!".

Definition claims_sorted (s : SortingStep) : Prop :=
  ∃ attempts : Z,
    description s
      = "Bogo Sort complete after " +:+ pretty attempts +:+ " attempts! Pure luck!".

Global Instance starts_shuffle_dec s : Decision (starts_shuffle s).
Proof. unfold starts_shuffle. apply _. Defined.

Definition shuffles (steps : list SortingStep) : nat :=
  length (filter starts_shuffle steps).

(** [Math.floor(Math.random() * m)] is one of [0 .. m - 1]. *)
Definition in_range_random (random : nat → Z → Z) : Prop :=
  ∀ k m, 0 < m → 0 ≤ random k m < m.

(** The ids of the element objects that [arr] refers to, in order. *)
Definition ids_of (h : list ArrayElement) (arr : list loc) : list string :=
  (λ a, default "" (id <$> h !! a)) <$> arr.

(** Read in the store [h], the step [s] shows the ids [i0], each as often as
    it occurs in [i0], in some order. *)
Definition shows_ids (i0 : list string) (h : list ArrayElement)
    (s : SortingStep) : Prop :=
  view_ids h s ≡ₚ Some <$> i0.

(** The live array and every recorded step show the ids [i0]. *)
Definition ia_ids_ok (i0 : list string) (this : InstrumentedArray) : Prop :=
  wf this ∧
  ids_of (ia_store this) (ia_array this) ≡ₚ i0 ∧
  Forall (shows_ids i0 (ia_store this)) (ia_steps this).

Definition ids_ok (i0 : list string) (st : Run) : Prop :=
  wfr st ∧
  ids st ≡ₚ i0 ∧
  Forall (shows_ids i0 (r_store st)) (r_steps st).

(** A computation keeps an invariant of the run, whenever it returns. *)
Definition preserves {A} (I : Run → Prop) (m : M A) : Prop :=
  ∀ st a st', I st → m st = Ok (a, st') → I st'.

(** The built-in algorithms that reorder the array by swaps alone. *)
Definition swap_only_sorts (random : nat → Z → Z)
  : list (list ArrayElement → result Trace) :=
  [ SimpleSorts.bubbleSort; SimpleSorts.selectionSort;
    EfficientSorts.quickSort; EfficientSorts.heapSort;
    ImprovedSorts.combSort; ImprovedSorts.cocktailSort;
    NoveltySorts.gnomeSort; NoveltySorts.pancakeSort;
    NoveltySorts.bogoSort random; NoveltySorts.miracleSort ].

(** The store [h'] holds the objects of [h], with the ids they had. *)
Definition same_ids (h h' : list ArrayElement) : Prop :=
  length h' = length h ∧
  ∀ a el, h !! a = Some el → ∃ el', h' !! a = Some el' ∧ id el' = id el.

(** The live array of the run holds the numbers [l], in order. *)
Definition holds (l : list Z) (st : Run) : Prop := wfr st ∧ vals st = l.

(** The number in the element object at the address [a]. *)
Definition val_of (st : Run) (a : loc) : option Z := value <$> r_store st !! a.

(** The element objects of [st] are there in [st'], with the numbers they
    had. *)
Definition extends (st st' : Run) : Prop :=
  ∀ a v, val_of st a = Some v → val_of st' a = Some v.

(** The last recorded step shows the live array. *)
Definition shown (st : Run) : Prop :=
  ∃ s, last (r_steps st) = Some s ∧ shows st s.

(** Nothing at the positions [lo1 .. hi1 - 1] exceeds anything at the
    positions [lo2 .. hi2 - 1]. *)
Definition le_ranges (l : list Z) (lo1 hi1 lo2 hi2 : Z) : Prop :=
  ∀ a b x y, lo1 ≤ a < hi1 → lo2 ≤ b < hi2 →
    at_index l a = Some x → at_index l b = Some y → x ≤ y.

(** [l'] comes from [l] by swaps of positions among [lo .. hi - 1]. *)
Inductive reorders (lo hi : Z) (l : list Z) : list Z → Prop :=
| reorders_refl : reorders lo hi l l
| reorders_swap l' i j :
    reorders lo hi l l' → lo ≤ i < hi → lo ≤ j < hi →
    reorders lo hi l (swap_at i j l').

(** Every number at the positions [lo .. hi - 1] satisfies [P]. *)
Definition all_between (P : Z → Prop) (l : list Z) (lo hi : Z) : Prop :=
  ∀ k x, lo ≤ k < hi → at_index l k = Some x → P x.

(** The number of pairs of positions that are out of order. *)
Fixpoint inversions (l : list Z) : nat :=
  match l with
  | [] => 0
  | x :: l' => length (filter (λ y, y < x) l') + inversions l'
  end.

(** The positions before [left] and after [right] are final: each side is
    sorted, nothing before [left] exceeds what follows, and nothing up to
    [right] exceeds what is behind it. *)
Definition settled (l : list Z) (left_ right_ : Z) : Prop :=
  sorted_between l 0 left_ ∧ split_at l left_ ∧
  sorted_between l (right_ + 1) (Z.of_nat (length l)) ∧ split_at l (right_ + 1).

(** In the heap of the first [n] positions, the children of position [j]
    do not exceed it. *)
Definition heap_ok (l : list Z) (n j : Z) : Prop :=
  ∀ c x y, c = 2 * j + 1 ∨ c = 2 * j + 2 → c < n →
    at_index l j = Some x → at_index l c = Some y → y ≤ x.

(** The element objects that the local array [arr] refers to hold the
    numbers [vs], in order. *)
Definition refs_hold (st : Run) (arr : list loc) (vs : list Z) : Prop :=
  Forall2 (λ a v, val_of st a = Some v) arr vs.

(** The elements of [l] whose key is [k], in the order they have in [l]. *)
Definition with_key (key : Z → Z) (k : Z) (l : list Z) : list Z :=
  filter (λ v, key v = k) l.

(** [l] distributed by key, the keys [0 .. K - 1] in turn, the elements of
    one key in the order they have in [l]. *)
Fixpoint grouped (key : Z → Z) (K : nat) (l : list Z) : list Z :=
  match K with
  | O => []
  | S K' => grouped key K' l ++ with_key key (Z.of_nat K') l
  end.

(** The position in [grouped key K l] where the elements of key [k] start. *)
Definition start_of (key : Z → Z) (l : list Z) (k : Z) : Z :=
  Z.of_nat (length (grouped key (Z.to_nat k) l)).

(** How many elements of [l] have the key [k]. *)
Definition occurrences (key : Z → Z) (k : Z) (l : list Z) : Z :=
  Z.of_nat (length (with_key key k l)).

(** A local array with holes, of references to element objects: the numbers
    in it. *)
Definition slots_hold (st : Run) (output : list (option loc))
    (vs : list (option Z)) : Prop :=
  Forall2 (λ o v, match o, v with
                  | Some a, Some _ => val_of st a = v
                  | None, None => True
                  | _, _ => False
                  end) output vs.

(** What the loop that fills [output] in a counting sort has done when the
    first [p] elements of [l] are still to be placed: the counter of a key
    is where the next element of that key goes, the places of the elements
    still to come are holes, and the places behind them hold the elements
    that have come, in the order of [l]. *)
Definition placing (key : Z → Z) (K : Z) (l : list Z) (p : nat)
    (ov : list (option Z)) (count : list Z) : Prop :=
  length ov = length l ∧ Z.of_nat (length count) = K ∧
  (∀ k, 0 ≤ k < K →
     at_index count k = Some (start_of key l k + occurrences key k (take p l))) ∧
  (∀ k j, 0 ≤ k < K → 0 ≤ j < occurrences key k (take p l) →
     at_index ov (start_of key l k + j) = Some None) ∧
  (∀ k (j : nat) v, 0 ≤ k < K → with_key key k (drop p l) !! j = Some v →
     at_index ov (start_of key l k + occurrences key k (take p l) + Z.of_nat j)
       = Some (Some v)).

(** The buckets of a distribution of [l] by [key]: the bucket [b] holds
    references to the elements of key [b], in the order they have in [l]. *)
Definition buckets_hold (st : Run) (buckets : list (list loc)) (key : Z → Z)
    (l : list Z) : Prop :=
  ∀ b, 0 ≤ b < Z.of_nat (length buckets) →
    ∃ bucket, at_index buckets b = Some bucket ∧
      refs_hold st bucket (with_key key b l).

(** The numbers of the instrumented array are [l]. *)
Definition ia_holds (l : list Z) (this : InstrumentedArray) : Prop :=
  wf this ∧ IA.getValues this = Ok l.

(** ** Sample inputs *)

Definition el (v : Z) (i : string) : ArrayElement :=
  {| value := v; id := i; state := st_default |}.

Definition sample_53 : list ArrayElement := [el 5 "a"; el 3 "b"].

Definition sample_21 : list ArrayElement := [el 2 "a"; el 1 "b"].

(** * Properties *)

(** ** Arrays, the store and snapshots *)

Lemma at_index_Some {A} (l : list A) (k : Z) (x : A) :
  at_index l k = Some x ↔ 0 ≤ k ∧ l !! Z.to_nat k = Some x.
Proof. unfold at_index. case_decide; naive_solver. Qed.

Lemma at_index_None {A} (l : list A) (k : Z) :
  at_index l k = None ↔ k < 0 ∨ Z.of_nat (length l) ≤ k.
Proof.
  unfold at_index. case_decide.
  - rewrite lookup_ge_None. lia.
  - split; [lia | done].
Qed.

Lemma at_index_is_Some {A} (l : list A) (k : Z) :
  0 ≤ k < Z.of_nat (length l) → is_Some (at_index l k).
Proof.
  intros Hk. destruct (at_index l k) eqn:E; [by eexists |].
  apply at_index_None in E. lia.
Qed.

Lemma at_index_of_nat {A} (l : list A) (k : nat) :
  at_index l (Z.of_nat k) = l !! k.
Proof. unfold at_index. case_decide; [by rewrite Nat2Z.id | lia]. Qed.

Lemma deref_Ok h a el : deref h a = Ok el ↔ h !! a = Some el.
Proof. unfold deref. destruct (h !! a); naive_solver. Qed.

Lemma bind_Ok {A B} (m : result A) (k : A → result B) b :
  m ≫= k = Ok b ↔ ∃ a, m = Ok a ∧ k a = Ok b.
Proof. destruct m; simpl; naive_solver. Qed.

Lemma fmap_Ok {A B} (f : A → B) (m : result A) b :
  f <$> m = Ok b ↔ ∃ a, m = Ok a ∧ b = f a.
Proof. destruct m; simpl; naive_solver. Qed.

Lemma valid_refs_lookup h arr k a :
  valid_refs h arr → arr !! k = Some a → is_Some (h !! a).
Proof.
  intros Hv Hk. apply lookup_lt_is_Some.
  by eapply (Forall_lookup_1 _ _ _ _ Hv).
Qed.

Lemma elem_at_Ok h arr k el :
  elem_at h arr k = Ok el ↔ ∃ a, at_index arr k = Some a ∧ h !! a = Some el.
Proof.
  unfold elem_at. destruct (at_index arr k) as [a|].
  - rewrite deref_Ok. naive_solver.
  - naive_solver.
Qed.

Lemma elem_at_valid h arr k :
  valid_refs h arr → 0 ≤ k < Z.of_nat (length arr) → is_Ok (elem_at h arr k).
Proof.
  intros Hv Hk. destruct (at_index_is_Some arr k Hk) as [a Ha].
  apply at_index_Some in Ha as Ha'. destruct Ha' as [_ Ha'].
  destruct (valid_refs_lookup _ _ _ _ Hv Ha') as [el Hel].
  exists el. apply elem_at_Ok. eauto.
Qed.

(** A marked snapshot holds a fresh copy of every element, in the order of
    the array, with the state the marking gives its position. *)
Lemma map_state_Ok h f arr : ∀ idx,
  valid_refs h arr →
  ∃ sl, map_state h f idx arr = Ok sl ∧ length sl = length arr ∧
    ∀ (k : nat) a, arr !! k = Some a →
      ∃ el, h !! a = Some el ∧
        sl !! k = Some (Own (with_state (f (idx + Z.of_nat k)) el)).
Proof.
  induction arr as [|a arr IH]; intros idx Hv.
  - exists []. by split_and!.
  - apply Forall_cons in Hv as [Ha Hv].
    apply lookup_lt_is_Some in Ha as [el Hel].
    destruct (IH (idx + 1) Hv) as (sl & Hsl & Hlen & Hk).
    exists (Own (with_state (f idx) el) :: sl). split_and!.
    + cbn [map_state]. rewrite (proj2 (deref_Ok _ _ _) Hel). cbn.
      by rewrite Hsl.
    + simpl. by rewrite Hlen.
    + intros [|k] b Hb; simplify_eq/=.
      * exists el. by rewrite Z.add_0_r.
      * destruct (Hk k b Hb) as (el' & ? & ?). exists el'.
        split; [done |]. by replace (idx + Z.of_nat (S k)) with (idx + 1 + Z.of_nat k) by lia.
Qed.

Lemma map_state_inv h f arr : ∀ idx sl,
  map_state h f idx arr = Ok sl →
  length sl = length arr ∧
  ∀ (k : nat) s, sl !! k = Some s →
    ∃ a el, arr !! k = Some a ∧ h !! a = Some el ∧
      s = Own (with_state (f (idx + Z.of_nat k)) el).
Proof.
  induction arr as [|a arr IH]; intros idx sl; simpl.
  - intros [= <-]. split; [done | intros ? ? [=]].
  - rewrite bind_Ok. intros (el & Hel%deref_Ok & H).
    apply bind_Ok in H as (rest & Hrest & [= <-]).
    destruct (IH _ _ Hrest) as [Hlen Hk]. split; [simpl; by rewrite Hlen |].
    intros [|k] s Hs; simplify_eq/=.
    + exists a, el. by rewrite Z.add_0_r.
    + destruct (Hk k s Hs) as (b & el' & ? & ? & ->). exists b, el'.
      split_and!; [done.. |]. by replace (idx + Z.of_nat (S k)) with (idx + 1 + Z.of_nat k) by lia.
Qed.

Lemma values_of_Ok h arr :
  valid_refs h arr →
  IA.values_of h arr = Ok ((λ a, default 0 (value <$> h !! a)) <$> arr).
Proof.
  induction 1 as [|a arr Ha Hv IH]; [done |].
  apply lookup_lt_is_Some in Ha as [el Hel].
  cbn [IA.values_of]. rewrite (proj2 (deref_Ok _ _ _) Hel). cbn.
  rewrite IH. cbn. by rewrite Hel.
Qed.

(** ** The methods of InstrumentedArray on a well-formed object *)

Lemma in_range index n :
  (index <? 0) || (index >=? n) = false ↔ 0 ≤ index < n.
Proof. rewrite orb_false_iff, Z.ltb_ge, Z.geb_leb, Z.leb_gt. lia. Qed.

Lemma in_range2 i j n :
  (i <? 0) || (i >=? n) || (j <? 0) || (j >=? n) = false
  ↔ (0 ≤ i < n) ∧ (0 ≤ j < n).
Proof.
  rewrite !orb_false_iff, !Z.ltb_ge, !Z.geb_leb, !Z.leb_gt. lia.
Qed.

Lemma wf_new initialArray : wf (IA.new initialArray).
Proof.
  unfold wf, valid_refs. simpl. rewrite length_fmap.
  apply Forall_forall. intros a Ha%elem_of_seq. lia.
Qed.

Lemma update_spec index f this :
  wf this → 0 ≤ index < IA.length this →
  ∃ a el, at_index (ia_array this) index = Some a ∧
    ia_store this !! a = Some el ∧
    IA.update index f this = Ok (IA.with_store (<[a := f el]> (ia_store this)) this).
Proof.
  intros Hwf Hi. destruct (at_index_is_Some (ia_array this) index Hi) as [a Ha].
  pose proof Ha as [_ Hk]%at_index_Some.
  destruct (valid_refs_lookup _ _ _ _ Hwf Hk) as [el Hel].
  exists a, el. split_and!; [done.. |].
  unfold IA.update. rewrite Ha, (proj2 (deref_Ok _ _ _) Hel). done.
Qed.

Lemma wf_with_store_insert a el this :
  wf this → wf (IA.with_store (<[a := el]> (ia_store this)) this).
Proof. unfold wf, valid_refs. simpl. by rewrite length_insert. Qed.

Lemma wf_push s this : wf (IA.push s this) ↔ wf this.
Proof. done. Qed.

Lemma wf_setStepDescription d this : wf (IA.setStepDescription d this) ↔ wf this.
Proof. done. Qed.

Lemma wf_addStep d this : wf (IA.addStep d this) ↔ wf this.
Proof. done. Qed.

Lemma swap_at_Forall {A} (P : A → Prop) i j (arr : list A) :
  Forall P arr → Forall P (swap_at i j arr).
Proof.
  intros H. unfold swap_at.
  destruct (at_index arr i) as [ai|] eqn:Hi; [|done].
  destruct (at_index arr j) as [aj|] eqn:Hj; [|done].
  apply at_index_Some in Hi as [_ Hi]. apply at_index_Some in Hj as [_ Hj].
  apply Forall_insert; [apply Forall_insert; [done |] |].
  - by eapply (Forall_lookup_1 _ _ _ _ H).
  - by eapply (Forall_lookup_1 _ _ _ _ H).
Qed.

Lemma swap_at_length {A} i j (arr : list A) : length (swap_at i j arr) = length arr.
Proof.
  unfold swap_at. destruct (at_index arr i), (at_index arr j); try done.
  by rewrite !length_insert.
Qed.

Lemma insert_swap_Permutation {A} (l : list A) : ∀ i j x y,
  l !! i = Some x → l !! j = Some y → <[j := x]> (<[i := y]> l) ≡ₚ l.
Proof.
  assert (Hone : ∀ (l : list A) j x y, l !! j = Some y → y :: <[j := x]> l ≡ₚ x :: l).
  { clear. induction l as [|z l IH]; intros [|j] x y Hj; simplify_eq/=.
    - apply Permutation_swap.
    - etrans; [apply Permutation_swap |].
      etrans; [apply Permutation_skip, (IH _ _ _ Hj) |].
      apply Permutation_swap. }
  induction l as [|z l IH]; intros [|i] [|j] x y Hi Hj; simplify_eq/=.
  - done.
  - by apply Hone.
  - by apply Hone.
  - f_equiv. by apply IH.
Qed.

Lemma swap_at_Permutation {A} i j (arr : list A) : swap_at i j arr ≡ₚ arr.
Proof.
  unfold swap_at.
  destruct (at_index arr i) as [ai|] eqn:Hi; [|done].
  destruct (at_index arr j) as [aj|] eqn:Hj; [|done].
  apply at_index_Some in Hi as [_ Hi]. apply at_index_Some in Hj as [_ Hj].
  by apply insert_swap_Permutation.
Qed.

Lemma get_spec index this :
  wf this → 0 ≤ index < IA.length this →
  ∃ el, elem_at (ia_store this) (ia_array this) index = Ok el ∧
    IA.get index this = Ok (value el).
Proof.
  intros Hwf Hi. destruct (elem_at_valid _ _ _ Hwf Hi) as [el Hel].
  exists el. split; [done |]. unfold IA.get.
  rewrite (proj2 (in_range _ _) Hi), Hel. done.
Qed.

Lemma get_throws index this :
  ¬ (0 ≤ index < IA.length this) → IA.get index this = Throw (IA.out_of_bounds index).
Proof.
  intros Hi. unfold IA.get.
  destruct ((index <? 0) || (index >=? IA.length this)) eqn:E; [done |].
  by apply in_range in E.
Qed.

Lemma compare_Ok i j this :
  wf this → 0 ≤ i < IA.length this → 0 ≤ j < IA.length this →
  ∃ ei ej sl,
    elem_at (ia_store this) (ia_array this) i = Ok ei ∧
    elem_at (ia_store this) (ia_array this) j = Ok ej ∧
    map_state (ia_store this) (IA.mark i j st_comparing) 0 (ia_array this) = Ok sl ∧
    IA.compare i j this =
      Ok (value ei - value ej,
          IA.clear (IA.push (compare_step i j sl (value ei) (value ej)
                               (ia_stepDescription this)) this)).
Proof.
  intros Hwf Hi Hj.
  destruct (elem_at_valid _ _ _ Hwf Hi) as [ei Hei].
  destruct (elem_at_valid _ _ _ Hwf Hj) as [ej Hej].
  destruct (map_state_Ok (ia_store this) (IA.mark i j st_comparing)
              (ia_array this) 0 Hwf) as (sl & Hsl & _).
  exists ei, ej, sl. split_and!; [done.. |]. unfold IA.compare.
  rewrite (proj2 (in_range2 _ _ _) (conj Hi Hj)), Hsl. cbn.
  rewrite Hei. cbn. rewrite Hej. done.
Qed.

Lemma compare_throws i j this :
  ¬ (0 ≤ i < IA.length this ∧ 0 ≤ j < IA.length this) →
  IA.compare i j this = Throw (IA.invalid_indices i j).
Proof.
  intros Hij. unfold IA.compare.
  destruct (_ || _) eqn:E; [done |]. by apply in_range2 in E.
Qed.

Lemma swap_at_lookup {A} i j (arr : list A) ai aj :
  at_index arr i = Some ai → at_index arr j = Some aj →
  at_index (swap_at i j arr) i = Some aj ∧
  at_index (swap_at i j arr) j = Some ai.
Proof.
  intros Hi Hj. unfold swap_at. rewrite Hi, Hj.
  apply at_index_Some in Hi as [Hi0 Hi]. apply at_index_Some in Hj as [Hj0 Hj].
  pose proof (lookup_lt_Some _ _ _ Hi). pose proof (lookup_lt_Some _ _ _ Hj).
  split; apply at_index_Some; (split; [done |]).
  - destruct (decide (Z.to_nat i = Z.to_nat j)) as [E|E].
    + rewrite E, list_lookup_insert_eq by (by rewrite length_insert).
      rewrite E in Hi. congruence.
    + rewrite list_lookup_insert_ne by done.
      by rewrite list_lookup_insert_eq.
  - by rewrite list_lookup_insert_eq by (by rewrite length_insert).
Qed.

Lemma swap_Ok i j this :
  wf this → 0 ≤ i < IA.length this → 0 ≤ j < IA.length this → i ≠ j →
  ∃ ei ej sl,
    elem_at (ia_store this) (ia_array this) i = Ok ei ∧
    elem_at (ia_store this) (ia_array this) j = Ok ej ∧
    map_state (ia_store this) (IA.mark i j st_swapping) 0 (ia_array this) = Ok sl ∧
    IA.swap i j this =
      Ok (IA.addStep (Some (swapped_description i j (value ej) (value ei)))
            (IA.with_array (swap_at i j (ia_array this))
               (IA.push (swap_step i j sl (value ei) (value ej)
                           (ia_stepDescription this)) this))).
Proof.
  intros Hwf Hi Hj Hij.
  destruct (elem_at_valid _ _ _ Hwf Hi) as [ei Hei].
  destruct (elem_at_valid _ _ _ Hwf Hj) as [ej Hej].
  destruct (map_state_Ok (ia_store this) (IA.mark i j st_swapping)
              (ia_array this) 0 Hwf) as (sl & Hsl & _).
  exists ei, ej, sl. split_and!; [done.. |]. unfold IA.swap.
  rewrite (proj2 (in_range2 _ _ _) (conj Hi Hj)), (proj2 (Z.eqb_neq _ _) Hij), Hsl.
  cbn. rewrite Hei. cbn. rewrite Hej. cbn.
  apply elem_at_Ok in Hei as (ai & Hai & Hei).
  apply elem_at_Ok in Hej as (aj & Haj & Hej).
  destruct (swap_at_lookup _ _ _ _ _ Hai Haj) as [Hi' Hj'].
  rewrite (proj2 (elem_at_Ok _ _ _ _) (ex_intro _ aj (conj Hi' Hej))). cbn.
  rewrite (proj2 (elem_at_Ok _ _ _ _) (ex_intro _ ai (conj Hj' Hei))). done.
Qed.

Lemma swap_same i this :
  0 ≤ i < IA.length this → IA.swap i i this = Ok this.
Proof.
  intros Hi. unfold IA.swap.
  by rewrite (proj2 (in_range2 _ _ _) (conj Hi Hi)), Z.eqb_refl.
Qed.

Lemma swap_throws i j this :
  ¬ (0 ≤ i < IA.length this ∧ 0 ≤ j < IA.length this) →
  IA.swap i j this = Throw (IA.invalid_indices i j).
Proof.
  intros Hij. unfold IA.swap.
  destruct (_ || _) eqn:E; [done |]. by apply in_range2 in E.
Qed.

Lemma set_Ok index v this :
  wf this → 0 ≤ index < IA.length this →
  ∃ a el, at_index (ia_array this) index = Some a ∧
    ia_store this !! a = Some el ∧
    IA.set index v this =
      Ok (IA.addStep (Some (set_description index v))
            (IA.with_store (<[a := with_value v el]> (ia_store this)) this)).
Proof.
  intros Hwf Hi.
  destruct (update_spec index (with_value v) this Hwf Hi) as (a & el & Ha & Hel & Hu).
  exists a, el. split_and!; [done.. |]. unfold IA.set.
  rewrite (proj2 (in_range _ _) Hi), Hu. done.
Qed.

Lemma set_throws index v this :
  ¬ (0 ≤ index < IA.length this) →
  IA.set index v this = Throw (IA.out_of_bounds index).
Proof.
  intros Hi. unfold IA.set.
  destruct (_ || _) eqn:E; [done |]. by apply in_range in E.
Qed.

Lemma markSorted_Ok index this :
  wf this → 0 ≤ index < IA.length this →
  ∃ a el, at_index (ia_array this) index = Some a ∧
    ia_store this !! a = Some el ∧
    IA.markSorted index this =
      Ok (IA.clear (IA.push
            (sorted_step (ia_array this) [index] (ia_stepDescription this)
               (markSorted_description index (value el)))
            (IA.with_store (<[a := with_state st_sorted el]> (ia_store this)) this))).
Proof.
  intros Hwf Hi.
  destruct (update_spec index (with_state st_sorted) this Hwf Hi)
    as (a & el & Ha & Hel & Hu).
  exists a, el. split_and!; [done.. |]. unfold IA.markSorted.
  rewrite (proj2 (in_range _ _) Hi), Hu. cbn.
  assert (elem_at (<[a:=with_state st_sorted el]> (ia_store this)) (ia_array this)
            index = Ok (with_state st_sorted el)) as ->; [|done].
  apply elem_at_Ok. exists a. split; [done |].
  apply list_lookup_insert_eq. by eapply lookup_lt_Some.
Qed.

Lemma markSorted_throws index this :
  ¬ (0 ≤ index < IA.length this) →
  IA.markSorted index this = Throw (IA.out_of_bounds index).
Proof.
  intros Hi. unfold IA.markSorted.
  destruct (_ || _) eqn:E; [done |]. by apply in_range in E.
Qed.

Lemma same_but_state_refl h : same_but_state h h.
Proof.
  split; [done |]. intros a [v i s] Hel. exists s. eauto.
Qed.

Lemma same_but_state_trans h1 h2 h3 :
  same_but_state h1 h2 → same_but_state h2 h3 → same_but_state h1 h3.
Proof.
  intros [Hl1 H1] [Hl2 H2]. split; [congruence |].
  intros a el Hel. destruct (H1 a el Hel) as (s1 & Hs1 & Hor1).
  destruct (H2 a _ Hs1) as (s2 & Hs2 & Hor2). exists s2. split; [done |].
  simpl in Hor2. naive_solver.
Qed.

Lemma same_but_state_insert h a el :
  h !! a = Some el → same_but_state h (<[a := with_state st_sorted el]> h).
Proof.
  intros Hel. split; [by rewrite length_insert |].
  intros b el' Hb. destruct (decide (a = b)) as [->|Hne].
  - exists st_sorted. rewrite list_lookup_insert_eq by (by eapply lookup_lt_Some).
    naive_solver.
  - exists (state el'). rewrite list_lookup_insert_ne by done.
    destruct el'; eauto.
Qed.

Lemma markRange_loop_Ok n : ∀ i acc this,
  wf this → 0 ≤ i → i + Z.of_nat n ≤ IA.length this →
  ∃ h, IA.markRange_loop n i acc this =
         Ok (acc ++ (Z.of_nat <$> seq (Z.to_nat i) n), IA.with_store h this) ∧
       same_but_state (ia_store this) h.
Proof.
  induction n as [|n IH]; intros i acc this Hwf Hi Hn.
  - exists (ia_store this). rewrite app_nil_r. destruct this.
    split; [done | apply same_but_state_refl].
  - destruct (update_spec i (with_state st_sorted) this Hwf ltac:(lia))
      as (a & el & Ha & Hel & Hu).
    cbn [IA.markRange_loop]. rewrite Hu. cbn.
    edestruct (IH (i + 1) (acc ++ [i])
      (IA.with_store (<[a:=with_state st_sorted el]> (ia_store this)) this))
      as (h & Hh & Hsame).
    { by apply wf_with_store_insert. }
    { lia. }
    { unfold IA.length in *. simpl. lia. }
    exists h. split.
    + rewrite Hh. f_equal. f_equal.
      rewrite <- app_assoc. f_equal. simpl. f_equal; [lia |].
      f_equal. f_equal. lia.
    + eapply same_but_state_trans; [|exact Hsame].
      by apply same_but_state_insert.
Qed.

Lemma range_ok start end_ n :
  (start <? 0) || (end_ >=? n) || (start >? end_) = false
  ↔ 0 ≤ start ≤ end_ ∧ end_ < n.
Proof.
  rewrite !orb_false_iff, Z.ltb_ge, Z.geb_leb, Z.leb_gt, Z.gtb_ltb, Z.ltb_ge. lia.
Qed.

Lemma markRangeSorted_Ok start end_ this :
  wf this → 0 ≤ start ≤ end_ → end_ < IA.length this →
  ∃ h d, same_but_state (ia_store this) h ∧
    IA.markRangeSorted start end_ this =
      Ok (IA.clear (IA.push
            (sorted_step (ia_array this)
               (Z.of_nat <$> seq (Z.to_nat start) (Z.to_nat (end_ - start + 1)))
               (ia_stepDescription this) d)
            (IA.with_store h this))).
Proof.
  intros Hwf Hs He.
  destruct (markRange_loop_Ok (Z.to_nat (end_ - start + 1)) start [] this Hwf)
    as (h & Hh & Hsame); [lia.. |].
  exists h. eexists. split; [done |]. unfold IA.markRangeSorted.
  rewrite (proj2 (range_ok _ _ _) (conj Hs He)), Hh. done.
Qed.

Lemma markRangeSorted_throws start end_ this :
  ¬ (0 ≤ start ≤ end_ ∧ end_ < IA.length this) →
  IA.markRangeSorted start end_ this = Throw (IA.invalid_range start end_).
Proof.
  intros Hr. unfold IA.markRangeSorted.
  destruct (_ || _) eqn:E; [done |]. by apply range_ok in E.
Qed.

Lemma same_but_state_evolves h h' : same_but_state h h' → store_evolves h h'.
Proof.
  intros [Hl H]. split; [done |]. intros a el Hel.
  destruct (H a el Hel) as (s & Hs & Hor). exists (with_state s el). eauto.
Qed.

Lemma store_evolves_refl h : store_evolves h h.
Proof. apply same_but_state_evolves, same_but_state_refl. Qed.

Lemma store_evolves_trans h1 h2 h3 :
  store_evolves h1 h2 → store_evolves h2 h3 → store_evolves h1 h3.
Proof.
  intros [Hl1 H1] [Hl2 H2]. split; [congruence |].
  intros a el Hel. destruct (H1 a el Hel) as (el1 & Hs1 & Hid1 & Hor1).
  destruct (H2 a _ Hs1) as (el2 & Hs2 & Hid2 & Hor2). exists el2.
  split_and!; [done | congruence | naive_solver congruence].
Qed.

Lemma store_evolves_set h a el v :
  h !! a = Some el → store_evolves h (<[a := with_value v el]> h).
Proof.
  intros Hel. split; [by rewrite length_insert |].
  intros b el' Hb. destruct (decide (a = b)) as [->|Hne].
  - exists (with_value v el).
    rewrite list_lookup_insert_eq by (by eapply lookup_lt_Some).
    naive_solver.
  - exists el'. by rewrite list_lookup_insert_ne by done; eauto.
Qed.

Lemma same_but_state_value h h' a :
  same_but_state h h' → value <$> h' !! a = value <$> h !! a.
Proof.
  intros [Hl H]. destruct (h !! a) as [el|] eqn:Hel.
  - destruct (H a el Hel) as (s & -> & _). done.
  - apply lookup_ge_None in Hel. rewrite <- Hl in Hel.
    apply lookup_ge_None in Hel. by rewrite Hel.
Qed.

(** What a successful call may change. *)
Lemma exec_frame op this this' :
  wf this → exec op this = Ok this' →
  wf this' ∧
  (∃ new, ia_steps this' = ia_steps this ++ new) ∧
  store_evolves (ia_store this) (ia_store this') ∧
  ia_array this' ≡ₚ ia_array this ∧
  (is_swap op = false → ia_array this' = ia_array this) ∧
  (is_set op = false → same_but_state (ia_store this) (ia_store this')).
Proof.
  intros Hwf Hex.
  assert (Hid : wf this ∧ (∃ new, ia_steps this = ia_steps this ++ new) ∧
    store_evolves (ia_store this) (ia_store this) ∧
    ia_array this ≡ₚ ia_array this ∧
    (is_swap op = false → ia_array this = ia_array this) ∧
    (is_set op = false → same_but_state (ia_store this) (ia_store this))).
  { split_and!; auto using store_evolves_refl, same_but_state_refl.
    exists []. by rewrite app_nil_r. }
  destruct op as [d|index|index v| |i j|i j|index|start end_|d| |]; simpl in Hex.
  - simplify_eq. destruct Hid as (? & ? & ? & ? & ? & ?). by split_and!.
  - apply bind_Ok in Hex as (? & _ & [= <-]). done.
  - destruct (decide (0 ≤ index < IA.length this)) as [Hi|Hi];
      [|by rewrite set_throws in Hex].
    destruct (set_Ok index v this Hwf Hi) as (a & el & Ha & Hel & Hset).
    rewrite Hset in Hex. simplify_eq. split_and!; simpl; try done.
    + by apply wf_addStep, wf_with_store_insert.
    + by eexists.
    + by apply store_evolves_set.
  - by simplify_eq.
  - destruct (decide (0 ≤ i < IA.length this ∧ 0 ≤ j < IA.length this))
      as [[Hi Hj]|Hij]; [|by rewrite compare_throws in Hex].
    destruct (compare_Ok i j this Hwf Hi Hj) as (ei & ej & sl & _ & _ & _ & Hc).
    rewrite Hc in Hex. simplify_eq/=. split_and!; simpl;
      auto using store_evolves_refl, same_but_state_refl. by eexists.
  - destruct (decide (0 ≤ i < IA.length this ∧ 0 ≤ j < IA.length this))
      as [[Hi Hj]|Hij]; [|by rewrite swap_throws in Hex].
    destruct (decide (i = j)) as [->|Hne].
    { rewrite swap_same in Hex by done. by simplify_eq. }
    destruct (swap_Ok i j this Hwf Hi Hj Hne) as (ei & ej & sl & _ & _ & _ & Hs).
    rewrite Hs in Hex. simplify_eq/=. split_and!; simpl;
      auto using store_evolves_refl, same_but_state_refl.
    + by apply swap_at_Forall.
    + rewrite <- app_assoc. by eexists.
    + apply swap_at_Permutation.
    + done.
  - destruct (decide (0 ≤ index < IA.length this)) as [Hi|Hi];
      [|by rewrite markSorted_throws in Hex].
    destruct (markSorted_Ok index this Hwf Hi) as (a & el & Ha & Hel & Hm).
    rewrite Hm in Hex. simplify_eq. split_and!; simpl; try done.
    + by apply wf_with_store_insert.
    + by eexists.
    + by apply same_but_state_evolves, same_but_state_insert.
    + intros _. by apply same_but_state_insert.
  - destruct (decide (0 ≤ start ≤ end_ ∧ end_ < IA.length this)) as [[Hs He]|Hr];
      [|by rewrite markRangeSorted_throws in Hex].
    destruct (markRangeSorted_Ok start end_ this Hwf Hs He) as (h & d & Hsame & Hm).
    rewrite Hm in Hex. simplify_eq. split_and!; simpl; try done.
    + unfold wf, valid_refs in *. simpl. by rewrite (proj1 Hsame).
    + by eexists.
    + by apply same_but_state_evolves.
  - simplify_eq. split_and!; simpl;
      auto using store_evolves_refl, same_but_state_refl. by eexists.
  - apply bind_Ok in Hex as (? & _ & [= <-]). done.
  - apply bind_Ok in Hex as (? & _ & [= <-]). done.
Qed.

(** ** Runs *)

Lemma wf_exec op this this' : wf this → exec op this = Ok this' → wf this'.
Proof. intros Hwf Hex. by destruct (exec_frame op this this' Hwf Hex). Qed.

Lemma wf_run ops : ∀ this, wf this → wf (run ops this).
Proof.
  induction ops as [|op ops IH]; intros this Hwf; simpl; [done |].
  destruct (exec op this) as [this'|] eqn:Hex; eauto using wf_exec.
Qed.

Lemma wf_reachable initialArray ops : wf (run ops (IA.new initialArray)).
Proof. apply wf_run, wf_new. Qed.

Lemma run_frame ops : ∀ this,
  wf this →
  (∃ new, ia_steps (run ops this) = ia_steps this ++ new) ∧
  store_evolves (ia_store this) (ia_store (run ops this)) ∧
  ia_array (run ops this) ≡ₚ ia_array this.
Proof.
  induction ops as [|op ops IH]; intros this Hwf; simpl.
  - split_and!; [exists []; by rewrite app_nil_r | apply store_evolves_refl | done].
  - destruct (exec op this) as [this'|] eqn:Hex; [|by apply IH].
    destruct (exec_frame op this this' Hwf Hex)
      as (Hwf' & [new Hnew] & Hst & Harr & _).
    destruct (IH this' Hwf') as ([new' Hnew'] & Hst' & Harr').
    split_and!.
    + exists (new ++ new'). by rewrite Hnew', Hnew, app_assoc.
    + by eapply store_evolves_trans.
    + by rewrite Harr'.
Qed.

Lemma length_run ops this : wf this → IA.length (run ops this) = IA.length this.
Proof.
  intros Hwf. destruct (run_frame ops this Hwf) as (_ & _ & Hp).
  unfold IA.length. by rewrite Hp.
Qed.

Lemma getValues_Ok this :
  wf this →
  IA.getValues this =
    Ok ((λ a, default 0 (value <$> ia_store this !! a)) <$> ia_array this).
Proof. apply values_of_Ok. Qed.

Lemma getSteps_Ok this :
  wf this →
  ∃ final,
    IA.getSteps this =
      Ok (ia_steps this
            ++ [plain_step final "Algorithm completed! All elements are sorted."]) ∧
    length final = length (ia_array this) ∧
    all_sorted final ∧
    (slot_view (ia_store this) <$> final)
      = (λ a, with_state st_sorted <$> ia_store this !! a) <$> ia_array this.
Proof.
  intros Hwf.
  destruct (map_state_Ok (ia_store this) (λ _, st_sorted) (ia_array this) 0 Hwf)
    as (final & Hfinal & Hlen & Hk).
  exists final. split_and!; [| done | |].
  - unfold IA.getSteps. by rewrite Hfinal.
  - apply Forall_forall. intros s [k Hs]%list_elem_of_lookup.
    destruct (lookup_lt_is_Some_2 (ia_array this) k) as [a Ha].
    { rewrite <- Hlen. by eapply lookup_lt_Some. }
    destruct (Hk k a Ha) as (el & _ & Hs'). exists (with_state st_sorted el).
    split; [congruence | done].
  - apply list_eq. intros k. rewrite !list_lookup_fmap.
    destruct (ia_array this !! k) as [a|] eqn:Ha.
    + destruct (Hk k a Ha) as (el & Hel & ->). simpl. by rewrite Hel.
    + apply lookup_ge_None in Ha. rewrite <- Hlen in Ha.
      apply lookup_ge_None in Ha. by rewrite Ha.
Qed.

(** ** The claims about InstrumentedArray *)

(** C1 (the code departs from it): a step recorded by spreading the live
    array shares its element objects with the array.  On the two-element
    input [5, 3], the first step shows the values 5, 3 when it is recorded;
    after [set(0, 9)] the same step, still first in the trace, shows 9, 3. *)
Theorem set_rewrites_recorded_step :
  let this := IA.new sample_53 in
  ∃ first this',
    ia_steps this !! 0%nat = Some first ∧
    view_values (ia_store this) first = [Some 5; Some 3] ∧
    IA.set 0 9 this = Ok this' ∧
    ia_steps this' !! 0%nat = Some first ∧
    view_values (ia_store this') first = [Some 9; Some 3].
Proof. eexists _, _. split_and!; reflexivity. Qed.




Lemma or_else_nonempty a b : a ≠ "" → or_else a b = a.
Proof. by destruct a. Qed.

(** C4 fails as stated: with the empty text pending, the step recorded by
    [compare] carries the default narrative, not the pending text. *)
Lemma empty_pending_description_not_used :
  let this := IA.setStepDescription "" (IA.new sample_53) in
  ∃ r this' step,
    IA.compare 0 1 this = Ok (r, this') ∧
    last (ia_steps this') = Some step ∧
    description step = "Comparing elements at positions 0 and 1: 5 vs 3" ∧
    description step ≠ "".
Proof. eexists _, _, _. split_and!; [reflexivity.. | done]. Qed.

(** C4, amended: on every container, after [setStepDescription(text)] with a
    non-empty [text], a successful [compare], [swap] of two different
    positions, [markSorted], [markRangeSorted] or [addStep] without a
    description of its own records first a step whose description is [text],
    and the pending description is empty when the call returns. *)
Theorem pending_description_spec initialArray ops text op this' :
  let this := run ops (IA.new initialArray) in
  text ≠ "" →
  takes_pending op = true →
  exec op (IA.setStepDescription text this) = Ok this' →
  ∃ step rest,
    ia_steps this' = ia_steps this ++ step :: rest ∧
    description step = text ∧
    ia_stepDescription this' = "".
Proof.
  intros this Htext Hop Hex.
  pose proof (wf_reachable initialArray ops) as Hwf. fold this in Hwf.
  set (this0 := IA.setStepDescription text this) in *.
  assert (Hwf0 : wf this0) by done.
  destruct op as [d|index|index v| |i j|i j|index|start end_|d| |];
    try discriminate; simpl in Hex.
  - destruct (decide (0 ≤ i < IA.length this0 ∧ 0 ≤ j < IA.length this0))
      as [[Hi Hj]|Hij]; [|by rewrite compare_throws in Hex].
    destruct (compare_Ok i j this0 Hwf0 Hi Hj) as (ei & ej & sl & _ & _ & _ & Hc).
    rewrite Hc in Hex. simplify_eq/=. eexists _, []. split_and!; [done | | done].
    by apply or_else_nonempty.
  - simpl in Hop. apply negb_true_iff, Z.eqb_neq in Hop.
    destruct (decide (0 ≤ i < IA.length this0 ∧ 0 ≤ j < IA.length this0))
      as [[Hi Hj]|Hij]; [|by rewrite swap_throws in Hex].
    destruct (swap_Ok i j this0 Hwf0 Hi Hj Hop) as (ei & ej & sl & _ & _ & _ & Hs).
    rewrite Hs in Hex. simplify_eq/=. eexists _, [_].
    split_and!; [by rewrite <- app_assoc | | done].
    by apply or_else_nonempty.
  - destruct (decide (0 ≤ index < IA.length this0)) as [Hi|Hi];
      [|by rewrite markSorted_throws in Hex].
    destruct (markSorted_Ok index this0 Hwf0 Hi) as (a & el & _ & _ & Hm).
    rewrite Hm in Hex. simplify_eq/=. eexists _, []. split_and!; [done | | done].
    by apply or_else_nonempty.
  - destruct (decide (0 ≤ start ≤ end_ ∧ end_ < IA.length this0)) as [[Hs He]|Hr];
      [|by rewrite markRangeSorted_throws in Hex].
    destruct (markRangeSorted_Ok start end_ this0 Hwf0 Hs He) as (h & d & _ & Hm).
    rewrite Hm in Hex. simplify_eq/=. eexists _, []. split_and!; [done | | done].
    by apply or_else_nonempty.
  - simplify_eq/=. eexists _, []. split_and!; [done | | done]. simpl.
    destruct d as [[|]|]; try discriminate; simpl; by apply or_else_nonempty.
Qed.

Lemma pending_description_spec_witness :
  ∃ this',
    "pivot" ≠ "" ∧ takes_pending (OpMarkSorted 1) = true ∧
    exec (OpMarkSorted 1) (IA.setStepDescription "pivot" (run [] (IA.new sample_53)))
      = Ok this' ∧
    ∃ step rest,
      ia_steps this' = ia_steps (run [] (IA.new sample_53)) ++ step :: rest ∧
      description step = "pivot" ∧ ia_stepDescription this' = "".
Proof.
  eexists. split; [discriminate |]. split; [reflexivity |].
  split; [vm_compute; reflexivity |].
  apply (pending_description_spec sample_53 [] "pivot" (OpMarkSorted 1));
    [discriminate | reflexivity | vm_compute; reflexivity].
Defined.

(** [set] records its own narrative whatever is pending, and clears the
    pending text. *)
Lemma set_ignores_pending_description :
  ∃ this' step,
    IA.set 0 9 (IA.setStepDescription "note" (IA.new sample_53)) = Ok this' ∧
    last (ia_steps this') = Some step ∧
    description step = "Set element at index 0 to 9" ∧
    ia_stepDescription this' = "".
Proof. eexists _, _. split_and!; reflexivity. Qed.

(** C5 fails as stated: after [markSorted(0)], the step recorded by
    [compare(0, 1)] shows position 0 as [comparing]. *)
Lemma sorted_index_shown_comparing :
  ∃ this1 r this2 step,
    IA.markSorted 0 (IA.new sample_53) = Ok this1 ∧
    IA.compare 0 1 this1 = Ok (r, this2) ∧
    last (ia_steps this2) = Some step ∧
    view_states (ia_store this2) step !! 0%nat = Some (Some st_comparing).
Proof. eexists _, _, _, _. split_and!; reflexivity. Qed.

(** C5, amended: on every container, [markSorted(i)] with a valid [i] sets
    the state of the element object at position [i] to [sorted] and records
    one step, with [sortedIndices = [i]], that shows position [i] as
    [sorted]; whatever calls follow, that object stays in the live array, in
    state [sorted] (steps recorded by [compare] and [swap] show fresh copies
    whose states are set anew, see the lemma above).  With [i] outside
    [0, length) the call throws "Index i out of bounds". *)
Theorem markSorted_spec initialArray ops index :
  let this := run ops (IA.new initialArray) in
  (0 ≤ index < IA.length this →
     ∃ a this' step,
       at_index (ia_array this) index = Some a ∧
       IA.markSorted index this = Ok this' ∧
       ia_steps this' = ia_steps this ++ [step] ∧
       sortedIndices step = Some [index] ∧
       compareIndices step = None ∧ swapIndices step = None ∧
       at_index (view_states (ia_store this') step) index = Some (Some st_sorted) ∧
       ∀ ops', a ∈ ia_array (run ops' this') ∧
         state <$> ia_store (run ops' this') !! a = Some st_sorted)
  ∧ (¬ (0 ≤ index < IA.length this) →
     IA.markSorted index this = Throw (IA.out_of_bounds index)).
Proof.
  intros this. pose proof (wf_reachable initialArray ops) as Hwf. fold this in Hwf.
  split; [|apply markSorted_throws]. intros Hi.
  destruct (markSorted_Ok index this Hwf Hi) as (a & el & Ha & Hel & Hm).
  eexists a, _, _. split_and!; [done | exact Hm | done.. | |].
  - apply at_index_Some in Ha as [H0 Ha]. apply at_index_Some. split; [done |].
    unfold view_states, view, sorted_step, spread. simpl.
    rewrite !list_lookup_fmap, Ha. simpl.
    by rewrite list_lookup_insert_eq by (by eapply lookup_lt_Some).
  - intros ops'. match goal with |- context [run ops' ?t] => set (this' := t) end.
    assert (Hwf' : wf this') by (by apply wf_with_store_insert).
    destruct (run_frame ops' this' Hwf') as (_ & [_ Hst] & Hperm).
    split.
    + rewrite Hperm. simpl. apply at_index_Some in Ha as [_ Ha].
      by eapply list_elem_of_lookup_2.
    + destruct (Hst a (with_state st_sorted el)) as (el' & -> & _ & Hor).
      { simpl. by rewrite list_lookup_insert_eq by (by eapply lookup_lt_Some). }
      simpl in *. f_equal. by destruct Hor.
Qed.

Lemma markSorted_spec_witness :
  0 ≤ 1 < IA.length (run [] (IA.new sample_53)) ∧
  ∃ this', IA.markSorted 1 (run [] (IA.new sample_53)) = Ok this'.
Proof.
  assert (H : 0 ≤ 1 < IA.length (run [] (IA.new sample_53))).
  { vm_compute. repeat split; discriminate. }
  split; [exact H |].
  destruct (proj1 (markSorted_spec sample_53 [] 1) H) as (a & this' & step & _ & Hm & _).
  exists this'. exact Hm.
Defined.

(** C9: on every container, [getSteps()] returns the recorded steps followed
    by exactly one more step, whose array is a fresh copy of every element
    of the live array, in order, each in state [sorted], whatever the order
    of the values; so the returned trace is not empty and its last step
    marks every element sorted. *)
Theorem getSteps_spec initialArray ops :
  let this := run ops (IA.new initialArray) in
  ∃ trace finalStep,
    IA.getSteps this = Ok trace ∧
    trace = ia_steps this ++ [finalStep] ∧
    last trace = Some finalStep ∧
    description finalStep = "Algorithm completed! All elements are sorted." ∧
    length (array finalStep) = length initialArray ∧
    all_sorted (array finalStep) ∧
    ∀ values, IA.getValues this = Ok values →
      view_values (ia_store this) finalStep = Some <$> values.
Proof.
  intros this. pose proof (wf_reachable initialArray ops) as Hwf. fold this in Hwf.
  destruct (getSteps_Ok this Hwf) as (final & Hg & Hlen & Hall & Hview).
  eexists _, _. split_and!; [exact Hg | done | by rewrite last_snoc | done | | done |].
  - simpl. rewrite Hlen.
    destruct (run_frame ops (IA.new initialArray) (wf_new _)) as (_ & _ & Hp).
    fold this in Hp. rewrite Hp. simpl. by rewrite length_seq.
  - intros values. rewrite getValues_Ok by done. intros [= <-].
    unfold view_values, view. simpl. rewrite Hview.
    rewrite <- !list_fmap_compose. apply Forall_fmap_ext.
    apply (Forall_impl _ _ _ Hwf). intros a [el Hel]%lookup_lt_is_Some. simpl.
    by rewrite Hel.
Qed.

(** The trailing step does not depend on the order of the values: here they
    are 5, 3 and every element is shown [sorted]. *)
Lemma getSteps_unsorted_example :
  ∃ trace finalStep,
    IA.getSteps (IA.new sample_53) = Ok trace ∧ last trace = Some finalStep ∧
    view (ia_store (IA.new sample_53)) finalStep
      = [Some (with_state st_sorted (el 5 "a")); Some (with_state st_sorted (el 3 "b"))].
Proof. eexists _, _. split_and!; reflexivity. Qed.

(** C10: a successful call other than [set] leaves the multiset of the stored
    values as it was: [getValues()] returns the same list after
    [setStepDescription], [get], [length], [compare], [markSorted],
    [markRangeSorted], [addStep], [getSteps] and [getValues], and a
    permutation of it after [swap]. *)
Theorem values_preserved initialArray ops op this' :
  let this := run ops (IA.new initialArray) in
  is_set op = false →
  exec op this = Ok this' →
  ∃ values values',
    IA.getValues this = Ok values ∧ IA.getValues this' = Ok values' ∧
    values' ≡ₚ values ∧
    (is_swap op = false → values' = values).
Proof.
  intros this Hset Hex.
  pose proof (wf_reachable initialArray ops) as Hwf. fold this in Hwf.
  destruct (exec_frame op this this' Hwf Hex) as (Hwf' & _ & _ & Hperm & Heq & Hsame).
  specialize (Hsame Hset).
  eexists _, _. split_and!; [by apply getValues_Ok.. | |].
  - rewrite Hperm. apply reflexive_eq, list_fmap_ext.
    intros _ a _. by rewrite (same_but_state_value _ _ a Hsame).
  - intros Hsw. rewrite (Heq Hsw). apply list_fmap_ext.
    intros _ a _. by rewrite (same_but_state_value _ _ a Hsame).
Qed.

Lemma values_preserved_witness :
  ∃ this',
    is_set (OpSwap 0 1) = false ∧
    exec (OpSwap 0 1) (run [] (IA.new sample_53)) = Ok this' ∧
    ∃ values values',
      IA.getValues (run [] (IA.new sample_53)) = Ok values ∧
      IA.getValues this' = Ok values' ∧ values' ≡ₚ values.
Proof.
  eexists. split; [reflexivity |]. split; [vm_compute; reflexivity |].
  destruct (values_preserved sample_53 [] (OpSwap 0 1) _ eq_refl eq_refl)
    as (values & values' & H1 & H2 & H3 & _).
  exists values, values'. split_and!; assumption.
Defined.

(** [set] is the one call that changes a value. *)
Lemma set_changes_values :
  ∃ this',
    IA.set 0 9 (IA.new sample_53) = Ok this' ∧
    IA.getValues (IA.new sample_53) = Ok [5; 3] ∧
    IA.getValues this' = Ok [9; 3].
Proof. eexists. split_and!; reflexivity. Qed.

(** ** A program logic for the built-in algorithms *)

Section wp.
Context {A B : Type}.

Lemma wp_ret (a : A) (Q : A → Run → Prop) st : Q a st → wp (mret a) Q st.
Proof. done. Qed.

Lemma wp_bind (m : M A) (k : A → M B) (Q : B → Run → Prop) st :
  wp m (λ a st', wp (k a) Q st') st → wp (m ≫= k) Q st.
Proof.
  unfold wp, mbind, M_bind. destruct (m st) as [[a st']|]; done.
Qed.

Lemma wp_mono (m : M A) (Q Q' : A → Run → Prop) st :
  wp m Q st → (∀ a st', Q a st' → Q' a st') → wp m Q' st.
Proof. unfold wp. destruct (m st) as [[a st']|]; auto. Qed.

Lemma wp_Ok (m : M A) (Q : A → Run → Prop) st :
  wp m Q st ↔ ∃ a st', m st = Ok (a, st') ∧ Q a st'.
Proof.
  unfold wp. destruct (m st) as [[a st']|]; naive_solver.
Qed.
End wp.

(** The loops, by an invariant [I i s] on the counter and the variables. *)
Lemma wp_for_loop {T} (I : Z → T → Run → Prop) body : ∀ (n : nat) (i : Z) (s : T) st,
  I i s st →
  (∀ j s st, i ≤ j < i + Z.of_nat n → I j s st →
     wp (body j s) (λ s' st', I (j + 1) s' st') st) →
  wp (for_loop n i body s) (λ s' st', I (i + Z.of_nat n) s' st') st.
Proof.
  induction n as [|n IH]; intros i s st Hinv Hbody.
  - simpl. apply wp_ret. by rewrite Z.add_0_r.
  - cbn [for_loop]. apply wp_bind.
    eapply wp_mono; [apply Hbody; [lia | done] |].
    intros s' st' Hinv'. cbv beta.
    replace (i + Z.of_nat (S n)) with ((i + 1) + Z.of_nat n) by lia.
    apply IH; [done |]. intros j s'' st'' Hj. apply Hbody. lia.
Qed.

Lemma wp_for {T} (I : Z → T → Run → Prop) lo hi body (s : T) st :
  I lo s st →
  (∀ j s st, lo ≤ j < hi → I j s st →
     wp (body j s) (λ s' st', I (j + 1) s' st') st) →
  wp (for_ lo hi body s) (λ s' st', I (Z.max lo hi) s' st') st.
Proof.
  intros Hinv Hbody. unfold for_.
  replace (Z.max lo hi) with (lo + Z.of_nat (Z.to_nat (hi - lo))) by lia.
  apply wp_for_loop; [done |]. intros j s' st' Hj. apply Hbody. lia.
Qed.

Lemma wp_for_down_loop {T} (I : Z → T → Run → Prop) body :
  ∀ (n : nat) (i : Z) (s : T) st,
  I i s st →
  (∀ j s st, i - Z.of_nat n < j ≤ i → I j s st →
     wp (body j s) (λ s' st', I (j - 1) s' st') st) →
  wp (for_down_loop n i body s) (λ s' st', I (i - Z.of_nat n) s' st') st.
Proof.
  induction n as [|n IH]; intros i s st Hinv Hbody.
  - simpl. apply wp_ret. by rewrite Z.sub_0_r.
  - cbn [for_down_loop]. apply wp_bind.
    eapply wp_mono; [apply Hbody; [lia | done] |].
    intros s' st' Hinv'. cbv beta.
    replace (i - Z.of_nat (S n)) with ((i - 1) - Z.of_nat n) by lia.
    apply IH; [done |]. intros j s'' st'' Hj. apply Hbody. lia.
Qed.

Lemma wp_for_down {T} (I : Z → T → Run → Prop) hi lo body (s : T) st :
  I hi s st →
  (∀ j s st, lo < j ≤ hi → I j s st →
     wp (body j s) (λ s' st', I (j - 1) s' st') st) →
  wp (for_down hi lo body s) (λ s' st', I (Z.min lo hi) s' st') st.
Proof.
  intros Hinv Hbody. unfold for_down.
  replace (Z.min lo hi) with (hi - Z.of_nat (Z.to_nat (hi - lo))) by lia.
  apply wp_for_down_loop; [done |]. intros j s' st' Hj. apply Hbody. lia.
Qed.

(** A [while] loop with a variant [V] that every iteration decreases. *)
Lemma wp_while {T} (I : T → Run → Prop) (V : T → Run → nat) cond body :
  ∀ (fuel : nat) (s : T) st,
  I s st → (V s st ≤ fuel)%nat →
  (∀ s st, I s st →
     wp (cond s) (λ b st', st' = st ∧
       (b = true → (0 < V s st)%nat ∧
          wp (body s) (λ s' st'', I s' st'' ∧ (V s' st'' < V s st)%nat) st)) st) →
  wp (while_ fuel cond body s)
     (λ s' st', I s' st' ∧ wp (cond s') (λ b st'', b = false ∧ st'' = st') st') st.
Proof.
  induction fuel as [|fuel IH]; intros s st Hinv Hfuel Hstep.
  - destruct (proj1 (wp_Ok _ _ _) (Hstep s st Hinv)) as (b & st' & Hc & -> & Hb).
    cbn [while_]. apply wp_bind. unfold wp at 1. rewrite Hc.
    destruct b; [destruct (Hb eq_refl); lia |].
    apply wp_ret. split; [done |]. unfold wp. by rewrite Hc.
  - destruct (proj1 (wp_Ok _ _ _) (Hstep s st Hinv)) as (b & st' & Hc & -> & Hb).
    cbn [while_]. apply wp_bind. unfold wp at 1. rewrite Hc.
    destruct b.
    + destruct (Hb eq_refl) as [Hpos Hbody]. apply wp_bind.
      eapply wp_mono; [exact Hbody |]. intros s' st'' [Hinv' Hdec]. cbv beta.
      apply IH; [done | lia | done].
    + apply wp_ret. split; [done |]. unfold wp. by rewrite Hc.
Qed.

(** ** The primitives *)

Lemma vals_length st : length (vals st) = length (r_array st).
Proof. unfold vals. by rewrite length_fmap. Qed.

Lemma vals_lookup st (k : nat) a :
  r_array st !! k = Some a →
  vals st !! k = Some (default 0 (value <$> r_store st !! a)).
Proof. intros Ha. unfold vals. by rewrite list_lookup_fmap, Ha. Qed.

(** Recording steps is invisible to the facts about the array. *)
Lemma vals_set_steps l st : vals (set_steps l st) = vals st.
Proof. done. Qed.

Lemma ids_set_steps l st : ids (set_steps l st) = ids st.
Proof. done. Qed.

Lemma wfr_set_steps l st : wfr (set_steps l st) = wfr st.
Proof. done. Qed.

Lemma arr_inv_set_steps l0 l st : arr_inv l0 (set_steps l st) = arr_inv l0 st.
Proof. done. Qed.

Lemma r_array_set_steps l st : r_array (set_steps l st) = r_array st.
Proof. done. Qed.

Lemma r_store_set_steps l st : r_store (set_steps l st) = r_store st.
Proof. done. Qed.

Lemma r_steps_set_steps l st : r_steps (set_steps l st) = l.
Proof. done. Qed.

Lemma r_array_set_array arr st : r_array (set_array arr st) = arr.
Proof. done. Qed.

Lemma r_store_set_array arr st : r_store (set_array arr st) = r_store st.
Proof. done. Qed.

Lemma r_steps_set_array arr st : r_steps (set_array arr st) = r_steps st.
Proof. done. Qed.

Lemma r_array_set_store h st : r_array (set_store h st) = r_array st.
Proof. done. Qed.

Lemma r_store_set_store h st : r_store (set_store h st) = h.
Proof. done. Qed.

Lemma r_steps_set_store h st : r_steps (set_store h st) = r_steps st.
Proof. done. Qed.

Lemma set_array_set_steps arr l st :
  set_array arr (set_steps l st) = set_steps l (set_array arr st).
Proof. done. Qed.

Lemma set_store_set_steps h l st :
  set_store h (set_steps l st) = set_steps l (set_store h st).
Proof. done. Qed.

Lemma set_steps_set_steps l l' st : set_steps l (set_steps l' st) = set_steps l st.
Proof. done. Qed.

Create Rewrite HintDb run.

#[global] Hint Rewrite vals_set_steps ids_set_steps wfr_set_steps
  arr_inv_set_steps r_array_set_steps r_store_set_steps r_steps_set_steps
  r_array_set_array r_store_set_array r_steps_set_array
  r_array_set_store r_store_set_store r_steps_set_store
  set_array_set_steps set_store_set_steps set_steps_set_steps : run.

Ltac norm := autorewrite with run in *.

Lemma wfr_init arr : wfr (init arr).
Proof.
  unfold wfr, valid_refs. simpl. apply Forall_forall.
  intros a Ha%elem_of_seq. lia.
Qed.

Lemma vals_init arr : vals (init arr) = value <$> arr.
Proof.
  unfold vals. simpl. apply list_eq. intros k.
  rewrite !list_lookup_fmap. destruct (arr !! k) as [x|] eqn:Hk.
  - rewrite (lookup_seq_lt _ _ _ (lookup_lt_Some _ _ _ Hk)). simpl.
    by rewrite Hk.
  - apply lookup_ge_None in Hk. by rewrite lookup_seq_ge.
Qed.

Lemma wp_lift {A} (f : Run → result A) (Q : A → Run → Prop) st a :
  f st = Ok a → Q a st → wp (lift f) Q st.
Proof. intros Hf HQ. unfold wp, lift. by rewrite Hf. Qed.

Lemma wp_value_at k (Q : Z → Run → Prop) st :
  wfr st → 0 ≤ k < Z.of_nat (length (r_array st)) →
  (∀ v, at_index (vals st) k = Some v → Q v st) →
  wp (value_at k) Q st.
Proof.
  intros Hwf Hk HQ.
  destruct (elem_at_valid _ _ _ Hwf Hk) as [el Hel].
  eapply wp_lift; [by rewrite Hel |]. apply HQ.
  apply elem_at_Ok in Hel as (a & [? Ha]%at_index_Some & Hel).
  apply at_index_Some. split; [done |].
  by rewrite (vals_lookup _ _ _ Ha), Hel.
Qed.


Lemma shoot_Ok shot st :
  wfr st →
  ∃ a, shoot shot st = Ok (a, st) ∧
    ∀ s, array s = a → shows st s.
Proof.
  intros Hwf. destruct shot as [|f].
  - exists (spread (r_array st)). split; [done |]. intros s Hs.
    unfold shows, view_values, view_ids, view, vals, ids. rewrite Hs.
    unfold spread. rewrite <- !list_fmap_compose.
    split; apply Forall_fmap_ext, (Forall_impl _ _ _ Hwf);
      intros a [el Hel]%lookup_lt_is_Some; simpl; by rewrite Hel.
  - destruct (map_state_Ok (r_store st) f (r_array st) 0 Hwf) as (a & Ha & Hlen & Hk).
    exists a. split; [unfold shoot, lift; by rewrite Ha |]. intros s Hs.
    unfold shows, view_values, view_ids, view, vals, ids. rewrite Hs.
    split; apply list_eq; intros k; rewrite !list_lookup_fmap;
      (destruct (r_array st !! k) as [b|] eqn:Hb;
        [destruct (Hk k b Hb) as (el & Hel & ->); simpl; by rewrite Hel
        |apply lookup_ge_None in Hb; rewrite <- Hlen in Hb;
         apply lookup_ge_None in Hb; by rewrite Hb]).
Qed.

(** Recording a step changes neither the elements nor the array; the new
    step shows the live array. *)
Lemma wp_record shot ci si so d (Q : unit → Run → Prop) st :
  wfr st →
  (∀ s, shows st s → description s = d →
     Q tt (set_steps (r_steps st ++ [s]) st)) →
  wp (record shot ci si so d) Q st.
Proof.
  intros Hwf HQ. destruct (shoot_Ok shot st Hwf) as (a & Ha & Hshows).
  unfold record. apply wp_bind. unfold wp at 1. rewrite Ha.
  unfold wp, push_step. apply HQ; [by apply Hshows | done].
Qed.

Lemma wp_say shot d (Q : unit → Run → Prop) st :
  wfr st →
  (∀ s, shows st s → description s = d →
     Q tt (set_steps (r_steps st ++ [s]) st)) →
  wp (say shot d) Q st.
Proof. apply wp_record. Qed.

Lemma fmap_swap_at {A B} (f : A → B) i j (l : list A) :
  f <$> swap_at i j l = swap_at i j (f <$> l).
Proof.
  unfold swap_at, at_index.
  destruct (decide (0 ≤ i)), (decide (0 ≤ j)); rewrite ?list_lookup_fmap;
    destruct (l !! Z.to_nat i) as [x|]; simpl; try done;
    destruct (l !! Z.to_nat j) as [y|]; simpl; try done;
    by rewrite !list_fmap_insert.
Qed.

Lemma vals_swap i j st :
  vals (set_array (swap_at i j (r_array st)) st) = swap_at i j (vals st).
Proof. unfold vals. simpl. apply fmap_swap_at. Qed.

Lemma ids_swap i j st :
  ids (set_array (swap_at i j (r_array st)) st) = swap_at i j (ids st).
Proof. unfold ids. simpl. apply fmap_swap_at. Qed.

#[global] Hint Rewrite vals_swap ids_swap : run.

Lemma wfr_swap i j st : wfr st → wfr (set_array (swap_at i j (r_array st)) st).
Proof. intros Hwf. unfold wfr, valid_refs. simpl. by apply swap_at_Forall. Qed.

Lemma wp_swap i j (Q : unit → Run → Prop) st :
  0 ≤ i < Z.of_nat (length (r_array st)) →
  0 ≤ j < Z.of_nat (length (r_array st)) →
  Q tt (set_array (swap_at i j (r_array st)) st) →
  wp (swap i j) Q st.
Proof.
  intros Hi Hj HQ. unfold wp, swap.
  destruct (at_index_is_Some _ _ Hi) as [ai ->].
  destruct (at_index_is_Some _ _ Hj) as [aj ->]. done.
Qed.

(** A write to the state of an element changes no value and no id. *)
Lemma wp_set_sorted k (Q : unit → Run → Prop) st :
  wfr st → 0 ≤ k < Z.of_nat (length (r_array st)) →
  (∀ h, same_but_state (r_store st) h → Q tt (set_store h st)) →
  wp (set_state k st_sorted) Q st.
Proof.
  intros Hwf Hk HQ. unfold wp, set_state.
  destruct (at_index_is_Some _ _ Hk) as [a Ha]. rewrite Ha.
  apply at_index_Some in Ha as [_ Ha].
  destruct (valid_refs_lookup _ _ _ _ Hwf Ha) as [el Hel]. rewrite Hel.
  apply HQ. split; [by rewrite length_insert |].
  intros b el' Hb. destruct (decide (a = b)) as [->|Hne].
  - rewrite list_lookup_insert_eq by (by eapply lookup_lt_Some). naive_solver.
  - rewrite list_lookup_insert_ne by done. exists (state el').
    by destruct el'; eauto.
Qed.

Lemma vals_same_but_state h st :
  same_but_state (r_store st) h → vals (set_store h st) = vals st.
Proof.
  intros Hsame. unfold vals. simpl. apply list_fmap_ext. intros _ a _.
  by rewrite (same_but_state_value _ _ a Hsame).
Qed.

Lemma ids_same_but_state h st :
  same_but_state (r_store st) h → ids (set_store h st) = ids st.
Proof.
  intros [Hl H]. unfold ids. simpl. apply list_fmap_ext. intros _ a _.
  destruct (r_store st !! a) as [el|] eqn:Hel.
  - destruct (H a el Hel) as (s & -> & _). done.
  - apply lookup_ge_None in Hel. rewrite <- Hl in Hel.
    apply lookup_ge_None in Hel. by rewrite Hel.
Qed.

Lemma wfr_same_but_state h st :
  same_but_state (r_store st) h → wfr st → wfr (set_store h st).
Proof. intros [Hl _]. unfold wfr, valid_refs. simpl. by rewrite Hl. Qed.

(** ** Sorted arrays *)

Lemma at_index_swap_at {A} (l : list A) i j k :
  0 ≤ i < Z.of_nat (length l) → 0 ≤ j < Z.of_nat (length l) →
  at_index (swap_at i j l) k =
    if decide (k = j) then at_index l i
    else if decide (k = i) then at_index l j
    else at_index l k.
Proof.
  intros Hi Hj.
  destruct (at_index_is_Some l i Hi) as [x Hx].
  destruct (at_index_is_Some l j Hj) as [y Hy].
  destruct (swap_at_lookup _ _ _ _ _ Hx Hy) as [Hsi Hsj].
  repeat case_decide; subst; try congruence.
  unfold swap_at. rewrite Hx, Hy. unfold at_index. case_decide; [|done].
  rewrite !list_lookup_insert_ne by lia. done.
Qed.

Lemma at_index_lt_length {A} (l : list A) k x :
  at_index l k = Some x → 0 ≤ k < Z.of_nat (length l).
Proof.
  intros [? H%lookup_lt_Some]%at_index_Some. lia.
Qed.

Lemma sorted_between_all_StronglySorted (l : list Z) :
  sorted_between l 0 (Z.of_nat (length l)) → StronglySorted Z.le l.
Proof.
  induction l as [|x l IH]; intros Hs; constructor.
  - apply IH. intros a b u v Ha Hab Hb Hu Hv.
    apply (Hs (a + 1) (b + 1) u v); [lia | lia | simpl length; lia | |].
    + apply at_index_Some in Hu as [? Hu]. apply at_index_Some. split; [lia |].
      by replace (Z.to_nat (a + 1)) with (S (Z.to_nat a)) by lia.
    + apply at_index_Some in Hv as [? Hv]. apply at_index_Some. split; [lia |].
      by replace (Z.to_nat (b + 1)) with (S (Z.to_nat b)) by lia.
  - apply Forall_forall. intros y [k Hk]%list_elem_of_lookup.
    apply (Hs 0 (Z.of_nat k + 1) x y); [lia | lia | | |].
    + apply lookup_lt_Some in Hk. simpl length. lia.
    + done.
    + apply at_index_Some. split; [lia |].
      by replace (Z.to_nat (Z.of_nat k + 1)) with (S k) by lia.
Qed.

Lemma sorted_perm_sort_asc (l l0 : list Z) :
  sorted_between l 0 (Z.of_nat (length l)) → l ≡ₚ l0 → l = sort_asc l0.
Proof.
  intros Hs Hp. apply (StronglySorted_unique Z.le).
  - by apply sorted_between_all_StronglySorted.
  - apply StronglySorted_merge_sort; apply _.
  - unfold sort_asc. by rewrite merge_sort_Permutation.
Qed.

(** The last step of a run that ends by recording the live array shows the
    ascending sort as soon as the array is sorted and is a permutation of
    the input. *)
Lemma run_algorithm_sorts body arr :
  wp body (λ _ st,
    (∃ s, last (r_steps st) = Some s ∧ shows st s) ∧
    vals st ≡ₚ value <$> arr ∧
    sorted_between (vals st) 0 (Z.of_nat (length (vals st)))) (init arr) →
  sorts (run_algorithm body) arr.
Proof.
  intros (u & st & Hrun & ((s & Hlast & Hshows & _) & Hperm & Hsorted))%wp_Ok.
  exists {| t_store := r_store st; t_steps := r_steps st |}.
  unfold run_algorithm. rewrite Hrun. split; [done |].
  unfold final_values. simpl. rewrite Hlast. simpl. rewrite Hshows.
  by rewrite (sorted_perm_sort_asc _ _ Hsorted Hperm).
Qed.

Lemma arr_inv_length l0 st :
  arr_inv l0 st → Z.of_nat (length (r_array st)) = Z.of_nat (length l0).
Proof. intros [_ Hp]. by rewrite <- vals_length, Hp. Qed.

Lemma arr_inv_init arr : arr_inv (value <$> arr) (init arr).
Proof. split; [apply wfr_init | by rewrite vals_init]. Qed.

Lemma arr_inv_swap l0 i j st :
  arr_inv l0 st → arr_inv l0 (set_array (swap_at i j (r_array st)) st).
Proof.
  intros [Hwf Hp]. split; [by apply wfr_swap |].
  by rewrite vals_swap, swap_at_Permutation.
Qed.

Lemma arr_inv_set_store l0 h st :
  same_but_state (r_store st) h → arr_inv l0 st → arr_inv l0 (set_store h st).
Proof.
  intros Hsame [Hwf Hp]. split; [by apply wfr_same_but_state |].
  by rewrite vals_same_but_state.
Qed.

Lemma split_at_swap l k p q :
  0 ≤ p < k → 0 ≤ q < k → k ≤ Z.of_nat (length l) →
  split_at l k → split_at (swap_at p q l) k.
Proof.
  intros Hp Hq Hk Hs a b x y Ha Hb.
  rewrite !at_index_swap_at by lia. intros Hx Hy.
  repeat case_decide; subst; try lia;
    (eapply Hs; cycle 2; [eassumption | eassumption | lia | lia]).
Qed.

Lemma sorted_between_swap_below l lo hi p q :
  0 ≤ p < lo → 0 ≤ q < lo → lo ≤ Z.of_nat (length l) →
  sorted_between l lo hi → sorted_between (swap_at p q l) lo hi.
Proof.
  intros Hp Hq Hlo Hs a b x y Ha Hab Hb.
  rewrite !at_index_swap_at by lia. intros Hx Hy.
  repeat case_decide; subst; try lia. by eapply (Hs a b).
Qed.

(** ** bubbleSort sorts *)

Lemma bubbleSort_sorts arr : arr ≠ [] → sorts SimpleSorts.bubbleSort arr.
Proof.
  intros Hne. apply run_algorithm_sorts.
  set (n := Z.of_nat (length arr)). set (l0 := value <$> arr).
  assert (Hn : 0 < n) by (destruct arr; [done | simpl in n; lia]).
  assert (Hl0 : Z.of_nat (length l0) = n) by (unfold l0; by rewrite length_fmap).
  unfold SimpleSorts.bubbleSort_run.
  apply wp_bind, wp_say; [apply wfr_init |]. intros s0 _ _.
  apply wp_bind. eapply wp_mono.
  { apply (wp_for (λ i _ st, arr_inv l0 st ∧ split_at (vals st) (n - i) ∧
                     sorted_between (vals st) (n - i) n)).
    - norm. split_and!.
      + apply arr_inv_init.
      + intros a b x y _ Hb _ Hy%at_index_lt_length.
        rewrite vals_length in Hy. simpl in Hy. rewrite length_seq in Hy. lia.
      + intros a b x y ? ? ?. lia.
    - intros i [] st Hi (Hinv & Hsplit & Hsorted).
      apply wp_bind. eapply wp_mono.
      { apply (wp_for (λ j _ st, arr_inv l0 st ∧ split_at (vals st) (n - i) ∧
                         sorted_between (vals st) (n - i) n ∧
                         ∀ a x y, 0 ≤ a < j → at_index (vals st) a = Some x →
                           at_index (vals st) j = Some y → x ≤ y));
          [by split_and!; [..|lia] |].
        clear st Hinv Hsplit Hsorted.
        intros j [] st Hj (Hinv & Hsplit & Hsorted & Hmax).
        pose proof (arr_inv_length _ _ Hinv) as Hlen.
        assert (Hvlen : Z.of_nat (length (vals st)) = n) by (rewrite vals_length; lia).
        apply wp_bind, wp_value_at; [apply Hinv | lia |]. intros vj Hvj.
        apply wp_bind, wp_value_at; [apply Hinv | lia |]. intros vj1 Hvj1.
        apply wp_bind, wp_record; [apply Hinv |]. intros s1 _ _.
        destruct (Z.gtb_spec vj vj1) as [Hgt|Hle].
        - apply wp_bind, wp_record; [norm; apply Hinv |]. intros s2 _ _.
          apply wp_bind, wp_swap; [norm; lia.. |]. norm.
          assert (Hinv1 : arr_inv l0 (set_array (swap_at j (j + 1) (r_array st)) st))
            by (by apply arr_inv_swap).
          apply wp_bind, wp_value_at;
            [norm; apply Hinv1 | norm; rewrite swap_at_length; lia |].
          intros vj' _.
          apply wp_bind, wp_value_at;
            [norm; apply Hinv1 | norm; rewrite swap_at_length; lia |].
          intros vj1' _.
          apply wp_say; [norm; apply Hinv1 |]. intros s3 _ _. norm.
          split_and!; [done | | |].
          + apply split_at_swap; [lia.. | done].
          + apply sorted_between_swap_below; [lia.. | done].
          + intros a x y Ha. rewrite !at_index_swap_at by lia.
            repeat case_decide; subst; try lia; intros Hx Hy; simplify_eq; [lia |].
            eapply (Hmax a); [lia | done..].
        - apply wp_ret. norm. split_and!; [done.. |].
          intros a x y Ha Hx Hy. simplify_eq.
          destruct (decide (a = j)) as [->|]; [simplify_eq; lia |].
          etrans; [eapply (Hmax a); [lia | done..] | lia]. }
      clear st Hinv Hsplit Hsorted. cbv beta.
      intros [] st (Hinv & Hsplit & Hsorted & Hmax).
      rewrite Z.max_r in Hmax by lia.
      pose proof (arr_inv_length _ _ Hinv) as Hlen.
      assert (Hvlen : Z.of_nat (length (vals st)) = n) by (rewrite vals_length; lia).
      apply wp_bind, wp_set_sorted; [apply Hinv | lia |]. intros h Hh.
      pose proof (arr_inv_set_store _ _ _ Hh Hinv) as Hinv1.
      pose proof (vals_same_but_state _ _ Hh) as Hv1.
      apply wp_bind, wp_value_at; [apply Hinv1 | norm; lia |]. intros v _.
      apply wp_record; [apply Hinv1 |]. intros s _ _. norm.
      rewrite Hv1. split_and!; [done | |].
      + intros a b x y Ha Hb Hx Hy.
        destruct (decide (b = n - i - 1)) as [->|].
        * eapply (Hmax a); [pose proof (at_index_lt_length _ _ _ Hx); lia | done..].
        * eapply (Hsplit a b); [lia | lia | done..].
      + intros a b x y Ha Hab Hb Hx Hy.
        destruct (decide (a = n - i - 1)) as [->|].
        * destruct (decide (b = n - i - 1)) as [->|]; [simplify_eq; lia |].
          eapply (Hsplit (n - i - 1) b); [lia | lia | done..].
        * eapply (Hsorted a b); [lia | lia | lia | done..]. }
  cbv beta. intros [] st (Hinv & Hsplit & Hsorted).
  rewrite Z.max_r in Hsplit, Hsorted by lia.
  pose proof (arr_inv_length _ _ Hinv) as Hlen.
  assert (Hvlen : Z.of_nat (length (vals st)) = n) by (rewrite vals_length; lia).
  apply wp_bind, wp_set_sorted; [apply Hinv | lia |]. intros h Hh.
  pose proof (arr_inv_set_store _ _ _ Hh Hinv) as Hinv1.
  pose proof (vals_same_but_state _ _ Hh) as Hv1.
  apply wp_say; [apply Hinv1 |]. intros s Hs _.
  split_and!.
  - exists s. split; [apply last_snoc | exact Hs].
  - apply Hinv1.
  - norm. rewrite Hv1, Hvlen. intros a b x y Ha Hab Hb Hx Hy.
    destruct (decide (a = 0)) as [->|].
    + destruct (decide (b = 0)) as [->|]; [simplify_eq; lia |].
      eapply (Hsplit 0 b); [lia | lia | done..].
    + eapply (Hsorted a b); [lia | lia | lia | done..].
Qed.

(** ** The rules over the numbers of the array

    What the algorithms compute depends on the numbers of the live array
    alone: the rules below speak of [holds l st] and hide the run. *)

Lemma holds_length l st :
  holds l st → Z.of_nat (length (r_array st)) = Z.of_nat (length l).
Proof. intros [_ <-]. by rewrite vals_length. Qed.

Lemma holds_init arr : holds (value <$> arr) (init arr).
Proof. split; [apply wfr_init | apply vals_init]. Qed.

Lemma extends_refl st : extends st st.
Proof. by intros a v. Qed.

Lemma extends_trans st st' st'' :
  extends st st' → extends st' st'' → extends st st''.
Proof. intros H1 H2 a v Ha. by apply H2, H1. Qed.

Lemma wp_while_var {T} (I : T → Run → Prop) (V : T → Run → nat) cond body
    (Q : T → Run → Prop) :
  ∀ (fuel : nat) (s : T) st,
  I s st → (V s st ≤ fuel)%nat →
  (∀ s st, I s st →
     wp (cond s) (λ (b : bool) st',
       if b then wp (body s) (λ s' st'', I s' st'' ∧ (V s' st'' < V s st)%nat) st'
       else Q s st') st) →
  wp (while_ fuel cond body s) Q st.
Proof.
  induction fuel as [|fuel IH]; intros s st Hinv Hfuel Hstep;
    cbn [while_]; apply wp_bind; (eapply wp_mono; [by apply Hstep |]);
    intros [|] st' Hb; cbv beta; try by apply wp_ret.
  - apply wp_Ok in Hb as (? & ? & _ & _ & ?). lia.
  - apply wp_bind. eapply wp_mono; [exact Hb |]. intros s' st'' [Hinv' Hdec].
    cbv beta. apply IH; [done | lia | done].
Qed.

Section rules.
Context (l : list Z) (st : Run) (Hst : holds l st).

Lemma awp_value_at k (Q : Z → Run → Prop) :
  0 ≤ k < Z.of_nat (length l) →
  (∀ v, at_index l k = Some v → Q v st) →
  wp (value_at k) Q st.
Proof.
  intros Hk HQ. destruct Hst as [Hwf <-].
  apply wp_value_at; [done | by rewrite <- vals_length | done].
Qed.

Lemma awp_ref_at k (Q : loc → Run → Prop) :
  0 ≤ k < Z.of_nat (length l) →
  (∀ a v, at_index (r_array st) k = Some a → at_index l k = Some v →
     val_of st a = Some v → Q a st) →
  wp (ref_at k) Q st.
Proof.
  intros Hk HQ. destruct Hst as [Hwf <-]. rewrite vals_length in Hk.
  destruct (at_index_is_Some _ _ Hk) as [a Ha].
  eapply wp_lift; [by rewrite Ha |].
  pose proof Ha as [? Ha']%at_index_Some.
  destruct (valid_refs_lookup _ _ _ _ Hwf Ha') as [el Hel].
  apply (HQ a (value el)); [done | | unfold val_of; by rewrite Hel].
  apply at_index_Some. split; [done |].
  by rewrite (vals_lookup _ _ _ Ha'), Hel.
Qed.

Lemma awp_record shot ci si so d (Q : unit → Run → Prop) :
  (∀ st', holds l st' → extends st st' → shown st' → Q tt st') →
  wp (record shot ci si so d) Q st.
Proof.
  intros HQ. destruct Hst as [Hwf Hl]. apply wp_record; [done |].
  intros s Hs _. apply HQ; [done | by intros ? ? |].
  exists s. split; [apply last_snoc | done].
Qed.

Lemma awp_say shot d (Q : unit → Run → Prop) :
  (∀ st', holds l st' → extends st st' → shown st' → Q tt st') →
  wp (say shot d) Q st.
Proof. apply awp_record. Qed.

Lemma awp_swap i j (Q : unit → Run → Prop) :
  0 ≤ i < Z.of_nat (length l) → 0 ≤ j < Z.of_nat (length l) →
  (∀ st', holds (swap_at i j l) st' → extends st st' → Q tt st') →
  wp (swap i j) Q st.
Proof.
  intros Hi Hj HQ. pose proof (holds_length _ _ Hst) as Hlen.
  destruct Hst as [Hwf Hl].
  apply wp_swap; [lia.. |]. apply HQ; [| by intros ? ?].
  split; [by apply wfr_swap | by rewrite vals_swap, Hl].
Qed.

Lemma awp_write k a v (Q : unit → Run → Prop) :
  0 ≤ k < Z.of_nat (length l) → val_of st a = Some v →
  (∀ st', holds (<[Z.to_nat k := v]> l) st' → extends st st' → Q tt st') →
  wp (write k a) Q st.
Proof.
  intros Hk Ha HQ. pose proof (holds_length _ _ Hst) as Hlen.
  destruct Hst as [Hwf Hl]. unfold wp, write.
  destruct (at_index_is_Some (r_array st) k) as [b ->]; [lia |].
  apply HQ; [| by intros ? ?]. split.
  - unfold wfr, valid_refs in *. simpl. apply Forall_insert; [done |].
    unfold val_of in Ha. apply fmap_Some in Ha as (el & Hel%lookup_lt_Some & _).
    done.
  - rewrite <- Hl. unfold vals. simpl. rewrite list_fmap_insert.
    unfold val_of in Ha. by rewrite Ha.
Qed.

Lemma awp_set_state k s (Q : unit → Run → Prop) :
  0 ≤ k < Z.of_nat (length l) →
  (∀ st', holds l st' → extends st st' → Q tt st') →
  wp (set_state k s) Q st.
Proof.
  intros Hk HQ. pose proof (holds_length _ _ Hst) as Hlen.
  destruct Hst as [Hwf Hl]. unfold wp, set_state.
  destruct (at_index_is_Some (r_array st) k) as [a Ha]; [lia |]. rewrite Ha.
  apply at_index_Some in Ha as [_ Ha].
  destruct (valid_refs_lookup _ _ _ _ Hwf Ha) as [el Hel]. rewrite Hel.
  assert (Hval : ∀ b, value <$> <[a := with_state s el]> (r_store st) !! b
                      = value <$> r_store st !! b).
  { intros b. destruct (decide (a = b)) as [<-|Hne].
    - rewrite list_lookup_insert_eq by (by eapply lookup_lt_Some).
      by rewrite Hel.
    - by rewrite list_lookup_insert_ne. }
  apply HQ.
  - split.
    + unfold wfr, valid_refs in *. simpl. by rewrite length_insert.
    + rewrite <- Hl. unfold vals. simpl. apply list_fmap_ext.
      intros _ b _. by rewrite Hval.
  - intros b v. unfold val_of. simpl. by rewrite Hval.
Qed.

Lemma awp_alloc el (Q : loc → Run → Prop) :
  (∀ a st', holds l st' → extends st st' → val_of st' a = Some (value el) →
     Q a st') →
  wp (alloc el) Q st.
Proof.
  intros HQ. destruct Hst as [Hwf Hl]. unfold wp, alloc. apply HQ.
  - split.
    + unfold wfr, valid_refs in *. simpl. rewrite length_app. simpl.
      eapply Forall_impl; [exact Hwf |]. intros a Ha. simpl in Ha. lia.
    + rewrite <- Hl. unfold vals. simpl. apply Forall_fmap_ext.
      eapply Forall_impl; [exact Hwf |]. intros a Ha. simpl in *.
      by rewrite lookup_app_l.
  - intros a v. unfold val_of. simpl. intros Ha.
    apply fmap_Some in Ha as (x & Hx & ->).
    by rewrite (lookup_app_l_Some _ _ _ _ Hx).
  - unfold val_of. simpl. by rewrite list_lookup_middle.
Qed.
End rules.

Lemma awp_value_of st a v (Q : Z → Run → Prop) :
  val_of st a = Some v → Q v st → wp (value_of a) Q st.
Proof.
  intros Ha HQ. unfold val_of in Ha.
  apply fmap_Some in Ha as (el & Hel & ->).
  eapply wp_lift; [| exact HQ]. unfold deref. by rewrite Hel.
Qed.

(** An algorithm that leaves the array sorted, a permutation of the input,
    and shown by the last step, sorts. *)
Lemma sorts_intro body arr :
  wp body (λ _ st, ∃ l,
    holds l st ∧ shown st ∧ l ≡ₚ value <$> arr ∧
    sorted_between l 0 (Z.of_nat (length l))) (init arr) →
  sorts (run_algorithm body) arr.
Proof.
  intros H. apply run_algorithm_sorts. eapply wp_mono; [exact H |].
  intros _ st (l & [Hwf <-] & Hshown & Hperm & Hsorted). done.
Qed.

(** *** Local arrays of references *)

Lemma refs_hold_extends st st' arr vs :
  extends st st' → refs_hold st arr vs → refs_hold st' arr vs.
Proof.
  intros Hext Hrefs. eapply Forall2_impl; [exact Hrefs |].
  intros a v. apply Hext.
Qed.

Lemma refs_hold_length st arr vs : refs_hold st arr vs → length arr = length vs.
Proof. apply Forall2_length. Qed.

Lemma refs_hold_array l st : holds l st → refs_hold st (r_array st) l.
Proof.
  intros [Hwf <-]. unfold refs_hold, vals. apply Forall2_fmap_r, Forall_Forall2_diag.
  eapply Forall_impl; [exact Hwf |]. intros a Ha. simpl in Ha.
  apply lookup_lt_is_Some in Ha as [el Hel]. unfold val_of. simpl.
  by rewrite Hel.
Qed.

Lemma awp_slice l st from to (Q : list loc → Run → Prop) :
  holds l st →
  (∀ arr, refs_hold st arr (take (Z.to_nat (to - from)) (drop (Z.to_nat from) l)) →
     Q arr st) →
  wp (slice from to) Q st.
Proof.
  intros Hst HQ. eapply wp_lift; [done |]. apply HQ.
  by apply Forall2_take, Forall2_drop, refs_hold_array.
Qed.

Lemma awp_value_in st arr vs k v (Q : Z → Run → Prop) :
  refs_hold st arr vs → at_index vs k = Some v → Q v st →
  wp (value_in arr k) Q st.
Proof.
  intros Hrefs Hv HQ. unfold value_in.
  apply at_index_Some in Hv as [Hk Hv].
  destruct (Forall2_lookup_r _ _ _ _ _ Hrefs Hv) as (a & Ha & Hval).
  rewrite (proj2 (at_index_Some arr k a)) by done.
  by eapply awp_value_of.
Qed.

Lemma awp_write_from l st k arr vs i v (Q : unit → Run → Prop) :
  holds l st → refs_hold st arr vs → at_index vs i = Some v →
  0 ≤ k < Z.of_nat (length l) →
  (∀ st', holds (<[Z.to_nat k := v]> l) st' → extends st st' → Q tt st') →
  wp (write_from k arr i) Q st.
Proof.
  intros Hst Hrefs Hv Hk HQ. unfold write_from.
  apply at_index_Some in Hv as [Hi Hv].
  destruct (Forall2_lookup_r _ _ _ _ _ Hrefs Hv) as (a & Ha & Hval).
  rewrite (proj2 (at_index_Some arr i a)) by done.
  by eapply awp_write.
Qed.

(** The proofs below follow the programs statement by statement. *)
Ltac next :=
  match goal with
  | Hst : holds _ ?st |- ∀ st', holds _ st' → extends ?st st' → _ =>
      let st' := fresh "st" in
      let H := fresh "Hst" in
      let He := fresh "Hext" in
      intros st' H He;
      repeat match goal with
             | Hv : val_of st _ = Some _ |- _ => apply He in Hv
             | Hv : refs_hold st _ _ |- _ => apply (refs_hold_extends _ _ _ _ He) in Hv
             end;
      clear He Hst; try clear st; try rename st' into st; rename H into Hst
  end.

Ltac bind :=
  lazymatch goal with
  | |- wp (mbind _ _) _ _ => apply wp_bind
  | _ => idtac
  end.
Ltac ret := apply wp_ret.
Ltac say := bind; eapply awp_record; [eassumption | next; intros _].
Ltac say_last H := eapply awp_record; [eassumption | next; intros H].
Ltac swp := bind; eapply awp_swap; [eassumption | try lia | try lia | next].
Ltac mark := bind; eapply awp_set_state; [eassumption | try lia | next].
Tactic Notation "rd" ident(v) ident(H) :=
  bind; eapply awp_value_at; [eassumption | try lia | intros v H].

(** Two readings of one position are one number. *)
Ltac same_index :=
  repeat match goal with
  | H1 : at_index ?l ?a = Some ?x, H2 : at_index ?l ?b = Some ?y |- _ =>
      lazymatch x with y => fail | _ => idtac end;
      first [ constr_eq a b
            | let E := fresh in
              assert (E : a = b) by lia; rewrite E in H1; clear E ];
      assert (x = y) by congruence; subst
  end.

(** An inequality between two elements, from the order that is known. *)
Ltac ord :=
  same_index; try lia;
  match goal with
  | H : sorted_between ?l _ _,
    Hx : at_index ?l ?a = Some ?x, Hy : at_index ?l ?b = Some ?y |- ?x ≤ ?y =>
      apply (H a b x y); [lia | lia | lia | exact Hx | exact Hy]
  | H : split_at ?l _,
    Hx : at_index ?l ?a = Some ?x, Hy : at_index ?l ?b = Some ?y |- ?x ≤ ?y =>
      apply (H a b x y); [lia | lia | exact Hx | exact Hy]
  | H : le_ranges ?l _ _ _ _,
    Hx : at_index ?l ?a = Some ?x, Hy : at_index ?l ?b = Some ?y |- ?x ≤ ?y =>
      apply (H a b x y); [lia | lia | exact Hx | exact Hy]
  end.

Ltac wr := bind; eapply awp_write; [eassumption | try lia | eassumption | next].
Ltac rdv := bind; eapply awp_value_of; [eassumption |].
Tactic Notation "rdref" ident(a) ident(v) ident(Ha) ident(Hv) ident(Hva) :=
  bind; eapply awp_ref_at; [eassumption | try lia | intros a v Ha Hv Hva].

Ltac rdin v := bind; eapply awp_value_in; [eassumption | eassumption |].
Ltac wrfrom :=
  bind; eapply awp_write_from; [eassumption | eassumption | eassumption | try lia | next].

(** ** Sorted prefixes and suffixes *)

Lemma swap_at_same {A} i (l : list A) : swap_at i i l = l.
Proof.
  unfold swap_at. destruct (at_index l i) as [x|] eqn:Hx; [|done].
  apply at_index_Some in Hx as [_ Hx]. by rewrite !(list_insert_id _ _ _ Hx).
Qed.

Lemma sorted_between_empty l lo hi : hi ≤ lo + 1 → sorted_between l lo hi.
Proof.
  intros Hle a b x y Ha Hab Hb Hx Hy. assert (a = b) as -> by lia.
  simplify_eq. lia.
Qed.

Lemma split_at_0 l : split_at l 0.
Proof. intros a b x y Ha Hb Hx%at_index_lt_length. lia. Qed.

Lemma split_at_length l k : Z.of_nat (length l) ≤ k → split_at l k.
Proof. intros Hk a b x y Ha Hb Hx Hy%at_index_lt_length. lia. Qed.

(** A sorted prefix that nothing behind it goes below grows by one. *)
Lemma sorted_between_grow l k :
  sorted_between l 0 k → split_at l k → sorted_between l 0 (k + 1).
Proof.
  intros Hs Hsp a b x y Ha Hab Hb Hx Hy.
  destruct (decide (b < k)); [by eapply (Hs a b) |].
  destruct (decide (a = b)) as [->|]; [simplify_eq; lia |].
  eapply (Hsp a b); [lia | lia | done..].
Qed.

(** The same for a sorted suffix that nothing before it exceeds. *)
Lemma sorted_between_grow_down l k hi :
  sorted_between l k hi → split_at l k → sorted_between l (k - 1) hi.
Proof.
  intros Hs Hsp a b x y Ha Hab Hb Hx Hy.
  destruct (decide (k ≤ a)); [by eapply (Hs a b) |].
  destruct (decide (a = b)) as [->|]; [simplify_eq; lia |].
  eapply (Hsp a b); [lia | lia | done..].
Qed.

(** The step of selection: the least of the rest comes to position [i]. *)
Lemma select_least l i m :
  0 ≤ i ≤ m → m < Z.of_nat (length l) →
  sorted_between l 0 i → split_at l i →
  (∀ a x y, i ≤ a < Z.of_nat (length l) → at_index l m = Some x →
     at_index l a = Some y → x ≤ y) →
  sorted_between (swap_at i m l) 0 (i + 1) ∧ split_at (swap_at i m l) (i + 1).
Proof.
  intros Hi Hm Hs Hsp Hmin.
  assert (Hsp' : split_at (swap_at i m l) (i + 1)).
  { intros a b x y Ha Hb. rewrite !at_index_swap_at by lia.
    repeat case_decide; subst; try lia; intros Hx Hy; try ord.
    all: pose proof (at_index_lt_length _ _ _ Hy).
    all: destruct (at_index_is_Some l m ltac:(lia)) as [z Hz].
    all: match type of Hy with at_index _ ?c = _ =>
           etrans; [| apply (Hmin c z y ltac:(lia) Hz Hy)]; ord
         end. }
  split; [| done]. apply sorted_between_grow; [| ].
  - intros a b x y Ha Hab Hb. rewrite !at_index_swap_at by lia.
    repeat case_decide; subst; try lia. intros; ord.
  - intros a b x y Ha Hb. rewrite !at_index_swap_at by lia.
    repeat case_decide; subst; try lia; intros Hx Hy; ord.
Qed.

Lemma at_index_insert {A} (l : list A) k x a :
  0 ≤ k < Z.of_nat (length l) →
  at_index (<[Z.to_nat k := x]> l) a =
    if decide (a = k) then Some x else at_index l a.
Proof.
  intros Hk. unfold at_index. case_decide as Ha.
  - case_decide as Hak; [subst; apply list_lookup_insert_eq; lia |].
    apply list_lookup_insert_ne. lia.
  - case_decide; [lia | done].
Qed.

(** Moving [l[j]] one position right, seen on the list with the key in the
    hole, is a swap of neighbours. *)
Lemma shift_is_swap (l : list Z) j vj vkey :
  0 ≤ j → j + 1 < Z.of_nat (length l) → at_index l j = Some vj →
  <[Z.to_nat j := vkey]> (<[Z.to_nat (j + 1) := vj]> l)
    = swap_at j (j + 1) (<[Z.to_nat (j + 1) := vkey]> l).
Proof.
  intros Hj Hlen Hvj. unfold swap_at.
  rewrite !at_index_insert by lia. rewrite Hvj.
  repeat case_decide; try lia.
  rewrite (list_insert_insert_ne _ (Z.to_nat j) (Z.to_nat (j + 1)) vkey vkey) by lia.
  rewrite list_insert_insert_eq.
  by rewrite list_insert_insert_ne by lia.
Qed.

Lemma insert_step lo v i j :
  0 ≤ lo → lo ≤ j < i → i < Z.of_nat (length v) →
  sorted_between v lo (j + 1) → sorted_between v (j + 1) (i + 1) →
  le_ranges v lo (j + 1) (j + 2) (i + 1) →
  (∀ x y, at_index v j = Some x → at_index v (j + 1) = Some y → y < x) →
  sorted_between (swap_at j (j + 1) v) lo j ∧
  sorted_between (swap_at j (j + 1) v) j (i + 1) ∧
  le_ranges (swap_at j (j + 1) v) lo j (j + 1) (i + 1).
Proof.
  intros H0 Hj Hi Hlo Hhi Hcross Hgt. split_and!.
  - intros a b x y Ha Hab Hb. rewrite !at_index_swap_at by lia.
    repeat case_decide; subst; try lia. intros; ord.
  - intros a b x y Ha Hab Hb. rewrite !at_index_swap_at by lia.
    repeat case_decide; subst; try lia; intros Hx Hy; try ord.
    pose proof (Hgt _ _ Hy Hx). lia.
  - intros a b x y Ha Hb. rewrite !at_index_swap_at by lia.
    repeat case_decide; subst; try lia; intros Hx Hy; ord.
Qed.

Lemma insert_done lo v i j :
  lo - 1 ≤ j < i →
  sorted_between v lo (j + 1) → sorted_between v (j + 1) (i + 1) →
  le_ranges v lo (j + 1) (j + 2) (i + 1) →
  (∀ x y, lo ≤ j → at_index v j = Some x → at_index v (j + 1) = Some y → x ≤ y) →
  sorted_between v lo (i + 1).
Proof.
  intros Hj Hlo Hhi Hcross Hle a b x y Ha Hab Hb Hx Hy.
  destruct (decide (b ≤ j)); [ord |].
  destruct (decide (j + 1 ≤ a)); [ord |].
  destruct (decide (b = j + 1)) as [->|]; [| ord].
  pose proof (at_index_lt_length _ _ _ Hx).
  pose proof (at_index_lt_length _ _ _ Hy).
  destruct (at_index_is_Some v j ltac:(lia)) as [z Hz].
  etrans; [| apply (Hle z y); (done || lia)]. ord.
Qed.

(** ** Reorderings inside a range *)

Lemma at_index_swap_at_other {A} (l : list A) i j k :
  k ≠ i → k ≠ j → at_index (swap_at i j l) k = at_index l k.
Proof.
  intros Hi Hj. unfold swap_at.
  destruct (at_index l i) as [x|] eqn:Hx; [|done].
  destruct (at_index l j) as [y|] eqn:Hy; [|done].
  apply at_index_lt_length in Hx, Hy.
  rewrite !at_index_insert by (rewrite ?length_insert; lia).
  by repeat case_decide.
Qed.

Lemma at_index_swap_at_inv {A} (l : list A) i j k x :
  at_index (swap_at i j l) k = Some x →
  at_index l k = Some x ∨ (k = j ∧ at_index l i = Some x)
  ∨ (k = i ∧ at_index l j = Some x).
Proof.
  unfold swap_at.
  destruct (at_index l i) as [xi|] eqn:Hxi; [|by left].
  destruct (at_index l j) as [xj|] eqn:Hxj; [|by left].
  pose proof (at_index_lt_length _ _ _ Hxi).
  pose proof (at_index_lt_length _ _ _ Hxj).
  rewrite !at_index_insert by (rewrite ?length_insert; lia).
  repeat case_decide; subst; naive_solver.
Qed.

Lemma reorders_one lo hi l i j :
  lo ≤ i < hi → lo ≤ j < hi → reorders lo hi l (swap_at i j l).
Proof. intros. apply reorders_swap; [constructor | done..]. Qed.

Lemma reorders_trans lo hi l1 l2 l3 :
  reorders lo hi l1 l2 → reorders lo hi l2 l3 → reorders lo hi l1 l3.
Proof. intros H12 H23. induction H23; [done | by constructor]. Qed.

Lemma reorders_mono lo hi lo' hi' l l' :
  lo' ≤ lo → hi ≤ hi' → reorders lo hi l l' → reorders lo' hi' l l'.
Proof.
  intros Hlo Hhi H. induction H; [constructor |]. constructor; [done | lia..].
Qed.

Lemma reorders_length lo hi l l' : reorders lo hi l l' → length l' = length l.
Proof. induction 1; [done |]. by rewrite swap_at_length. Qed.

Lemma reorders_Permutation lo hi l l' : reorders lo hi l l' → l' ≡ₚ l.
Proof. induction 1; [done |]. by rewrite swap_at_Permutation. Qed.

Lemma reorders_outside lo hi l l' k :
  reorders lo hi l l' → k < lo ∨ hi ≤ k → at_index l' k = at_index l k.
Proof.
  intros H Hk. induction H; [done |].
  rewrite at_index_swap_at_other by lia. done.
Qed.

Lemma reorders_all_between P lo hi l l' :
  reorders lo hi l l' → all_between P l lo hi → all_between P l' lo hi.
Proof.
  intros H HP. induction H; [done |]. intros k x Hk Hx.
  apply at_index_swap_at_inv in Hx as [Hx | [[-> Hx] | [-> Hx]]];
    [apply (IHreorders k x) | apply (IHreorders i x) | apply (IHreorders j x)];
    done || lia.
Qed.

Lemma all_between_mono P l lo hi lo' hi' :
  lo ≤ lo' → hi' ≤ hi → all_between P l lo hi → all_between P l lo' hi'.
Proof. intros Hlo Hhi H k x Hk. apply H. lia. Qed.

(** What is outside the range keeps its properties too. *)
Lemma reorders_all_outside P lo hi l l' a b :
  reorders lo hi l l' → b ≤ lo ∨ hi ≤ a →
  all_between P l a b → all_between P l' a b.
Proof.
  intros H Hab HP k x Hk. rewrite (reorders_outside lo hi l l') by (done || lia).
  by apply HP.
Qed.

Lemma reorders_sorted_outside lo hi l l' a b :
  reorders lo hi l l' → b ≤ lo ∨ hi ≤ a →
  sorted_between l a b → sorted_between l' a b.
Proof.
  intros H Hab Hs i j x y Hi Hij Hj.
  rewrite !(reorders_outside lo hi l l') by (done || lia). by apply Hs.
Qed.

(** ** Inversions *)

Lemma inversions_app_swap l1 x y l2 :
  y < x →
  inversions (l1 ++ x :: y :: l2) = S (inversions (l1 ++ y :: x :: l2)).
Proof.
  intros Hyx. induction l1 as [|z l1 IH]; simpl.
  - rewrite !filter_cons. repeat case_decide; try lia. simpl. lia.
  - rewrite IH. f_equal.
    assert (Hp : l1 ++ x :: y :: l2 ≡ₚ l1 ++ y :: x :: l2).
    { apply Permutation_app_head, perm_swap. }
    rewrite Hp. lia.
Qed.

Lemma inversions_bound l : (inversions l ≤ length l * length l)%nat.
Proof.
  induction l as [|x l IH]; simpl; [lia |].
  pose proof (length_filter (λ y, y < x) l). nia.
Qed.

Lemma swap_at_comm {A} i j (l : list A) : swap_at i j l = swap_at j i l.
Proof.
  unfold swap_at.
  destruct (at_index l i) as [x|] eqn:Hx, (at_index l j) as [y|] eqn:Hy; try done.
  destruct (decide (i = j)) as [->|Hne]; [by simplify_eq |].
  apply at_index_Some in Hx as [? _], Hy as [? _].
  apply list_insert_insert_ne. lia.
Qed.

Lemma swap_at_neighbours {A} (l : list A) k x y :
  at_index l k = Some x → at_index l (k + 1) = Some y →
  ∃ l1 l2, l = l1 ++ x :: y :: l2 ∧ swap_at k (k + 1) l = l1 ++ y :: x :: l2.
Proof.
  intros Hx Hy. unfold swap_at. rewrite Hx, Hy.
  apply at_index_Some in Hx as [Hk Hx], Hy as [_ Hy].
  replace (Z.to_nat (k + 1)) with (S (Z.to_nat k)) in * by lia.
  exists (take (Z.to_nat k) l), (drop (S (S (Z.to_nat k))) l).
  assert (Hl : l = take (Z.to_nat k) l ++ x :: y :: drop (S (S (Z.to_nat k))) l).
  { rewrite <- (take_drop (Z.to_nat k) l) at 1. f_equal.
    rewrite (drop_S _ _ _ Hx). f_equal. by rewrite (drop_S _ _ _ Hy). }
  split; [done |]. rewrite Hl at 1.
  assert (Hlen : length (take (Z.to_nat k) l) = Z.to_nat k).
  { apply length_take_le. apply lookup_lt_Some in Hx. lia. }
  rewrite insert_app_r_alt by lia. rewrite Hlen, Nat.sub_diag. simpl.
  rewrite insert_app_r_alt by lia.
  rewrite Hlen. by replace (S (Z.to_nat k) - Z.to_nat k)%nat with 1%nat by lia.
Qed.

(** Swapping two neighbours that are out of order undoes one inversion. *)
Lemma inversions_swap_neighbours l k x y :
  at_index l k = Some x → at_index l (k + 1) = Some y → y < x →
  inversions l = S (inversions (swap_at k (k + 1) l)).
Proof.
  intros Hx Hy Hyx.
  destruct (swap_at_neighbours l k x y Hx Hy) as (l1 & l2 & Hl & ->).
  rewrite Hl at 1. by apply inversions_app_swap.
Qed.

(** Neighbours in order all along mean a sorted range. *)
Lemma sorted_between_neighbours l lo hi :
  (∀ k x y, lo ≤ k → k + 1 < hi → at_index l k = Some x →
     at_index l (k + 1) = Some y → x ≤ y) →
  sorted_between l lo hi.
Proof.
  intros H a b x y Ha Hab Hb Hx Hy.
  assert (∃ d : nat, b = a + Z.of_nat d) as [d ->] by (exists (Z.to_nat (b - a)); lia).
  clear Hab. revert y Hb Hy. induction d as [|d IH]; intros y Hb Hy.
  - replace (a + Z.of_nat 0) with a in Hy by lia. simplify_eq. lia.
  - pose proof (at_index_lt_length _ _ _ Hx).
    pose proof (at_index_lt_length _ _ _ Hy).
    destruct (at_index_is_Some l (a + Z.of_nat d) ltac:(lia)) as [z Hz].
    etrans; [apply (IH z); [lia | done] |].
    apply (H (a + Z.of_nat d) z y); [lia | lia | done |].
    by replace (a + Z.of_nat d + 1) with (a + Z.of_nat (S d)) by lia.
Qed.

Lemma inversions_twice_bound l :
  (2 * inversions l + length l ≤ length l * length l)%nat.
Proof.
  induction l as [|x l IH]; simpl; [lia |].
  pose proof (length_filter (λ y, y < x) l). nia.
Qed.

Lemma sorted_between_snoc l lo k :
  sorted_between l lo k →
  (∀ x y, lo ≤ k - 1 → at_index l (k - 1) = Some x → at_index l k = Some y → x ≤ y) →
  sorted_between l lo (k + 1).
Proof.
  intros Hs Hk a b x y Ha Hab Hb Hx Hy.
  destruct (decide (b < k)); [ord |].
  destruct (decide (a = b)) as [->|]; [same_index; lia |].
  assert (b = k) as -> by lia.
  pose proof (at_index_lt_length _ _ _ Hx).
  pose proof (at_index_lt_length _ _ _ Hy).
  destruct (at_index_is_Some l (k - 1) ltac:(lia)) as [z Hz].
  etrans; [| apply (Hk z y); [lia | done..]]. ord.
Qed.

(** ** Settled ends *)

Lemma reorders_at_index_inv lo hi l l' k x :
  reorders lo hi l l' → lo ≤ k < hi → at_index l' k = Some x →
  ∃ k', lo ≤ k' < hi ∧ at_index l k' = Some x.
Proof.
  intros H. revert k x. induction H as [|l' i j H IH Hi Hj]; intros k x Hk Hx.
  - by exists k.
  - apply at_index_swap_at_inv in Hx as [Hx | [[-> Hx] | [-> Hx]]]; eauto.
Qed.

Lemma settled_reorders l l' left_ right_ :
  reorders left_ (right_ + 1) l l' → settled l left_ right_ →
  settled l' left_ right_.
Proof.
  intros Hre (Hs1 & Hp1 & Hs2 & Hp2).
  unfold settled. rewrite (reorders_length _ _ _ _ Hre).
  split_and!.
  - eapply reorders_sorted_outside; [done | lia | done].
  - intros a b x y Ha Hb. rewrite (reorders_outside _ _ _ _ a Hre) by lia.
    intros Hx Hy. destruct (decide (b < right_ + 1)).
    + destruct (reorders_at_index_inv _ _ _ _ b y Hre) as (b' & Hb' & Hy');
        [lia | done |]. ord.
    + rewrite (reorders_outside _ _ _ _ b Hre) in Hy by lia. ord.
  - eapply reorders_sorted_outside; [done | lia | done].
  - intros a b x y Ha Hb Hx. rewrite (reorders_outside _ _ _ _ b Hre) by lia.
    intros Hy. destruct (decide (left_ ≤ a)).
    + destruct (reorders_at_index_inv _ _ _ _ a x Hre) as (a' & Ha' & Hx');
        [lia | done |]. ord.
    + rewrite (reorders_outside _ _ _ _ a Hre) in Hx by lia. ord.
Qed.

(** The greatest of the middle, at its right end, is settled. *)
Lemma settled_shrink_right l left_ right_ :
  left_ ≤ right_ → settled l left_ right_ →
  (∀ a x y, left_ ≤ a ≤ right_ → at_index l a = Some x →
     at_index l right_ = Some y → x ≤ y) →
  settled l left_ (right_ - 1).
Proof.
  intros Hlr (Hs1 & Hp1 & Hs2 & Hp2) Hmax.
  unfold settled. replace (right_ - 1 + 1) with right_ by lia.
  split_and!; [done | done | |].
  - pose proof (sorted_between_grow_down l (right_ + 1) _ Hs2 Hp2) as H.
    by replace (right_ + 1 - 1) with right_ in H by lia.
  - intros a b x y Ha Hb Hx Hy.
    destruct (decide (b = right_)) as [->|]; [| ord].
    destruct (decide (left_ ≤ a)); [apply (Hmax a); (lia || done) | ord].
Qed.

(** The least of the middle, at its left end, is settled. *)
Lemma settled_shrink_left l left_ right_ :
  left_ ≤ right_ → settled l left_ right_ →
  (∀ a x y, left_ ≤ a ≤ right_ → at_index l left_ = Some x →
     at_index l a = Some y → x ≤ y) →
  settled l (left_ + 1) right_.
Proof.
  intros Hlr (Hs1 & Hp1 & Hs2 & Hp2) Hmin.
  split_and!; [| | done | done].
  - by apply sorted_between_grow.
  - intros a b x y Ha Hb Hx Hy.
    destruct (decide (a = left_)) as [->|]; [| ord].
    destruct (decide (b ≤ right_)); [apply (Hmin b); (lia || done) | ord].
Qed.

Lemma settled_sorted l left_ right_ :
  settled l left_ right_ → sorted_between l left_ (right_ + 1) →
  sorted_between l 0 (Z.of_nat (length l)).
Proof.
  intros (Hs1 & Hp1 & Hs2 & Hp2) Hs a b x y Ha Hab Hb Hx Hy.
  destruct (decide (a < left_)); [destruct (decide (b < left_)); ord |].
  destruct (decide (b < right_ + 1)); [ord |].
  destruct (decide (a < right_ + 1)); ord.
Qed.

Lemma settled_init l : settled l 0 (Z.of_nat (length l) - 1).
Proof.
  split_and!.
  - apply sorted_between_empty. lia.
  - apply split_at_0.
  - apply sorted_between_empty. lia.
  - apply split_at_length. lia.
Qed.

Lemma sorted_between_cons l k hi :
  sorted_between l (k + 1) hi →
  (∀ x y, k + 1 < hi → at_index l k = Some x → at_index l (k + 1) = Some y → x ≤ y) →
  sorted_between l k hi.
Proof.
  intros Hs Hk a b x y Ha Hab Hb Hx Hy.
  destruct (decide (k < a)); [ord |].
  destruct (decide (a = b)) as [->|]; [same_index; lia |].
  assert (a = k) as -> by lia.
  pose proof (at_index_lt_length _ _ _ Hx).
  pose proof (at_index_lt_length _ _ _ Hy).
  destruct (at_index_is_Some l (k + 1) ltac:(lia)) as [z Hz].
  etrans; [apply (Hk x z); [lia | done..] |]. ord.
Qed.

(** ** selectionSort sorts *)

Lemma selectionSort_sorts arr : arr ≠ [] → sorts SimpleSorts.selectionSort arr.
Proof.
  intros Hne. apply sorts_intro.
  set (n := Z.of_nat (length arr)). set (l0 := value <$> arr).
  assert (Hn : 0 < n) by (destruct arr; [done | simpl in n; lia]).
  assert (Hl0 : Z.of_nat (length l0) = n) by (unfold l0; by rewrite length_fmap).
  pose proof (holds_init arr) as Hst. fold l0 in Hst.
  unfold SimpleSorts.selectionSort_run.
  say. bind. eapply wp_mono.
  { apply (wp_for (λ i _ st, ∃ l, holds l st ∧ l ≡ₚ l0 ∧
                     sorted_between l 0 i ∧ split_at l i)).
    - exists l0. split_and!; [done.. | |].
      + intros a b x y ? ? ?. lia.
      + intros a b x y ? ? Hx%at_index_lt_length. lia.
    - clear st Hst. intros i [] st Hi (l & Hst & Hperm & Hsorted & Hsplit).
      assert (Hlen : Z.of_nat (length l) = n) by (by rewrite Hperm).
      say. bind. eapply wp_mono.
      { apply (wp_for (λ j m st, holds l st ∧ i ≤ m < j ∧
                 ∀ a x y, i ≤ a < j → at_index l m = Some x →
                   at_index l a = Some y → x ≤ y)).
        - split_and!; [done | lia | lia |].
          intros a x y Ha Hx Hy. assert (a = i) as -> by lia. simplify_eq. lia.
        - clear st Hst. intros j m st Hj (Hst & Hm & Hmin).
          rd vj Hvj. rd vm Hvm. say.
          destruct (Z.ltb_spec vj vm) as [Hlt|Hge].
          + say. ret. split_and!; [done | lia | lia |].
            intros a x y Ha Hx Hy. simplify_eq.
            destruct (decide (a = j)) as [->|]; [simplify_eq; lia |].
            etrans; [| eapply (Hmin a); [lia | done..]]. lia.
          + ret. split_and!; [done | lia | lia |].
            intros a x y Ha Hx Hy. simplify_eq.
            destruct (decide (a = j)) as [->|]; [simplify_eq; lia |].
            eapply (Hmin a); [lia | done..]. }
      clear st Hst. cbv beta. intros m st (Hst & Hm & Hmin).
      rewrite Z.max_r in Hm, Hmin by lia.
      bind.
      eapply (wp_mono _ (λ _ st, ∃ l, holds l st ∧ l ≡ₚ l0 ∧
                sorted_between l 0 (i + 1) ∧ split_at l (i + 1))).
      { destruct (Z.eqb_spec m i) as [->|Hmi]; simpl.
        - ret. exists l. split_and!; [done.. | |];
            rewrite <- (swap_at_same i l);
            apply select_least; (done || lia || (rewrite Hlen; done)).
        - rd vi Hvi. rd vm Hvm. say. swp.
          exists (swap_at i m l). split_and!; [done | | |].
          + by rewrite swap_at_Permutation.
          + apply select_least; (done || lia || (rewrite Hlen; done)).
          + apply select_least; (done || lia || (rewrite Hlen; done)). }
      clear dependent l. clear st. cbv beta.
      intros [] st (l & Hst & Hperm & Hsorted & Hsplit).
      assert (Hlen : Z.of_nat (length l) = n) by (by rewrite Hperm).
      mark. rd vi Hvi. say. by exists l. }
  clear st Hst. cbv beta. intros [] st (l & Hst & Hperm & Hsorted & Hsplit).
  rewrite Z.max_r in Hsorted, Hsplit by lia.
  assert (Hlen : Z.of_nat (length l) = n) by (by rewrite Hperm).
  mark. say_last Hshown.
  exists l. split_and!; [done.. |]. rewrite Hlen.
  replace n with (n - 1 + 1) by lia. by apply sorted_between_grow.
Qed.

(** ** insertionSort sorts *)

(** X3: insertionSort sorts every input, the empty one included: it returns
    a trace whose last step shows the values of the input in ascending
    order. *)
Lemma insertionSort_sorts arr : sorts SimpleSorts.insertionSort arr.
Proof.
  apply sorts_intro.
  set (n := Z.of_nat (length arr)). set (l0 := value <$> arr).
  assert (Hl0 : Z.of_nat (length l0) = n) by (unfold l0; by rewrite length_fmap).
  pose proof (holds_init arr) as Hst. fold l0 in Hst.
  unfold SimpleSorts.insertionSort_run.
  say. bind. eapply wp_mono.
  { apply (wp_for (λ i _ st, ∃ l, holds l st ∧ l ≡ₚ l0 ∧ sorted_between l 0 i)).
    - exists l0. split_and!; [done.. |]. by apply sorted_between_empty.
    - clear st Hst. intros i [] st Hi (l & Hst & Hperm & Hsorted).
      assert (Hlen : Z.of_nat (length l) = n) by (by rewrite Hperm).
      rdref key vkey Hkey Hvkey Hval. clear Hkey. rdv. say.
      bind. unfold SimpleSorts.insertion_shift. eapply wp_mono.
      { eapply (wp_while_var
          (λ j st, ∃ lc, holds lc st ∧ val_of st key = Some vkey ∧ -1 ≤ j < i ∧
             Z.of_nat (length lc) = n ∧
             let v := <[Z.to_nat (j + 1) := vkey]> lc in
             v ≡ₚ l0 ∧ sorted_between v 0 (j + 1) ∧
             sorted_between v (j + 1) (i + 1) ∧
             le_ranges v 0 (j + 1) (j + 2) (i + 1))
          (λ j _, Z.to_nat (j + 1)) _ _
          (λ j st, ∃ lc, holds lc st ∧ val_of st key = Some vkey ∧ -1 ≤ j < i ∧
             Z.of_nat (length lc) = n ∧
             let v := <[Z.to_nat (j + 1) := vkey]> lc in
             v ≡ₚ l0 ∧ sorted_between v 0 (i + 1))).
        + exists l. split_and!; [done | done | lia | lia | done |].
          replace (i - 1 + 1) with i by lia.
          assert (<[Z.to_nat i := vkey]> l = l) as ->.
          { apply list_insert_id. by apply at_index_Some in Hvkey as [_ ?]. }
          split_and!; [done | done | by apply sorted_between_empty |].
          intros a b x y ? ?. lia.
        + lia.
        + clear l Hst Hperm Hsorted Hlen Hvkey Hval. clear st.
          intros j st (lc & Hst & Hval & Hj & Hlen & Hv). cbv zeta in Hv.
          set (v := <[Z.to_nat (j + 1) := vkey]> lc) in *.
          destruct Hv as (Hperm & Hlo & Hhi & Hcross).
          destruct (Z.geb_spec j 0) as [Hj0|Hj0].
          * rd vj Hvj. rdv. ret.
            assert (Hvj' : at_index v j = Some vj).
            { unfold v. rewrite at_index_insert by lia. by case_decide; [lia |]. }
            assert (Hvk : at_index v (j + 1) = Some vkey).
            { unfold v. rewrite at_index_insert by lia. by case_decide. }
            destruct (Z.gtb_spec vj vkey) as [Hgt|Hle].
            -- rd vj2 Hvj2. say. rdref aj vj3 Haj Hvj3 Hvalj. clear Haj.
               wr. rdv. say. ret. split; [| lia].
               exists (<[Z.to_nat (j + 1) := vj3]> lc).
               replace (j - 1 + 1) with j by lia.
               same_index.
               rewrite (shift_is_swap lc j vj3 vkey) by (done || lia).
               fold v.
               destruct (insert_step 0 v i j ltac:(lia)) as (H1 & H2 & H3);
                 [lia | unfold v; rewrite length_insert; lia | done.. | |].
               { intros x y Hx Hy. same_index. lia. }
               do 4 (split; [done || lia || by rewrite length_insert |]).
               cbv zeta. replace (j - 1 + 2) with (j + 1) by lia.
               split_and!; [| done..]. etrans; [apply swap_at_Permutation | done].
            -- exists lc. do 4 (split; [done |]). split; [done |].
               apply (insert_done 0 v i j); [lia | done.. |].
               intros x y _ Hx Hy. same_index. lia.
          * ret. exists lc. do 4 (split; [done |]). split; [done |].
            apply (insert_done 0 v i j); [lia | done.. |].
            intros x y ?. lia. }
      clear l Hst Hperm Hsorted Hlen Hvkey Hval. clear st. cbv beta.
      intros j st (lc & Hst & Hval & Hj & Hlen & Hv). cbv zeta in Hv.
      set (v := <[Z.to_nat (j + 1) := vkey]> lc) in *.
      destruct Hv as (Hperm & Hs).
      wr. say. exists v. split_and!; done. }
  clear st Hst. cbv beta. intros [] st (l & Hst & Hperm & Hsorted).
  assert (Hlen : Z.of_nat (length l) = n) by (by rewrite Hperm).
  say_last Hshown. exists l. split_and!; [done.. |]. rewrite Hlen.
  destruct (decide (1 ≤ n)); [by rewrite Z.max_r in Hsorted by lia |].
  apply sorted_between_empty. lia.
Qed.

(** ** quickSort sorts *)

Lemma partition_spec low high l st (Q : Z → Run → Prop) :
  holds l st → 0 ≤ low → low < high → high < Z.of_nat (length l) →
  (∀ p vp l' st', holds l' st' → reorders low (high + 1) l l' →
     low ≤ p ≤ high → at_index l' p = Some vp →
     all_between (λ x, x < vp) l' low p →
     all_between (λ x, vp ≤ x) l' (p + 1) (high + 1) → Q p st') →
  wp (EfficientSorts.partition low high) Q st.
Proof.
  intros Hst Hlow Hlh Hhigh HQ. unfold EfficientSorts.partition.
  rdref pivot vp Hpivot Hvp Hval. clear Hpivot. rdv. say.
  bind. eapply wp_mono.
  { apply (wp_for (λ j i st, ∃ lc, holds lc st ∧ reorders low high l lc ∧
             at_index lc high = Some vp ∧ low - 1 ≤ i < j ∧
             all_between (λ x, x < vp) lc low (i + 1) ∧
             all_between (λ x, vp ≤ x) lc (i + 1) j)).
    - exists l. split_and!; [done | constructor | done | lia | lia | |];
        intros k x ?; lia.
    - clear st Hst Hval. intros j i st Hj (lc & Hst & Hre & Hhi & Hi & Hlt & Hge).
      assert (Hlen : length lc = length l) by (by eapply reorders_length).
      rd vj Hvj. say.
      destruct (Z.ltb_spec vj vp) as [Hvlt|Hvge].
      + bind.
        eapply (wp_mono _ (λ _ st, ∃ lc', holds lc' st ∧ reorders low high l lc' ∧
                  at_index lc' high = Some vp ∧
                  all_between (λ x, x < vp) lc' low (i + 1 + 1) ∧
                  all_between (λ x, vp ≤ x) lc' (i + 1 + 1) (j + 1))).
        * destruct (Z.eqb_spec (i + 1) j) as [Hij|Hij]; simpl.
          -- ret. exists lc. split_and!; [done.. | |].
             ++ intros k x Hk Hx. destruct (decide (k = j)) as [->|].
                ** same_index. lia.
                ** apply (Hlt k); [lia | done].
             ++ intros k x Hk. lia.
          -- rd vi Hvi. say. swp.
             exists (swap_at (i + 1) j lc). split_and!; [done | | | |].
             ++ apply reorders_swap; [done | lia..].
             ++ by rewrite at_index_swap_at_other by lia.
             ++ intros k x Hk. rewrite at_index_swap_at by lia.
                repeat case_decide; subst; try lia; intros Hx.
                ** same_index. lia.
                ** apply (Hlt k); [lia | done].
             ++ intros k x Hk. rewrite at_index_swap_at by lia.
                repeat case_decide; subst; try lia; intros Hx.
                ** apply (Hge (i + 1)); [lia | done].
                ** apply (Hge k); [lia | done].
        * cbv beta. clear dependent lc. clear st.
          intros _ st (lc & Hst & Hre & Hhi & Hlt & Hge).
          ret. exists lc. split_and!; [done.. | lia | lia | done | done].
      + ret. exists lc. split_and!; [done.. | lia | lia | done |].
        intros k x Hk Hx. destruct (decide (k = j)) as [->|].
        * same_index. lia.
        * apply (Hge k); [lia | done]. }
  cbv beta. clear st Hst Hval.
  intros i st (lc & Hst & Hre & Hhi & Hi & Hlt & Hge).
  rewrite Z.max_r in Hi, Hge by lia.
  assert (Hlen : length lc = length l) by (by eapply reorders_length).
  swp. say. ret.
  eapply (HQ (i + 1) vp); [done | | lia | | |].
  - apply reorders_swap; [| lia..]. eapply reorders_mono; [| | done]; lia.
  - rewrite at_index_swap_at by lia. repeat case_decide; congruence.
  - intros k x Hk. rewrite at_index_swap_at_other by lia. by apply Hlt.
  - intros k x Hk. rewrite at_index_swap_at by lia.
    repeat case_decide; subst; try lia; intros Hx.
    + apply (Hge (i + 1)); [lia | done].
    + apply (Hge k); [lia | done].
Qed.

Lemma quickSortRecursive_spec : ∀ fuel low high l st (Q : unit → Run → Prop),
  holds l st → 0 ≤ low → high < Z.of_nat (length l) →
  (Z.to_nat (high - low + 1) ≤ fuel)%nat →
  (∀ l' st', holds l' st' → reorders low (high + 1) l l' →
     sorted_between l' low (high + 1) → Q tt st') →
  wp (EfficientSorts.quickSortRecursive fuel low high) Q st.
Proof.
  induction fuel as [|fuel IH]; intros low high l st Q Hst Hlow Hhigh Hfuel HQ;
    cbn [EfficientSorts.quickSortRecursive];
    destruct (Z.ltb_spec low high) as [Hlh|Hlh]; try lia.
  - ret. apply (HQ l); [done | constructor | apply sorted_between_empty; lia].
  - bind. eapply partition_spec; [done | lia.. |].
    clear st Hst. intros p vp l1 st Hst Hre1 Hp Hvp Hlt Hge.
    assert (Hlen1 : length l1 = length l) by (by eapply reorders_length).
    bind. eapply (IH low (p - 1)); [done | lia | lia | lia |].
    clear st Hst. intros l2 st Hst Hre2 Hs2.
    replace (p - 1 + 1) with p in * by lia.
    assert (Hlen2 : length l2 = length l1) by (by eapply reorders_length).
    eapply (IH (p + 1) high); [done | lia | lia | lia |].
    clear st Hst. intros l3 st Hst Hre3 Hs3.
    apply (HQ l3); [done | |].
    + eapply reorders_trans; [exact Hre1 |].
      eapply reorders_trans; (eapply reorders_mono; [| | eassumption]); lia.
    + assert (Hvp3 : at_index l3 p = Some vp).
      { rewrite (reorders_outside _ _ _ _ _ Hre3) by lia.
        by rewrite (reorders_outside _ _ _ _ _ Hre2) by lia. }
      assert (Hlt3 : all_between (λ x, x < vp) l3 low p).
      { eapply reorders_all_outside; [exact Hre3 | lia |].
        eapply reorders_all_between; [exact Hre2 | done]. }
      assert (Hge3 : all_between (λ x, vp ≤ x) l3 (p + 1) (high + 1)).
      { eapply reorders_all_between; [exact Hre3 |].
        eapply reorders_all_outside; [exact Hre2 | lia | done]. }
      assert (Hs3' : sorted_between l3 low p).
      { eapply reorders_sorted_outside; [exact Hre3 | lia | done]. }
      intros a b x y Ha Hab Hb Hx Hy.
      destruct (decide (b < p)); [ord |].
      destruct (decide (p < a)); [ord |].
      assert (x ≤ vp).
      { destruct (decide (a = p)) as [->|]; [same_index; lia |].
        pose proof (Hlt3 a x ltac:(lia) Hx). simpl in *. lia. }
      assert (vp ≤ y).
      { destruct (decide (b = p)) as [->|]; [same_index; lia |].
        pose proof (Hge3 b y ltac:(lia) Hy). simpl in *. lia. }
      lia.
  - ret. apply (HQ l); [done | constructor | apply sorted_between_empty; lia].
Qed.

(** X4: quickSort sorts every input, the empty one included. *)
Lemma quickSort_sorts arr : sorts EfficientSorts.quickSort arr.
Proof.
  apply sorts_intro.
  set (n := length arr). set (l0 := value <$> arr).
  assert (Hl0 : length l0 = n) by (unfold l0; by rewrite length_fmap).
  pose proof (holds_init arr) as Hst. fold l0 in Hst.
  unfold EfficientSorts.quickSort_run.
  say. bind. eapply quickSortRecursive_spec; [done | lia | lia | lia |].
  clear st Hst. intros l st Hst Hre Hs.
  say_last Hshown. exists l. split_and!; [done | done | |].
  - by eapply reorders_Permutation.
  - rewrite (reorders_length _ _ _ _ Hre), Hl0.
    by replace (Z.of_nat n - 1 + 1) with (Z.of_nat n) in Hs by lia.
Qed.

(** ** The claims about the built-in algorithms *)

(** C1, for a built-in algorithm: the first step of bubbleSort on [2, 1]
    is recorded with both elements in state [default]; the writes
    [array[k].state = 'sorted'] that follow reach the same objects, and in
    the returned trace the first step shows both elements [sorted]. *)
Lemma bubbleSort_rewrites_first_step :
  ∃ t first,
    SimpleSorts.bubbleSort sample_21 = Ok t ∧
    t_steps t !! 0%nat = Some first ∧
    array first = [Ref 0%nat; Ref 1%nat] ∧
    view_states sample_21 first = [Some st_default; Some st_default] ∧
    view_states (t_store t) first = [Some st_sorted; Some st_sorted].
Proof. eexists _, _. split_and!; reflexivity. Qed.



(** The sorts that move or copy one element at a time show, in between, an
    id twice and another not at all: here insertionSort on [2, 1]. *)
Lemma insertionSort_shows_an_id_twice :
  ∃ t s,
    SimpleSorts.insertionSort sample_21 = Ok t ∧
    t_steps t !! 3%nat = Some s ∧
    view_ids (t_store t) s = [Some "a"; Some "a"].
Proof. eexists _, _. split_and!; reflexivity. Qed.

(** C7 fails as stated: on the empty input radixSort and bucketSort return a
    trace that ends with their "complete" step. *)
Lemma radix_and_bucket_accept_empty_input :
  (∃ t, SpecializedSorts.radixSort [] = Ok t ∧
     description <$> last (t_steps t) =
       Some "Radix Sort complete! Sorted all digits from least to most significant.") ∧
  (∃ t, SpecializedSorts.bucketSort [] = Ok t ∧
     description <$> last (t_steps t) =
       Some "Bucket Sort complete! Array already sorted (1 or fewer elements).").
Proof. split; eexists; split; reflexivity. Qed.

Lemma say_Ok shot d st :
  wfr st →
  ∃ s, say shot d st = Ok (tt, set_steps (r_steps st ++ [s]) st) ∧
    shows st s ∧ description s = d.
Proof.
  intros Hwf. destruct (shoot_Ok shot st Hwf) as (a & Ha & Hshows).
  exists (plain_step a d). split; [|split; [by apply Hshows | done]].
  unfold say, record, mbind, M_bind. by rewrite Ha.
Qed.

Lemma values_Ok st : wfr st → values st = Ok (vals st, st).
Proof.
  intros Hwf. unfold values, lift. by rewrite (values_of_Ok _ _ Hwf).
Qed.

Lemma js_max_min_Some (l : list Z) :
  l ≠ [] → ∃ hi lo, js_max l = Some hi ∧ js_min l = Some lo.
Proof. destruct l; [done | by eexists _, _]. Qed.

(** countingSort asks for an array of [max - min + 1] counters before it
    looks at any element again: when that is no array length, the call
    throws. *)
Lemma countingSort_span_too_large arr hi lo :
  js_max (value <$> arr) = Some hi → js_min (value <$> arr) = Some lo →
  2 ^ 32 - 1 < hi - lo + 1 →
  SpecializedSorts.countingSort arr = Throw RangeError.
Proof.
  intros Hhi Hlo Hspan. unfold SpecializedSorts.countingSort, run_algorithm.
  unfold SpecializedSorts.countingSort_run.
  destruct (say_Ok Live
    "Starting Counting Sort - Non-comparison sort using frequency counting"
    (init arr) (wfr_init arr)) as (s0 & Hs0 & _).
  unfold mbind at 1, M_bind at 1. rewrite Hs0.
  unfold mbind at 1, M_bind at 1. rewrite values_Ok by apply wfr_init.
  norm. rewrite vals_init, Hhi, Hlo.
  match goal with |- context [say Live ?d] =>
    destruct (say_Ok Live d (set_steps (r_steps (init arr) ++ [s0]) (init arr))
                (wfr_init arr)) as (s1 & Hs1 & _)
  end.
  unfold mbind at 1, M_bind at 1. rewrite Hs1.
  unfold mbind at 1, M_bind at 1, new_counts.
  replace (hi - lo + 1 >? 2 ^ 32 - 1) with true by (symmetry; apply Z.gtb_lt; lia).
  by rewrite orb_true_r.
Qed.

(** C7, amended: none of the three distribution sorts checks its input.  On
    the empty input countingSort throws the [RangeError] of [new Array],
    whose length is then [-Infinity], as it does when the span of the values
    is no array length; radixSort returns its first and its last step;
    bucketSort returns its "complete" step alone for every input of at most
    one element. *)
Theorem distribution_sorts_without_validation :
  SpecializedSorts.countingSort [] = Throw RangeError ∧
  (∀ arr hi lo,
     js_max (value <$> arr) = Some hi → js_min (value <$> arr) = Some lo →
     2 ^ 32 - 1 < hi - lo + 1 →
     SpecializedSorts.countingSort arr = Throw RangeError) ∧
  (∃ t, SpecializedSorts.radixSort [] = Ok t ∧
     description <$> t_steps t =
       ["Starting Radix Sort - Sort by individual digits from least to most significant";
        "Radix Sort complete! Sorted all digits from least to most significant."]) ∧
  (∀ arr, (length arr ≤ 1)%nat →
     ∃ t s, SpecializedSorts.bucketSort arr = Ok t ∧ t_steps t = [s] ∧
       description s =
         "Bucket Sort complete! Array already sorted (1 or fewer elements)." ∧
       view (t_store t) s = Some ∘ with_state st_sorted <$> arr).
Proof.
  split_and!.
  - reflexivity.
  - apply countingSort_span_too_large.
  - eexists. split; reflexivity.
  - intros [|x [|y arr]] Hlen; [| |simpl in Hlen; lia];
      eexists _, _; split_and!; reflexivity.
Qed.

Lemma distribution_sorts_without_validation_witness :
  js_max (value <$> [el 0 "a"; el (2 ^ 32) "b"]) = Some (2 ^ 32) ∧
  js_min (value <$> [el 0 "a"; el (2 ^ 32) "b"]) = Some 0 ∧
  2 ^ 32 - 1 < 2 ^ 32 - 0 + 1 ∧
  SpecializedSorts.countingSort [el 0 "a"; el (2 ^ 32) "b"] = Throw RangeError.
Proof.
  split; [reflexivity |]. split; [reflexivity |]. split; [reflexivity |].
  apply (proj1 (proj2 distribution_sorts_without_validation)
           [el 0 "a"; el (2 ^ 32) "b"] (2 ^ 32) 0); reflexivity.
Defined.

(** ** bogoSort *)

Lemma set_array_set_array a b st : set_array a (set_array b st) = set_array a st.
Proof. done. Qed.

#[global] Hint Rewrite set_array_set_array : run.

Lemma wp_isSorted (Q : bool → Run → Prop) st :
  wfr st → Q (ascending (vals st)) st → wp isSorted Q st.
Proof.
  intros Hwf HQ. eapply wp_lift; [|exact HQ].
  by rewrite (values_of_Ok _ _ Hwf).
Qed.

Lemma shuffles_snoc steps s :
  shuffles (steps ++ [s]) =
    (shuffles steps + (if decide (starts_shuffle s) then 1 else 0))%nat.
Proof.
  unfold shuffles. rewrite filter_app, length_app. f_equal.
  rewrite filter_cons, filter_nil. by case_decide.
Qed.

Lemma not_claims_sorted s d :
  description s = d →
  (∀ k : Z, d ≠ "Bogo Sort complete after " +:+ pretty k +:+ " attempts! Pure luck!") →
  ¬ claims_sorted s.
Proof. intros Hd Hne [k Hk]. apply (Hne k). congruence. Qed.

Section bogo.
Variable random : nat → Z → Z.
Hypothesis random_range : in_range_random random.

Lemma wp_shuffle l0 n calls (Q : nat → Run → Prop) st :
  arr_inv l0 st → Z.of_nat (length (r_array st)) = n →
  (∀ arr' s1 s2 calls',
     let st' := set_steps (r_steps st ++ [s1; s2]) (set_array arr' st) in
     arr_inv l0 st' → starts_shuffle s1 →
     description s2 = "Shuffle complete, checking if sorted..." →
     shows st' s2 → Q calls' st') →
  wp (NoveltySorts.shuffle random n calls) Q st.
Proof.
  intros Hinv Hn HQ. unfold NoveltySorts.shuffle.
  apply wp_bind, wp_say; [apply Hinv |]. intros s1 _ Hs1.
  apply wp_bind. eapply wp_mono.
  { apply (wp_for_down (λ i (_ : nat) st', ∃ arr',
             st' = set_steps (r_steps st ++ [s1]) (set_array arr' st) ∧
             arr_inv l0 st')).
    - exists (r_array st). split; [by destruct st | by norm].
    - intros i c st' Hi (arr' & -> & Hinv').
      pose proof (arr_inv_length _ _ Hinv) as Hlen.
      pose proof (arr_inv_length _ _ Hinv') as Hlen'. norm.
      pose proof (random_range c (i + 1) ltac:(lia)) as Hj.
      apply wp_bind, wp_swap; [norm; lia.. |]. apply wp_ret. norm.
      eexists. split; [done |].
      exact (arr_inv_swap l0 i (random c (i + 1)) (set_array arr' st) Hinv'). }
  cbv beta. intros calls' st' (arr' & -> & Hinv').
  apply wp_bind, wp_say; [apply Hinv' |]. intros s2 Hs2 Hd2.
  apply wp_ret. norm. rewrite <- app_assoc. by apply HQ; norm.
Qed.

Lemma isSorted_Ok st : wfr st → isSorted st = Ok (ascending (vals st), st).
Proof.
  intros Hwf. unfold isSorted, lift. by rewrite (values_of_Ok _ _ Hwf).
Qed.

Ltac not_success :=
  eapply not_claims_sorted; [eassumption | intros ?; simpl; discriminate].

Lemma bogoSort_run_spec arr :
  wp (NoveltySorts.bogoSort_run random (Z.of_nat (length arr)))
     (λ _ st,
        (shuffles (r_steps st) ≤ 50)%nat ∧
        (∃ s, last (r_steps st) = Some s ∧ shows st s) ∧
        vals st ≡ₚ value <$> arr ∧
        (ascending (vals st) = false →
           (∃ s, last (r_steps st) = Some s ∧ gave_up s) ∧
           shuffles (r_steps st) = 50%nat ∧
           Forall (λ s, ¬ claims_sorted s) (r_steps st)))
     (init arr).
Proof.
  unfold NoveltySorts.bogoSort_run.
  apply wp_bind, wp_say; [apply wfr_init |]. intros s0 Hs0 Hd0.
  apply wp_bind. eapply wp_mono.
  { apply (wp_while
      (λ '(attempts, calls, broke) st,
         arr_inv (value <$> arr) st ∧
         Z.of_nat (length (r_array st)) = Z.of_nat (length arr) ∧
         Z.of_nat (shuffles (r_steps st)) = attempts ∧
         Forall (λ s, ¬ claims_sorted s) (r_steps st) ∧
         (∃ s, last (r_steps st) = Some s ∧ shows st s) ∧
         (if broke : bool
          then attempts = 50 ∧ ∃ s, last (r_steps st) = Some s ∧ gave_up s
          else attempts < 50))
      (λ '(attempts, calls, broke) st,
         if broke : bool then 0%nat else Z.to_nat (50 - attempts))).
    - norm. split_and!.
      + apply arr_inv_init.
      + simpl. by rewrite length_seq.
      + rewrite shuffles_snoc. case_decide as Hsh; [|done].
        unfold starts_shuffle in Hsh. congruence.
      + simpl. apply Forall_singleton. not_success.
      + exists s0. split; [done |]. by norm.
      + lia.
    - simpl. lia.
    - intros [[attempts calls] broke] st (Hinv & Hlen & Hsh & Hno & Hlast & Hbroke).
      destruct broke; [by apply wp_ret |].
      apply wp_bind, wp_isSorted; [apply Hinv |]. apply wp_ret.
      split; [done |]. intros [Hns Hlt%Z.ltb_lt]%andb_true_iff.
      split; [lia |].
      apply wp_bind, wp_shuffle with (l0 := value <$> arr); [done.. |].
      intros arr' s1 s2 calls' st' Hinv' Hs1 Hd2 Hshows2.
      assert (Hsh' : Z.of_nat (shuffles (r_steps st')) = attempts + 1).
      { unfold st'. norm. rewrite (app_assoc _ [s1] [s2]), !shuffles_snoc.
        rewrite decide_True by done. rewrite decide_False; [lia |].
        unfold starts_shuffle. congruence. }
      assert (Hno' : Forall (λ s, ¬ claims_sorted s) (r_steps st')).
      { unfold st'. norm. apply Forall_app. split; [done |].
        constructor; [not_success |]. constructor; [not_success | constructor]. }
      assert (Hlen' : Z.of_nat (length (r_array st')) = Z.of_nat (length arr)).
      { by rewrite (arr_inv_length _ _ Hinv'), length_fmap. }
      destruct (Z.geb_spec (attempts + 1) 50) as [Hge|Hlt'].
      + apply wp_bind, wp_say; [apply Hinv' |]. intros s3 Hs3 Hd3.
        apply wp_ret. norm. split_and!; try done.
        * rewrite shuffles_snoc, decide_False; [lia |].
          unfold starts_shuffle. congruence.
        * apply Forall_app. split; [done |]. apply Forall_singleton. not_success.
        * exists s3. by rewrite last_snoc.
        * lia.
        * exists s3. by rewrite last_snoc.
        * simpl. lia.
      + apply wp_ret. split_and!; try done.
        * exists s2. split; [|done]. unfold st'. norm.
          by rewrite (app_assoc _ [s1] [s2]), last_snoc.
        * simpl. lia. }
  cbv beta. intros [[attempts calls] broke] st
    [(Hinv & Hlen & Hsh & Hno & Hlast & Hbroke) Hcond].
  apply wp_Ok in Hcond as (b & st2 & Hcond & -> & ->).
  apply wp_bind, wp_isSorted; [apply Hinv |].
  destruct (ascending (vals st)) eqn:Hasc.
  - apply wp_say; [apply Hinv |]. intros s Hs Hd. norm.
    split_and!; [| exists s; by rewrite last_snoc | apply Hinv | congruence].
    rewrite shuffles_snoc, decide_False.
    + destruct broke; [destruct Hbroke |]; lia.
    + unfold starts_shuffle. rewrite Hd. simpl. discriminate.
  - apply wp_ret. destruct broke.
    + destruct Hbroke as [-> Hgave].
      split_and!; [lia | done | apply Hinv |]. intros _. split_and!; [done | lia | done].
    + unfold mbind, M_bind in Hcond.
      rewrite (isSorted_Ok _ (proj1 Hinv)), Hasc in Hcond. simpl in Hcond.
      injection Hcond as Hcond. apply Z.ltb_ge in Hcond. lia.
Qed.
End bogo.



(** ** The ids that the steps show *)

Lemma view_ids_spread h arr s :
  valid_refs h arr → array s = spread arr → view_ids h s = Some <$> ids_of h arr.
Proof.
  intros Hv Hs. unfold view_ids, view, ids_of. rewrite Hs. unfold spread.
  rewrite <- !list_fmap_compose.
  apply Forall_fmap_ext, (Forall_impl _ _ _ Hv).
  intros a [el Hel]%lookup_lt_is_Some. simpl. by rewrite Hel.
Qed.

Lemma view_ids_map_state h f arr idx sl s :
  map_state h f idx arr = Ok sl → array s = sl →
  view_ids h s = Some <$> ids_of h arr.
Proof.
  intros Hsl Hs. destruct (map_state_inv _ _ _ _ _ Hsl) as [Hlen Hk].
  unfold view_ids, view, ids_of. rewrite Hs.
  apply list_eq. intros k. rewrite !list_lookup_fmap.
  destruct (sl !! k) as [sk|] eqn:Hsk.
  - destruct (Hk k sk Hsk) as (a & el & Ha & Hel & ->).
    rewrite Ha. simpl. by rewrite Hel.
  - apply lookup_ge_None in Hsk. rewrite Hlen in Hsk.
    apply lookup_ge_None in Hsk. by rewrite Hsk.
Qed.

Lemma store_evolves_same_ids h h' : store_evolves h h' → same_ids h h'.
Proof.
  intros [Hl Hev]. split; [done |]. intros a el Hel.
  destruct (Hev a el Hel) as (el' & ? & ? & _). eauto.
Qed.

(** A step shows the same ids in every later store. *)
Lemma shows_ids_same_ids i0 h h' s :
  same_ids h h' → shows_ids i0 h s → shows_ids i0 h' s.
Proof.
  intros [Hl Hev] Hs. unfold shows_ids in *.
  assert (Heq : view_ids h' s = view_ids h s); [|by rewrite Heq].
  unfold view_ids, view. rewrite <- !list_fmap_compose.
  apply Forall_fmap_ext, Forall_forall. intros sl Hsl.
  destruct sl as [a|el]; [|done]. simpl.
  destruct (h !! a) as [el|] eqn:Hel.
  - destruct (Hev a el Hel) as (el' & -> & Hid). simpl. by rewrite Hid.
  - exfalso. assert (Hin : None ∈ view_ids h s).
    { unfold view_ids, view. rewrite <- list_fmap_compose.
      apply list_elem_of_fmap. exists (Ref a). simpl. by rewrite Hel. }
    rewrite Hs in Hin. apply list_elem_of_fmap in Hin as (? & [=] & _).
Qed.

Lemma shows_ids_evolves i0 h h' s :
  store_evolves h h' → shows_ids i0 h s → shows_ids i0 h' s.
Proof. intros Hev. by apply shows_ids_same_ids, store_evolves_same_ids. Qed.

Lemma ids_of_same_ids h h' arr :
  same_ids h h' → valid_refs h arr → ids_of h' arr = ids_of h arr.
Proof.
  intros [Hl Hev] Hv. unfold ids_of.
  apply Forall_fmap_ext, (Forall_impl _ _ _ Hv).
  intros a [el Hel]%lookup_lt_is_Some.
  destruct (Hev a el Hel) as (el' & -> & Hid). rewrite Hel. simpl. by rewrite Hid.
Qed.

Lemma ids_of_evolves h h' arr :
  store_evolves h h' → valid_refs h arr → ids_of h' arr = ids_of h arr.
Proof. intros Hev. by apply ids_of_same_ids, store_evolves_same_ids. Qed.

Lemma ids_of_swap_at h i j arr : ids_of h (swap_at i j arr) ≡ₚ ids_of h arr.
Proof. unfold ids_of. by rewrite swap_at_Permutation. Qed.

Lemma ia_ids_ok_new initialArray : ia_ids_ok (id <$> initialArray) (IA.new initialArray).
Proof.
  assert (Hids : ids_of (ia_store (IA.new initialArray)) (ia_array (IA.new initialArray))
                 = id <$> initialArray).
  { unfold ids_of. simpl. apply list_eq. intros k.
    rewrite !list_lookup_fmap. destruct (initialArray !! k) as [x|] eqn:Hk.
    - rewrite (lookup_seq_lt _ _ _ (lookup_lt_Some _ _ _ Hk)). simpl.
      by rewrite list_lookup_fmap, Hk.
    - apply lookup_ge_None in Hk. by rewrite lookup_seq_ge. }
  split_and!; [apply wf_new | by rewrite Hids |].
  apply Forall_singleton. unfold shows_ids.
  rewrite (view_ids_spread _ (ia_array (IA.new initialArray))); [by rewrite Hids | apply wf_new | done].
Qed.

(** Recording a step that shows the live array keeps the invariant. *)
Lemma ia_ids_ok_push i0 s this :
  ia_ids_ok i0 this →
  view_ids (ia_store this) s = Some <$> ids_of (ia_store this) (ia_array this) →
  ia_ids_ok i0 (IA.push s this).
Proof.
  intros (Hwf & Hids & Hsteps) Hs. split_and!; [done.. |]. simpl.
  apply Forall_app. split; [done |]. apply Forall_singleton.
  unfold shows_ids. by rewrite Hs, Hids.
Qed.

Lemma ia_ids_ok_store i0 h this :
  store_evolves (ia_store this) h →
  ia_ids_ok i0 this → ia_ids_ok i0 (IA.with_store h this).
Proof.
  intros Hev (Hwf & Hids & Hsteps). split_and!.
  - unfold wf, valid_refs in *. simpl. by rewrite (proj1 Hev).
  - simpl. by rewrite (ids_of_evolves _ _ _ Hev Hwf).
  - simpl. eapply Forall_impl; [exact Hsteps |].
    intros s. by apply shows_ids_evolves.
Qed.

Lemma ia_ids_ok_swap i0 i j this :
  ia_ids_ok i0 this → ia_ids_ok i0 (IA.with_array (swap_at i j (ia_array this)) this).
Proof.
  intros (Hwf & Hids & Hsteps). split_and!; [|simpl; by rewrite ids_of_swap_at | done].
  unfold wf. simpl. by apply swap_at_Forall.
Qed.

Lemma ia_ids_ok_clear i0 this : ia_ids_ok i0 (IA.clear this) ↔ ia_ids_ok i0 this.
Proof. done. Qed.

Lemma ia_ids_ok_addStep i0 d this :
  ia_ids_ok i0 this → ia_ids_ok i0 (IA.addStep d this).
Proof.
  intros Hok. unfold IA.addStep. apply ia_ids_ok_clear, ia_ids_ok_push; [done |].
  apply view_ids_spread; [apply Hok | done].
Qed.

Lemma exec_ids_ok i0 op this this' :
  ia_ids_ok i0 this → exec op this = Ok this' → ia_ids_ok i0 this'.
Proof.
  intros Hok Hex. pose proof Hok as (Hwf & Hids & Hsteps).
  destruct op as [d|index|index v| |i j|i j|index|start end_|d| |]; simpl in Hex.
  - by simplify_eq.
  - by apply bind_Ok in Hex as (? & _ & [= <-]).
  - destruct (decide (0 ≤ index < IA.length this)) as [Hi|Hi];
      [|by rewrite set_throws in Hex].
    destruct (set_Ok index v this Hwf Hi) as (a & el & Ha & Hel & Hset).
    rewrite Hset in Hex. simplify_eq.
    apply ia_ids_ok_addStep, ia_ids_ok_store; [by apply store_evolves_set | done].
  - by simplify_eq.
  - destruct (decide (0 ≤ i < IA.length this ∧ 0 ≤ j < IA.length this))
      as [[Hi Hj]|Hij]; [|by rewrite compare_throws in Hex].
    destruct (compare_Ok i j this Hwf Hi Hj) as (ei & ej & sl & _ & _ & Hsl & Hc).
    rewrite Hc in Hex. simplify_eq/=.
    apply ia_ids_ok_clear, ia_ids_ok_push; [done |].
    by eapply view_ids_map_state.
  - destruct (decide (0 ≤ i < IA.length this ∧ 0 ≤ j < IA.length this))
      as [[Hi Hj]|Hij]; [|by rewrite swap_throws in Hex].
    destruct (decide (i = j)) as [->|Hne].
    { rewrite swap_same in Hex by done. by simplify_eq. }
    destruct (swap_Ok i j this Hwf Hi Hj Hne) as (ei & ej & sl & _ & _ & Hsl & Hs).
    rewrite Hs in Hex. simplify_eq/=.
    apply ia_ids_ok_addStep.
    apply (ia_ids_ok_swap i0 i j (IA.push _ this)), ia_ids_ok_push; [done |].
    by eapply view_ids_map_state.
  - destruct (decide (0 ≤ index < IA.length this)) as [Hi|Hi];
      [|by rewrite markSorted_throws in Hex].
    destruct (markSorted_Ok index this Hwf Hi) as (a & el & Ha & Hel & Hm).
    rewrite Hm in Hex. simplify_eq.
    assert (Hok' : ia_ids_ok i0
      (IA.with_store (<[a:=with_state st_sorted el]> (ia_store this)) this)).
    { apply ia_ids_ok_store; [|done].
      by apply same_but_state_evolves, same_but_state_insert. }
    apply ia_ids_ok_clear, ia_ids_ok_push; [done |].
    apply view_ids_spread; [apply Hok' | done].
  - destruct (decide (0 ≤ start ≤ end_ ∧ end_ < IA.length this)) as [[Hs He]|Hr];
      [|by rewrite markRangeSorted_throws in Hex].
    destruct (markRangeSorted_Ok start end_ this Hwf Hs He) as (h & d & Hsame & Hm).
    rewrite Hm in Hex. simplify_eq.
    assert (Hok' : ia_ids_ok i0 (IA.with_store h this)).
    { apply ia_ids_ok_store; [by apply same_but_state_evolves | done]. }
    apply ia_ids_ok_clear, ia_ids_ok_push; [done |].
    apply view_ids_spread; [apply Hok' | done].
  - simplify_eq. by apply ia_ids_ok_addStep.
  - by apply bind_Ok in Hex as (? & _ & [= <-]).
  - by apply bind_Ok in Hex as (? & _ & [= <-]).
Qed.

Lemma run_ids_ok i0 ops : ∀ this, ia_ids_ok i0 this → ia_ids_ok i0 (run ops this).
Proof.
  induction ops as [|op ops IH]; intros this Hok; simpl; [done |].
  destruct (exec op this) as [this'|] eqn:Hex; eauto using exec_ids_ok.
Qed.

(** ** Invariants that every step of a computation keeps *)

Section preserves.
Context (I : Run → Prop).

Lemma pres_ret {A} (a : A) : preserves I (mret a).
Proof. intros st a' st' HI [= <- <-]. done. Qed.

Lemma pres_throw {A} e : preserves I (throw e : M A).
Proof. intros st a st' _ [=]. Qed.

Lemma pres_lift {A} (f : Run → result A) : preserves I (lift f).
Proof.
  intros st a st' HI. unfold lift. destruct (f st); intros [= <- <-]. done.
Qed.

Lemma pres_bind {A B} (m : M A) (k : A → M B) :
  preserves I m → (∀ a, preserves I (k a)) → preserves I (m ≫= k).
Proof.
  intros Hm Hk st b st' HI. unfold mbind, M_bind.
  destruct (m st) as [[a st1]|] eqn:Hrun; [|done]. intros Hb.
  eapply Hk; [|exact Hb]. by eapply Hm.
Qed.

Lemma pres_for_loop {T} (body : Z → T → M T) :
  (∀ i s, preserves I (body i s)) →
  ∀ n i s, preserves I (for_loop n i body s).
Proof.
  intros Hbody. induction n as [|n IH]; intros i s; cbn [for_loop].
  - apply pres_ret.
  - apply pres_bind; [apply Hbody | intros s'; apply IH].
Qed.

Lemma pres_for {T} lo hi (body : Z → T → M T) s :
  (∀ i s, preserves I (body i s)) → preserves I (for_ lo hi body s).
Proof. intros Hbody. by apply pres_for_loop. Qed.

Lemma pres_for_down_loop {T} (body : Z → T → M T) :
  (∀ i s, preserves I (body i s)) →
  ∀ n i s, preserves I (for_down_loop n i body s).
Proof.
  intros Hbody. induction n as [|n IH]; intros i s; cbn [for_down_loop].
  - apply pres_ret.
  - apply pres_bind; [apply Hbody | intros s'; apply IH].
Qed.

Lemma pres_for_down {T} hi lo (body : Z → T → M T) s :
  (∀ i s, preserves I (body i s)) → preserves I (for_down hi lo body s).
Proof. intros Hbody. by apply pres_for_down_loop. Qed.

Lemma pres_while {T} fuel (cond : T → M bool) (body : T → M T) :
  (∀ s, preserves I (cond s)) → (∀ s, preserves I (body s)) →
  ∀ s, preserves I (while_ fuel cond body s).
Proof.
  intros Hcond Hbody. induction fuel as [|fuel IH]; intros s; cbn [while_];
    (apply pres_bind; [apply Hcond |]); intros [|];
    try apply pres_ret; try apply pres_throw.
  apply pres_bind; [apply Hbody | apply IH].
Qed.
End preserves.

Lemma ids_init arr : ids (init arr) = id <$> arr.
Proof.
  unfold ids. simpl. apply list_eq. intros k.
  rewrite !list_lookup_fmap. destruct (arr !! k) as [x|] eqn:Hk.
  - rewrite (lookup_seq_lt _ _ _ (lookup_lt_Some _ _ _ Hk)). simpl.
    by rewrite Hk.
  - apply lookup_ge_None in Hk. by rewrite lookup_seq_ge.
Qed.

Section ids_ok.
Context (i0 : list string).

Lemma pres_record shot ci si so d : preserves (ids_ok i0) (record shot ci si so d).
Proof.
  intros st u st' (Hwf & Hids & Hsteps).
  destruct (shoot_Ok shot st Hwf) as (a & Ha & Hshows).
  unfold record, mbind, M_bind. rewrite Ha. intros [= _ <-].
  split_and!; [done.. |]. simpl. apply Forall_app. split; [done |].
  apply Forall_singleton. unfold shows_ids.
  by rewrite (proj2 (Hshows (Build_SortingStep a ci si so d) eq_refl)), Hids.
Qed.

Lemma pres_say shot d : preserves (ids_ok i0) (say shot d).
Proof. apply pres_record. Qed.

Lemma pres_swap i j : preserves (ids_ok i0) (swap i j).
Proof.
  intros st u st' (Hwf & Hids & Hsteps). unfold swap.
  destruct (at_index (r_array st) i), (at_index (r_array st) j); try done.
  intros [= _ <-]. split_and!; [by apply wfr_swap | | done].
  by rewrite ids_swap, swap_at_Permutation.
Qed.

Lemma pres_set_state k s : preserves (ids_ok i0) (set_state k s).
Proof.
  intros st u st' (Hwf & Hids & Hsteps). unfold set_state.
  destruct (at_index (r_array st) k) as [a|]; [|done].
  destruct (r_store st !! a) as [el|] eqn:Hel; [|done].
  intros [= _ <-].
  assert (Hev : same_ids (r_store st) (<[a:=with_state s el]> (r_store st))).
  { split; [by rewrite length_insert |]. intros b el' Hb.
    destruct (decide (a = b)) as [->|Hne].
    - exists (with_state s el').
      rewrite list_lookup_insert_eq by (by eapply lookup_lt_Some).
      by simplify_eq.
    - exists el'. by rewrite list_lookup_insert_ne by done. }
  split_and!.
  - unfold wfr, valid_refs in *. simpl. by rewrite length_insert.
  - unfold ids. simpl. fold (ids_of (<[a:=with_state s el]> (r_store st)) (r_array st)).
    by rewrite (ids_of_same_ids _ _ _ Hev Hwf).
  - simpl. eapply Forall_impl; [exact Hsteps |].
    intros s'. by apply shows_ids_same_ids.
Qed.

Lemma ids_ok_run_algorithm body arr t :
  preserves (ids_ok i0) body → i0 = id <$> arr →
  run_algorithm body arr = Ok t →
  Forall (shows_ids i0 (t_store t)) (t_steps t).
Proof.
  intros Hbody -> Hrun. unfold run_algorithm in Hrun.
  destruct (body (init arr)) as [[u st]|] eqn:Hb; [|done]. simplify_eq/=.
  eapply (Hbody (init arr)) in Hb as (_ & _ & Hsteps); [done |].
  split_and!; [apply wfr_init | by rewrite ids_init | constructor].
Qed.
End ids_ok.

(** The proof that a program keeps an invariant follows the program. *)
Ltac pres :=
  repeat first
    [ apply pres_record | apply pres_say | apply pres_swap | apply pres_set_state
    | apply pres_lift | apply pres_ret | apply pres_throw
    | apply pres_for | apply pres_for_down | apply pres_while | apply pres_bind
    | progress intros
    | match goal with
      | |- preserves _ (if ?b then _ else _) => destruct b
      | |- preserves _ (match ?x with _ => _ end) => destruct x
      end ].

(** ** The swap-only algorithms keep the ids *)

Section swap_only.
Context (i0 : list string).

Lemma bubbleSort_ids n : preserves (ids_ok i0) (SimpleSorts.bubbleSort_run n).
Proof. unfold SimpleSorts.bubbleSort_run. pres. Qed.

Lemma selectionSort_ids n : preserves (ids_ok i0) (SimpleSorts.selectionSort_run n).
Proof. unfold SimpleSorts.selectionSort_run. pres. Qed.

Lemma partition_ids low high : preserves (ids_ok i0) (EfficientSorts.partition low high).
Proof. unfold EfficientSorts.partition. pres. Qed.

Lemma quickSortRecursive_ids fuel : ∀ low high,
  preserves (ids_ok i0) (EfficientSorts.quickSortRecursive fuel low high).
Proof.
  induction fuel as [|fuel IH]; intros low high; cbn [EfficientSorts.quickSortRecursive];
    destruct (low <? high); try apply pres_ret; try apply pres_throw.
  apply pres_bind; [apply partition_ids |]. intros pi.
  apply pres_bind; [apply IH |]. intros _. apply IH.
Qed.

Lemma quickSort_ids n : preserves (ids_ok i0) (EfficientSorts.quickSort_run n).
Proof.
  unfold EfficientSorts.quickSort_run.
  apply pres_bind; [pres |]. intros _.
  apply pres_bind; [apply quickSortRecursive_ids |]. pres.
Qed.

Lemma heapify_ids fuel : ∀ n i, preserves (ids_ok i0) (EfficientSorts.heapify fuel n i).
Proof.
  induction fuel as [|fuel IH]; intros n i; cbn [EfficientSorts.heapify]; pres.
  apply IH.
Qed.

Lemma heapSort_ids n : preserves (ids_ok i0) (EfficientSorts.heapSort_run n).
Proof.
  unfold EfficientSorts.heapSort_run.
  pres; apply heapify_ids.
Qed.

Lemma combSort_ids fuel n : preserves (ids_ok i0) (ImprovedSorts.combSort_run fuel n).
Proof. unfold ImprovedSorts.combSort_run. pres. Qed.

Lemma cocktailSort_ids fuel n :
  preserves (ids_ok i0) (ImprovedSorts.cocktailSort_run fuel n).
Proof.
  unfold ImprovedSorts.cocktailSort_run, ImprovedSorts.cocktail_forward,
    ImprovedSorts.cocktail_backward. pres.
Qed.

Lemma gnomeSort_ids fuel n : preserves (ids_ok i0) (NoveltySorts.gnomeSort_run fuel n).
Proof. unfold NoveltySorts.gnomeSort_run. pres. Qed.

Lemma pancakeSort_ids n : preserves (ids_ok i0) (NoveltySorts.pancakeSort_run n).
Proof.
  unfold NoveltySorts.pancakeSort_run, NoveltySorts.findMax, NoveltySorts.flip. pres.
Qed.

Lemma bogoSort_ids random n : preserves (ids_ok i0) (NoveltySorts.bogoSort_run random n).
Proof.
  unfold NoveltySorts.bogoSort_run, NoveltySorts.shuffle. pres.
Qed.

Lemma miracleSort_ids : preserves (ids_ok i0) NoveltySorts.miracleSort_run.
Proof. unfold NoveltySorts.miracleSort_run. pres. Qed.
End swap_only.

(** The custom-algorithm array keeps the ids as well: whatever is called on
    it, the live array and every recorded step show the ids of the initial
    array. *)
Lemma instrumented_array_keeps_ids ops initialArray :
  ia_ids_ok (id <$> initialArray) (run ops (IA.new initialArray)).
Proof. apply run_ids_ok, ia_ids_ok_new. Qed.



(** ** gnomeSort sorts *)

(** X11: gnomeSort sorts every input, the empty one included. *)
Lemma gnomeSort_sorts arr : sorts NoveltySorts.gnomeSort arr.
Proof.
  apply sorts_intro. unfold NoveltySorts.gnomeSort_run.
  set (n := length arr). set (l0 := value <$> arr).
  assert (Hl0 : length l0 = n) by (unfold l0; by rewrite length_fmap).
  pose proof (holds_init arr) as Hst. fold l0 in Hst.
  say. bind. eapply wp_mono.
  { eapply (wp_while_var
      (λ index st, ∃ l, holds l st ∧ l ≡ₚ l0 ∧ 0 ≤ index ≤ Z.of_nat n ∧
         sorted_between l 0 index)
      (λ index st, (2 * inversions (vals st) + Z.to_nat (Z.of_nat n - index))%nat)
      _ _
      (λ _ st, ∃ l, holds l st ∧ l ≡ₚ l0 ∧ sorted_between l 0 (Z.of_nat n))).
    - exists l0. split_and!; [done | done | lia | lia |].
      apply sorted_between_empty. lia.
    - cbv beta. rewrite (proj2 Hst). pose proof (inversions_twice_bound l0). lia.
    - clear st Hst. intros index st (l & Hst & Hperm & Hindex & Hs).
      assert (Hlen : length l = n) by (by rewrite Hperm).
      assert (Hvals : vals st = l) by apply Hst.
      ret. destruct (Z.ltb_spec index (Z.of_nat n)) as [Hlt|Hge].
      + destruct (Z.eqb_spec index 0) as [->|Hne].
        * ret. split; [| lia]. exists l. split_and!; [done | done | lia | lia |].
          apply sorted_between_empty. lia.
        * rd v Hv. rd v' Hv'.
          destruct (Z.geb_spec v v') as [Hvv|Hvv].
          -- ret. split; [| lia]. exists l. split_and!; [done | done | lia | lia |].
             apply sorted_between_snoc; [done |].
             intros x y _ Hx Hy. same_index. lia.
          -- say. swp. say. ret.
             assert (Hinv : inversions l
                          = S (inversions (swap_at index (index - 1) l))).
             { rewrite swap_at_comm.
               replace index with (index - 1 + 1) at 2 by lia.
               apply (inversions_swap_neighbours l (index - 1) v' v);
                 [done | by replace (index - 1 + 1) with index by lia | lia]. }
             split.
             ++ exists (swap_at index (index - 1) l).
                split_and!; [done | | lia | lia |].
                ** by rewrite swap_at_Permutation.
                ** intros a b x y Ha Hab Hb.
                   rewrite !at_index_swap_at_other by lia. intros; ord.
             ++ rewrite (proj2 Hst), Hvals, Hinv. lia.
      + exists l. split_and!; [done | done |].
        by replace (Z.of_nat n) with index by lia. }
  clear st Hst. cbv beta. intros _ st (l & Hst & Hperm & Hs).
  say_last Hshown. exists l. split_and!; [done.. |].
  by rewrite (Permutation_length Hperm), Hl0.
Qed.

(** ** cocktailSort sorts *)

Lemma cocktail_forward_spec left_ right_ l st (Q : bool → Run → Prop) :
  holds l st → 0 ≤ left_ → right_ < Z.of_nat (length l) →
  (∀ (swapped : bool) l' st', holds l' st' →
     reorders left_ (right_ + 1) l l' →
     (inversions l' ≤ inversions l)%nat →
     (∀ a x y, left_ ≤ a ≤ right_ → at_index l' a = Some x →
        at_index l' right_ = Some y → x ≤ y) →
     (if swapped then left_ < right_ ∧ (inversions l' < inversions l)%nat
      else sorted_between l' left_ (right_ + 1)) →
     Q swapped st') →
  wp (ImprovedSorts.cocktail_forward left_ right_) Q st.
Proof.
  intros Hst Hleft Hright HQ. unfold ImprovedSorts.cocktail_forward.
  eapply wp_mono.
  { apply (wp_for (λ i (s : bool) st, ∃ lc, holds lc st ∧
             reorders left_ (right_ + 1) l lc ∧
             (inversions lc ≤ inversions l)%nat ∧
             (∀ a x y, left_ ≤ a ≤ i → at_index lc a = Some x →
                at_index lc i = Some y → x ≤ y) ∧
             (if s then left_ < right_ ∧ (inversions lc < inversions l)%nat
              else sorted_between lc left_ (i + 1)))).
    - exists l. split_and!; [done | constructor | lia | |].
      + intros a x y Ha Hx Hy. same_index. lia.
      + apply sorted_between_empty. lia.
    - clear st Hst. intros i s st Hi (lc & Hst & Hre & Hinv & Hmax & Hs).
      assert (Hlen : length lc = length l) by (by eapply reorders_length).
      rd vi Hvi. rd vi1 Hvi1. say.
      destruct (Z.gtb_spec vi vi1) as [Hgt|Hle].
      + say. swp. ret. exists (swap_at i (i + 1) lc).
        pose proof (inversions_swap_neighbours lc i vi vi1 Hvi Hvi1 Hgt) as Hdec.
        split_and!; [done | | lia | | lia | lia].
        * apply reorders_swap; [done | lia..].
        * intros a x y Ha. rewrite !at_index_swap_at by lia.
          repeat case_decide; subst; try lia; intros Hx Hy; same_index; try lia.
          apply (Hmax a x y); [lia | done..].
      + ret. exists lc. split_and!; [done.. | |].
        * intros a x y Ha Hx Hy. same_index.
          destruct (decide (a = i + 1)) as [->|]; [same_index; lia |].
          etrans; [apply (Hmax a x vi); [lia | done..] | lia].
        * destruct s; [done |]. apply sorted_between_snoc; [done |].
          replace (i + 1 - 1) with i by lia.
          intros x y _ Hx Hy. same_index. lia. }
  cbv beta. clear st Hst. intros s st (lc & Hst & Hre & Hinv & Hmax & Hs).
  destruct (decide (left_ ≤ right_)).
  - rewrite Z.max_r in Hmax, Hs by lia. by apply (HQ s lc).
  - apply (HQ s lc); [done.. | |].
    + intros a x y Ha. lia.
    + destruct s; [lia |]. apply sorted_between_empty. lia.
Qed.

Lemma cocktail_backward_spec left_ right_ l st (Q : bool → Run → Prop) :
  holds l st → 0 ≤ left_ → right_ < Z.of_nat (length l) →
  (∀ (swapped : bool) l' st', holds l' st' →
     reorders left_ (right_ + 1) l l' →
     (inversions l' ≤ inversions l)%nat →
     (∀ a x y, left_ ≤ a ≤ right_ → at_index l' left_ = Some x →
        at_index l' a = Some y → x ≤ y) →
     (if swapped then left_ < right_
      else sorted_between l' left_ (right_ + 1)) →
     Q swapped st') →
  wp (ImprovedSorts.cocktail_backward left_ right_) Q st.
Proof.
  intros Hst Hleft Hright HQ. unfold ImprovedSorts.cocktail_backward.
  eapply wp_mono.
  { apply (wp_for_down (λ i (s : bool) st, ∃ lc, holds lc st ∧
             reorders left_ (right_ + 1) l lc ∧
             (inversions lc ≤ inversions l)%nat ∧
             (∀ a x y, i ≤ a ≤ right_ → at_index lc i = Some x →
                at_index lc a = Some y → x ≤ y) ∧
             (if s then left_ < right_
              else sorted_between lc i (right_ + 1)))).
    - exists l. split_and!; [done | constructor | lia | |].
      + intros a x y Ha Hx Hy. same_index. lia.
      + apply sorted_between_empty. lia.
    - clear st Hst. intros i s st Hi (lc & Hst & Hre & Hinv & Hmin & Hs).
      assert (Hlen : length lc = length l) by (by eapply reorders_length).
      rd vi Hvi. rd vi1 Hvi1. say.
      destruct (Z.ltb_spec vi vi1) as [Hlt|Hge].
      + say. swp. ret. exists (swap_at i (i - 1) lc).
        assert (Hdec : inversions lc = S (inversions (swap_at i (i - 1) lc))).
        { rewrite swap_at_comm. replace i with (i - 1 + 1) at 2 by lia.
          apply (inversions_swap_neighbours lc (i - 1) vi1 vi);
            [done | by replace (i - 1 + 1) with i by lia | lia]. }
        split_and!; [done | | lia | | lia].
        * apply reorders_swap; [done | lia..].
        * intros a x y Ha. rewrite !at_index_swap_at by lia.
          repeat case_decide; subst; try lia; intros Hx Hy; same_index; try lia.
          apply (Hmin a x y); [lia | done..].
      + ret. exists lc. split_and!; [done.. | |].
        * intros a x y Ha Hx Hy. same_index.
          destruct (decide (a = i - 1)) as [->|]; [same_index; lia |].
          etrans; [| apply (Hmin a vi y); [lia | done..]]. lia.
        * destruct s; [done |]. apply sorted_between_cons.
          -- by replace (i - 1 + 1) with i by lia.
          -- replace (i - 1 + 1) with i by lia.
             intros x y _ Hx Hy. same_index. lia. }
  cbv beta. clear st Hst. intros s st (lc & Hst & Hre & Hinv & Hmin & Hs).
  destruct (decide (left_ ≤ right_)).
  - rewrite Z.min_l in Hmin, Hs by lia. by apply (HQ s lc).
  - apply (HQ s lc); [done.. | |].
    + intros a x y Ha. lia.
    + destruct s; [lia |]. apply sorted_between_empty. lia.
Qed.

Lemma cocktailSort_sorts arr : arr ≠ [] → sorts ImprovedSorts.cocktailSort arr.
Proof.
  intros Hne. apply sorts_intro. unfold ImprovedSorts.cocktailSort_run.
  set (n := length arr). set (l0 := value <$> arr).
  assert (Hn : (0 < n)%nat) by (destruct arr; [done | simpl in n; lia]).
  assert (Hl0 : length l0 = n) by (unfold l0; by rewrite length_fmap).
  pose proof (holds_init arr) as Hst. fold l0 in Hst.
  say. bind. eapply wp_mono.
  { eapply (wp_while_var
      (λ '(left_, right_, swapped) st, ∃ l, holds l st ∧ l ≡ₚ l0 ∧
         if swapped : bool
         then 0 ≤ left_ ≤ right_ ∧ right_ < Z.of_nat n ∧ settled l left_ right_
         else sorted_between l 0 (Z.of_nat n))
      (λ '(_, _, swapped) st,
         if swapped : bool then S (inversions (vals st)) else 0%nat)
      _ _
      (λ _ st, ∃ l, holds l st ∧ l ≡ₚ l0 ∧ sorted_between l 0 (Z.of_nat n))).
    - exists l0. split_and!; [done | done | lia | lia | lia |].
      rewrite <- Hl0. apply settled_init.
    - cbv beta. rewrite (proj2 Hst). pose proof (inversions_bound l0). lia.
    - clear st Hst. intros [[left_ right_] swapped] st (l & Hst & Hperm & Hinv).
      assert (Hlen : length l = n) by (by rewrite (Permutation_length Hperm)).
      assert (Hvals : vals st = l) by apply Hst.
      ret. destruct swapped; [| by exists l].
      destruct Hinv as (Hleft & Hright & Hset).
      bind. eapply cocktail_forward_spec; [done | lia | lia |].
      intros sf l1 st1 Hst1 Hre1 Hinv1 Hmax1 Hsf.
      assert (Hlen1 : length l1 = n) by (by rewrite (reorders_length _ _ _ _ Hre1)).
      assert (Hperm1 : l1 ≡ₚ l0)
        by (by rewrite (reorders_Permutation _ _ _ _ Hre1)).
      pose proof (settled_reorders _ _ _ _ Hre1 Hset) as Hset1.
      clear Hst. mark. destruct sf; simpl.
      + destruct Hsf as [Hlr Hdec].
        pose proof (settled_shrink_right l1 left_ right_ ltac:(lia) Hset1 Hmax1) as Hset1'.
        bind. eapply cocktail_backward_spec; [done | lia | lia |].
        intros sb l2 st2 Hst2 Hre2 Hinv2 Hmin2 Hsb.
        replace (right_ - 1 + 1) with right_ in * by lia.
        assert (Hlen2 : length l2 = n) by (by rewrite (reorders_length _ _ _ _ Hre2)).
        assert (Hperm2 : l2 ≡ₚ l0)
          by (by rewrite (reorders_Permutation _ _ _ _ Hre2)).
        assert (Hset2 : settled l2 left_ (right_ - 1)).
        { eapply settled_reorders; [| done].
          by replace (right_ - 1 + 1) with right_ by lia. }
        clear Hst1. mark. ret. split.
        * exists l2. split_and!; [done | done |]. destruct sb.
          -- split_and!; [lia | lia | lia |].
             by apply settled_shrink_left; [lia | |].
          -- rewrite <- Hlen2. apply (settled_sorted _ _ _ Hset2).
             by replace (right_ - 1 + 1) with right_ by lia.
        * rewrite Hvals. destruct sb; [| lia]. rewrite (proj2 Hst2). lia.
      + ret. split; [| lia]. exists l1. split_and!; [done | done |].
        rewrite <- Hlen1. by apply (settled_sorted _ _ _ Hset1). }
  clear st Hst. cbv beta. intros _ st (l & Hst & Hperm & Hs).
  say_last Hshown. exists l. split_and!; [done.. |].
  by rewrite (Permutation_length Hperm), Hl0.
Qed.

(** ** combSort sorts *)

(** One pass with the gap [g]. *)
Lemma comb_pass_spec (n g : Z) l st (Q : bool → Run → Prop) body :
  holds l st → 1 ≤ g → Z.of_nat (length l) = n →
  body = (λ i (swapped : bool),
    vi ← value_at i;
    vg ← value_at (i + g);
    _ ← say (Marked (both i (i + g) st_comparing))
          ("Comparing elements " +:+ pretty g +:+ " positions apart: "
             +:+ pretty vi +:+ " vs " +:+ pretty vg);
    if vi >? vg then
      _ ← say (Marked (both i (i + g) st_swapping))
            ("Swapping " +:+ pretty vi +:+ " and " +:+ pretty vg);
      _ ← swap i (i + g);
      mret true
    else mret swapped) →
  (∀ (swapped : bool) l' st', holds l' st' → l' ≡ₚ l →
     (if swapped then g = 1 → (inversions l' < inversions l)%nat
      else ∀ k x y, 0 ≤ k → k + g < n → at_index l' k = Some x →
             at_index l' (k + g) = Some y → x ≤ y) →
     Q swapped st') →
  wp (for_ 0 (n - g) body false) Q st.
Proof.
  intros Hst Hg Hlen -> HQ. eapply wp_mono.
  { apply (wp_for (λ i (s : bool) st, ∃ lc, holds lc st ∧ lc ≡ₚ l ∧
             (g = 1 → (inversions lc ≤ inversions l)%nat) ∧
             if s then g = 1 → (inversions lc < inversions l)%nat
             else ∀ k x y, 0 ≤ k < i → at_index lc k = Some x →
                    at_index lc (k + g) = Some y → x ≤ y)).
    - exists l. split_and!; [done | done | lia |]. intros k x y ?. lia.
    - clear st Hst. intros i s st Hi (lc & Hst & Hperm & Hinv & Hs).
      assert (Hlenc : Z.of_nat (length lc) = n)
        by (by rewrite (Permutation_length Hperm)).
      rd vi Hvi. rd vg Hvg. say.
      destruct (Z.gtb_spec vi vg) as [Hgt|Hle].
      + say. swp. ret. exists (swap_at i (i + g) lc).
        split_and!; [done | by rewrite swap_at_Permutation | |].
        * intros ->.
          pose proof (inversions_swap_neighbours lc i vi vg Hvi Hvg Hgt).
          specialize (Hinv eq_refl). lia.
        * intros ->.
          pose proof (inversions_swap_neighbours lc i vi vg Hvi Hvg Hgt).
          specialize (Hinv eq_refl). lia.
      + ret. exists lc. split_and!; [done.. |].
        destruct s; [done |]. intros k x y Hk Hx Hy.
        destruct (decide (k = i)) as [->|]; [same_index; lia |].
        apply (Hs k x y); [lia | done..]. }
  cbv beta. clear st Hst. intros s st (lc & Hst & Hperm & Hinv & Hs).
  apply (HQ s lc); [done.. |]. destruct s; [done |].
  intros k x y Hk Hkg. apply Hs. lia.
Qed.

Lemma shrink_lt gap : 1 ≤ gap → ImprovedSorts.shrink gap < gap.
Proof.
  intros Hgap. unfold ImprovedSorts.shrink.
  apply Z.div_lt_upper_bound; lia.
Qed.

(** X9: combSort sorts every input, the empty one included; its loop ends
    within the [n + n * n + 1] passes of the model. *)
Lemma combSort_sorts arr : sorts ImprovedSorts.combSort arr.
Proof.
  destruct (decide (arr = [])) as [->|Hne];
    [eexists; split; reflexivity |].
  apply sorts_intro. unfold ImprovedSorts.combSort_run.
  set (n := length arr). set (l0 := value <$> arr).
  assert (Hn : (0 < n)%nat) by (destruct arr; [done | simpl in n; lia]).
  assert (Hl0 : length l0 = n) by (unfold l0; by rewrite length_fmap).
  pose proof (holds_init arr) as Hst. fold l0 in Hst.
  say. bind. eapply wp_mono.
  { eapply (wp_while_var
      (λ '(gap, swapped) st, ∃ l, holds l st ∧ l ≡ₚ l0 ∧ 1 ≤ gap ∧
         (gap = 1 → swapped = false → sorted_between l 0 (Z.of_nat n)))
      (λ '(gap, swapped) st,
         if gap =? 1
         then if swapped : bool then S (inversions (vals st)) else 0%nat
         else (Z.to_nat gap + n * n + 1)%nat)
      _ _
      (λ _ st, ∃ l, holds l st ∧ l ≡ₚ l0 ∧ sorted_between l 0 (Z.of_nat n))).
    - exists l0. split_and!; [done | done | lia | done].
    - cbv beta. rewrite (proj2 Hst). pose proof (inversions_bound l0).
      destruct (Z.eqb_spec (Z.of_nat n) 1); lia.
    - clear st Hst. intros [gap swapped] st (l & Hst & Hperm & Hgap & Hdone).
      assert (Hlen : length l = n) by (by rewrite (Permutation_length Hperm)).
      assert (Hvals : vals st = l) by apply Hst.
      ret. destruct (negb (gap =? 1) || swapped) eqn:Hcond; cycle 1.
      { apply orb_false_iff in Hcond as [Hg%negb_false_iff%Z.eqb_eq ->].
        exists l. split_and!; [done | done |]. by apply Hdone. }
      set (g := if ImprovedSorts.shrink gap <? 1 then 1
                else ImprovedSorts.shrink gap).
      assert (Hg : 1 ≤ g ∧ (g < gap ∨ gap = 1 ∧ g = 1)).
      { pose proof (shrink_lt gap Hgap). unfold g.
        destruct (Z.ltb_spec (ImprovedSorts.shrink gap) 1); lia. }
      clearbody g. clear Hdone. say. bind.
      eapply (comb_pass_spec (Z.of_nat n) g); [done | lia | lia | reflexivity |].
      intros s l1 st1 Hst1 Hperm1 Hs. ret. split.
      + exists l1. split_and!; [done | by rewrite Hperm1 | lia |].
        intros -> ->. apply sorted_between_neighbours. intros k x y Hk Hk1.
        by apply Hs.
      + rewrite Hvals, (proj2 Hst1).
        assert (Hlen1 : length l1 = n)
          by (by rewrite (Permutation_length Hperm1)).
        pose proof (inversions_bound l1).
        destruct (Z.eqb_spec g 1) as [->|Hg1], (Z.eqb_spec gap 1) as [->|Hgap1];
          try lia.
        * simpl in Hcond. subst swapped.
          destruct s; [specialize (Hs eq_refl) |]; lia.
        * destruct s; lia. }
  clear st Hst. cbv beta. intros _ st (l & Hst & Hperm & Hs).
  say_last Hshown. exists l. split_and!; [done.. |].
  by rewrite (Permutation_length Hperm), Hl0.
Qed.

(** ** shellSort sorts *)

(** Moving [l[h']] into the hole at [h], seen on the list with the key in
    the hole, is a swap. *)
Lemma move_is_swap (l : list Z) h h' vh' vkey :
  h ≠ h' → 0 ≤ h < Z.of_nat (length l) → at_index l h' = Some vh' →
  <[Z.to_nat h' := vkey]> (<[Z.to_nat h := vh']> l)
    = swap_at h' h (<[Z.to_nat h := vkey]> l).
Proof.
  intros Hne Hh Hvh'. pose proof (at_index_lt_length _ _ _ Hvh').
  unfold swap_at. rewrite !at_index_insert by lia. rewrite Hvh'.
  repeat case_decide; try lia.
  rewrite (list_insert_insert_ne _ (Z.to_nat h') (Z.to_nat h) vkey vkey) by lia.
  rewrite list_insert_insert_eq.
  by rewrite list_insert_insert_ne by lia.
Qed.

Lemma shell_pass_spec (n gap : Z) l st (Q : unit → Run → Prop) :
  holds l st → 1 ≤ gap → Z.of_nat (length l) = n →
  (∀ l' st', holds l' st' → l' ≡ₚ l →
     (gap = 1 → sorted_between l' 0 n) → Q tt st') →
  wp (ImprovedSorts.shell_pass n gap) Q st.
Proof.
  intros Hst Hgap Hlen HQ. unfold ImprovedSorts.shell_pass.
  say. eapply wp_mono.
  { apply (wp_for (λ i _ st, ∃ lc, holds lc st ∧ lc ≡ₚ l ∧
             (gap = 1 → sorted_between lc 0 i))).
    - exists l. split_and!; [done.. |]. intros ->.
      apply sorted_between_empty. lia.
    - clear st Hst. intros i [] st Hi (lc & Hst & Hperm & Hsorted).
      assert (Hlenc : Z.of_nat (length lc) = n)
        by (by rewrite (Permutation_length Hperm)).
      rdref temp vtemp Htemp Hvtemp Hval. clear Htemp. rdv. say.
      bind. eapply wp_mono.
      { eapply (wp_while_var
          (λ h st, ∃ lh, holds lh st ∧ val_of st temp = Some vtemp ∧
             0 ≤ h ≤ i ∧ Z.of_nat (length lh) = n ∧
             <[Z.to_nat h := vtemp]> lh ≡ₚ l ∧
             (gap = 1 →
                sorted_between (<[Z.to_nat h := vtemp]> lh) 0 h ∧
                sorted_between (<[Z.to_nat h := vtemp]> lh) h (i + 1) ∧
                le_ranges (<[Z.to_nat h := vtemp]> lh) 0 h (h + 1) (i + 1)))
          (λ h _, Z.to_nat h) _ _
          (λ h st, ∃ lh, holds lh st ∧ val_of st temp = Some vtemp ∧
             0 ≤ h ≤ i ∧ Z.of_nat (length lh) = n ∧
             <[Z.to_nat h := vtemp]> lh ≡ₚ l ∧
             (gap = 1 →
                sorted_between (<[Z.to_nat h := vtemp]> lh) 0 (i + 1)))).
        + exists lc.
          assert (<[Z.to_nat i := vtemp]> lc = lc) as ->.
          { apply list_insert_id. by apply at_index_Some in Hvtemp as [_ ?]. }
          split_and!; [done | done | lia | lia | done | done |].
          intros ->. split_and!; [by apply Hsorted | |].
          * apply sorted_between_empty. lia.
          * intros a b x y ? ?. lia.
        + lia.
        + clear lc Hst Hperm Hsorted Hlenc Hvtemp Hval. clear st.
          intros h st (lh & Hst & Hval & Hh & Hlenh & Hperm & Hsorted).
          set (v := <[Z.to_nat h := vtemp]> lh) in *.
          destruct (Z.geb_spec h gap) as [Hhg|Hhg].
          * rd vj Hvj. ret.
            assert (Hvj' : at_index v (h - gap) = Some vj).
            { unfold v. rewrite at_index_insert by lia. by case_decide; [lia |]. }
            assert (Hvk : at_index v h = Some vtemp).
            { unfold v. rewrite at_index_insert by lia. by case_decide. }
            destruct (Z.gtb_spec vj vtemp) as [Hgt|Hle].
            -- rd vj2 Hvj2. say. rdref aj vj3 Haj Hvj3 Hvalj. clear Haj.
               wr. ret. split; [| lia]. same_index.
               exists (<[Z.to_nat h := vj3]> lh).
               rewrite (move_is_swap lh h (h - gap) vj3 vtemp) by (done || lia).
               fold v.
               split_and!; [done | done | lia | lia | by rewrite length_insert | |].
               ++ etrans; [apply swap_at_Permutation | done].
               ++ intros ->. destruct (Hsorted eq_refl) as (Hlo & Hhi & Hcross).
                  destruct (insert_step 0 v i (h - 1) ltac:(lia)) as (H1 & H2 & H3);
                    [lia | unfold v; rewrite length_insert; lia
                    | by replace (h - 1 + 1) with h by lia
                    | by replace (h - 1 + 1) with h by lia
                    | by replace (h - 1 + 1) with h by lia;
                      replace (h - 1 + 2) with (h + 1) by lia | |].
                  { replace (h - 1 + 1) with h by lia.
                    intros x y Hx Hy. same_index. lia. }
                  replace (h - 1 + 1) with h in * by lia. done.
            -- exists lh. fold v. split_and!; [done | done | lia | lia | done.. |].
               intros ->. destruct (Hsorted eq_refl) as (Hlo & Hhi & Hcross).
               apply (insert_done 0 v i (h - 1)); [lia | | | |].
               ++ by replace (h - 1 + 1) with h by lia.
               ++ by replace (h - 1 + 1) with h by lia.
               ++ by replace (h - 1 + 1) with h by lia;
                    replace (h - 1 + 2) with (h + 1) by lia.
               ++ replace (h - 1 + 1) with h by lia.
                  intros x y _ Hx Hy. same_index. lia.
          * ret. exists lh. fold v.
            split_and!; [done | done | lia | lia | done.. |].
            intros ->. destruct (Hsorted eq_refl) as (Hlo & Hhi & Hcross).
            assert (h = 0) as Hh0 by lia. rewrite Hh0 in *.
            apply (insert_done 0 v i (-1)); [lia | done.. |].
            intros x y ?. lia. }
      clear lc Hst Hperm Hsorted Hlenc Hvtemp Hval. clear st. cbv beta.
      intros h st (lh & Hst & Hval & Hh & Hlenh & Hperm & Hsorted).
      wr. exists (<[Z.to_nat h := vtemp]> lh). split_and!; done. }
  cbv beta. clear st Hst. intros [] st (lc & Hst & Hperm & Hsorted).
  apply (HQ lc); [done | done |]. intros ->.
  destruct (decide (1 ≤ n)); [rewrite Z.max_r in Hsorted by lia; by apply Hsorted |].
  apply sorted_between_empty. lia.
Qed.

(** X8: shellSort sorts every input, the empty one included. *)
Lemma shellSort_sorts arr : sorts ImprovedSorts.shellSort arr.
Proof.
  apply sorts_intro. unfold ImprovedSorts.shellSort_run.
  set (n := Z.of_nat (length arr)). set (l0 := value <$> arr).
  assert (Hl0 : Z.of_nat (length l0) = n) by (unfold l0; by rewrite length_fmap).
  pose proof (holds_init arr) as Hst. fold l0 in Hst.
  say. bind. eapply wp_mono.
  { eapply (wp_while_var
      (λ gap st, ∃ l, holds l st ∧ l ≡ₚ l0 ∧ 0 ≤ gap ∧
         (gap = 0 → sorted_between l 0 n))
      (λ gap _, Z.to_nat gap) _ _
      (λ _ st, ∃ l, holds l st ∧ l ≡ₚ l0 ∧ sorted_between l 0 n)).
    - exists l0. split_and!; [done | done | apply Z.div_pos; lia |].
      intros Hgap. apply sorted_between_empty.
      destruct (decide (n ≤ 1)); [lia |].
      assert (1 ≤ n / 2) by (apply Z.div_le_lower_bound; lia). lia.
    - assert (n / 2 ≤ n) by (apply Z.div_le_upper_bound; lia). lia.
    - clear st Hst. intros gap st (l & Hst & Hperm & Hgap & Hdone).
      assert (Hlen : Z.of_nat (length l) = n)
        by (by rewrite (Permutation_length Hperm)).
      ret. destruct (Z.gtb_spec gap 0) as [Hpos|Hle].
      + bind. eapply (shell_pass_spec n gap); [done | lia | lia |].
        clear st Hst. intros l1 st Hst Hperm1 Hsorted1. ret.
        assert (gap / 2 < gap) by (apply Z.div_lt; lia).
        assert (0 ≤ gap / 2) by (apply Z.div_pos; lia).
        split; [| lia]. exists l1. split_and!; [done | by rewrite Hperm1 | lia |].
        intros Hhalf. apply Hsorted1.
        destruct (decide (gap = 1)); [done |].
        assert (1 ≤ gap / 2) by (apply Z.div_le_lower_bound; lia). lia.
      + exists l. split_and!; [done | done |]. apply Hdone. lia. }
  clear st Hst. cbv beta. intros _ st (l & Hst & Hperm & Hs).
  say_last Hshown. exists l. split_and!; [done.. |].
  by rewrite (Permutation_length Hperm), Hl0.
Qed.

(** ** heapSort sorts *)

(** The root of a heap is its greatest element. *)
Lemma heap_root_max l n :
  n ≤ Z.of_nat (length l) →
  (∀ j, 0 ≤ j < n → heap_ok l n j) →
  ∀ j x y, 0 ≤ j < n → at_index l 0 = Some x → at_index l j = Some y → y ≤ x.
Proof.
  intros Hn Hheap j. destruct (decide (0 ≤ j)) as [Hj|Hj]; [| intros; lia].
  assert (∃ k : nat, j = Z.of_nat k) as [k ->] by (exists (Z.to_nat j); lia).
  clear Hj. induction (lt_wf k) as [k _ IH]. intros x y Hk Hx Hy.
  destruct (decide (k = 0%nat)) as [->|Hk0]; [change (Z.of_nat 0) with 0 in Hy; simplify_eq; lia |].
  set (p := (Z.of_nat k - 1) / 2).
  assert (Hp : 0 ≤ p < Z.of_nat k ∧ (Z.of_nat k = 2 * p + 1 ∨ Z.of_nat k = 2 * p + 2)).
  { unfold p. pose proof (Z.div_mod (Z.of_nat k - 1) 2 ltac:(lia)).
    pose proof (Z.mod_pos_bound (Z.of_nat k - 1) 2 ltac:(lia)). lia. }
  clearbody p.
  destruct (at_index_is_Some l p ltac:(lia)) as [z Hz].
  etrans; [apply (Hheap p ltac:(lia) (Z.of_nat k) z y); (done || lia) |].
  apply (IH (Z.to_nat p)); [lia | lia | done | by rewrite Z2Nat.id by lia].
Qed.

(** The choice of the largest among a position and its children. *)
Lemma heapify_left_spec n i l st (Q : Z → Run → Prop) :
  holds l st → 0 ≤ i < n → n ≤ Z.of_nat (length l) →
  (∀ lg, lg = i ∨ lg = 2 * i + 1 ∧ lg < n →
     (∀ x y, at_index l lg = Some x → at_index l i = Some y →
        y ≤ x ∧ (lg ≠ i → y < x)) →
     (∀ x y, at_index l lg = Some x → 2 * i + 1 < n →
        at_index l (2 * i + 1) = Some y → y ≤ x) →
     Q lg st) →
  wp (if 2 * i + 1 <? n
      then vl ← value_at (2 * i + 1); vi ← value_at i;
           mret (if vl >? vi then 2 * i + 1 else i)
      else mret i) Q st.
Proof.
  intros Hst Hi Hn HQ. destruct (Z.ltb_spec (2 * i + 1) n) as [Hl|Hl].
  - rd vl Hvl. rd vi Hvi. ret. destruct (Z.gtb_spec vl vi) as [Hgt|Hle].
    + apply HQ; [lia | |]; intros x y Hx; intros; same_index; lia.
    + apply HQ; [lia | |]; intros x y Hx; intros; same_index; lia.
  - ret. apply HQ; [lia | |]; intros x y Hx; intros; same_index; lia.
Qed.

Lemma heapify_right_spec n i lg1 l st (Q : Z → Run → Prop) :
  holds l st → 0 ≤ i < n → n ≤ Z.of_nat (length l) →
  lg1 = i ∨ lg1 = 2 * i + 1 ∧ lg1 < n →
  (∀ x y, at_index l lg1 = Some x → at_index l i = Some y →
     y ≤ x ∧ (lg1 ≠ i → y < x)) →
  (∀ x y, at_index l lg1 = Some x → 2 * i + 1 < n →
     at_index l (2 * i + 1) = Some y → y ≤ x) →
  (∀ lg, lg = i ∨ (lg = 2 * i + 1 ∨ lg = 2 * i + 2) ∧ lg < n →
     (∀ x y, at_index l lg = Some x → at_index l i = Some y →
        y ≤ x ∧ (lg ≠ i → y < x)) →
     (∀ c x y, c = 2 * i + 1 ∨ c = 2 * i + 2 → c < n →
        at_index l lg = Some x → at_index l c = Some y → y ≤ x) →
     Q lg st) →
  wp (if 2 * i + 2 <? n
      then vr ← value_at (2 * i + 2); vlargest ← value_at lg1;
           mret (if vr >? vlargest then 2 * i + 2 else lg1)
      else mret lg1) Q st.
Proof.
  intros Hst Hi Hn Hlg1 Hmi Hml HQ.
  destruct (Z.ltb_spec (2 * i + 2) n) as [Hr|Hr].
  - rd vr Hvr. rd vlg Hvlg. ret.
    destruct (at_index_is_Some l i ltac:(lia)) as [vi Hvi].
    destruct (at_index_is_Some l (2 * i + 1) ltac:(lia)) as [vl Hvl].
    pose proof (Hmi vlg vi Hvlg Hvi) as [Hmi1 Hmi2].
    pose proof (Hml vlg vl Hvlg ltac:(lia) Hvl) as Hml1.
    destruct (Z.gtb_spec vr vlg) as [Hgt|Hle].
    + apply HQ; [lia | |].
      * intros x y Hx Hy. same_index. lia.
      * intros c x y [->| ->] Hc Hx Hy; same_index; lia.
    + apply HQ; [lia | |].
      * intros x y Hx Hy. same_index. lia.
      * intros c x y [->| ->] Hc Hx Hy; same_index; lia.
  - ret. apply HQ; [lia | done |].
    intros c x y [->| ->] Hc Hx Hy; [by eapply Hml | lia].
Qed.

Lemma heapify_spec : ∀ fuel n i lo l st (Q : unit → Run → Prop),
  holds l st → 0 ≤ lo ≤ i → i < n → n ≤ Z.of_nat (length l) →
  n - 1 - i ≤ Z.of_nat fuel →
  (∀ j, lo ≤ j < n → j ≠ i → heap_ok l n j) →
  (∀ p c x y, lo ≤ p → i = 2 * p + 1 ∨ i = 2 * p + 2 →
     c = 2 * i + 1 ∨ c = 2 * i + 2 → c < n →
     at_index l p = Some x → at_index l c = Some y → y ≤ x) →
  (∀ l' st', holds l' st' → reorders i n l l' →
     (∀ j, lo ≤ j < n → heap_ok l' n j) → Q tt st') →
  wp (EfficientSorts.heapify fuel n i) Q st.
Proof.
  induction fuel as [|fuel IH];
    intros n i lo l st Q Hst Hlo Hi Hn Hfuel Hheap Hparent HQ;
    cbn [EfficientSorts.heapify].
  all: bind; apply (heapify_left_spec n i l); [done | lia | lia |];
    intros lg1 Hlg1 Hmi1 Hml1.
  all: bind; apply (heapify_right_spec n i lg1 l); [done | lia | lia | done.. |];
    clear lg1 Hlg1 Hmi1 Hml1; intros lg Hlg Hmi Hmc.
  all: destruct (Z.eqb_spec lg i) as [->|Hne]; simpl.
  all: try (ret; apply (HQ l); [done | constructor |];
            intros j Hj; destruct (decide (j = i)) as [->|];
            [intros c x y; apply Hmc | by apply Hheap]).
  all: rd vi Hvi; rd vlg Hvlg; say; swp.
  - exfalso. lia.
  - pose proof (Hmi vlg vi Hvlg Hvi) as [_ Hlt]. specialize (Hlt Hne).
    apply (IH n lg lo (swap_at i lg l)); [done | lia | lia | | lia | | |].
    + by rewrite swap_at_length.
    + intros j Hj Hjlg c x y Hc Hcn. rewrite !at_index_swap_at by lia.
      repeat case_decide; subst; try lia; intros Hx Hy.
      * destruct (Hmi x y Hx Hy). lia.
      * by apply (Hmc c).
      * apply (Hparent j lg); (done || lia).
      * apply (Hheap j ltac:(lia) ltac:(lia) c); (done || lia).
    + intros p c x y Hp Hpl Hc Hcn. assert (p = i) as -> by lia.
      rewrite !at_index_swap_at by lia.
      repeat case_decide; subst; try lia; intros Hx Hy.
      apply (Hheap lg ltac:(lia) ltac:(lia) c); (done || lia).
    + clear st Hst. intros l' st Hst Hre Hheap'. apply (HQ l'); [done | | done].
      eapply reorders_trans; [apply (reorders_one i n l i lg); lia |].
      eapply reorders_mono; [| | done]; lia.
Qed.

Lemma heapSort_sorts arr : arr ≠ [] → sorts EfficientSorts.heapSort arr.
Proof.
  intros Hne. apply sorts_intro. unfold EfficientSorts.heapSort_run.
  set (n := length arr). set (l0 := value <$> arr).
  assert (Hn : (0 < n)%nat) by (destruct arr; [done | simpl in n; lia]).
  assert (Hl0 : length l0 = n) by (unfold l0; by rewrite length_fmap).
  pose proof (holds_init arr) as Hst. fold l0 in Hst.
  say. bind. eapply wp_mono.
  { apply (wp_for_down (λ i _ st, ∃ l, holds l st ∧ l ≡ₚ l0 ∧
             ∀ j, i < j < Z.of_nat n → heap_ok l (Z.of_nat n) j)).
    - exists l0. split_and!; [done | done |].
      intros j Hj c x y Hc Hcn. exfalso.
      pose proof (Z.div_mod (Z.of_nat n) 2 ltac:(lia)).
      pose proof (Z.mod_pos_bound (Z.of_nat n) 2 ltac:(lia)). lia.
    - clear st Hst. intros i [] st Hi (l & Hst & Hperm & Hheap).
      assert (Hlen : length l = n) by (by rewrite (Permutation_length Hperm)).
      assert (i < Z.of_nat n).
      { pose proof (Z.div_mod (Z.of_nat n) 2 ltac:(lia)).
        pose proof (Z.mod_pos_bound (Z.of_nat n) 2 ltac:(lia)). lia. }
      eapply (heapify_spec n (Z.of_nat n) i i l); [done | lia | lia | lia | lia | | |].
      + intros j Hj Hji. apply Hheap. lia.
      + intros p c x y Hp Hpi. lia.
      + clear st Hst. intros l' st Hst Hre Hheap'. exists l'.
        split_and!; [done | by rewrite (reorders_Permutation _ _ _ _ Hre) |].
        intros j Hj. apply Hheap'. lia. }
  cbv beta. clear st Hst. intros [] st (l & Hst & Hperm & Hheap).
  assert (Hmin : Z.min (-1) (Z.of_nat n / 2 - 1) = -1).
  { pose proof (Z.div_pos (Z.of_nat n) 2 ltac:(lia) ltac:(lia)). lia. }
  rewrite Hmin in Hheap. clear Hmin.
  say. bind. eapply wp_mono.
  { apply (wp_for_down (λ i _ st, ∃ l, holds l st ∧ l ≡ₚ l0 ∧
             (∀ j, 0 ≤ j < i + 1 → heap_ok l (i + 1) j) ∧
             sorted_between l (i + 1) (Z.of_nat n) ∧ split_at l (i + 1))).
    - exists l. replace (Z.of_nat n - 1 + 1) with (Z.of_nat n) by lia.
      split_and!; [done | done | | |].
      + intros j Hj. apply Hheap. lia.
      + apply sorted_between_empty. lia.
      + apply split_at_length. rewrite (Permutation_length Hperm), Hl0. lia.
    - clear l st Hst Hperm Hheap.
      intros i [] st Hi (l & Hst & Hperm & Hheap & Hsorted & Hsplit).
      assert (Hlen : length l = n) by (by rewrite (Permutation_length Hperm)).
      rd v0 Hv0. say. swp. mark; [rewrite swap_at_length; lia |].
      rd vi Hvi; [rewrite swap_at_length; lia |]. say.
      pose proof (heap_root_max l (i + 1) ltac:(lia) Hheap) as Hmax.
      eapply (heapify_spec n i 0 0 (swap_at 0 i l));
        [done | lia | lia | rewrite swap_at_length; lia | lia | | |].
      + intros j Hj Hj0 c x y Hc Hci. rewrite !at_index_swap_at_other by lia.
        apply (Hheap j ltac:(lia) c); lia.
      + intros p c x y Hp Hp0. lia.
      + clear st Hst. intros l' st Hst Hre Hheap'. exists l'.
        replace (i - 1 + 1) with i by lia.
        assert (Hsorted1 : sorted_between (swap_at 0 i l) i (Z.of_nat n)).
        { replace i with (i + 1 - 1) at 2 by lia.
          apply sorted_between_grow_down.
          - intros a b x y Ha Hab Hb. rewrite !at_index_swap_at_other by lia.
            by apply Hsorted.
          - intros a b x y Ha Hb. rewrite !at_index_swap_at by lia.
            repeat case_decide; subst; try lia; intros Hx Hy; ord. }
        assert (Hsplit1 : split_at (swap_at 0 i l) i).
        { intros a b x y Ha Hb. rewrite !at_index_swap_at by lia.
          repeat case_decide; subst; try lia; intros Hx Hy; try ord.
          - apply (Hmax i); (done || lia).
          - pose proof (at_index_lt_length _ _ _ Hx).
            apply (Hmax a); (done || lia). }
        split_and!; [done | | done | |].
        * by rewrite (reorders_Permutation _ _ _ _ Hre), swap_at_Permutation.
        * eapply reorders_sorted_outside; [exact Hre | lia | done].
        * intros a b x y Ha Hb Hx.
          rewrite (reorders_outside _ _ _ _ b Hre) by lia. intros Hy.
          pose proof (at_index_lt_length _ _ _ Hx).
          destruct (reorders_at_index_inv 0 i _ _ a x Hre) as (a' & Ha' & Hx');
            [lia | done |].
          apply (Hsplit1 a' b); (done || lia). }
  cbv beta. clear l st Hst Hperm Hheap.
  intros [] st (l & Hst & Hperm & Hheap & Hsorted & Hsplit).
  assert (Hlen : length l = n) by (by rewrite (Permutation_length Hperm)).
  rewrite Z.min_l in Hsorted, Hsplit by lia.
  mark. say_last Hshown. exists l. split_and!; [done.. |].
  rewrite Hlen. replace 0 with (0 + 1 - 1) at 1 by lia.
  by apply sorted_between_grow_down.
Qed.

(** ** pancakeSort sorts *)

(** [flip(k)] reverses the first [k + 1] elements. *)
Lemma flip_spec k l st (Q : unit → Run → Prop) :
  holds l st → 0 ≤ k < Z.of_nat (length l) →
  (∀ l' st', holds l' st' → reorders 0 (k + 1) l l' →
     (∀ j, 0 ≤ j ≤ k → at_index l' j = at_index l (k - j)) → Q tt st') →
  wp (NoveltySorts.flip k) Q st.
Proof.
  intros Hst Hk HQ. unfold NoveltySorts.flip. say. bind. eapply wp_mono.
  { eapply (wp_while_var
      (λ '(left_, right_) st, ∃ lc, holds lc st ∧ reorders 0 (k + 1) l lc ∧
         0 ≤ left_ ∧ left_ + right_ = k ∧ left_ ≤ right_ + 1 ∧
         (∀ j, 0 ≤ j < left_ ∨ right_ < j ≤ k →
            at_index lc j = at_index l (k - j)) ∧
         (∀ j, left_ ≤ j ≤ right_ → at_index lc j = at_index l j))
      (λ '(left_, right_) _, Z.to_nat (right_ - left_)) _ _
      (λ _ st, ∃ lc, holds lc st ∧ reorders 0 (k + 1) l lc ∧
         ∀ j, 0 ≤ j ≤ k → at_index lc j = at_index l (k - j))).
    - exists l. split_and!; [done | constructor | lia | lia | lia | |].
      + intros j Hj. lia.
      + done.
    - lia.
    - clear st Hst. intros [left_ right_] st
        (lc & Hst & Hre & Hleft & Hsum & Hlr & Hout & Hmid).
      assert (Hlen : length lc = length l) by (by eapply reorders_length).
      ret. destruct (Z.ltb_spec left_ right_) as [Hlt|Hge].
      + swp. ret. split; [| lia]. exists (swap_at left_ right_ lc).
        split_and!; [done | | lia | lia | lia | |].
        * apply reorders_swap; [done | lia..].
        * intros j Hj. rewrite at_index_swap_at by lia.
          repeat case_decide; subst.
          -- rewrite Hmid by lia. f_equal. lia.
          -- rewrite Hmid by lia. f_equal. lia.
          -- apply Hout. lia.
        * intros j Hj. rewrite at_index_swap_at_other by lia. apply Hmid. lia.
      + exists lc. split_and!; [done | done |]. intros j Hj.
        destruct (decide (j < left_ ∨ right_ < j)); [apply Hout; lia |].
        rewrite Hmid by lia. f_equal. lia. }
  cbv beta. clear st Hst. intros _ st (lc & Hst & Hre & Hrev).
  say. by apply (HQ lc).
Qed.

(** [findMax(n)]: a position of a greatest element of the first [n]. *)
Lemma findMax_spec n l st (Q : Z → Run → Prop) :
  holds l st → 0 < n ≤ Z.of_nat (length l) →
  (∀ m, 0 ≤ m < n →
     (∀ a x y, 0 ≤ a < n → at_index l a = Some x → at_index l m = Some y →
        x ≤ y) → Q m st) →
  wp (NoveltySorts.findMax n) Q st.
Proof.
  intros Hst Hn HQ. unfold NoveltySorts.findMax. eapply wp_mono.
  { apply (wp_for (λ i m st', st' = st ∧ 0 ≤ m < n ∧
             ∀ a x y, 0 ≤ a < i → at_index l a = Some x →
               at_index l m = Some y → x ≤ y)).
    - split_and!; [done | lia | lia |]. intros a x y Ha. lia.
    - intros i m ? Hi (-> & Hm & Hmax).
      rd vi Hvi. rd vm Hvm. ret. split; [done |].
      destruct (Z.gtb_spec vi vm) as [Hgt|Hle].
      + split; [lia |]. intros a x y Ha Hx Hy. same_index.
        destruct (decide (a = i)) as [->|]; [same_index; lia |].
        etrans; [apply (Hmax a x vm); (done || lia) | lia].
      + split; [lia |]. intros a x y Ha Hx Hy. same_index.
        destruct (decide (a = i)) as [->|]; [same_index; lia |].
        apply (Hmax a x y); (done || lia). }
  cbv beta. intros m ? (-> & Hm & Hmax). rewrite Z.max_r in Hmax by lia.
  by apply HQ.
Qed.

Lemma pancakeSort_sorts arr : arr ≠ [] → sorts NoveltySorts.pancakeSort arr.
Proof.
  intros Hne. apply sorts_intro. unfold NoveltySorts.pancakeSort_run.
  set (n := Z.of_nat (length arr)). set (l0 := value <$> arr).
  assert (Hn : 0 < n) by (destruct arr; [done | simpl in n; lia]).
  assert (Hl0 : Z.of_nat (length l0) = n) by (unfold l0; by rewrite length_fmap).
  pose proof (holds_init arr) as Hst. fold l0 in Hst.
  say. bind. eapply wp_mono.
  { apply (wp_for_down (λ s _ st, ∃ l, holds l st ∧ l ≡ₚ l0 ∧
             sorted_between l s n ∧ split_at l s)).
    - exists l0. split_and!; [done | done | |].
      + apply sorted_between_empty. lia.
      + apply split_at_length. lia.
    - clear st Hst. intros s [] st Hs (l & Hst & Hperm & Hsorted & Hsplit).
      assert (Hlen : Z.of_nat (length l) = n)
        by (by rewrite (Permutation_length Hperm)).
      bind. apply (findMax_spec s l); [done | lia |]. intros m Hm Hmax.
      rd vmax Hvmax. say. bind.
      eapply (wp_mono _ (λ _ st, ∃ l', holds l' st ∧ reorders 0 s l l' ∧
                at_index l' (s - 1) = Some vmax)).
      { destruct (Z.eqb_spec m (s - 1)) as [->|Hms]; simpl.
        - ret. exists l. split_and!; [done | constructor | done].
        - bind.
          eapply (wp_mono _ (λ _ st, ∃ l', holds l' st ∧ reorders 0 s l l' ∧
                    at_index l' 0 = Some vmax)).
          { destruct (Z.eqb_spec m 0) as [->|Hm0]; simpl.
            - ret. exists l. split_and!; [done | constructor | done].
            - apply (flip_spec m l); [done | lia |].
              clear st Hst. intros l1 st Hst Hre1 Hrev1. exists l1.
              split_and!; [done | |].
              + eapply reorders_mono; [| | done]; lia.
              + rewrite Hrev1 by lia. by replace (m - 0) with m by lia. }
          cbv beta. clear st Hst. intros _ st (l1 & Hst & Hre1 & Hfirst).
          assert (Hlen1 : length l1 = length l) by (by eapply reorders_length).
          apply (flip_spec (s - 1) l1); [done | lia |].
          clear st Hst. intros l2 st Hst Hre2 Hrev2. exists l2.
          split_and!; [done | |].
          + eapply reorders_trans; [done |].
            by replace (s - 1 + 1) with s in Hre2 by lia.
          + rewrite Hrev2 by lia. by replace (s - 1 - (s - 1)) with 0 by lia. }
      cbv beta. clear st Hst. intros _ st (l' & Hst & Hre & Hlast).
      assert (Hlen' : length l' = length l) by (by eapply reorders_length).
      mark. exists l'.
      assert (Hsplit_s : split_at l' s).
      { intros a b x y Ha Hb Hx Hy. pose proof (at_index_lt_length _ _ _ Hx).
        destruct (reorders_at_index_inv 0 s _ _ a x Hre) as (a' & Ha' & Hx');
          [lia | done |].
        rewrite (reorders_outside _ _ _ _ b Hre) in Hy by lia.
        apply (Hsplit a' b); (done || lia). }
      assert (Hsplit' : split_at l' (s - 1)).
      { intros a b x y Ha Hb Hx Hy. pose proof (at_index_lt_length _ _ _ Hx).
        destruct (decide (b = s - 1)) as [->|]; [| ord].
        destruct (reorders_at_index_inv 0 s _ _ a x Hre) as (a' & Ha' & Hx');
          [lia | done |].
        same_index. apply (Hmax a'); (done || lia). }
      split_and!; [done | | | done].
      + by rewrite (reorders_Permutation _ _ _ _ Hre).
      + apply sorted_between_grow_down; [| done].
        eapply reorders_sorted_outside; [exact Hre | lia | done]. }
  cbv beta. clear st Hst. intros [] st (l & Hst & Hperm & Hsorted & Hsplit).
  assert (Hlen : Z.of_nat (length l) = n)
    by (by rewrite (Permutation_length Hperm)).
  rewrite Z.min_l in Hsorted, Hsplit by lia.
  mark. say_last Hshown. exists l. split_and!; [done.. |].
  rewrite Hlen. replace 0 with (1 - 1) at 1 by lia.
  by apply sorted_between_grow_down.
Qed.

(** ** mergeSort sorts *)

(** The write that appends to the merged part. *)
Lemma write_next (pre out lr post : list Z) (k : Z) (m : nat) v :
  length out = m → (m < length lr)%nat → k = Z.of_nat (length pre + m) →
  <[Z.to_nat k := v]> (pre ++ out ++ drop m lr ++ post)
    = pre ++ (out ++ [v]) ++ drop (S m) lr ++ post.
Proof.
  intros Hout Hm ->. rewrite Nat2Z.id.
  rewrite insert_app_r_alt by lia.
  replace (length pre + m - length pre)%nat with m by lia.
  rewrite insert_app_r_alt by lia.
  rewrite Hout, Nat.sub_diag.
  destruct (lookup_lt_is_Some_2 lr m Hm) as [y Hy].
  rewrite (drop_S _ _ _ Hy). simpl. by rewrite <- app_assoc.
Qed.

Lemma merge_loops_spec announce leftArr rightArr pre L R post k st
    (Q : unit → Run → Prop) :
  holds (pre ++ L ++ R ++ post) st →
  refs_hold st leftArr L → refs_hold st rightArr R →
  k = Z.of_nat (length pre) →
  (∀ st', holds (pre ++ list_merge Z.le L R ++ post) st' → Q tt st') →
  wp (EfficientSorts.merge_loops announce leftArr rightArr k) Q st.
Proof.
  intros Hst HL HR -> HQ. unfold EfficientSorts.merge_loops.
  rewrite (refs_hold_length _ _ _ HL), (refs_hold_length _ _ _ HR).
  set (nl := length L). set (nr := length R).
  bind. eapply wp_mono.
  { eapply (wp_while_var
      (λ '(i, j, k) st, ∃ out,
         holds (pre ++ out ++ drop (Z.to_nat (i + j)) (L ++ R) ++ post) st ∧
         refs_hold st leftArr L ∧ refs_hold st rightArr R ∧
         0 ≤ i ≤ Z.of_nat nl ∧ 0 ≤ j ≤ Z.of_nat nr ∧
         k = Z.of_nat (length pre) + i + j ∧
         Z.of_nat (length out) = i + j ∧
         out ++ list_merge Z.le (drop (Z.to_nat i) L) (drop (Z.to_nat j) R)
           = list_merge Z.le L R)
      (λ '(i, j, k) _, Z.to_nat (Z.of_nat nl + Z.of_nat nr - i - j)) _ _
      (λ '(i, j, k) st, ∃ out,
         holds (pre ++ out ++ drop (Z.to_nat (i + j)) (L ++ R) ++ post) st ∧
         refs_hold st leftArr L ∧ refs_hold st rightArr R ∧
         0 ≤ i ≤ Z.of_nat nl ∧ 0 ≤ j ≤ Z.of_nat nr ∧
         (i = Z.of_nat nl ∨ j = Z.of_nat nr) ∧
         k = Z.of_nat (length pre) + i + j ∧
         Z.of_nat (length out) = i + j ∧
         out ++ drop (Z.to_nat i) L ++ drop (Z.to_nat j) R
           = list_merge Z.le L R)).
    - exists []. change (Z.to_nat (0 + 0)) with 0%nat.
      change (Z.to_nat 0) with 0%nat. rewrite !drop_0. simpl.
      rewrite <- app_assoc. split_and!; (done || lia).
    - lia.
    - clear st Hst HL HR. intros [[i j] k] st
        (out & Hst & HL & HR & Hi & Hj & Hk & Hout & Hmerge).
      ret. destruct (Z.ltb_spec i (Z.of_nat nl)) as [Hil|Hil];
        [destruct (Z.ltb_spec j (Z.of_nat nr)) as [Hjr|Hjr] |]; simpl.
      + destruct (lookup_lt_is_Some_2 L (Z.to_nat i) ltac:(lia)) as [vl Hvl].
        destruct (lookup_lt_is_Some_2 R (Z.to_nat j) ltac:(lia)) as [vr Hvr].
        assert (Hvl' : at_index L i = Some vl) by (apply at_index_Some; split; [lia | done]).
        assert (Hvr' : at_index R j = Some vr) by (apply at_index_Some; split; [lia | done]).
        rdin vl. rdin vr. bind.
        eapply (wp_mono _ (λ _ st, holds (pre ++ out ++ drop (Z.to_nat (i + j)) (L ++ R) ++ post) st ∧
            refs_hold st leftArr L ∧ refs_hold st rightArr R)).
        { destruct announce; [say; done | ret; done]. }
        cbv beta. clear st Hst HL HR. intros _ st (Hst & HL & HR).
        rewrite (drop_S _ _ _ Hvl), (drop_S _ _ _ Hvr), list_merge_cons in Hmerge.
        destruct (Z.leb_spec vl vr) as [Hle|Hgt].
        * wrfrom.
          { rewrite !length_app, length_drop, length_app. fold nl nr. lia. }
          ret. split; [| lia]. exists (out ++ [vl]).
          rewrite decide_True in Hmerge by done.
          rewrite (write_next pre out (L ++ R) post _ (Z.to_nat (i + j)) vl) in Hst;
            [| lia | rewrite length_app; fold nl nr; lia | lia].
          replace (Z.to_nat (i + 1 + j)) with (S (Z.to_nat (i + j))) by lia.
          replace (Z.to_nat (i + 1)) with (S (Z.to_nat i)) by lia.
          split_and!; try (done || lia).
          -- rewrite length_app. simpl. lia.
          -- rewrite <- app_assoc. simpl. by rewrite (drop_S _ _ _ Hvr).
        * wrfrom.
          { rewrite !length_app, length_drop, length_app. fold nl nr. lia. }
          ret. split; [| lia]. exists (out ++ [vr]).
          rewrite decide_False in Hmerge by lia.
          rewrite (write_next pre out (L ++ R) post _ (Z.to_nat (i + j)) vr) in Hst;
            [| lia | rewrite length_app; fold nl nr; lia | lia].
          replace (Z.to_nat (i + (j + 1))) with (S (Z.to_nat (i + j))) by lia.
          replace (Z.to_nat (j + 1)) with (S (Z.to_nat j)) by lia.
          split_and!; try (done || lia).
          -- rewrite length_app. simpl. lia.
          -- rewrite <- app_assoc. simpl. by rewrite (drop_S _ _ _ Hvl).
      + exists out. split_and!; try (done || lia).
        rewrite (drop_ge R) in Hmerge |- * by lia.
        rewrite list_merge_nil_r in Hmerge. by rewrite app_nil_r.
      + exists out. split_and!; try (done || lia).
        rewrite (drop_ge L) in Hmerge |- * by lia.
        by rewrite list_merge_nil_l in Hmerge. }
  cbv beta. clear st Hst HL HR. intros [[i j] k] st
    (out & Hst & HL & HR & Hi & Hj & Hij & Hk & Hout & Hmerge).
  bind. eapply wp_mono.
  { eapply (wp_while_var
      (λ '(i, k) st, ∃ out,
         holds (pre ++ out ++ drop (Z.to_nat (i + j)) (L ++ R) ++ post) st ∧
         refs_hold st leftArr L ∧ refs_hold st rightArr R ∧
         0 ≤ i ≤ Z.of_nat nl ∧ (i = Z.of_nat nl ∨ j = Z.of_nat nr) ∧
         k = Z.of_nat (length pre) + i + j ∧
         Z.of_nat (length out) = i + j ∧
         out ++ drop (Z.to_nat i) L ++ drop (Z.to_nat j) R
           = list_merge Z.le L R)
      (λ '(i, k) _, Z.to_nat (Z.of_nat nl - i)) _ _
      (λ '(i, k) st, ∃ out,
         holds (pre ++ out ++ drop (Z.to_nat (i + j)) (L ++ R) ++ post) st ∧
         refs_hold st leftArr L ∧ refs_hold st rightArr R ∧
         i = Z.of_nat nl ∧
         k = Z.of_nat (length pre) + i + j ∧
         Z.of_nat (length out) = i + j ∧
         out ++ drop (Z.to_nat i) L ++ drop (Z.to_nat j) R
           = list_merge Z.le L R)).
    - exists out. split_and!; (done || lia).
    - lia.
    - clear out st Hst HL HR Hi Hij Hk Hout Hmerge. clear i k.
      intros [i k] st (out & Hst & HL & HR & Hi & Hij & Hk & Hout & Hmerge).
      ret. destruct (Z.ltb_spec i (Z.of_nat nl)) as [Hil|Hil].
      + destruct (lookup_lt_is_Some_2 L (Z.to_nat i) ltac:(lia)) as [vl Hvl].
        assert (Hvl' : at_index L i = Some vl) by (apply at_index_Some; split; [lia | done]).
        wrfrom.
        { rewrite !length_app, length_drop, length_app. fold nl nr. lia. }
        ret. split; [| lia]. exists (out ++ [vl]).
        rewrite (write_next pre out (L ++ R) post _ (Z.to_nat (i + j)) vl) in Hst;
          [| lia | rewrite length_app; fold nl nr; lia | lia].
        replace (Z.to_nat (i + 1 + j)) with (S (Z.to_nat (i + j))) by lia.
        replace (Z.to_nat (i + 1)) with (S (Z.to_nat i)) by lia.
        split_and!; try (done || lia).
        * rewrite length_app. simpl. lia.
        * rewrite (drop_S _ _ _ Hvl) in Hmerge. by rewrite <- app_assoc.
      + exists out. split_and!; (done || lia). }
  cbv beta. clear out st Hst HL HR Hi Hij Hk Hout Hmerge. clear i k.
  intros [i k] st (out & Hst & HL & HR & Hi & Hk & Hout & Hmerge).
  bind. eapply wp_mono.
  { eapply (wp_while_var
      (λ '(j, k) st, ∃ out,
         holds (pre ++ out ++ drop (Z.to_nat (i + j)) (L ++ R) ++ post) st ∧
         refs_hold st leftArr L ∧ refs_hold st rightArr R ∧
         0 ≤ j ≤ Z.of_nat nr ∧
         k = Z.of_nat (length pre) + i + j ∧
         Z.of_nat (length out) = i + j ∧
         out ++ drop (Z.to_nat i) L ++ drop (Z.to_nat j) R
           = list_merge Z.le L R)
      (λ '(j, k) _, Z.to_nat (Z.of_nat nr - j)) _ _
      (λ '(j, k) st, holds (pre ++ list_merge Z.le L R ++ post) st)).
    - exists out. split_and!; (done || lia).
    - lia.
    - clear out st Hst HL HR Hj Hk Hout Hmerge. clear j k.
      intros [j k] st (out & Hst & HL & HR & Hj & Hk & Hout & Hmerge).
      ret. destruct (Z.ltb_spec j (Z.of_nat nr)) as [Hjr|Hjr].
      + destruct (lookup_lt_is_Some_2 R (Z.to_nat j) ltac:(lia)) as [vr Hvr].
        assert (Hvr' : at_index R j = Some vr) by (apply at_index_Some; split; [lia | done]).
        wrfrom.
        { rewrite !length_app, length_drop, length_app. fold nl nr. lia. }
        ret. split; [| lia]. exists (out ++ [vr]).
        rewrite (write_next pre out (L ++ R) post _ (Z.to_nat (i + j)) vr) in Hst;
          [| lia | rewrite length_app; fold nl nr; lia | lia].
        replace (Z.to_nat (i + (j + 1))) with (S (Z.to_nat (i + j))) by lia.
        replace (Z.to_nat (j + 1)) with (S (Z.to_nat j)) by lia.
        split_and!; try (done || lia).
        * rewrite length_app. simpl. lia.
        * rewrite (drop_S _ _ _ Hvr) in Hmerge.
          rewrite <- Hmerge, <- !app_assoc.
          rewrite (drop_ge L) by lia. done.
      + rewrite (drop_ge L), (drop_ge R) in Hmerge by lia.
        rewrite drop_ge in Hst by (rewrite length_app; fold nl nr; lia).
        simpl in Hmerge. rewrite app_nil_r in Hmerge. by subst out. }
  cbv beta. clear out st Hst HL HR Hi Hk Hout Hmerge.
  intros [j' k'] st Hst. ret. by apply HQ.
Qed.

Lemma merge_spec left_ mid right_ pre L R post st (Q : unit → Run → Prop) :
  holds (pre ++ L ++ R ++ post) st →
  left_ = Z.of_nat (length pre) →
  mid + 1 - left_ = Z.of_nat (length L) →
  right_ - mid = Z.of_nat (length R) →
  (∀ st', holds (pre ++ list_merge Z.le L R ++ post) st' → Q tt st') →
  wp (EfficientSorts.merge left_ mid right_) Q st.
Proof.
  intros Hst Hleft HL HR HQ. unfold EfficientSorts.merge.
  bind. eapply awp_slice; [done |]. intros leftArr Hrefl.
  rewrite drop_app_length', take_app_length' in Hrefl by lia.
  bind. eapply awp_slice; [done |]. intros rightArr Hrefr.
  rewrite (app_assoc pre L), drop_app_length', take_app_length' in Hrefr
    by (rewrite ?length_app; lia).
  say. bind. eapply merge_loops_spec; [done.. |].
  clear st Hst Hrefl Hrefr. intros st Hst. say. by apply HQ.
Qed.

Lemma mergeSortRecursive_spec : ∀ fuel left_ right_ pre seg post st
    (Q : unit → Run → Prop),
  holds (pre ++ seg ++ post) st →
  left_ = Z.of_nat (length pre) →
  right_ - left_ + 1 = Z.of_nat (length seg) →
  right_ - left_ ≤ Z.of_nat fuel →
  (∀ seg' st', holds (pre ++ seg' ++ post) st' → seg' ≡ₚ seg →
     Sorted Z.le seg' → Q tt st') →
  wp (EfficientSorts.mergeSortRecursive fuel left_ right_) Q st.
Proof.
  induction fuel as [|fuel IH];
    intros left_ right_ pre seg post st Q Hst Hleft Hlen Hfuel HQ;
    cbn [EfficientSorts.mergeSortRecursive];
    destruct (Z.ltb_spec left_ right_) as [Hlt|Hge]; try lia.
  1, 3: ret; apply (HQ seg); [done | done |];
    destruct seg as [|x [|y seg]]; [constructor | repeat constructor |];
    simpl in Hlen; lia.
  set (mid := (left_ + right_) / 2).
  assert (Hmid : left_ ≤ mid < right_).
  { unfold mid. split; [apply Z.div_le_lower_bound | apply Z.div_lt_upper_bound]; lia. }
  clearbody mid.
  set (seg1 := take (Z.to_nat (mid - left_ + 1)) seg).
  set (seg2 := drop (Z.to_nat (mid - left_ + 1)) seg).
  assert (Hseg : seg = seg1 ++ seg2) by (symmetry; apply take_drop).
  assert (Hlen1 : Z.of_nat (length seg1) = mid - left_ + 1)
    by (unfold seg1; rewrite length_take; lia).
  assert (Hlen2 : Z.of_nat (length seg2) = right_ - mid)
    by (unfold seg2; rewrite length_drop; lia).
  clearbody seg1 seg2. subst seg.
  bind. eapply (IH left_ mid pre seg1 (seg2 ++ post));
    [by rewrite <- app_assoc in Hst | done | lia | lia |].
  clear st Hst. intros seg1' st Hst Hperm1 Hsorted1.
  bind. eapply (IH (mid + 1) right_ (pre ++ seg1') seg2 post);
    [by rewrite <- app_assoc | | lia | lia |].
  { rewrite length_app, (Permutation_length Hperm1). lia. }
  clear st Hst. intros seg2' st Hst Hperm2 Hsorted2.
  eapply (merge_spec left_ mid right_ pre seg1' seg2' post);
    [by rewrite <- app_assoc in Hst | done | | |].
  { rewrite (Permutation_length Hperm1). lia. }
  { rewrite (Permutation_length Hperm2). lia. }
  clear st Hst. intros st Hst. apply (HQ (list_merge Z.le seg1' seg2')); [done | |].
  - by rewrite merge_Permutation, Hperm1, Hperm2.
  - apply Sorted_list_merge; [apply _ | done | done].
Qed.

Lemma sorts_intro_Sorted body arr :
  wp body (λ _ st, ∃ l,
    holds l st ∧ shown st ∧ l ≡ₚ value <$> arr ∧ Sorted Z.le l) (init arr) →
  sorts (run_algorithm body) arr.
Proof.
  intros (u & st & Hrun & (l & [Hwf <-] & (s & Hlast & Hshows & _) & Hperm & Hsorted))%wp_Ok.
  exists {| t_store := r_store st; t_steps := r_steps st |}.
  unfold run_algorithm. rewrite Hrun. split; [done |].
  unfold final_values. simpl. rewrite Hlast. simpl. rewrite Hshows.
  do 2 f_equal. apply (StronglySorted_unique Z.le).
  - apply Sorted_StronglySorted; [apply _ | done].
  - apply StronglySorted_merge_sort; apply _.
  - unfold sort_asc. by rewrite merge_sort_Permutation.
Qed.

(** X5: mergeSort sorts every input, the empty one included. *)
Lemma mergeSort_sorts arr : sorts EfficientSorts.mergeSort arr.
Proof.
  apply sorts_intro_Sorted. unfold EfficientSorts.mergeSort_run.
  set (n := length arr). set (l0 := value <$> arr).
  assert (Hl0 : length l0 = n) by (unfold l0; by rewrite length_fmap).
  pose proof (holds_init arr) as Hst. fold l0 in Hst.
  say. bind.
  eapply (mergeSortRecursive_spec n 0 (Z.of_nat n - 1) [] l0 []);
    [by rewrite app_nil_r | done | lia | lia |].
  clear st Hst. intros l st Hst Hperm Hsorted. simpl in Hst.
  rewrite app_nil_r in Hst.
  say_last Hshown. by exists l.
Qed.

(** ** timSort sorts *)

Lemma tim_insertionSort_spec left_ right_ l st (Q : unit → Run → Prop) :
  holds l st → 0 ≤ left_ → right_ < Z.of_nat (length l) →
  (∀ l' st', holds l' st' → reorders left_ (right_ + 1) l l' →
     sorted_between l' left_ (right_ + 1) → Q tt st') →
  wp (EfficientSorts.tim_insertionSort left_ right_) Q st.
Proof.
  intros Hst Hleft Hright HQ. unfold EfficientSorts.tim_insertionSort.
  eapply wp_mono.
  { apply (wp_for (λ i _ st, ∃ lc, holds lc st ∧
             reorders left_ (right_ + 1) l lc ∧ sorted_between lc left_ i)).
    - exists l. split_and!; [done | constructor |].
      apply sorted_between_empty. lia.
    - clear st Hst. intros i [] st Hi (lc & Hst & Hre & Hsorted).
      assert (Hlen : length lc = length l) by (by eapply reorders_length).
      rdref key vkey Hkey Hvkey Hval. clear Hkey.
      bind. eapply wp_mono.
      { eapply (wp_while_var
          (λ j st, ∃ lh, holds lh st ∧ val_of st key = Some vkey ∧
             left_ - 1 ≤ j < i ∧ length lh = length l ∧
             reorders left_ (right_ + 1) l (<[Z.to_nat (j + 1) := vkey]> lh) ∧
             sorted_between (<[Z.to_nat (j + 1) := vkey]> lh) left_ (j + 1) ∧
             sorted_between (<[Z.to_nat (j + 1) := vkey]> lh) (j + 1) (i + 1) ∧
             le_ranges (<[Z.to_nat (j + 1) := vkey]> lh) left_ (j + 1) (j + 2) (i + 1))
          (λ j _, Z.to_nat (j - left_ + 1)) _ _
          (λ j st, ∃ lh, holds lh st ∧ val_of st key = Some vkey ∧
             left_ - 1 ≤ j < i ∧ length lh = length l ∧
             reorders left_ (right_ + 1) l (<[Z.to_nat (j + 1) := vkey]> lh) ∧
             sorted_between (<[Z.to_nat (j + 1) := vkey]> lh) left_ (i + 1))).
        + exists lc. replace (i - 1 + 1) with i by lia.
          assert (<[Z.to_nat i := vkey]> lc = lc) as ->.
          { apply list_insert_id. by apply at_index_Some in Hvkey as [_ ?]. }
          split_and!; [done | done | lia | lia | done | done | done | |].
          * apply sorted_between_empty. lia.
          * intros a b x y ? ?. lia.
        + lia.
        + clear lc Hst Hre Hsorted Hlen Hvkey Hval. clear st.
          intros j st (lh & Hst & Hval & Hj & Hlen & Hre & Hlo & Hhi & Hcross).
          set (v := <[Z.to_nat (j + 1) := vkey]> lh) in *.
          destruct (Z.geb_spec j left_) as [Hjl|Hjl].
          * rd vj Hvj. rdv. ret.
            assert (Hvj' : at_index v j = Some vj).
            { unfold v. rewrite at_index_insert by lia. by case_decide; [lia |]. }
            assert (Hvk : at_index v (j + 1) = Some vkey).
            { unfold v. rewrite at_index_insert by lia. by case_decide. }
            destruct (Z.gtb_spec vj vkey) as [Hgt|Hle].
            -- rd vj2 Hvj2. say. rdref aj vj3 Haj Hvj3 Hvalj. clear Haj.
               wr. ret. split; [| lia]. same_index.
               exists (<[Z.to_nat (j + 1) := vj3]> lh).
               replace (j - 1 + 1) with j by lia.
               rewrite (shift_is_swap lh j vj3 vkey) by (done || lia).
               fold v.
               destruct (insert_step left_ v i j) as (H1 & H2 & H3);
                 [lia | lia | unfold v; rewrite length_insert; lia | done.. | |].
               { intros x y Hx Hy. same_index. lia. }
               replace (j - 1 + 2) with (j + 1) by lia.
               split_and!; [done | done | lia | lia | by rewrite length_insert
                            | | done | done | done].
               apply reorders_swap; [done | lia..].
            -- exists lh. fold v. split_and!; [done | done | lia | lia | done.. |].
               apply (insert_done left_ v i j); [lia | done.. |].
               intros x y _ Hx Hy. same_index. lia.
          * ret. exists lh. fold v. split_and!; [done | done | lia | lia | done.. |].
            apply (insert_done left_ v i j); [lia | done.. |].
            intros x y ?. lia. }
      clear lc Hst Hre Hsorted Hlen Hvkey Hval. clear st. cbv beta.
      intros j st (lh & Hst & Hval & Hj & Hlen & Hre & Hsorted).
      wr. exists (<[Z.to_nat (j + 1) := vkey]> lh). split_and!; done. }
  cbv beta. clear st Hst. intros [] st (lc & Hst & Hre & Hsorted).
  apply (HQ lc); [done | done |].
  destruct (decide (left_ ≤ right_)); [by rewrite Z.max_r in Hsorted by lia |].
  apply sorted_between_empty. lia.
Qed.

(** *** The merging passes *)

Lemma at_index_app_l {A} (l1 l2 : list A) k :
  k < Z.of_nat (length l1) → at_index (l1 ++ l2) k = at_index l1 k.
Proof.
  intros Hk. unfold at_index. destruct (decide (0 ≤ k)); [| done].
  apply lookup_app_l. lia.
Qed.

Lemma at_index_app_r {A} (l1 l2 : list A) k :
  Z.of_nat (length l1) ≤ k →
  at_index (l1 ++ l2) k = at_index l2 (k - Z.of_nat (length l1)).
Proof.
  intros Hk. unfold at_index. rewrite !decide_True by lia.
  rewrite lookup_app_r by lia. f_equal. lia.
Qed.

Lemma sorted_between_mono l a b a' b' :
  a ≤ a' → b' ≤ b → sorted_between l a b → sorted_between l a' b'.
Proof. intros Ha Hb H i j x y ? ? ?. apply H; lia. Qed.

(** There is nothing behind the end of the list. *)
Lemma sorted_between_clip l a b :
  sorted_between l a (Z.min b (Z.of_nat (length l))) → sorted_between l a b.
Proof.
  intros H i j x y Hi Hij Hj Hx Hy.
  pose proof (at_index_lt_length _ _ _ Hy). apply (H i j); (done || lia).
Qed.

Lemma StronglySorted_lookup (l : list Z) (i j : nat) x y :
  StronglySorted Z.le l → (i ≤ j)%nat → l !! i = Some x → l !! j = Some y → x ≤ y.
Proof.
  intros Hl. revert i j. induction Hl as [|z l Hl IH Hz]; intros i j Hij Hx Hy; [done |].
  destruct i as [|i], j as [|j]; simpl in *; try lia.
  - injection Hx as ->. injection Hy as ->. lia.
  - injection Hx as ->. rewrite Forall_forall in Hz.
    apply Hz. by eapply list_elem_of_lookup_2.
  - apply (IH i j); [lia | done | done].
Qed.

Lemma sorted_between_segment pre seg post :
  sorted_between (pre ++ seg ++ post) (Z.of_nat (length pre))
    (Z.of_nat (length pre) + Z.of_nat (length seg)) ↔ Sorted Z.le seg.
Proof.
  split.
  - intros H. apply StronglySorted_Sorted, sorted_between_all_StronglySorted.
    intros i j x y Hi Hij Hj Hx Hy.
    apply (H (Z.of_nat (length pre) + i) (Z.of_nat (length pre) + j)); [lia.. | |].
    + rewrite at_index_app_r, at_index_app_l by lia.
      by replace (Z.of_nat (length pre) + i - Z.of_nat (length pre)) with i by lia.
    + rewrite at_index_app_r, at_index_app_l by lia.
      by replace (Z.of_nat (length pre) + j - Z.of_nat (length pre)) with j by lia.
  - intros H%Sorted_StronglySorted; [| apply _].
    intros i j x y Hi Hij Hj Hx Hy.
    rewrite at_index_app_r, at_index_app_l in Hx by lia.
    rewrite at_index_app_r, at_index_app_l in Hy by lia.
    apply at_index_Some in Hx as [_ Hx]. apply at_index_Some in Hy as [_ Hy].
    eapply (StronglySorted_lookup seg); [done | | done | done]. lia.
Qed.

(** What is outside the segment stays as it is. *)
Lemma sorted_between_outside pre seg seg' post a b :
  length seg' = length seg →
  b ≤ Z.of_nat (length pre) ∨ Z.of_nat (length pre) + Z.of_nat (length seg) ≤ a →
  sorted_between (pre ++ seg ++ post) a b →
  sorted_between (pre ++ seg' ++ post) a b.
Proof.
  intros Hlen Hout H i j x y Hi Hij Hj Hx Hy.
  assert (Hsame : ∀ k, a ≤ k < b →
    at_index (pre ++ seg' ++ post) k = at_index (pre ++ seg ++ post) k).
  { intros k Hk. destruct Hout.
    - by rewrite !at_index_app_l by lia.
    - rewrite !(at_index_app_r pre) by lia.
      rewrite !at_index_app_r by lia. by rewrite Hlen. }
  rewrite Hsame in Hx, Hy by lia. by apply (H i j).
Qed.

Lemma split_three (l : list Z) (a b c : nat) :
  (a ≤ b)%nat → (b ≤ c)%nat → (c ≤ length l)%nat →
  l = take a l ++ take (b - a) (drop a l) ++ take (c - b) (drop b l) ++ drop c l.
Proof.
  intros Hab Hbc Hc.
  rewrite <- (take_drop a l) at 1. f_equal.
  rewrite <- (take_drop (b - a) (drop a l)) at 1. f_equal.
  rewrite drop_drop. replace (a + (b - a))%nat with b by lia.
  rewrite <- (take_drop (c - b) (drop b l)) at 1. f_equal.
  rewrite drop_drop. f_equal. lia.
Qed.

Lemma tim_merge_spec left_ mid right_ pre L R post st (Q : unit → Run → Prop) :
  holds (pre ++ L ++ R ++ post) st →
  left_ = Z.of_nat (length pre) →
  mid + 1 - left_ = Z.of_nat (length L) →
  right_ - mid = Z.of_nat (length R) →
  (∀ st', holds (pre ++ list_merge Z.le L R ++ post) st' → Q tt st') →
  wp (EfficientSorts.tim_merge left_ mid right_) Q st.
Proof.
  intros Hst Hleft HL HR HQ. unfold EfficientSorts.tim_merge.
  bind. eapply awp_slice; [done |]. intros leftArr Hrefl.
  rewrite drop_app_length', take_app_length' in Hrefl by lia.
  bind. eapply awp_slice; [done |]. intros rightArr Hrefr.
  rewrite (app_assoc pre L), drop_app_length', take_app_length' in Hrefr
    by (rewrite ?length_app; lia).
  bind. eapply merge_loops_spec; [done.. |].
  clear st Hst Hrefl Hrefr. intros st Hst. say. by apply HQ.
Qed.

(** One pass of merges doubles the length of the sorted runs. *)
Lemma tim_pass_spec size l st (Q : unit → Run → Prop) :
  holds l st → 0 < size →
  (∀ j, 0 ≤ j → sorted_between l (size * j) (size * (j + 1))) →
  (∀ l' st', holds l' st' → l' ≡ₚ l →
     (∀ j, 0 ≤ j → sorted_between l' (size * 2 * j) (size * 2 * (j + 1))) →
     Q tt st') →
  wp (EfficientSorts.for_by (size * 2) 0 (Z.of_nat (length l)) (λ start,
        let mid := start + size - 1 in
        let end_ := Z.min (start + size * 2 - 1) (Z.of_nat (length l) - 1) in
        if mid <? end_ then EfficientSorts.tim_merge start mid end_ else mret tt))
    Q st.
Proof.
  intros Hst Hsize Hruns HQ. unfold EfficientSorts.for_by.
  set (n := Z.of_nat (length l)).
  set (passes := (n - 0 + size * 2 - 1) / (size * 2)).
  assert (Hpasses : n ≤ size * 2 * passes ∧ 0 ≤ passes).
  { unfold passes. replace (n - 0 + size * 2 - 1) with (n + (size * 2 - 1)) by lia.
    pose proof (Z.div_mod (n + (size * 2 - 1)) (size * 2) ltac:(lia)).
    pose proof (Z.mod_pos_bound (n + (size * 2 - 1)) (size * 2) ltac:(lia)).
    split; [lia |]. apply Z.div_pos; lia. }
  assert (Hlast : ∀ k, 0 ≤ k < passes → size * 2 * k < n).
  { intros k Hk. unfold passes in Hk.
    replace (n - 0 + size * 2 - 1) with (n + (size * 2 - 1)) in Hk by lia.
    pose proof (Z.div_mod (n + (size * 2 - 1)) (size * 2) ltac:(lia)).
    pose proof (Z.mod_pos_bound (n + (size * 2 - 1)) (size * 2) ltac:(lia)).
    nia. }
  clearbody passes.
  eapply wp_mono.
  { apply (wp_for (λ k _ st, ∃ l', holds l' st ∧ l' ≡ₚ l ∧
      (∀ j, 0 ≤ j < k → sorted_between l' (size * 2 * j) (size * 2 * (j + 1))) ∧
      (∀ j, 2 * k ≤ j → sorted_between l' (size * j) (size * (j + 1))))).
    - exists l. split_and!; [done | done | intros; lia |]. intros j Hj. apply Hruns. lia.
    - clear st Hst. intros k [] st Hk (l' & Hst & Hperm & Hdone & Htodo).
      assert (Hlen : Z.of_nat (length l') = n) by (by rewrite Hperm).
      pose proof (Hlast k Hk) as Hstart.
      replace (0 + k * (size * 2)) with (size * 2 * k) by lia.
      set (start := size * 2 * k) in *. cbv zeta.
      destruct (Z.ltb_spec (start + size - 1) (Z.min (start + size * 2 - 1) (n - 1)))
        as [Hlt|Hge].
      + set (mid := start + size - 1) in *.
        set (end_ := Z.min (start + size * 2 - 1) (n - 1)) in *.
        pose proof (split_three l' (Z.to_nat start) (Z.to_nat (mid + 1))
          (Z.to_nat (end_ + 1)) ltac:(lia) ltac:(lia) ltac:(lia)) as Hsplit.
        set (pre := take (Z.to_nat start) l') in *.
        set (L := take (Z.to_nat (mid + 1) - Z.to_nat start) (drop (Z.to_nat start) l')) in *.
        set (R := take (Z.to_nat (end_ + 1) - Z.to_nat (mid + 1))
                    (drop (Z.to_nat (mid + 1)) l')) in *.
        set (post := drop (Z.to_nat (end_ + 1)) l') in *.
        assert (Hpre : Z.of_nat (length pre) = start)
          by (unfold pre; rewrite length_take; lia).
        assert (HL : Z.of_nat (length L) = size)
          by (unfold L; rewrite length_take, length_drop; lia).
        assert (HR : Z.of_nat (length R) = end_ - mid)
          by (unfold R; rewrite length_take, length_drop; lia).
        clearbody pre L R post. subst l'.
        assert (Hlen' := Hlen). rewrite !length_app in Hlen'.
        assert (HsL : Sorted Z.le L).
        { apply (sorted_between_segment pre L (R ++ post)).
          rewrite Hpre, HL.
          replace start with (size * (2 * k)) by lia.
          replace (size * (2 * k) + size) with (size * (2 * k + 1)) by lia.
          apply Htodo. lia. }
        assert (HsR : Sorted Z.le R).
        { apply (sorted_between_segment (pre ++ L) R post).
          rewrite <- app_assoc, length_app, Nat2Z.inj_add, Hpre, HL, HR.
          eapply sorted_between_mono; [| | apply (Htodo (2 * k + 1)); lia]; lia. }
        eapply (tim_merge_spec start mid end_ pre L R post); [done | lia | lia | lia |].
        clear st Hst. intros st Hst.
        assert (Hlm : length (list_merge Z.le L R) = length (L ++ R))
          by (by rewrite merge_Permutation).
        exists (pre ++ list_merge Z.le L R ++ post). split_and!.
        * done.
        * rewrite <- Hperm. by rewrite merge_Permutation, <- app_assoc.
        * intros j Hj. destruct (decide (j = k)) as [->|Hne].
          -- fold start. apply sorted_between_clip.
             eapply sorted_between_mono;
               [| | apply (sorted_between_segment pre (list_merge Z.le L R) post)].
             ++ lia.
             ++ rewrite !length_app, Hlm, length_app. lia.
             ++ apply Sorted_list_merge; [apply _ | done | done].
          -- rewrite (app_assoc L R post) in Hdone.
             apply (sorted_between_outside pre (L ++ R)); [done | | apply Hdone; lia].
             left. nia.
        * intros j Hj. rewrite (app_assoc L R post) in Htodo.
          apply sorted_between_clip.
          apply (sorted_between_outside pre (L ++ R)); [done | |].
          -- right. rewrite length_app. nia.
          -- eapply sorted_between_mono; [| | apply (Htodo j); lia]; lia.
      + ret. exists l'. split_and!; [done | done | |].
        * intros j Hj. destruct (decide (j = k)) as [->|Hne]; [| apply Hdone; lia].
          fold start. apply sorted_between_clip.
          eapply sorted_between_mono; [| | apply (Htodo (2 * k)); lia]; lia.
        * intros j Hj. apply Htodo. lia. }
  cbv beta. clear st Hst. intros [] st (l' & Hst & Hperm & Hdone & _).
  apply (HQ l'); [done | done |]. intros j Hj.
  destruct (Z.lt_ge_cases j (Z.max 0 passes)) as [Hlt|Hge]; [apply Hdone; lia |].
  intros a b x y Ha Hab Hb Hx Hy.
  pose proof (at_index_lt_length _ _ _ Hx) as Hlt.
  rewrite (Permutation_length Hperm) in Hlt. fold n in Hlt. nia.
Qed.

(** X7: timSort sorts every input, the empty one included, whatever the
    number of runs: it returns a trace whose last step shows the values of
    the input in ascending order. *)
Lemma timSort_sorts arr : sorts EfficientSorts.timSort arr.
Proof.
  apply sorts_intro. unfold EfficientSorts.timSort_run.
  set (n := Z.of_nat (length arr)). set (l0 := value <$> arr).
  assert (Hl0 : Z.of_nat (length l0) = n) by (unfold l0; by rewrite length_fmap).
  pose proof (holds_init arr) as Hst. fold l0 in Hst.
  say. bind.
  eapply (wp_mono _ (λ _ st, ∃ l, holds l st ∧ l ≡ₚ l0 ∧
            ∀ j, 0 ≤ j → sorted_between l (32 * j) (32 * (j + 1)))).
  { unfold EfficientSorts.for_by, EfficientSorts.MIN_MERGE.
    set (passes := (n - 0 + 32 - 1) / 32).
    assert (Hpasses : n ≤ 32 * passes ∧ 0 ≤ passes ∧ ∀ k, 0 ≤ k < passes → 32 * k < n).
    { unfold passes. pose proof (Z.div_mod (n - 0 + 32 - 1) 32 ltac:(lia)).
      pose proof (Z.mod_pos_bound (n - 0 + 32 - 1) 32 ltac:(lia)).
      split; [lia |]. split; [apply Z.div_pos; lia |]. intros k Hk. lia. }
    destruct Hpasses as (Hcover & Hp0 & Hlast). clearbody passes.
    eapply wp_mono.
    { apply (wp_for (λ k _ st, ∃ l, holds l st ∧ l ≡ₚ l0 ∧
        ∀ j, 0 ≤ j < k → sorted_between l (32 * j) (32 * (j + 1)))).
      - exists l0. split_and!; [done | done |]. intros; lia.
      - clear st Hst. intros k [] st Hk (l & Hst & Hperm & Hdone).
        assert (Hlen : Z.of_nat (length l) = n) by (by rewrite Hperm).
        pose proof (Hlast k Hk).
        eapply (tim_insertionSort_spec _ _ l); [done | lia | lia |].
        clear st Hst. intros l' st Hst Hre Hsorted. exists l'.
        split; [done |]. split; [by rewrite (reorders_Permutation _ _ _ _ Hre) |].
        intros j Hj. destruct (decide (j = k)) as [->|Hne].
        + apply sorted_between_clip. rewrite (reorders_length _ _ _ _ Hre).
          eapply sorted_between_mono; [| | exact Hsorted]; lia.
        + eapply reorders_sorted_outside; [exact Hre | | apply Hdone; lia].
          left. lia. }
    cbv beta. clear st Hst. intros [] st (l & Hst & Hperm & Hdone).
    exists l. split; [done |]. split; [done |]. intros j Hj.
    destruct (Z.lt_ge_cases j (Z.max 0 passes)) as [Hlt|Hge]; [apply Hdone; lia |].
    intros a b x y Ha Hab Hb Hx Hy.
    pose proof (at_index_lt_length _ _ _ Hx) as Hlt.
    rewrite (Permutation_length Hperm) in Hlt. lia. }
  cbv beta. clear st Hst. intros _ st (l & Hst & Hperm & Hruns).
  bind. eapply wp_mono.
  { eapply (wp_while_var
      (λ size st, ∃ l, holds l st ∧ l ≡ₚ l0 ∧ 32 ≤ size ∧
         ∀ j, 0 ≤ j → sorted_between l (size * j) (size * (j + 1)))
      (λ size _, Z.to_nat (n - size)) _ _
      (λ size st, ∃ l, holds l st ∧ l ≡ₚ l0 ∧ n ≤ size ∧
         ∀ j, 0 ≤ j → sorted_between l (size * j) (size * (j + 1)))).
    - exists l. by split_and!.
    - unfold EfficientSorts.MIN_MERGE. lia.
    - clear l st Hst Hperm Hruns. intros size st (l & Hst & Hperm & Hsize & Hruns).
      ret. destruct (Z.ltb_spec size n) as [Hlt|Hge].
      + assert (Hn : n = Z.of_nat (length l)) by (by rewrite Hperm).
        bind. rewrite Hn.
        eapply (tim_pass_spec size l); [done | lia | done |].
        clear st Hst. intros l' st Hst Hperm' Hruns'. ret. split; [| lia].
        exists l'. split; [done |]. split; [by rewrite Hperm' |]. split; [lia | done].
      + exists l. by split_and!. }
  cbv beta. clear l st Hst Hperm Hruns. intros size st (l & Hst & Hperm & Hsize & Hruns).
  say_last Hshown. exists l. split_and!; [done.. |].
  eapply sorted_between_mono; [| | apply (Hruns 0); lia].
  - lia.
  - rewrite (Permutation_length Hperm), Hl0. lia.
Qed.

(** ** sleepSort and quantumBogoSort sort *)

Lemma ascending_Sorted l : ascending l = true → Sorted Z.le l.
Proof.
  induction l as [|x [|y l] IH]; intros Hasc; [repeat constructor.. |].
  cbn [ascending] in Hasc. destruct (Z.ltb_spec y x) as [|Hxy]; [done |].
  constructor; [by apply IH | by constructor].
Qed.

Lemma ascending_false_ne l : ascending l = false → l ≠ [].
Proof. by destruct l. Qed.

Lemma insert_by_value_Permutation val a l : insert_by_value val a l ≡ₚ a :: l.
Proof.
  induction l as [|b l IH]; simpl; [done |].
  destruct (val a <=? val b); [done |]. by rewrite IH, perm_swap.
Qed.

Lemma sort_by_value_Permutation val l : sort_by_value val l ≡ₚ l.
Proof.
  induction l as [|a l IH]; simpl; [done |].
  by rewrite insert_by_value_Permutation, IH.
Qed.

Lemma insert_by_value_Sorted val a l :
  Sorted Z.le (val <$> l) → Sorted Z.le (val <$> insert_by_value val a l).
Proof.
  induction l as [|b l IH]; intros Hs; simpl; [repeat constructor |].
  destruct (Z.leb_spec (val a) (val b)) as [Hle|Hgt].
  - simpl. constructor; [done | by constructor].
  - simpl in *. apply Sorted_inv in Hs as [Hs Hhd].
    constructor; [by apply IH |].
    destruct l as [|c l]; simpl.
    + constructor. lia.
    + destruct (Z.leb_spec (val a) (val c)); simpl; constructor; [lia |].
      by apply HdRel_inv in Hhd.
Qed.

Lemma sort_by_value_Sorted val l : Sorted Z.le (val <$> sort_by_value val l).
Proof.
  induction l as [|a l IH]; simpl; [constructor |].
  by apply insert_by_value_Sorted.
Qed.

Lemma awp_isSorted l st (Q : bool → Run → Prop) :
  holds l st → Q (ascending l) st → wp isSorted Q st.
Proof. intros [Hwf <-] HQ. by apply wp_isSorted. Qed.

Lemma awp_sorted_refs l st (Q : list loc → Run → Prop) :
  holds l st →
  (∀ refs vs, refs_hold st refs vs → vs ≡ₚ l → Sorted Z.le vs → Q refs st) →
  wp sorted_refs Q st.
Proof.
  intros Hst HQ. pose proof Hst as [Hwf Hl].
  set (val := λ a : loc, default 0 (value <$> r_store st !! a)).
  eapply (wp_lift _ _ _ (sort_by_value val (r_array st))).
  { by rewrite (values_of_Ok _ _ Hwf). }
  apply (HQ _ (val <$> sort_by_value val (r_array st))).
  - unfold refs_hold. apply Forall2_fmap_r, Forall_Forall2_diag.
    apply Forall_forall. intros a Ha.
    rewrite sort_by_value_Permutation in Ha.
    apply (proj1 (Forall_forall _ _) Hwf) in Ha. simpl in Ha.
    apply lookup_lt_is_Some in Ha as [el Hel]. unfold val_of, val. simpl.
    by rewrite Hel.
  - rewrite <- Hl. unfold vals. fold val. by rewrite sort_by_value_Permutation.
  - apply sort_by_value_Sorted.
Qed.

Lemma awp_push_step l st s (Q : unit → Run → Prop) :
  holds l st →
  (∀ st', holds l st' → extends st st' → Q tt st') →
  wp (push_step s) Q st.
Proof.
  intros Hst HQ. unfold wp, push_step. apply HQ; [apply Hst | by intros ? ?].
Qed.

Lemma awp_deref st a v (Q : ArrayElement → Run → Prop) :
  val_of st a = Some v →
  (∀ el, value el = v → Q el st) →
  wp (lift (λ st, deref (r_store st) a)) Q st.
Proof.
  intros Ha HQ. unfold val_of in Ha. apply fmap_Some in Ha as (el & Hel & ->).
  eapply wp_lift; [by apply deref_Ok |]. by apply HQ.
Qed.

Lemma take_drop_insert (vs l : list Z) (i : nat) v :
  (i < length l)%nat → vs !! i = Some v →
  <[i := v]> (take i vs ++ drop i l) = take (S i) vs ++ drop (S i) l.
Proof.
  intros Hi Hv.
  assert (Hlen : length (take i vs) = i).
  { apply length_take_le. apply lookup_lt_Some in Hv. lia. }
  rewrite insert_app_r_alt by lia. rewrite Hlen, Nat.sub_diag.
  destruct (lookup_lt_is_Some_2 l i Hi) as [y Hy].
  rewrite (drop_S _ _ _ Hy). simpl.
  rewrite (take_S_r _ _ _ Hv). by rewrite <- app_assoc.
Qed.

Lemma replace_sorted_spec sorted vs l st (Q : unit → Run → Prop) :
  holds l st → refs_hold st sorted vs → length vs = length l →
  (∀ st', holds vs st' → Q tt st') →
  wp (NoveltySorts.replace_sorted sorted) Q st.
Proof.
  intros Hst Hrefs Hlen HQ. unfold NoveltySorts.replace_sorted.
  pose proof (refs_hold_length _ _ _ Hrefs) as Hlens.
  eapply wp_mono.
  { apply (wp_for (λ i _ st,
             holds (take (Z.to_nat i) vs ++ drop (Z.to_nat i) l) st ∧
             refs_hold st sorted vs)).
    - by split.
    - clear st Hst Hrefs. intros i [] st Hi [Hst Hrefs].
      destruct (lookup_lt_is_Some_2 sorted (Z.to_nat i) ltac:(lia)) as [a Ha].
      rewrite (proj2 (at_index_Some sorted i a)) by (split; [lia | done]).
      destruct (Forall2_lookup_l _ _ _ _ _ Hrefs Ha) as (v & Hv & Hval).
      bind. eapply awp_deref; [done |]. intros el Hel.
      bind. eapply awp_alloc; [done |]. intros a' st' Hst' Hext Hval'.
      apply (refs_hold_extends _ _ _ _ Hext) in Hrefs. clear st Hst Hext Hval.
      eapply awp_write; [done | | by rewrite Hval' | ].
      { rewrite length_app, length_take, length_drop. lia. }
      intros st2 Hst2 Hext2.
      apply (refs_hold_extends _ _ _ _ Hext2) in Hrefs.
      split; [| done]. simpl in Hst2. rewrite Hel in Hst2.
      rewrite take_drop_insert in Hst2 by (done || lia).
      by replace (Z.to_nat (i + 1)) with (S (Z.to_nat i)) by lia. }
  cbv beta. clear st Hst Hrefs. intros [] st [Hst Hrefs]. apply HQ.
  rewrite Z.max_r, Nat2Z.id in Hst by lia.
  rewrite take_ge, drop_ge, app_nil_r in Hst by lia. done.
Qed.

(** X13: sleepSort sorts every input, the empty one included: its last step
    shows the values of the input in ascending order. *)
Lemma sleepSort_sorts arr : sorts NoveltySorts.sleepSort arr.
Proof.
  apply sorts_intro_Sorted. unfold NoveltySorts.sleepSort_run.
  set (l0 := value <$> arr). pose proof (holds_init arr) as Hst. fold l0 in Hst.
  say. bind. eapply awp_sorted_refs; [done |]. intros refs vs Hrefs Hperm Hsorted.
  bind. eapply wp_mono.
  { apply (wp_for (λ i result st, holds l0 st ∧ refs_hold st refs vs ∧
             result = take (Z.to_nat i) refs)).
    - by split_and!.
    - clear st Hst Hrefs. intros i result st Hi (Hst & Hrefs & ->).
      destruct (lookup_lt_is_Some_2 refs (Z.to_nat i) ltac:(lia)) as [a Ha].
      rewrite (proj2 (at_index_Some refs i a)) by (split; [lia | done]).
      destruct (Forall2_lookup_l _ _ _ _ _ Hrefs Ha) as (v & Hv & Hval).
      rdv. bind. eapply awp_push_step; [done |]. next. ret.
      split_and!; [done | done |].
      replace (Z.to_nat (i + 1)) with (S (Z.to_nat i)) by lia.
      by rewrite (take_S_r _ _ _ Ha). }
  cbv beta. clear st Hst Hrefs. intros result st (Hst & Hrefs & ->).
  rewrite Z.max_r, Nat2Z.id, firstn_all in * by lia.
  bind. eapply (replace_sorted_spec refs vs l0); [done | done | |].
  { by rewrite (Permutation_length Hperm). }
  clear st Hst Hrefs. intros st Hst. say_last Hshown. by exists vs.
Qed.

(** X14: quantumBogoSort sorts every input, whether it was ascending
    already or not. *)
Lemma quantumBogoSort_sorts arr : sorts NoveltySorts.quantumBogoSort arr.
Proof.
  apply sorts_intro_Sorted. unfold NoveltySorts.quantumBogoSort_run.
  set (l0 := value <$> arr). pose proof (holds_init arr) as Hst. fold l0 in Hst.
  say. bind. eapply awp_isSorted; [done |].
  destruct (ascending l0) eqn:Hasc.
  - say_last Hshown. exists l0. split_and!; [done | done | done |].
    by apply ascending_Sorted.
  - say. say. bind. eapply awp_sorted_refs; [done |].
    intros refs vs Hrefs Hperm Hsorted.
    bind. eapply (replace_sorted_spec refs vs l0); [done | done | |].
    { by rewrite (Permutation_length Hperm). }
    clear st Hst Hrefs. intros st Hst. say_last Hshown. by exists vs.
Qed.
(** ** Lists distributed by key *)

Lemma with_key_app key k l1 l2 :
  with_key key k (l1 ++ l2) = with_key key k l1 ++ with_key key k l2.
Proof. apply filter_app. Qed.

Lemma with_key_cons key k v l :
  with_key key k (v :: l) = if decide (key v = k) then v :: with_key key k l
                            else with_key key k l.
Proof. unfold with_key. by rewrite filter_cons. Qed.

Lemma occurrences_nonneg key k l : 0 ≤ occurrences key k l.
Proof. unfold occurrences. lia. Qed.

Lemma occurrences_take key k l (i : nat) v :
  l !! i = Some v →
  occurrences key k (take (S i) l) =
    occurrences key k (take i l) + (if decide (key v = k) then 1 else 0).
Proof.
  intros Hv. rewrite (take_S_r _ _ _ Hv). unfold occurrences.
  rewrite with_key_app, length_app, with_key_cons. simpl.
  destruct (decide (key v = k)); simpl; lia.
Qed.

Lemma with_key_drop key k l (i : nat) v :
  l !! i = Some v →
  with_key key k (drop i l) =
    if decide (key v = k) then v :: with_key key k (drop (S i) l)
    else with_key key k (drop (S i) l).
Proof. intros Hv. by rewrite (drop_S _ _ _ Hv), with_key_cons. Qed.

Lemma occurrences_take_drop key k l (i : nat) :
  occurrences key k (take i l) + occurrences key k (drop i l)
  = occurrences key k l.
Proof.
  unfold occurrences. rewrite <- (take_drop i l) at 3.
  rewrite with_key_app, length_app. lia.
Qed.

Lemma start_of_0 key l : start_of key l 0 = 0.
Proof. done. Qed.

Lemma start_of_next key l k :
  0 ≤ k → start_of key l (k + 1) = start_of key l k + occurrences key k l.
Proof.
  intros Hk. unfold start_of, occurrences.
  replace (Z.to_nat (k + 1)) with (S (Z.to_nat k)) by lia. simpl.
  rewrite length_app, Z2Nat.id by lia. lia.
Qed.

Lemma grouped_length_mono key l (k k' : nat) :
  (k ≤ k')%nat → (length (grouped key k l) ≤ length (grouped key k' l))%nat.
Proof.
  induction 1 as [|k' _ IH]; [done |]. simpl. rewrite length_app. lia.
Qed.

Lemma start_of_mono key l k k' :
  k ≤ k' → start_of key l k ≤ start_of key l k'.
Proof.
  intros Hk. unfold start_of.
  apply inj_le, grouped_length_mono. lia.
Qed.

Lemma filter_or_Permutation (P Q : Z → Prop)
    `{∀ x, Decision (P x)} `{∀ x, Decision (Q x)} (l : list Z) :
  (∀ x, P x → Q x → False) →
  filter P l ++ filter Q l ≡ₚ filter (λ x, P x ∨ Q x) l.
Proof.
  intros Hdis. induction l as [|x l IH]; [done |].
  rewrite !filter_cons.
  destruct (decide (P x)) as [HP|HP], (decide (Q x)) as [HQ|HQ].
  - destruct (Hdis x HP HQ).
  - rewrite decide_True by tauto. simpl. by rewrite IH.
  - rewrite decide_True by tauto. rewrite <- Permutation_middle. by rewrite IH.
  - rewrite decide_False by tauto. done.
Qed.

Lemma grouped_filter key (K : nat) l :
  grouped key K l ≡ₚ filter (λ v, 0 ≤ key v < Z.of_nat K) l.
Proof.
  induction K as [|K IH]; cbn [grouped].
  - symmetry. apply Permutation_nil_r.
    induction l as [|x l IHl]; [done |].
    rewrite filter_cons. rewrite decide_False by lia. done.
  - rewrite IH. unfold with_key. rewrite filter_or_Permutation by (intros x; simpl; lia).
    clear IH. induction l as [|x l IHl]; [done |].
    rewrite !filter_cons.
    destruct (decide (0 ≤ key x < Z.of_nat K ∨ key x = Z.of_nat K)).
    + rewrite decide_True by lia. by rewrite IHl.
    + rewrite decide_False by lia. done.
Qed.

Lemma grouped_Permutation key (K : nat) l :
  Forall (λ v, 0 ≤ key v < Z.of_nat K) l → grouped key K l ≡ₚ l.
Proof.
  intros Hall. rewrite grouped_filter.
  induction Hall as [|x l Hx _ IH]; [done |].
  rewrite filter_cons, decide_True by done. by rewrite IH.
Qed.

(** Where an element of [grouped key K l] comes from. *)
Lemma grouped_lookup key (K : nat) l (p : nat) v :
  grouped key K l !! p = Some v →
  ∃ k (j : nat), 0 ≤ k < Z.of_nat K ∧ Z.of_nat p = start_of key l k + Z.of_nat j ∧
    with_key key k l !! j = Some v.
Proof.
  induction K as [|K IH]; simpl; [done |].
  intros [Hp | [Hp Hv]]%lookup_app_Some.
  - destruct (IH Hp) as (k & j & Hk & Hpj & Hv). exists k, j. split; [lia | done].
  - exists (Z.of_nat K), (p - length (grouped key K l))%nat.
    split; [lia |]. split; [| done].
    unfold start_of. rewrite Nat2Z.id. lia.
Qed.

Lemma start_of_end key (K : nat) l :
  Forall (λ v, 0 ≤ key v < Z.of_nat K) l →
  start_of key l (Z.of_nat K) = Z.of_nat (length l).
Proof.
  intros Hall. unfold start_of. rewrite Nat2Z.id.
  by rewrite (Permutation_length (grouped_Permutation _ _ _ Hall)).
Qed.

(** The order of [grouped key K l], when a smaller key is a smaller element
    and the elements of one key are in order already. *)
Lemma grouped_StronglySorted (R : relation Z) key (K : nat) l :
  (∀ x y, x ∈ l → y ∈ l → key x < key y → R x y) →
  (∀ k, StronglySorted R (with_key key k l)) →
  StronglySorted R (grouped key K l).
Proof.
  intros Hlt Hblock. induction K as [|K IH]; simpl; [constructor |].
  apply StronglySorted_app_2; [| done | apply Hblock].
  intros x y Hx Hy.
  rewrite grouped_filter in Hx.
  apply list_elem_of_filter in Hx as [Hkx Hx].
  apply list_elem_of_filter in Hy as [Hky Hy].
  apply Hlt; [done | done | lia].
Qed.

Lemma StronglySorted_filter_impl (R R' : relation Z) (P : Z → Prop)
    `{∀ x, Decision (P x)} l :
  (∀ x y, P x → P y → R x y → R' x y) →
  StronglySorted R l → StronglySorted R' (filter P l).
Proof.
  intros HR. induction 1 as [|x l Hl IH Hx]; [constructor |].
  rewrite filter_cons. destruct (decide (P x)) as [HP|]; [| done].
  constructor; [done |].
  apply Forall_forall. intros y [HPy Hy]%list_elem_of_filter.
  apply HR; [done | done |]. rewrite Forall_forall in Hx. by apply Hx.
Qed.

Lemma StronglySorted_all (R : relation Z) l :
  (∀ x y, R x y) → StronglySorted R l.
Proof.
  intros HR. induction l; constructor; [done |]. by apply Forall_forall.
Qed.

Lemma start_of_nonneg key l k : 0 ≤ start_of key l k.
Proof. unfold start_of. lia. Qed.

Lemma placing_init key (K : nat) l count :
  Forall (λ v, 0 ≤ key v < Z.of_nat K) l →
  length count = K →
  (∀ k, 0 ≤ k < Z.of_nat K → at_index count k = Some (start_of key l (k + 1))) →
  placing key (Z.of_nat K) l (length l) (replicate (length l) None) count.
Proof.
  intros Hkeys Hlen Hcount. unfold placing. rewrite firstn_all, drop_all.
  split; [apply length_replicate |]. split; [by rewrite Hlen |]. split_and!.
  - intros k Hk. rewrite (Hcount k Hk), start_of_next by lia. done.
  - intros k j Hk Hj. apply at_index_Some.
    pose proof (start_of_nonneg key l k).
    split; [lia |]. apply lookup_replicate_2.
    pose proof (start_of_next key l k ltac:(lia)).
    pose proof (start_of_mono key l (k + 1) (Z.of_nat K) ltac:(lia)).
    rewrite (start_of_end _ _ _ Hkeys) in *. lia.
  - intros k j v _ Hv. done.
Qed.

Lemma placing_step key (K : nat) l (i : nat) ov count v :
  Forall (λ v, 0 ≤ key v < Z.of_nat K) l →
  placing key (Z.of_nat K) l (S i) ov count → l !! i = Some v →
  ∃ c, at_index count (key v) = Some c ∧ 0 ≤ c - 1 < Z.of_nat (length ov) ∧
    placing key (Z.of_nat K) l i (<[Z.to_nat (c - 1) := Some v]> ov)
      (<[Z.to_nat (key v) := c - 1]> count).
Proof.
  intros Hkeys (Hov & Hlen & Hcount & Hnone & Hsome) Hv.
  assert (Hkv : 0 ≤ key v < Z.of_nat K).
  { rewrite Forall_forall in Hkeys. apply Hkeys. by eapply list_elem_of_lookup_2. }
  set (k0 := key v) in *.
  assert (Hocc : ∀ k, occurrences key k (take (S i) l) =
    occurrences key k (take i l) + (if decide (k0 = k) then 1 else 0)).
  { intros k. by apply occurrences_take. }
  assert (Hblock : ∀ k, 0 ≤ k →
    start_of key l (k + 1) = start_of key l k + occurrences key k (take i l)
      + occurrences key k (drop i l) ∧ 0 ≤ start_of key l k
    ∧ 0 ≤ occurrences key k (take i l) ∧ 0 ≤ occurrences key k (drop i l)).
  { intros k Hk. rewrite start_of_next by done.
    rewrite <- (occurrences_take_drop key k l i).
    pose proof (occurrences_nonneg key k (take i l)).
    pose proof (occurrences_nonneg key k (drop i l)).
    pose proof (start_of_nonneg key l k). lia. }
  assert (Hdrop : ∀ k, occurrences key k (drop i l) =
    occurrences key k (drop (S i) l) + (if decide (k0 = k) then 1 else 0)).
  { intros k. unfold occurrences. rewrite (with_key_drop _ _ _ _ _ Hv).
    fold k0. destruct (decide (k0 = k)); simpl; lia. }
  assert (Hend := start_of_end _ _ _ Hkeys).
  assert (Hsep : ∀ k k', 0 ≤ k → k < k' → start_of key l (k + 1) ≤ start_of key l k').
  { intros k k' _ Hk. apply start_of_mono. lia. }
  exists (start_of key l k0 + occurrences key k0 (take (S i) l)).
  split; [by apply Hcount |].
  pose proof (Hblock k0 ltac:(lia)) as Hb0. pose proof (Hocc k0) as Ho0.
  pose proof (Hdrop k0) as Hd0. rewrite decide_True in Ho0, Hd0 by done.
  pose proof (occurrences_nonneg key k0 (drop (S i) l)).
  pose proof (start_of_mono key l (k0 + 1) (Z.of_nat K) ltac:(lia)).
  split; [lia |].
  set (c := start_of key l k0 + occurrences key k0 (take (S i) l)) in *.
  unfold placing. rewrite !length_insert.
  split; [done |]. split; [done |]. split_and!.
  - intros k Hk. rewrite at_index_insert by lia.
    destruct (decide (k = k0)) as [->|Hne].
    + f_equal. lia.
    + rewrite (Hcount k Hk), Hocc. rewrite decide_False by done. f_equal. lia.
  - intros k j Hk Hj. rewrite at_index_insert by lia.
    pose proof (Hblock k ltac:(lia)). pose proof (Hocc k) as Hok.
    rewrite decide_False.
    + apply Hnone; [done |]. destruct (decide (k0 = k)); lia.
    + destruct (decide (k = k0)) as [->|Hne]; [lia |].
      destruct (Z.lt_total k k0) as [Hlt|[?|Hgt]]; [| done |].
      * pose proof (Hsep k k0 ltac:(lia) Hlt). lia.
      * pose proof (Hsep k0 k ltac:(lia) Hgt). lia.
  - intros k j w Hk Hw. rewrite at_index_insert by lia.
    pose proof (Hblock k ltac:(lia)). pose proof (Hocc k) as Hok.
    pose proof (Hdrop k) as Hdk.
    assert (Hj : Z.of_nat j < occurrences key k (drop i l)).
    { apply lookup_lt_Some in Hw. unfold occurrences. lia. }
    rewrite (with_key_drop _ _ _ _ _ Hv) in Hw. fold k0 in Hw.
    destruct (decide (k0 = k)) as [<-|Hne].
    + destruct j as [|j]; simpl in Hw.
      * injection Hw as ->. rewrite decide_True by lia. done.
      * rewrite decide_False by lia.
        rewrite <- (Hsome k0 j w Hk Hw). f_equal. lia.
    + rewrite decide_False.
      * rewrite <- (Hsome k j w Hk Hw). f_equal. lia.
      * destruct (Z.lt_total k k0) as [Hlt|[?|Hgt]]; [| done |].
        -- pose proof (Hsep k k0 ltac:(lia) Hlt). lia.
        -- pose proof (Hsep k0 k ltac:(lia) Hgt). lia.
Qed.

Lemma placing_done key (K : nat) l ov count :
  Forall (λ v, 0 ≤ key v < Z.of_nat K) l →
  placing key (Z.of_nat K) l 0 ov count →
  ov = Some <$> grouped key K l.
Proof.
  intros Hkeys (Hov & _ & _ & _ & Hsome).
  pose proof (Permutation_length (grouped_Permutation _ _ _ Hkeys)) as Hlen.
  apply list_eq. intros p. rewrite list_lookup_fmap.
  destruct (grouped key K l !! p) as [v|] eqn:Hp; simpl.
  - destruct (grouped_lookup _ _ _ _ _ Hp) as (k & j & Hk & Hpj & Hv).
    specialize (Hsome k j v Hk Hv). rewrite take_0 in Hsome.
    change (occurrences key k []) with 0 in Hsome.
    apply at_index_Some in Hsome as [_ Hsome].
    rewrite <- Hsome. f_equal. lia.
  - apply lookup_ge_None. apply lookup_ge_None in Hp. lia.
Qed.
(** ** countingSort sorts *)

Lemma awp_values l st (Q : list Z → Run → Prop) :
  holds l st → Q l st → wp values Q st.
Proof.
  intros [Hwf <-] HQ. unfold wp. by rewrite (values_Ok _ Hwf).
Qed.

Lemma slots_hold_extends st st' output ovs :
  extends st st' → slots_hold st output ovs → slots_hold st' output ovs.
Proof.
  intros Hext H. eapply Forall2_impl; [exact H |].
  intros [a|] [v|]; try done. apply Hext.
Qed.

Lemma slots_hold_lookup st output vs k v :
  slots_hold st output (Some <$> vs) → at_index vs k = Some v →
  ∃ a, at_index output k = Some (Some a) ∧ val_of st a = Some v.
Proof.
  intros Hout [Hk Hv]%at_index_Some.
  assert (Hv' : (Some <$> vs) !! Z.to_nat k = Some (Some v))
    by (by rewrite list_lookup_fmap, Hv).
  destruct (Forall2_lookup_r _ _ _ _ _ Hout Hv') as ([a|] & Ha & Hval); [| done].
  exists a. split; [by apply at_index_Some | done].
Qed.

Lemma js_max_spec l hi : js_max l = Some hi → Forall (λ v, v ≤ hi) l.
Proof.
  destruct l as [|x l]; [done |]. simpl. intros [= <-].
  assert (H : ∀ acc, acc ≤ foldl Z.max acc l ∧ Forall (λ v, v ≤ foldl Z.max acc l) l).
  { induction l as [|y l IH]; intros acc; simpl; [split; [lia | constructor] |].
    destruct (IH (Z.max acc y)) as [H1 H2]. split; [lia |].
    constructor; [lia | done]. }
  destruct (H x). by constructor.
Qed.

Lemma js_min_spec l lo : js_min l = Some lo → Forall (λ v, lo ≤ v) l.
Proof.
  destruct l as [|x l]; [done |]. simpl. intros [= <-].
  assert (H : ∀ acc, foldl Z.min acc l ≤ acc ∧ Forall (λ v, foldl Z.min acc l ≤ v) l).
  { induction l as [|y l IH]; intros acc; simpl; [split; [lia | constructor] |].
    destruct (IH (Z.min acc y)) as [H1 H2]. split; [lia |].
    constructor; [lia | done]. }
  destruct (H x). by constructor.
Qed.

Lemma running_sums_length acc count : length (running_sums acc count) = length count.
Proof. revert acc. induction count as [|c count IH]; intros acc; simpl; [done | by rewrite IH]. Qed.

Lemma running_sums_spec count : ∀ acc (g : Z → Z),
  g 0 = acc →
  (∀ k x, 0 ≤ k → at_index count k = Some x → g (k + 1) = g k + x) →
  ∀ k, 0 ≤ k < Z.of_nat (length count) →
    at_index (running_sums acc count) k = Some (g (k + 1)).
Proof.
  induction count as [|c count IH]; intros acc g H0 Hg k Hk; simpl in *; [lia |].
  destruct (decide (k = 0)) as [->|Hne].
  - rewrite (Hg 0 c); [by rewrite H0 | done | done].
  - assert (H1 : g (0 + 1) = acc + c) by (rewrite <- H0; by apply Hg).
    assert (Hg' : ∀ k' x, 0 ≤ k' → at_index count k' = Some x →
              g (k' + 1 + 1) = g (k' + 1) + x).
    { intros k' x Hk' Hx. apply Hg; [lia |].
      apply at_index_Some in Hx as [_ Hx]. apply at_index_Some.
      split; [lia |]. by replace (Z.to_nat (k' + 1)) with (S (Z.to_nat k')) by lia. }
    pose proof (IH (acc + c) (λ k, g (k + 1)) H1 Hg' (k - 1) ltac:(lia)) as Hrec.
    simpl in Hrec. replace (k - 1 + 1 + 1) with (k + 1) in Hrec by lia.
    rewrite <- Hrec. apply option_eq. intros y. rewrite !at_index_Some.
    replace (Z.to_nat k) with (S (Z.to_nat (k - 1))) by lia. simpl.
    split; intros [? ?]; (split; [lia | done]).
Qed.

(** The counters after the elements before [i] have been counted. *)
Lemma count_step key (K : Z) l (i : nat) v count :
  Z.of_nat (length count) = K →
  (∀ k, 0 ≤ k < K → at_index count k = Some (occurrences key k (take i l))) →
  l !! i = Some v → 0 ≤ key v < K →
  ∃ c, at_index count (key v) = Some c ∧
    ∀ k, 0 ≤ k < K →
      at_index (<[Z.to_nat (key v) := c + 1]> count) k
        = Some (occurrences key k (take (S i) l)).
Proof.
  intros Hlen Hcount Hv Hkv. eexists. split; [by apply Hcount |].
  intros k Hk. rewrite at_index_insert by lia.
  rewrite (occurrences_take _ _ _ _ _ Hv).
  destruct (decide (k = key v)) as [->|Hne].
  - by rewrite decide_True.
  - rewrite decide_False by done. rewrite Hcount by done. f_equal. lia.
Qed.

Lemma sums_are_starts key (K : nat) l count :
  length count = K →
  (∀ k, 0 ≤ k < Z.of_nat K → at_index count k = Some (occurrences key k l)) →
  ∀ k, 0 ≤ k < Z.of_nat K →
    at_index (running_sums 0 count) k = Some (start_of key l (k + 1)).
Proof.
  intros Hlen Hcount k Hk.
  apply (running_sums_spec count 0 (start_of key l)); [done | | lia].
  intros k' x Hk' Hx. rewrite start_of_next by done. f_equal.
  pose proof (at_index_lt_length _ _ _ Hx).
  rewrite Hcount in Hx by lia. congruence.
Qed.

(** The loop that fills [output] distributes the array by key. *)
Lemma build_output_spec key keyf (K : nat) l st count
    (Q : list (option loc) → Run → Prop) :
  holds l st →
  (∀ i, key i = (v ← value_at i; mret (keyf v))) →
  Forall (λ v, 0 ≤ keyf v < Z.of_nat K) l →
  length count = K →
  (∀ k, 0 ≤ k < Z.of_nat K → at_index count k = Some (start_of keyf l (k + 1))) →
  (∀ output st', holds l st' → extends st st' →
     slots_hold st' output (Some <$> grouped keyf K l) → Q output st') →
  wp (build_output (Z.of_nat (length l)) key count) Q st.
Proof.
  intros Hst Hkey Hkeys Hlen Hcount HQ. unfold build_output.
  set (n := length l). bind. eapply wp_mono.
  { eapply (wp_for_down
      (λ i '(output, count) st', holds l st' ∧ extends st st' ∧
         ∃ ovs, slots_hold st' output ovs ∧
           placing keyf (Z.of_nat K) l (Z.to_nat (i + 1)) ovs count)).
    - split; [done |]. split; [apply extends_refl |].
      exists (replicate n None). split.
      + rewrite Nat2Z.id. generalize n. intros m.
        induction m; simpl; constructor; done.
      + replace (Z.to_nat (Z.of_nat n - 1 + 1)) with n by lia.
        by apply placing_init.
    - intros i [output cnt] st1 Hi (Hst1 & Hext & ovs & Hout & Hpl).
      replace (Z.to_nat (i + 1)) with (S (Z.to_nat i)) in Hpl by lia.
      bind. rewrite Hkey. bind.
      eapply awp_value_at; [eassumption | lia | intros v Hv]. ret.
      eapply wp_bind, awp_ref_at; [eassumption | lia | intros a v' Ha Hv' Hva].
      assert (v' = v) as -> by congruence.
      eapply wp_bind, awp_deref; [eassumption | intros el Hel].
      eapply wp_bind, awp_alloc; [eassumption |].
      intros a' st2 Hst2 Hext2 Ha'.
      apply at_index_Some in Hv as [_ Hv].
      destruct (placing_step _ _ _ _ _ _ _ Hkeys Hpl Hv) as (c & Hc & Hc1 & Hpl').
      rewrite Hc.
      destruct (at_index_is_Some ovs (c - 1) Hc1) as [o Ho].
      assert (Hlen' : length output = length ovs) by (by eapply Forall2_length).
      destruct (at_index_is_Some output (c - 1) ltac:(lia)) as [o' Ho'].
      rewrite Ho'. bind. unfold bump. rewrite Hc. ret. ret.
      split; [done |]. split; [by eapply extends_trans |].
      exists (<[Z.to_nat (c - 1) := Some v]> ovs). split.
      + apply Forall2_insert; [by eapply slots_hold_extends | by rewrite Ha', Hel].
      + replace (Z.to_nat (i - 1 + 1)) with (Z.to_nat i) by lia.
        by replace (c + -1) with (c - 1) by lia. }
  cbv beta. intros [output cnt] st1 (Hst1 & Hext & ovs & Hout & Hpl).
  ret. apply HQ; [done | done |].
  replace (Z.to_nat (Z.min (-1) (Z.of_nat n - 1) + 1)) with 0%nat in Hpl by lia.
  by rewrite <- (placing_done _ _ _ _ _ Hkeys Hpl).
Qed.

Lemma awp_copy_back l st output vs i v (Q : unit → Run → Prop) :
  holds l st → slots_hold st output (Some <$> vs) → at_index vs i = Some v →
  0 ≤ i < Z.of_nat (length l) →
  (∀ st', holds (<[Z.to_nat i := v]> l) st' → extends st st' → Q tt st') →
  wp (copy_back output i) Q st.
Proof.
  intros Hst Hout Hv Hi HQ.
  destruct (slots_hold_lookup _ _ _ _ _ Hout Hv) as (a & Ha & Hval).
  unfold copy_back. rewrite Ha. by eapply awp_write.
Qed.

Lemma wp_new_counts n st (Q : list Z → Run → Prop) :
  0 ≤ n ≤ 2 ^ 32 - 1 → Q (replicate (Z.to_nat n) 0) st → wp (new_counts n) Q st.
Proof.
  intros Hn HQ. unfold new_counts.
  destruct (Z.ltb_spec n 0); [lia |].
  destruct (Z.gtb_spec n (2 ^ 32 - 1)); [lia |]. simpl. by apply wp_ret.
Qed.

Lemma occurrences_nil key k : occurrences key k [] = 0.
Proof. done. Qed.

(** The order after a distribution by [v - lo]. *)
Lemma grouped_by_value_Sorted (K : nat) lo l :
  Sorted Z.le (grouped (λ v, v - lo) K l).
Proof.
  apply StronglySorted_Sorted, grouped_StronglySorted.
  - intros x y _ _. lia.
  - intros k. apply (StronglySorted_filter_impl (λ _ _, True)).
    + intros x y Hx Hy _. lia.
    + by apply StronglySorted_all.
Qed.


(** ** radixSort sorts *)

Lemma StronglySorted_impl_elem (R R' : relation Z) l :
  (∀ x y, x ∈ l → y ∈ l → R x y → R' x y) →
  StronglySorted R l → StronglySorted R' l.
Proof.
  intros HR Hl. induction Hl as [|x l Hl IH Hx]; [constructor |].
  constructor.
  - apply IH. intros y z Hy Hz. apply HR; by apply list_elem_of_further.
  - apply Forall_forall. intros y Hy. rewrite Forall_forall in Hx.
    apply HR; [apply list_elem_of_here | by apply list_elem_of_further | by apply Hx].
Qed.

Lemma digit_spec exp v : 0 < exp → 0 ≤ v → SpecializedSorts.digit exp v = (v / exp) mod 10.
Proof.
  intros Hexp Hv. unfold SpecializedSorts.digit. apply Z.rem_mod_nonneg; [| lia].
  apply Z.div_pos; lia.
Qed.

Lemma digit_bound exp v : 0 < exp → 0 ≤ v → 0 ≤ SpecializedSorts.digit exp v < 10.
Proof. intros Hexp Hv. rewrite digit_spec by done. apply Z.mod_pos_bound. lia. Qed.

Lemma mod_next_digit exp v :
  0 < exp → 0 ≤ v → v mod (exp * 10) = v mod exp + exp * SpecializedSorts.digit exp v.
Proof.
  intros Hexp Hv. rewrite digit_spec by done. apply Z.rem_mul_r; lia.
Qed.

(** One pass keeps the order of the digits behind it. *)
Lemma grouped_by_digit_sorted exp l :
  0 < exp → Forall (λ v, 0 ≤ v) l →
  StronglySorted (λ x y, x mod exp ≤ y mod exp) l →
  StronglySorted (λ x y, x mod (exp * 10) ≤ y mod (exp * 10))
    (grouped (SpecializedSorts.digit exp) 10 l).
Proof.
  intros Hexp Hpos Hsorted. rewrite Forall_forall in Hpos.
  apply grouped_StronglySorted.
  - intros x y Hx Hy Hlt.
    rewrite !mod_next_digit by auto.
    pose proof (Z.mod_pos_bound x exp Hexp). pose proof (Z.mod_pos_bound y exp Hexp).
    nia.
  - intros k. unfold with_key.
    assert (Hs : StronglySorted (λ x y, 0 ≤ x ∧ 0 ≤ y ∧ x mod exp ≤ y mod exp) l).
    { eapply StronglySorted_impl_elem; [| exact Hsorted]. simpl. auto. }
    eapply StronglySorted_filter_impl; [| exact Hs].
    intros x y Hx Hy (Hx0 & Hy0 & Hle). simpl in *.
    rewrite !mod_next_digit by auto. rewrite Hx, Hy. lia.
Qed.

Lemma countingSortByDigit_spec l st exp pos (Q : unit → Run → Prop) :
  holds l st → Forall (λ v, 0 ≤ v) l → 0 < exp →
  (∀ st', holds (grouped (SpecializedSorts.digit exp) 10 l) st' → shown st' → Q tt st') →
  wp (SpecializedSorts.countingSortByDigit (Z.of_nat (length l)) exp pos) Q st.
Proof.
  intros Hst Hpos Hexp HQ. unfold SpecializedSorts.countingSortByDigit.
  set (key := SpecializedSorts.digit exp).
  assert (Hkeys : Forall (λ v, 0 ≤ key v < Z.of_nat 10) l).
  { eapply Forall_impl; [exact Hpos |]. intros v Hv. by apply digit_bound. }
  say. bind. eapply wp_mono.
  { apply (wp_for (λ i count st, holds l st ∧ length count = 10%nat ∧
      ∀ k, 0 ≤ k < Z.of_nat 10 →
        at_index count k = Some (occurrences key k (take (Z.to_nat i) l)))).
    - split; [done |]. split; [done |].
      intros k Hk. simpl take. rewrite occurrences_nil. apply at_index_Some.
      split; [lia |]. apply lookup_replicate_2. lia.
    - clear st Hst. intros i count st Hi (Hst & Hlen & Hcount).
      rd v Hv. apply at_index_Some in Hv as [_ Hv].
      assert (Hkv : 0 ≤ key v < Z.of_nat 10).
      { rewrite Forall_forall in Hkeys. apply Hkeys. by eapply list_elem_of_lookup_2. }
      destruct (count_step key (Z.of_nat 10) l (Z.to_nat i) v count
        ltac:(lia) Hcount Hv Hkv) as (c & Hc & Hcount').
      unfold bump. fold (key v). rewrite Hc. ret.
      split; [done |]. split; [by rewrite length_insert |].
      by replace (Z.to_nat (i + 1)) with (S (Z.to_nat i)) by lia. }
  cbv beta. clear st Hst. intros count st (Hst & Hlen & Hcount).
  rewrite Z.max_r, Nat2Z.id, firstn_all in Hcount by lia.
  bind. eapply (build_output_spec _ key 10); [eassumption | done | done | | |].
  { by rewrite running_sums_length. }
  { by apply sums_are_starts. }
  intros output st' Hst' _ Hout. clear st Hst. rename st' into st, Hst' into Hst.
  set (T := grouped key 10 l) in *.
  assert (Hperm : T ≡ₚ l) by (by apply grouped_Permutation).
  bind. eapply wp_mono.
  { apply (wp_for (λ i _ st,
      holds (take (Z.to_nat i) T ++ drop (Z.to_nat i) l) st ∧
      slots_hold st output (Some <$> T))).
    - by split.
    - clear st Hst Hout. intros i [] st Hi (Hst & Hout).
      destruct (lookup_lt_is_Some_2 T (Z.to_nat i)) as [v Hv].
      { rewrite (Permutation_length Hperm). lia. }
      assert (Hlen' : length (take (Z.to_nat i) T ++ drop (Z.to_nat i) l) = length l).
      { rewrite length_app, length_take, length_drop, (Permutation_length Hperm). lia. }
      eapply awp_copy_back; [eassumption | eassumption | | lia |].
      { apply at_index_Some. split; [lia | done]. }
      intros st' Hst' Hext. apply (slots_hold_extends _ _ _ _ Hext) in Hout.
      rewrite take_drop_insert in Hst' by (done || lia).
      split; [| done].
      by replace (Z.to_nat (i + 1)) with (S (Z.to_nat i)) by lia. }
  cbv beta. clear st Hst Hout. intros [] st (Hst & Hout).
  rewrite Z.max_r, Nat2Z.id in Hst by lia.
  rewrite (take_ge T), (drop_ge l), app_nil_r in Hst
    by (rewrite ?(Permutation_length Hperm); lia).
  say_last Hshown. by apply HQ.
Qed.


(** ** bucketSort sorts *)

(** *** The insertion sort of one bucket *)

Section bucket.
Context (val : loc → Z).

Lemma bucket_shift_spec key (A : list loc) : ∀ h B rest,
  StronglySorted (λ a b, val a ≤ val b) (A ++ B) →
  Forall (λ b, val key < val b) B →
  ∃ A1 A2 h',
    SpecializedSorts.bucket_shift val (length A) key (Z.of_nat (length A) - 1)
      (A ++ h :: B ++ rest)
      = (Z.of_nat (length A1) - 1, A1 ++ h' :: A2 ++ B ++ rest) ∧
    A = A1 ++ A2 ∧
    Forall (λ a, val a ≤ val key) A1 ∧ Forall (λ b, val key < val b) A2.
Proof.
  induction A as [|x A IH] using rev_ind; intros h B rest Hsorted HB.
  - exists [], [], h. by split_and!.
  - rewrite length_app. simpl length.
    replace (length A + 1)%nat with (S (length A)) by lia. simpl.
    assert (Hx : at_index ((A ++ [x]) ++ h :: B ++ rest)
              (Z.of_nat (S (length A)) - 1) = Some x).
    { apply at_index_Some. split; [lia |].
      rewrite <- !app_assoc. apply list_lookup_middle. lia. }
    rewrite Hx. destruct (Z.gtb_spec (val x) (val key)) as [Hgt|Hle].
    + replace (Z.of_nat (S (length A)) - 1 - 1) with (Z.of_nat (length A) - 1) by lia.
      assert (<[Z.to_nat (Z.of_nat (S (length A)) - 1 + 1) := x]>
                ((A ++ [x]) ++ h :: B ++ rest)
              = A ++ x :: (x :: B) ++ rest) as ->.
      { replace (Z.to_nat (Z.of_nat (S (length A)) - 1 + 1))
          with (length (A ++ [x]) + 0)%nat by (rewrite length_app; simpl; lia).
        rewrite insert_app_r. simpl. by rewrite <- app_assoc. }
      destruct (IH x (x :: B) rest) as (A1 & A2 & h' & Hrun & -> & H1 & H2).
      { by rewrite <- app_assoc in Hsorted. }
      { constructor; [lia | done]. }
      exists A1, (A2 ++ [x]), h'. split_and!.
      * rewrite Hrun. f_equal. f_equal. f_equal.
        by rewrite <- !app_assoc.
      * by rewrite app_assoc.
      * done.
      * apply Forall_app. split; [done |]. constructor; [lia | constructor].
    + exists (A ++ [x]), [], h. rewrite length_app. simpl length. split_and!.
      * f_equal. lia.
      * by rewrite app_nil_r.
      * apply StronglySorted_app_1_l in Hsorted.
        apply Forall_app. split; [| constructor; [lia | constructor]].
        apply Forall_forall. intros a Ha.
        pose proof (StronglySorted_app_1_elem_of _ _ _ _ _ Hsorted Ha
          (list_elem_of_here x [])). simpl in *. lia.
      * constructor.
Qed.

Lemma bucket_sort_from_spec (rest : list loc) : ∀ P,
  StronglySorted (λ a b, val a ≤ val b) P →
  StronglySorted (λ a b, val a ≤ val b)
    (SpecializedSorts.bucket_sort_from val (length rest) (Z.of_nat (length P)) (P ++ rest)) ∧
  SpecializedSorts.bucket_sort_from val (length rest) (Z.of_nat (length P)) (P ++ rest)
    ≡ₚ P ++ rest.
Proof.
  induction rest as [|key rest IH]; intros P HP; simpl.
  - by rewrite app_nil_r.
  - assert (Hkey : at_index (P ++ key :: rest) (Z.of_nat (length P)) = Some key).
    { rewrite at_index_of_nat. by apply list_lookup_middle. }
    rewrite Hkey, Nat2Z.id.
    destruct (bucket_shift_spec key P key [] rest) as (A1 & A2 & h' & Hrun & -> & H1 & H2).
    { by rewrite app_nil_r. }
    { constructor. }
    simpl in Hrun. rewrite Hrun.
    assert (<[Z.to_nat (Z.of_nat (length A1) - 1 + 1) := key]> (A1 ++ h' :: A2 ++ rest)
            = (A1 ++ key :: A2) ++ rest) as ->.
    { replace (Z.to_nat (Z.of_nat (length A1) - 1 + 1)) with (length A1 + 0)%nat by lia.
      rewrite insert_app_r. simpl. by rewrite <- app_assoc. }
    replace (Z.of_nat (length (A1 ++ A2)) + 1)
      with (Z.of_nat (length (A1 ++ key :: A2)))
      by (rewrite !length_app; simpl; lia).
    destruct (IH (A1 ++ key :: A2)) as [Hs Hp].
    { apply StronglySorted_app in HP as (H12 & HA1 & HA2).
      apply StronglySorted_app_2; [| done |].
      - intros a b Ha [->|Hb]%elem_of_cons.
        + rewrite Forall_forall in H1. by apply H1.
        + by apply H12.
      - constructor; [done |]. eapply Forall_impl; [exact H2 |].
        intros b Hb. simpl in Hb. lia. }
    split; [done |]. rewrite Hp. rewrite <- !app_assoc. simpl.
    apply Permutation_app_head. by rewrite <- Permutation_middle.
Qed.

Lemma sort_bucket_spec bucket :
  StronglySorted (λ a b, val a ≤ val b) (SpecializedSorts.sort_bucket val bucket) ∧
  SpecializedSorts.sort_bucket val bucket ≡ₚ bucket.
Proof.
  unfold SpecializedSorts.sort_bucket. destruct bucket as [|x rest]; [by split; [constructor |] |].
  replace (length (x :: rest) - 1)%nat with (length rest) by (simpl; lia).
  apply (bucket_sort_from_spec rest [x]). repeat constructor.
Qed.
End bucket.

(** *** The buckets *)

Lemma buckets_hold_extends st st' buckets key l :
  extends st st' → buckets_hold st buckets key l → buckets_hold st' buckets key l.
Proof.
  intros Hext Hb b Hlt. destruct (Hb b Hlt) as (bucket & Hbucket & Hrefs).
  exists bucket. split; [done |]. by eapply refs_hold_extends.
Qed.

Lemma refs_hold_values st arr vs :
  refs_hold st arr vs →
  Forall (λ a, val_of st a = Some (default 0 (val_of st a))) arr ∧
  (λ a, default 0 (val_of st a)) <$> arr = vs.
Proof.
  induction 1 as [|a v arr vs Ha _ [IH1 IH2]]; [by split |]. split.
  - constructor; [by rewrite Ha | done].
  - csimpl. by rewrite Ha, IH2.
Qed.

(** The sorted bucket holds the numbers of the bucket, in ascending order. *)
Lemma sort_bucket_refs st bucket vs :
  refs_hold st bucket vs →
  ∃ vs', refs_hold st
      (SpecializedSorts.sort_bucket (λ a, default 0 (value <$> r_store st !! a)) bucket) vs' ∧
    vs' ≡ₚ vs ∧ StronglySorted Z.le vs'.
Proof.
  intros Hrefs. set (val := λ a, default 0 (value <$> r_store st !! a)).
  destruct (sort_bucket_spec val bucket) as [Hsorted Hperm].
  destruct (refs_hold_values _ _ _ Hrefs) as [Hall Hvs].
  exists (val <$> SpecializedSorts.sort_bucket val bucket). split_and!.
  - apply Forall2_fmap_r, Forall_Forall2_diag. by rewrite Hperm.
  - rewrite Hperm. by rewrite <- Hvs.
  - eapply StronglySorted_fmap; [| exact Hsorted]. done.
Qed.

Lemma overwrite_next (X l : list Z) v :
  (length X < length l)%nat →
  <[length X := v]> (X ++ drop (length X) l) = (X ++ [v]) ++ drop (S (length X)) l.
Proof.
  intros Hlt. destruct (lookup_lt_is_Some_2 l (length X) Hlt) as [y Hy].
  rewrite (drop_S _ _ _ Hy).
  replace (length X) with (length X + 0)%nat at 1 by lia.
  rewrite insert_app_r. simpl. by rewrite <- app_assoc.
Qed.

(** The bucket of a number, as bucketSort computes it. *)
Lemma bucket_index_bounds lo bc range v :
  1 ≤ bc → 0 < range → lo ≤ v →
  0 ≤ Z.min ((v - lo) * bc / range) (bc - 1) < bc.
Proof.
  intros Hbc Hrange Hv.
  assert (0 ≤ (v - lo) * bc / range) by (apply Z.div_pos; nia). lia.
Qed.

Lemma bucket_index_mono lo bc range x y :
  1 ≤ bc → 0 < range →
  Z.min ((x - lo) * bc / range) (bc - 1) < Z.min ((y - lo) * bc / range) (bc - 1) →
  x ≤ y.
Proof.
  intros Hbc Hrange Hlt. destruct (Z.le_gt_cases x y) as [|Hgt]; [done |].
  assert ((y - lo) * bc / range ≤ (x - lo) * bc / range)
    by (apply Z.div_le_mono; nia). lia.
Qed.




(** ** More on the instrumented array *)

Lemma reachable_length initialArray ops :
  IA.length (run ops (IA.new initialArray)) = Z.of_nat (length initialArray).
Proof.
  rewrite length_run by apply wf_new. unfold IA.length. simpl.
  by rewrite length_seq.
Qed.

Lemma reachable_NoDup initialArray ops :
  NoDup (ia_array (run ops (IA.new initialArray))).
Proof.
  destruct (run_frame ops (IA.new initialArray) (wf_new _)) as (_ & _ & Hp).
  rewrite Hp. simpl. apply NoDup_seq.
Qed.

(** X16: the bounds of [get] and [set] are those of the initial array, whatever
    was called in between: inside them both calls return, outside both throw
    [Error("Index i out of bounds")]. *)
Theorem get_set_bounds initialArray ops index v :
  let this := run ops (IA.new initialArray) in
  (0 ≤ index < Z.of_nat (length initialArray) →
     is_Ok (IA.get index this) ∧ is_Ok (IA.set index v this)) ∧
  (¬ (0 ≤ index < Z.of_nat (length initialArray)) →
     IA.get index this
       = Throw (Error ("Index " +:+ pretty index +:+ " out of bounds")) ∧
     IA.set index v this
       = Throw (Error ("Index " +:+ pretty index +:+ " out of bounds"))).
Proof.
  intros this. pose proof (wf_reachable initialArray ops) as Hwf.
  pose proof (reachable_length initialArray ops) as Hlen. fold this in Hwf, Hlen.
  split; intros Hi; rewrite <- Hlen in Hi.
  - split.
    + destruct (get_spec index this Hwf Hi) as (el & _ & ->). by eexists.
    + destruct (set_Ok index v this Hwf Hi) as (a & el & _ & _ & ->). by eexists.
  - split; [by apply get_throws | by apply set_throws].
Qed.

(** X17: [set(index, v)] followed by [get(index)] returns [v], and [get] at
    every other position returns what it returned before the [set]. *)
Theorem set_then_get initialArray ops index v k this' :
  let this := run ops (IA.new initialArray) in
  IA.set index v this = Ok this' →
  IA.get index this' = Ok v ∧ (k ≠ index → IA.get k this' = IA.get k this).
Proof.
  intros this Hset. pose proof (wf_reachable initialArray ops) as Hwf.
  pose proof (reachable_NoDup initialArray ops) as Hnd. fold this in Hwf, Hnd.
  destruct (decide (0 ≤ index < IA.length this)) as [Hi|Hi];
    [| by rewrite set_throws in Hset].
  destruct (set_Ok index v this Hwf Hi) as (a & el & Ha & Hel & Hset').
  rewrite Hset' in Hset. injection Hset as <-.
  assert (Hlen : ∀ d h, IA.length (IA.addStep d (IA.with_store h this))
                        = IA.length this) by done.
  split.
  - unfold IA.get. rewrite Hlen, (proj2 (in_range _ _) Hi). simpl.
    unfold elem_at. rewrite Ha. unfold deref.
    rewrite list_lookup_insert_eq by (by eapply lookup_lt_Some). done.
  - intros Hk. unfold IA.get. rewrite Hlen.
    destruct ((k <? 0) || (k >=? IA.length this)) eqn:Hin; [done |].
    apply in_range in Hin. simpl. unfold elem_at.
    destruct (at_index_is_Some (ia_array this) k Hin) as [b Hb]. rewrite Hb.
    unfold deref. rewrite list_lookup_insert_ne; [done |]. intros ->.
    apply at_index_Some in Ha as [? Ha], Hb as [? Hb].
    pose proof (NoDup_lookup _ _ _ _ Hnd Ha Hb). lia.
Qed.

Lemma set_then_get_witness :
  ∃ this',
    IA.set 0 9 (run [] (IA.new sample_53)) = Ok this' ∧
    IA.get 0 this' = Ok 9 ∧ IA.get 1 this' = IA.get 1 (run [] (IA.new sample_53)).
Proof.
  eexists. split; [reflexivity |].
  destruct (set_then_get sample_53 [] 0 9 1 _ eq_refl) as [H1 H2].
  split; [exact H1 | apply H2; lia].
Defined.

(** X18: [swap(i, j)] with two different valid positions exchanges the two
    elements, records two steps and clears the pending description;
    [swap(i, i)] with a valid position changes nothing at all, the pending
    description included; with a position outside the array it throws
    [Error("Invalid indices: i, j")]. *)
Theorem swap_spec initialArray ops i j :
  let this := run ops (IA.new initialArray) in
  let n := Z.of_nat (length initialArray) in
  (0 ≤ i < n → 0 ≤ j < n → i ≠ j →
     ∃ this' values,
       IA.swap i j this = Ok this' ∧
       IA.getValues this = Ok values ∧
       IA.getValues this' = Ok (swap_at i j values) ∧
       length (ia_steps this') = (length (ia_steps this) + 2)%nat ∧
       ia_stepDescription this' = "") ∧
  (0 ≤ i < n → IA.swap i i this = Ok this) ∧
  (¬ (0 ≤ i < n ∧ 0 ≤ j < n) →
     IA.swap i j this
       = Throw (Error ("Invalid indices: " +:+ pretty i +:+ ", " +:+ pretty j))).
Proof.
  intros this n. pose proof (wf_reachable initialArray ops) as Hwf.
  pose proof (reachable_length initialArray ops) as Hlen.
  fold this in Hwf, Hlen. fold n in Hlen. rewrite <- Hlen. split_and!.
  - intros Hi Hj Hij.
    destruct (swap_Ok i j this Hwf Hi Hj Hij) as (ei & ej & sl & _ & _ & _ & Hsw).
    eexists _, _. split_and!; [exact Hsw | by apply getValues_Ok | | |].
    + rewrite getValues_Ok.
      * simpl. by rewrite fmap_swap_at.
      * unfold wf, valid_refs. simpl. by apply swap_at_Forall.
    + simpl. rewrite !length_app. simpl. lia.
    + done.
  - intros Hi. by apply swap_same.
  - intros Hij. by apply swap_throws.
Qed.

Lemma swap_spec_witness :
  ∃ this' values,
    IA.swap 0 1 (run [] (IA.new sample_53)) = Ok this' ∧
    IA.getValues (run [] (IA.new sample_53)) = Ok values ∧
    IA.getValues this' = Ok (swap_at 0 1 values).
Proof.
  destruct (proj1 (swap_spec sample_53 [] 0 1))
    as (this' & values & H1 & H2 & H3 & _); [simpl; lia.. |].
  by exists this', values.
Defined.

(** X20: no sequence of calls changes the length of the array or removes a
    recorded step: the steps of the container start with the
    "Starting custom algorithm" step of the constructor, and a call only
    appends to them. *)
Theorem length_and_steps_kept initialArray ops ops' :
  let this := run ops (IA.new initialArray) in
  IA.length this = Z.of_nat (length initialArray) ∧
  (∃ rest, ia_steps this
     = plain_step (spread (seq 0 (length initialArray))) "Starting custom algorithm"
         :: rest) ∧
  (∃ new, ia_steps (run ops' this) = ia_steps this ++ new).
Proof.
  intros this. split_and!.
  - apply reachable_length.
  - destruct (run_frame ops (IA.new initialArray) (wf_new _)) as ((new & Hnew) & _).
    exists new. exact Hnew.
  - destruct (run_frame ops' this (wf_reachable _ _)) as (Hnew & _). exact Hnew.
Qed.

Lemma markRange_loop_states n : ∀ i acc this,
  wf this → 0 ≤ i → i + Z.of_nat n ≤ IA.length this →
  ∃ h, IA.markRange_loop n i acc this =
         Ok (acc ++ (Z.of_nat <$> seq (Z.to_nat i) n), IA.with_store h this) ∧
       same_but_state (ia_store this) h ∧
       ∀ k, i ≤ k < i + Z.of_nat n →
         ∃ el, elem_at h (ia_array this) k = Ok el ∧ state el = st_sorted.
Proof.
  induction n as [|n IH]; intros i acc this Hwf Hi Hn.
  - destruct (markRange_loop_Ok 0 i acc this Hwf Hi Hn) as (h & Hh & Hsame).
    exists h. split_and!; [done.. |]. intros k Hk. lia.
  - destruct (markRange_loop_Ok (S n) i acc this Hwf Hi Hn) as (h & Hh & Hsame).
    exists h. split_and!; [done.. |]. intros k Hk.
    destruct (update_spec i (with_state st_sorted) this Hwf ltac:(lia))
      as (a & el & Ha & Hel & Hu).
    cbn [IA.markRange_loop] in Hh. rewrite Hu in Hh. cbn in Hh.
    set (this1 := IA.with_store (<[a:=with_state st_sorted el]> (ia_store this)) this)
      in *.
    destruct (IH (i + 1) (acc ++ [i]) this1) as (h1 & Hh1 & Hsame1 & Hst1);
      [by apply wf_with_store_insert | lia | unfold IA.length in *; simpl; lia |].
    rewrite Hh1 in Hh. injection Hh as _ Hh. subst h1.
    destruct (decide (k = i)) as [->|Hki].
    + destruct Hsame1 as [_ Hsame1].
      destruct (Hsame1 a (with_state st_sorted el)) as (s & Hs & Hor).
      { simpl. by rewrite list_lookup_insert_eq by (by eapply lookup_lt_Some). }
      eexists. split; [apply elem_at_Ok; exists a; split; [exact Ha | exact Hs] |].
      simpl in Hor. by destruct Hor as [-> | ->].
    + apply Hst1. lia.
Qed.

(** X19: [markRangeSorted(start, end)] with [0 <= start <= end < length] sets
    the state of every element of the range to [sorted], changes no value,
    records one step whose [sortedIndices] are [start .. end], and clears the
    pending description; for every other pair it throws
    [Error("Invalid range: start to end")]. *)
Theorem markRangeSorted_spec initialArray ops start end_ :
  let this := run ops (IA.new initialArray) in
  let n := Z.of_nat (length initialArray) in
  (0 ≤ start ≤ end_ → end_ < n →
     ∃ this' s values,
       IA.markRangeSorted start end_ this = Ok this' ∧
       ia_steps this' = ia_steps this ++ [s] ∧
       sortedIndices s
         = Some (Z.of_nat <$> seq (Z.to_nat start) (Z.to_nat (end_ - start + 1))) ∧
       ia_stepDescription this' = "" ∧
       IA.getValues this = Ok values ∧ IA.getValues this' = Ok values ∧
       ∀ k, start ≤ k ≤ end_ →
         ∃ el, elem_at (ia_store this') (ia_array this') k = Ok el ∧
               state el = st_sorted) ∧
  (¬ (0 ≤ start ≤ end_ ∧ end_ < n) →
     IA.markRangeSorted start end_ this
       = Throw (Error ("Invalid range: " +:+ pretty start +:+ " to "
                         +:+ pretty end_))).
Proof.
  intros this n. pose proof (wf_reachable initialArray ops) as Hwf.
  pose proof (reachable_length initialArray ops) as Hlen.
  fold this in Hwf, Hlen. fold n in Hlen. rewrite <- Hlen. split.
  - intros Hs He.
    destruct (markRange_loop_states (Z.to_nat (end_ - start + 1)) start [] this Hwf)
      as (h & Hh & Hsame & Hstates); [lia.. |].
    unfold IA.markRangeSorted.
    rewrite (proj2 (range_ok _ _ _) (conj Hs He)), Hh. cbn.
    eexists _, _, _. split_and!; [done | done | done | done | | |].
    + by apply getValues_Ok.
    + rewrite getValues_Ok.
      * simpl. f_equal. apply list_fmap_ext. intros _ a _.
        by rewrite (same_but_state_value _ _ a Hsame).
      * unfold wf, valid_refs. simpl. destruct Hsame as [-> _]. exact Hwf.
    + intros k Hk. simpl. apply Hstates. lia.
  - intros Hr. by apply markRangeSorted_throws.
Qed.

Lemma markRangeSorted_spec_witness :
  ∃ this' s,
    IA.markRangeSorted 0 1 (run [] (IA.new sample_53)) = Ok this' ∧
    ia_steps this' = ia_steps (run [] (IA.new sample_53)) ++ [s] ∧
    sortedIndices s = Some [0; 1].
Proof.
  destruct (proj1 (markRangeSorted_spec sample_53 [] 0 1))
    as (this' & s & values & H1 & H2 & H3 & _); [simpl; lia.. |].
  by exists this', s.
Defined.

(** X21: whatever is called on an instrumented array, every step of the trace
    that [getSteps()] returns, the final one included, shows exactly the ids
    of the initial array, each as often as it occurs there, in some order. *)
Theorem instrumented_trace_keeps_ids initialArray ops :
  let this := run ops (IA.new initialArray) in
  ∃ trace,
    IA.getSteps this = Ok trace ∧
    Forall (λ s, view_ids (ia_store this) s ≡ₚ Some <$> (id <$> initialArray))
      trace.
Proof.
  intros this.
  destruct (instrumented_array_keeps_ids ops initialArray) as (Hwf & Hids & Hsteps).
  fold this in Hwf, Hids, Hsteps.
  unfold IA.getSteps.
  destruct (map_state_Ok (ia_store this) (λ _, st_sorted) (ia_array this) 0 Hwf)
    as (final & Hfinal & _).
  rewrite Hfinal. eexists. split; [done |].
  apply Forall_app. split; [exact Hsteps |]. constructor; [| constructor].
  erewrite view_ids_map_state; [| exact Hfinal | reflexivity]. by rewrite Hids.
Qed.

(** ** The built-in algorithms on every input *)

(** X1: bubbleSort sorts every input that is not empty, of any length and
    with or without equal values; on the empty input it throws a
    [TypeError] (it marks position 0, which does not exist). *)
Theorem bubbleSort_spec arr :
  (arr ≠ [] → sorts SimpleSorts.bubbleSort arr) ∧
  (arr = [] → SimpleSorts.bubbleSort arr = Throw TypeError).
Proof. split; [apply bubbleSort_sorts | by intros ->]. Qed.

Lemma bubbleSort_spec_witness : sorts SimpleSorts.bubbleSort sample_53.
Proof. apply (proj1 (bubbleSort_spec sample_53)). discriminate. Defined.

(** X2: selectionSort sorts every input that is not empty; on the empty
    input it throws a [TypeError]. *)
Theorem selectionSort_spec arr :
  (arr ≠ [] → sorts SimpleSorts.selectionSort arr) ∧
  (arr = [] → SimpleSorts.selectionSort arr = Throw TypeError).
Proof. split; [apply selectionSort_sorts | by intros ->]. Qed.

Lemma selectionSort_spec_witness : sorts SimpleSorts.selectionSort sample_53.
Proof. apply (proj1 (selectionSort_spec sample_53)). discriminate. Defined.

(** X6: heapSort sorts every input that is not empty; on the empty input it
    throws a [TypeError]. *)
Theorem heapSort_spec arr :
  (arr ≠ [] → sorts EfficientSorts.heapSort arr) ∧
  (arr = [] → EfficientSorts.heapSort arr = Throw TypeError).
Proof. split; [apply heapSort_sorts | by intros ->]. Qed.

Lemma heapSort_spec_witness : sorts EfficientSorts.heapSort sample_53.
Proof. apply (proj1 (heapSort_spec sample_53)). discriminate. Defined.

(** X10: cocktailSort sorts every input that is not empty; on the empty input
    it throws a [TypeError]. *)
Theorem cocktailSort_spec arr :
  (arr ≠ [] → sorts ImprovedSorts.cocktailSort arr) ∧
  (arr = [] → ImprovedSorts.cocktailSort arr = Throw TypeError).
Proof. split; [apply cocktailSort_sorts | by intros ->]. Qed.

Lemma cocktailSort_spec_witness : sorts ImprovedSorts.cocktailSort sample_53.
Proof. apply (proj1 (cocktailSort_spec sample_53)). discriminate. Defined.

(** X12: pancakeSort sorts every input that is not empty; on the empty input
    it throws a [TypeError]. *)
Theorem pancakeSort_spec arr :
  (arr ≠ [] → sorts NoveltySorts.pancakeSort arr) ∧
  (arr = [] → NoveltySorts.pancakeSort arr = Throw TypeError).
Proof. split; [apply pancakeSort_sorts | by intros ->]. Qed.

Lemma pancakeSort_spec_witness : sorts NoveltySorts.pancakeSort sample_53.
Proof. apply (proj1 (pancakeSort_spec sample_53)). discriminate. Defined.

(** X15: miracleSort returns on every input and never touches the array:
    every step of its trace shows the values and the ids of the input in
    the order of the input; the trace has two steps when the input is
    ascending and four when it is not. *)
Theorem miracleSort_never_reorders arr :
  ∃ t, NoveltySorts.miracleSort arr = Ok t ∧
    Forall (λ s, view_values (t_store t) s = Some <$> (value <$> arr) ∧
                 view_ids (t_store t) s = Some <$> (id <$> arr)) (t_steps t) ∧
    length (t_steps t) = if ascending (value <$> arr) then 2%nat else 4%nat.
Proof.
  assert (Hwp : wp NoveltySorts.miracleSort_run (λ _ st,
    Forall (shows (init arr)) (r_steps st) ∧ r_store st = arr ∧
    length (r_steps st) = if ascending (value <$> arr) then 2%nat else 4%nat)
    (init arr)).
  { unfold NoveltySorts.miracleSort_run.
    apply wp_bind, wp_say; [apply wfr_init |]. intros s0 Hs0 _.
    apply wp_bind, wp_isSorted; [apply wfr_init |].
    change (vals (set_steps (r_steps (init arr) ++ [s0]) (init arr)))
      with (vals (init arr)). rewrite vals_init.
    destruct (ascending (value <$> arr)).
    - apply wp_say; [apply wfr_init |]. intros s1 Hs1 _.
      split_and!; [| done | done]. simpl.
      apply Forall_cons_2; [exact Hs0 |]. apply Forall_cons_2; [exact Hs1 |].
      constructor.
    - apply wp_bind, wp_say; [apply wfr_init |]. intros s1 Hs1 _.
      apply wp_bind, wp_say; [apply wfr_init |]. intros s2 Hs2 _.
      apply wp_say; [apply wfr_init |]. intros s3 Hs3 _.
      split_and!; [| done | done]. simpl.
      apply Forall_cons_2; [exact Hs0 |]. apply Forall_cons_2; [exact Hs1 |].
      apply Forall_cons_2; [exact Hs2 |]. apply Forall_cons_2; [exact Hs3 |].
      constructor. }
  apply wp_Ok in Hwp as (u & st & Hrun & Hshows & Hstore & Hlen).
  exists {| t_store := r_store st; t_steps := r_steps st |}.
  unfold NoveltySorts.miracleSort, run_algorithm. rewrite Hrun.
  split_and!; [done | | done]. simpl. rewrite Hstore.
  eapply Forall_impl; [exact Hshows |]. intros s [Hv Hi]. simpl in Hv, Hi.
  rewrite Hv, Hi, vals_init, ids_init. done.
Qed.
(** ** The bubble sort of the template *)

Lemma ia_holds_length l this : ia_holds l this → IA.length this = Z.of_nat (length l).
Proof.
  intros [Hwf Hl]. rewrite getValues_Ok in Hl by done. injection Hl as <-.
  unfold IA.length. by rewrite length_fmap.
Qed.

Lemma ia_holds_lookup l this k v :
  ia_holds l this → at_index l k = Some v →
  ∃ el, elem_at (ia_store this) (ia_array this) k = Ok el ∧ value el = v.
Proof.
  intros [Hwf Hl] Hv. rewrite getValues_Ok in Hl by done. injection Hl as <-.
  pose proof (at_index_lt_length _ _ _ Hv) as Hk. rewrite length_fmap in Hk.
  destruct (elem_at_valid _ _ k Hwf Hk) as [el Hel]. exists el. split; [done |].
  apply elem_at_Ok in Hel as (a & Ha & Hel).
  apply at_index_Some in Hv as [_ Hv]. apply at_index_Some in Ha as [_ Ha].
  rewrite list_lookup_fmap, Ha in Hv. simpl in Hv. rewrite Hel in Hv.
  by injection Hv.
Qed.

Lemma ia_compare_spec l this i j vi vj :
  ia_holds l this → at_index l i = Some vi → at_index l j = Some vj →
  ∃ this', IA.compare i j this = Ok (vi - vj, this') ∧ ia_holds l this'.
Proof.
  intros Hh Hi Hj. pose proof (ia_holds_length _ _ Hh) as Hlen.
  pose proof (at_index_lt_length _ _ _ Hi). pose proof (at_index_lt_length _ _ _ Hj).
  destruct (ia_holds_lookup _ _ _ _ Hh Hi) as (ei & Hei & <-).
  destruct (ia_holds_lookup _ _ _ _ Hh Hj) as (ej & Hej & <-).
  destruct Hh as [Hwf Hl].
  destruct (compare_Ok i j this Hwf ltac:(lia) ltac:(lia))
    as (ei' & ej' & sl & Hei' & Hej' & _ & Hc).
  assert (ei' = ei) as -> by congruence. assert (ej' = ej) as -> by congruence.
  eexists. split; [exact Hc |]. by split.
Qed.

Lemma ia_swap_spec l this i j :
  ia_holds l this → 0 ≤ i < Z.of_nat (length l) → 0 ≤ j < Z.of_nat (length l) →
  i ≠ j →
  ∃ this', IA.swap i j this = Ok this' ∧ ia_holds (swap_at i j l) this'.
Proof.
  intros Hh Hi Hj Hij. pose proof (ia_holds_length _ _ Hh) as Hlen.
  destruct Hh as [Hwf Hl].
  destruct (swap_Ok i j this Hwf ltac:(lia) ltac:(lia) Hij)
    as (ei & ej & sl & _ & _ & _ & Hsw).
  eexists. split; [exact Hsw |].
  assert (Hwf' : wf (IA.addStep (Some (swapped_description i j (value ej) (value ei)))
            (IA.with_array (swap_at i j (ia_array this))
               (IA.push (swap_step i j sl (value ei) (value ej)
                           (ia_stepDescription this)) this)))).
  { unfold wf, valid_refs. simpl. by apply swap_at_Forall. }
  split; [done |]. rewrite getValues_Ok in Hl |- * by done.
  injection Hl as <-. simpl. by rewrite fmap_swap_at.
Qed.

Lemma ia_markSorted_spec l this index :
  ia_holds l this → 0 ≤ index < Z.of_nat (length l) →
  ∃ this', IA.markSorted index this = Ok this' ∧ ia_holds l this'.
Proof.
  intros Hh Hi. pose proof (ia_holds_length _ _ Hh) as Hlen.
  destruct Hh as [Hwf Hl].
  destruct (markSorted_Ok index this Hwf ltac:(lia)) as (a & el & Ha & Hel & Hm).
  eexists. split; [exact Hm |].
  assert (Hwf' : wf (IA.with_store (<[a := with_state st_sorted el]> (ia_store this)) this))
    by (by apply wf_with_store_insert).
  split; [done |].
  rewrite getValues_Ok in Hl |- * by done. injection Hl as <-. simpl. f_equal.
  apply list_fmap_ext. intros k b Hb.
  by rewrite (same_but_state_value _ _ b (same_but_state_insert _ _ _ Hel)).
Qed.

Lemma reorders_split_at lo hi l l' k :
  reorders lo hi l l' → 0 ≤ lo → hi ≤ k → k ≤ Z.of_nat (length l) →
  split_at l k → split_at l' k.
Proof.
  intros Hre Hlo Hhi Hk Hs. induction Hre as [|l' i j Hre IH Hi Hj]; [done |].
  apply split_at_swap; [lia | lia | | done].
  by rewrite (reorders_length _ _ _ _ Hre).
Qed.

(** One pass moves the greatest of the first elements behind them. *)
Lemma inner_loop_spec (m : nat) : ∀ j l this,
  ia_holds l this → 0 ≤ j → j + Z.of_nat m < Z.of_nat (length l) →
  (∀ a x y, 0 ≤ a < j → at_index l a = Some x → at_index l j = Some y → x ≤ y) →
  ∃ l' this', Template.inner_loop m j this = Ok this' ∧ ia_holds l' this' ∧
    reorders 0 (j + Z.of_nat m + 1) l l' ∧
    ∀ a x y, 0 ≤ a < j + Z.of_nat m → at_index l' a = Some x →
      at_index l' (j + Z.of_nat m) = Some y → x ≤ y.
Proof.
  induction m as [|m IH]; intros j l this Hh Hj Hm Hmax.
  - exists l, this. split; [done |]. split; [done |]. split; [constructor |].
    replace (j + Z.of_nat 0) with j by lia. done.
  - cbn [Template.inner_loop].
    destruct (at_index_is_Some l j ltac:(lia)) as [vj Hvj].
    destruct (at_index_is_Some l (j + 1) ltac:(lia)) as [vj1 Hvj1].
    destruct (ia_compare_spec _ _ _ _ _ _ Hh Hvj Hvj1) as (this1 & Hc & Hh1).
    rewrite Hc. cbn. destruct (Z.gtb_spec (vj - vj1) 0) as [Hgt|Hle].
    + destruct (ia_swap_spec _ _ j (j + 1) Hh1 ltac:(lia) ltac:(lia) ltac:(lia))
        as (this2 & Hsw & Hh2).
      rewrite Hsw. cbn.
      destruct (IH (j + 1) (swap_at j (j + 1) l) this2 Hh2 ltac:(lia))
        as (l' & this' & Hrun & Hh' & Hre & Hmax').
      { rewrite swap_at_length. lia. }
      { intros a x y Ha. rewrite !at_index_swap_at by lia.
        repeat case_decide; subst; try lia; intros Hx Hy; simplify_eq; [lia |].
        eapply (Hmax a); [lia | done..]. }
      exists l', this'. split; [done |]. split; [done |].
      replace (j + Z.of_nat (S m)) with (j + 1 + Z.of_nat m) by lia.
      split; [| done].
      apply (reorders_trans _ _ _ (swap_at j (j + 1) l));
        [apply reorders_one; lia | done].
    + destruct (IH (j + 1) l this1 Hh1 ltac:(lia) ltac:(lia))
        as (l' & this' & Hrun & Hh' & Hre & Hmax').
      { intros a x y Ha Hx Hy. simplify_eq.
        destruct (decide (a = j)) as [->|]; [simplify_eq; lia |].
        etrans; [eapply (Hmax a); [lia | done..] | lia]. }
      exists l', this'. split; [done |]. split; [done |].
      replace (j + Z.of_nat (S m)) with (j + 1 + Z.of_nat m) by lia. done.
Qed.

Lemma outer_loop_spec (m : nat) : ∀ n i l this,
  ia_holds l this → Z.of_nat (length l) = n → 0 ≤ i → i + Z.of_nat m = n - 1 →
  split_at l (n - i) → sorted_between l (n - i) n →
  ∃ l' this', Template.outer_loop m n i this = Ok this' ∧ ia_holds l' this' ∧
    l' ≡ₚ l ∧ split_at l' 1 ∧ sorted_between l' 1 n.
Proof.
  induction m as [|m IH]; intros n i l this Hh Hn Hi Hm Hsplit Hsorted.
  - exists l, this. replace (n - i) with 1 in * by lia. by split_and!.
  - cbn [Template.outer_loop].
    destruct (inner_loop_spec (Z.to_nat (n - i - 1)) 0 l this Hh ltac:(lia) ltac:(lia))
      as (l1 & this1 & Hrun & Hh1 & Hre & Hmax); [intros; lia |].
    rewrite Hrun. cbn.
    replace (0 + Z.of_nat (Z.to_nat (n - i - 1))) with (n - i - 1) in * by lia.
    replace (n - i - 1 + 1) with (n - i) in Hre by lia.
    pose proof (reorders_length _ _ _ _ Hre) as Hlen1.
    destruct (ia_markSorted_spec l1 this1 (n - 1 - i) Hh1 ltac:(lia))
      as (this2 & Hmark & Hh2).
    rewrite Hmark. cbn.
    assert (Hsplit1 : split_at l1 (n - i))
      by (eapply reorders_split_at; [exact Hre | lia..| done]).
    assert (Hsorted1 : sorted_between l1 (n - i) n)
      by (eapply reorders_sorted_outside; [exact Hre | right; lia | done]).
    destruct (IH n (i + 1) l1 this2 Hh2 ltac:(lia) ltac:(lia) ltac:(lia))
      as (l' & this' & Hrun' & Hh' & Hperm & Hs1 & Hs2).
    + intros a b x y Ha Hb Hx Hy.
      destruct (decide (b = n - i - 1)) as [->|].
      * eapply (Hmax a); [pose proof (at_index_lt_length _ _ _ Hx); lia | done..].
      * eapply (Hsplit1 a b); [lia | lia | done..].
    + intros a b x y Ha Hab Hb Hx Hy.
      destruct (decide (a = n - i - 1)) as [->|].
      * destruct (decide (b = n - i - 1)) as [->|]; [simplify_eq; lia |].
        eapply (Hsplit1 (n - i - 1) b); [lia | lia | done..].
      * eapply (Hsorted1 a b); [lia | lia | lia | done..].
    + exists l', this'. split; [done |]. split; [done |].
      split; [by rewrite Hperm, (reorders_Permutation _ _ _ _ Hre) | done].
Qed.

(** X25: run as it is on an instrumented array of a non-empty array, the
    example of the template returns, and [getValues()] is then the values of
    the array in ascending order; on the empty array it throws
    [Error("Index 0 out of bounds")], from its last [markSorted(0)]. *)
Theorem template_customSort_spec initialArray :
  (initialArray ≠ [] →
     ∃ this', Template.customSort (IA.new initialArray) = Ok this' ∧
       IA.getValues this' = Ok (sort_asc (value <$> initialArray))) ∧
  (initialArray = [] →
     Template.customSort (IA.new initialArray)
       = Throw (Error "Index 0 out of bounds")).
Proof.
  split; [| by intros ->]. intros Hne.
  set (this := IA.new initialArray). set (l0 := value <$> initialArray).
  assert (Hh : ia_holds l0 this).
  { split; [apply wf_new |]. rewrite getValues_Ok by apply wf_new.
    f_equal. unfold this, l0. simpl.
    apply list_eq. intros k. rewrite !list_lookup_fmap.
    destruct (initialArray !! k) as [el|] eqn:Hel; simpl.
    - rewrite (lookup_seq_lt _ _ _ (lookup_lt_Some _ _ _ Hel)). simpl.
      by rewrite list_lookup_fmap, Hel.
    - rewrite lookup_seq_ge; [done |]. by apply lookup_ge_None. }
  set (n := Z.of_nat (length l0)).
  assert (Hn : 0 < n).
  { unfold n, l0. rewrite length_fmap. destruct initialArray; [done | simpl; lia]. }
  unfold Template.customSort. rewrite (ia_holds_length _ _ Hh). fold n. cbv zeta.
  destruct (outer_loop_spec (Z.to_nat (n - 1)) n 0 l0 this Hh eq_refl ltac:(lia) ltac:(lia))
    as (l' & this' & Hrun & Hh' & Hperm & Hs1 & Hs2).
  { intros a b x y _ Hb _ Hy%at_index_lt_length. lia. }
  { apply sorted_between_empty. lia. }
  rewrite Hrun. cbn.
  destruct (ia_markSorted_spec l' this' 0 Hh') as (this'' & Hmark & Hh'').
  { rewrite (Permutation_length Hperm). lia. }
  rewrite Hmark. cbn. exists this''. split; [done |].
  destruct Hh'' as [_ ->]. f_equal.
  apply sorted_perm_sort_asc; [| done].
  rewrite (Permutation_length Hperm). fold n.
  replace 0 with (1 - 1) by lia. by apply sorted_between_grow_down.
Qed.

Lemma template_customSort_spec_witness :
  ∃ this', Template.customSort (IA.new sample_53) = Ok this' ∧
    IA.getValues this' = Ok (sort_asc (value <$> sample_53)).
Proof. apply (proj1 (template_customSort_spec sample_53)). done. Defined.
(** ** The steps the algorithms are made of *)

(** X26: [partition(low, high)] of quickSort returns a position [p] between
    [low] and [high]; it reorders the array between [low] and [high] only,
    and leaves smaller numbers before [p] and no smaller number behind it. *)
Theorem partition_splits low high l st :
  holds l st → 0 ≤ low → low < high → high < Z.of_nat (length l) →
  ∃ p st' l' vp,
    EfficientSorts.partition low high st = Ok (p, st') ∧ holds l' st' ∧
    low ≤ p ≤ high ∧ reorders low (high + 1) l l' ∧ at_index l' p = Some vp ∧
    all_between (λ x, x < vp) l' low p ∧
    all_between (λ x, vp ≤ x) l' (p + 1) (high + 1).
Proof.
  intros Hst Hlow Hlt Hhigh.
  assert (H : wp (EfficientSorts.partition low high) (λ p st', ∃ l' vp,
    holds l' st' ∧ low ≤ p ≤ high ∧ reorders low (high + 1) l l' ∧
    at_index l' p = Some vp ∧ all_between (λ x, x < vp) l' low p ∧
    all_between (λ x, vp ≤ x) l' (p + 1) (high + 1)) st).
  { eapply partition_spec; [done.. |].
    intros p vp l' st' Hst' Hre Hp Hvp Hbelow Habove. by exists l', vp. }
  apply wp_Ok in H as (p & st' & Hrun & l' & vp & H).
  exists p, st', l', vp. by split.
Qed.

Lemma partition_splits_witness :
  ∃ p st' l' vp,
    EfficientSorts.partition 0 1 (init sample_53) = Ok (p, st') ∧ holds l' st' ∧
    0 ≤ p ≤ 1 ∧ reorders 0 (1 + 1) [5; 3] l' ∧ at_index l' p = Some vp ∧
    all_between (λ x, x < vp) l' 0 p ∧
    all_between (λ x, vp ≤ x) l' (p + 1) (1 + 1).
Proof.
  apply (partition_splits 0 1 [5; 3] (init sample_53));
    [split; [compute_done | reflexivity] | lia | lia | simpl; lia].
Defined.

(** X27: [merge(left, mid, right)] of mergeSort replaces the two adjacent
    runs [left .. mid] and [mid + 1 .. right] by their merge, and leaves the
    rest of the array as it is; the merge of two ascending runs is
    ascending. *)
Theorem merge_merges left_ mid right_ pre L R post st :
  holds (pre ++ L ++ R ++ post) st →
  left_ = Z.of_nat (length pre) →
  mid + 1 - left_ = Z.of_nat (length L) →
  right_ - mid = Z.of_nat (length R) →
  ∃ st', EfficientSorts.merge left_ mid right_ st = Ok (tt, st') ∧
    holds (pre ++ list_merge Z.le L R ++ post) st' ∧
    list_merge Z.le L R ≡ₚ L ++ R ∧
    (Sorted Z.le L → Sorted Z.le R → Sorted Z.le (list_merge Z.le L R)).
Proof.
  intros Hst Hleft HL HR.
  assert (H : wp (EfficientSorts.merge left_ mid right_)
    (λ _ st', holds (pre ++ list_merge Z.le L R ++ post) st') st)
    by (by eapply merge_spec).
  apply wp_Ok in H as ([] & st' & Hrun & Hst').
  exists st'. split_and!; [done | done | apply merge_Permutation |].
  intros HsL HsR. by apply Sorted_list_merge; [apply _ | |].
Qed.

Lemma merge_merges_witness :
  ∃ st', EfficientSorts.merge 0 0 1 (init sample_53) = Ok (tt, st') ∧
    holds ([] ++ list_merge Z.le [5] [3] ++ []) st' ∧
    list_merge Z.le [5] [3] ≡ₚ [5] ++ [3] ∧
    (Sorted Z.le [5] → Sorted Z.le [3] → Sorted Z.le (list_merge Z.le [5] [3])).
Proof.
  apply (merge_merges 0 0 1 [] [5] [3] [] (init sample_53));
    [split; [compute_done | reflexivity] | reflexivity..].
Defined.



(** X29: [flip(k)] of pancakeSort reverses the first [k + 1] elements and
    leaves the others where they are. *)
Theorem flip_reverses k l st :
  holds l st → 0 ≤ k < Z.of_nat (length l) →
  ∃ st' l', NoveltySorts.flip k st = Ok (tt, st') ∧ holds l' st' ∧
    (∀ j, 0 ≤ j ≤ k → at_index l' j = at_index l (k - j)) ∧
    (∀ j, k < j → at_index l' j = at_index l j).
Proof.
  intros Hst Hk.
  assert (H : wp (NoveltySorts.flip k) (λ _ st', ∃ l',
    holds l' st' ∧ (∀ j, 0 ≤ j ≤ k → at_index l' j = at_index l (k - j)) ∧
    (∀ j, k < j → at_index l' j = at_index l j)) st).
  { eapply flip_spec; [done.. |]. intros l' st' Hst' Hre Hrev.
    exists l'. split_and!; [done | done |].
    intros j Hj. eapply reorders_outside; [exact Hre | lia]. }
  apply wp_Ok in H as ([] & st' & Hrun & l' & H).
  exists st', l'. by split.
Qed.

Lemma flip_reverses_witness :
  ∃ st' l', NoveltySorts.flip 1 (init sample_53) = Ok (tt, st') ∧ holds l' st' ∧
    (∀ j, 0 ≤ j ≤ 1 → at_index l' j = at_index [5; 3] (1 - j)) ∧
    (∀ j, 1 < j → at_index l' j = at_index [5; 3] j).
Proof.
  apply (flip_reverses 1 [5; 3] (init sample_53));
    [split; [compute_done | reflexivity] | simpl; lia].
Defined.


